(** * The grants model engine of accesscontrol ([lib/utils.js])

    A shallow embedding of the utility module that carries the grants
    table: name validation, normalisation of access statements and
    queries, role-hierarchy resolution, the rule committer, the query
    evaluator and the lock.

    Conventions of the embedding.
    - A JavaScript string is a [string] whose characters are code units
      below 256.
    - A JavaScript object used as a dictionary is a [gmap string _]; the
      order of its keys is not observable through the functions below.
      A lookup finds the keys written to the object and no other: the
      names that every object inherits ([constructor], [toString] and
      the like) are not names of roles or resources here. A statement
      that would fail on the engine for such a name says so in its
      hypotheses ([plainTable], [plainNames], [plainStatement]).
    - A number is an integer; [toString] prints all its digits, as the
      engine does for the integers a number holds exactly
      ([printedInFull]).
    - A recursive function whose recursion the table can drive takes a
      bound on its depth, and throws a [RangeError] when the bound is
      reached, as the engine does when its call stack is exhausted.
    - A dynamically typed argument is a [Value]; the items of an array
      are strings.
    - A function that can throw returns a [Result]; a function that also
      writes to the grants table is a state transformer [M] over [Store],
      so that the table left behind by a throwing call can be inspected.
    - [lib/utils.js] is an ES module, hence strict code: a write to a
      frozen object throws a [TypeError]. *)

From Stdlib Require Import Ascii String.
From stdpp Require Import base option list strings pretty gmap fin_maps relations.

Local Open Scope stdpp_scope.

(** ** Strings *)

(** [\s] of a regular expression and the characters removed by
    [String.prototype.trim], below code unit 256. *)
Definition isWhiteSpace (c : ascii) : bool :=
  let n := nat_of_ascii c in
  ((9 <=? n) && (n <=? 13)) || (n =? 32) || (n =? 160).

Fixpoint trimStart (s : string) : string :=
  match s with
  | String c s' => if isWhiteSpace c then trimStart s' else s
  | EmptyString => EmptyString
  end.

Definition trimEnd (s : string) : string :=
  String.rev (trimStart (String.rev s)).

Definition trim (s : string) : string := trimEnd (trimStart s).

Definition lowerChar (c : ascii) : ascii :=
  let n := nat_of_ascii c in
  if ((65 <=? n) && (n <=? 90))
     || ((192 <=? n) && (n <=? 222) && negb (n =? 215))
  then ascii_of_nat (n + 32) else c.

Fixpoint toLowerCase (s : string) : string :=
  match s with
  | String c s' => String (lowerChar c) (toLowerCase s')
  | EmptyString => EmptyString
  end.

(** [s.split(sep)] for a one-character separator. *)
Fixpoint splitChar_go (sep : ascii) (cur : string) (s : string) : list string :=
  match s with
  | EmptyString => [String.rev cur]
  | String c s' =>
      if Ascii.eqb c sep then String.rev cur :: splitChar_go sep "" s'
      else splitChar_go sep (String c cur) s'
  end.

Definition splitChar (sep : ascii) (s : string) : list string :=
  splitChar_go sep "" s.

(** [s.split(/\s*[;,]\s*/)]. [matchSep s] is the length of the match of the
    regular expression at the start of [s]: a maximal run of white space,
    one of [;] and [,], and again a maximal run of white space. *)
Definition isListSep (c : ascii) : bool :=
  Ascii.eqb c ";"%char || Ascii.eqb c ","%char.

Fixpoint spanWs (s : string) : nat * string :=
  match s with
  | String c s' =>
      if isWhiteSpace c then let '(n, r) := spanWs s' in (S n, r) else (0, s)
  | EmptyString => (0, EmptyString)
  end.

Definition matchSep (s : string) : option nat :=
  let '(n1, r1) := spanWs s in
  match r1 with
  | String c r2 =>
      if isListSep c then Some (n1 + 1 + fst (spanWs r2)) else None
  | EmptyString => None
  end.

(** The scan of [split]: [cur] is the piece being read (reversed) and
    [skip] the number of characters of the last match still to pass. *)
Fixpoint splitSep_go (skip : nat) (cur : string) (s : string) : list string :=
  match s with
  | EmptyString => [String.rev cur]
  | String c s' =>
      match skip with
      | S k => splitSep_go k cur s'
      | O =>
          match matchSep s with
          | Some n => String.rev cur :: splitSep_go (Nat.pred n) "" s'
          | None => splitSep_go 0 (String c cur) s'
          end
      end
  end.

Definition splitSep (s : string) : list string := splitSep_go 0 "" s.

(** ** Dynamically typed values *)

Inductive Value : Type :=
  | VUndefined
  | VNull
  | VBool (b : bool)
  | VNum (n : Z)
  | VStr (s : string)
  | VArr (l : list string)
  | VObject.

Definition truthy (v : Value) : bool :=
  match v with
  | VUndefined | VNull => false
  | VBool b => b
  | VNum n => negb (n =? 0)%Z
  | VStr s => negb (String.eqb s "")
  | VArr _ | VObject => true
  end.

(** ** Errors *)

(** One constructor per message of [lib/utils.js]. [Locked] is the message
    [ERR_LOCK]: the module exports it and throws it nowhere. *)
Inductive ACError : Type :=
  | InvalidName
  | ReservedName (name : string)
  | InvalidAction
  | InvalidPossession
  | InvalidIQueryInfo
  | InvalidIAccessInfo
  | InvalidRoles
  | InvalidResource
  | InvalidResources
  | RoleNotFound (roleName : string)
  | SelfExtension (roleName : string)
  | CrossInheritance (extender roleName : string)
  | InvalidExtenders
  | NonExistentExtenders (names : list string)
  | EmptyOrInvalidGrants
  | LockFailed
  | Locked.

Inductive Exn : Type :=
  | AccessControlError (e : ACError)
  | TypeError
  | RangeError.

Inductive Result (A : Type) : Type :=
  | Ok (a : A)
  | Throw (e : Exn).
Arguments Ok {A} a.
Arguments Throw {A} e.

Definition raise {A} (e : ACError) : Result A := Throw (AccessControlError e).

#[global] Instance Result_ret : MRet Result := @Ok.
#[global] Instance Result_bind : MBind Result :=
  λ A B f m, match m with Ok a => f a | Throw e => Throw e end.

(** [arr.forEach] with a callback that updates a local accumulator and
    may throw. *)
Fixpoint foldM {A B} (f : B → A → Result B) (b : B) (l : list A) : Result B :=
  match l with
  | [] => Ok b
  | x :: l' => b' ← f b x; foldM f b' l'
  end.

(** ** Generic utilities *)

Definition toStringArray (value : Value) : list string :=
  match value with
  | VArr l => l
  | VStr s => splitSep (trim s)
  | _ => []
  end.

Definition isFilledStringArray (arr : list string) : bool :=
  forallb (λ s, negb (String.eqb (trim s) "")) arr.

Definition isEmptyArray (value : Value) : bool :=
  match value with VArr [] => true | _ => false end.

Definition indexOf (arr : list string) (item : string) : bool :=
  bool_decide (item ∈ arr).

Definition pushUniq (arr : list string) (item : string) : list string :=
  if indexOf arr item then arr else arr ++ [item].

Definition uniqConcat (arrA arrB : list string) : list string :=
  foldl pushUniq arrA arrB.

(** [String(v)], as used when a value is concatenated to a string or used
    as a property key. *)
Definition toString (v : Value) : string :=
  match v with
  | VUndefined => "undefined"
  | VNull => "null"
  | VBool true => "true"
  | VBool false => "false"
  | VNum n => pretty n
  | VStr s => s
  | VArr l => String.concat "," l
  | VObject => "[object Object]"
  end.

(** An argument that is expected to be a plain object ([utils.type(o)]). *)
Inductive Arg (T : Type) : Type :=
  | AnObject (o : T)
  | NotAnObject.
Arguments AnObject {T} o.
Arguments NotAnObject {T}.

(** ** Enumerations *)

(** The values of [enum Action] ([src/enums/Action.ts]). *)
Definition actions : list string := ["create"; "read"; "update"; "delete"].

(** Modelled from the spec: the module [enums/index.js] that defines
    [possessions] and [Possession.ANY] is not part of the sources at hand;
    the data model gives possession the two values "own" and "any", with
    "any" the default. *)
Definition possessions : list string := ["own"; "any"].
Definition Possession_ANY : string := "any".

Definition RESERVED_KEYWORDS : list string := ["*"; "!"; "$"; "$extend"].

(** ** The grants table *)

(** A resource entry maps an ["action:possession"] key to an attribute
    list. A role entry is an object whose key [$extend] holds the list of
    inherited roles and whose other keys hold resource entries. *)
Record RoleEntry : Type := mkRole {
  extend : option (list string);
  resources : gmap string (gmap string (list string))
}.

Definition emptyRole : RoleEntry := mkRole None ∅.

(** What [role[key]] evaluates to. *)
Inductive RoleProp : Type :=
  | ExtendList (l : list string)
  | ResourceEntry (r : gmap string (list string)).

Definition roleProp (role : RoleEntry) (key : string) : option RoleProp :=
  if String.eqb key "$extend" then ExtendList <$> extend role
  else ResourceEntry <$> resources role !! key.

(** The table together with its frozen state. [deepFreeze] freezes the
    table and every object and array below it at once, and nothing else
    here freezes anything, so one flag stands for all of them. *)
Record Store : Type := mkStore {
  grants : gmap string RoleEntry;
  frozen : bool
}.

(** ** State and exceptions *)

(** A computation that reads and writes a state [S] and may throw; the
    state in which it throws is kept. *)
Definition ST (S A : Type) : Type := S → Result A * S.

#[global] Instance ST_ret {S} : MRet (ST S) := λ A a st, (Ok a, st).
#[global] Instance ST_bind {S} : MBind (ST S) :=
  λ A B f m st,
    match m st with
    | (Ok a, st') => f a st'
    | (Throw e, st') => (Throw e, st')
    end.

Definition liftR {S A} (r : Result A) : ST S A := λ st, (r, st).
Definition throwM {S A} (e : Exn) : ST S A := λ st, (Throw e, st).

Fixpoint forEachM {S A} (f : A → ST S unit) (l : list A) : ST S unit :=
  match l with
  | [] => mret ()
  | x :: l' => _ ← f x; forEachM f l'
  end.

Fixpoint foldST {S A B} (f : B → A → ST S B) (b : B) (l : list A) : ST S B :=
  match l with
  | [] => mret b
  | x :: l' => b' ← f b x; foldST f b' l'
  end.

Definition execM {S A} (m : ST S A) (st : S) : S := snd (m st).
Definition evalM {S A} (m : ST S A) (st : S) : Result A := fst (m st).

(** Computations over the grants table. *)
Abbreviation M := (ST Store).

Definition getGrants : M (gmap string RoleEntry) := λ st, (Ok (grants st), st).

(** A write under the grants table: refused with a [TypeError] once the
    table is frozen. *)
Definition write (f : gmap string RoleEntry → gmap string RoleEntry) : M unit :=
  λ st,
    if frozen st then (Throw TypeError, st)
    else (Ok (), mkStore (f (grants st)) (frozen st)).

(** ** Validation *)

Definition validName (name : string) (throwOnInvalid : bool) : Result bool :=
  if String.eqb (trim name) "" then
    if negb throwOnInvalid then Ok false else raise InvalidName
  else if indexOf RESERVED_KEYWORDS name then
    if negb throwOnInvalid then Ok false else raise (ReservedName name)
  else Ok true.

(** ** Normalisation *)

(** [info.action] and [info.possession] after normalisation. *)
Definition normalizeActionPossession (action possession : Value)
  : Result (string * string) :=
  match action with
  | VStr a =>
      let s := splitChar ":" a in
      let s0 := default "" (s !! 0) in
      if negb (indexOf actions (toLowerCase (trim s0))) then raise InvalidAction
      else
        let action' := toLowerCase (trim s0) in
        let poss :=
          if truthy possession then possession
          else from_option VStr VUndefined (s !! 1) in
        if truthy poss then
          match poss with
          | VStr p =>
              if negb (indexOf possessions (toLowerCase (trim p)))
              then raise InvalidPossession
              else Ok (action', toLowerCase (trim p))
          | _ => Throw TypeError
          end
        else Ok (action', Possession_ANY)
  | _ => raise InvalidAction
  end.

Record IQueryInfo : Type := mkQuery {
  q_role : Value;
  q_resource : Value;
  q_action : Value;
  q_possession : Value
}.

(** The query object returned by [normalizeQueryInfo]. *)
Record QueryInfo : Type := mkNQuery {
  nq_role : list string;
  nq_resource : string;
  nq_action : string;
  nq_possession : string
}.

Definition normalizeQueryInfo (query : Arg IQueryInfo) : Result QueryInfo :=
  match query with
  | NotAnObject => raise InvalidIQueryInfo
  | AnObject query =>
      let role := toStringArray (q_role query) in
      if negb (isFilledStringArray role) then raise InvalidRoles
      else
        match q_resource query with
        | VStr r =>
            if String.eqb (trim r) "" then raise InvalidResource
            else
              let resource := trim r in
              '(action, possession) ←
                normalizeActionPossession (q_action query) (q_possession query);
              Ok (mkNQuery role resource action possession)
        | _ => raise InvalidResource
        end
  end.

Record IAccessInfo : Type := mkAccess {
  a_role : Value;
  a_resource : Value;
  a_action : Value;
  a_possession : Value;
  a_attributes : Value;
  a_denied : Value
}.

(** The access object returned by [normalizeAccessInfo]; [action] and
    [possession] are the caller's values unless [all] is set. *)
Record AccessInfo : Type := mkNAccess {
  na_role : list string;
  na_resource : list string;
  na_action : Value;
  na_possession : Value;
  na_attributes : list string
}.

Definition normalizeAccessInfo (access : Arg IAccessInfo) (all : bool)
  : Result AccessInfo :=
  match access with
  | NotAnObject => raise InvalidIAccessInfo
  | AnObject access =>
      let role := toStringArray (a_role access) in
      if (length role =? 0) || negb (isFilledStringArray role)
      then raise InvalidRoles
      else
        let resource := toStringArray (a_resource access) in
        if (length resource =? 0) || negb (isFilledStringArray resource)
        then raise InvalidResources
        else
          let attributes :=
            if truthy (a_denied access) || isEmptyArray (a_attributes access)
            then []
            else if negb (truthy (a_attributes access)) then ["*"]
            else toStringArray (a_attributes access) in
          if all then
            '(action, possession) ←
              normalizeActionPossession (a_action access) (a_possession access);
            Ok (mkNAccess role resource (VStr action) (VStr possession) attributes)
          else
            Ok (mkNAccess role resource (a_action access) (a_possession access)
                  attributes)
  end.

(** ** Role hierarchy *)

(** Truthiness of a string that may be [undefined]. *)
Definition strTruthy (o : option string) : bool :=
  match o with
  | Some s => negb (String.eqb s "")
  | None => false
  end.

Definition hasRole (grants : gmap string RoleEntry) (roleName : string) : bool :=
  bool_decide (is_Some (grants !! roleName)).

(** The callback of the loop over [role.$extend] in [getRoleHierarchyOf];
    [recurse] is the recursive call. *)
Definition hierarchyStep (recurse : string → option string → Result (list string))
    (grants : gmap string RoleEntry) (roleName : string)
    (_rootRole : option string) (arr : list string) (exRoleName : string)
  : Result (list string) :=
  if negb (hasRole grants exRoleName) then
    raise (RoleNotFound (toString VUndefined))
  else if String.eqb exRoleName roleName then
    raise (SelfExtension roleName)
  else if strTruthy _rootRole && bool_decide (_rootRole = Some exRoleName) then
    raise (CrossInheritance exRoleName exRoleName)
  else
    ext ← recurse exRoleName (if strTruthy _rootRole then _rootRole else Some roleName);
    Ok (uniqConcat arr ext).

(** [getRoleHierarchyOf] under a bound on the depth of its recursion:
    [hierarchyAt depth] allows [depth] nested calls and throws a
    [RangeError], as the engine does when its call stack is exhausted,
    where one more would be needed. *)
Fixpoint hierarchyAt (depth : nat) (grants : gmap string RoleEntry)
    (roleName : string) (_rootRole : option string) : Result (list string) :=
  match depth with
  | O => Throw RangeError
  | S depth' =>
      match grants !! roleName with
      | None => raise (RoleNotFound roleName)
      | Some role =>
          let arr := [roleName] in
          match extend role with
          | None | Some [] => Ok arr
          | Some ext =>
              foldM (hierarchyStep (hierarchyAt depth' grants) grants roleName
                       _rootRole) arr ext
          end
      end
  end.

(** The depth allowed is one more than the number of roles; on a table
    without inheritance cycles the recursion never gets that deep (see
    [hierarchyAt_depth]), and more depth does not change a result
    that is not a [RangeError] (see [hierarchyAt_mono]). *)
Definition getRoleHierarchyOf (grants : gmap string RoleEntry)
    (roleName : string) (_rootRole : option string) : Result (list string) :=
  hierarchyAt (S (size grants)) grants roleName _rootRole.

Definition getFlatRoles (grants : gmap string RoleEntry) (roles : Value)
  : Result (list string) :=
  let arrRoles := toStringArray (if truthy roles then roles else VArr []) in
  if length arrRoles =? 0 then raise InvalidRoles
  else
    foldM (λ arr roleName,
      h ← getRoleHierarchyOf grants roleName None;
      Ok (uniqConcat arr h)) (uniqConcat [] arrRoles) arrRoles.

Definition getNonExistentRoles (grants : gmap string RoleEntry)
    (roles : list string) : list string :=
  filter (λ role, ¬ is_Some (grants !! role)) roles.

(** The loop of [getCrossExtendingRole]; [crossInherited] is [false]
    ([None]) or the extender found. *)
Fixpoint crossLoop (grants : gmap string RoleEntry) (roleName : string)
    (extenders : list string) (crossInherited : option string)
  : Result (option string) :=
  match extenders with
  | [] => Ok crossInherited
  | e :: rest =>
      if strTruthy crossInherited || String.eqb roleName e then Ok crossInherited
      else
        inheritedByExtender ← getRoleHierarchyOf grants e None;
        crossLoop grants roleName rest
          (if indexOf inheritedByExtender roleName then Some e
           else crossInherited)
  end.

Definition getCrossExtendingRole (grants : gmap string RoleEntry)
    (roleName : string) (extenderRoles : Value) : Result (option string) :=
  crossLoop grants roleName (toStringArray extenderRoles) None.

(** The body of the loop of [extendRole] for one role. *)
Definition extendOne (arrExtRoles : list string) (roleName : string) : M unit :=
  grants ← getGrants;
  match grants !! roleName with
  | None => throwM (AccessControlError (RoleNotFound roleName))
  | Some r =>
      if indexOf arrExtRoles roleName then
        throwM (AccessControlError (SelfExtension roleName))
      else
        crossInherited ←
          liftR (getCrossExtendingRole grants roleName (VArr arrExtRoles));
        if strTruthy crossInherited then
          throwM (AccessControlError
                    (CrossInheritance (default "" crossInherited) roleName))
        else
          _ ← liftR (validName roleName true);
          match extend r with
          | Some old =>
              write (<[roleName :=
                        mkRole (Some (uniqConcat old arrExtRoles)) (resources r)]>)
          | None =>
              write (<[roleName := mkRole (Some arrExtRoles) (resources r)]>)
          end
  end.

Definition extendRole (roles extenderRoles : Value) : M unit :=
  let roles := toStringArray roles in
  if length roles =? 0 then throwM (AccessControlError InvalidRoles)
  else if isEmptyArray extenderRoles then mret ()
  else
    let arrExtRoles := toStringArray extenderRoles in
    if length arrExtRoles =? 0 then throwM (AccessControlError InvalidExtenders)
    else
      grants ← getGrants;
      let nonExistentExtRoles := getNonExistentRoles grants arrExtRoles in
      if 0 <? length nonExistentExtRoles then
        throwM (AccessControlError (NonExistentExtenders nonExistentExtRoles))
      else forEachM (extendOne arrExtRoles) roles.

(** ** The rule committer *)

(** [grantItem[res] = {}] and [grantItem[res][ap] = attrs], where
    [grantItem] is [grants[role]]. Reading a key of [undefined] is a
    [TypeError]. *)
Definition createResource (role res : string) : M unit :=
  grants ← getGrants;
  match grants !! role with
  | None => throwM TypeError
  | Some grantItem =>
      write (<[role := mkRole (extend grantItem)
                         (<[res := ∅]> (resources grantItem))]>)
  end.

Definition setAttributes (role res ap : string) (attrs : list string) : M unit :=
  grants ← getGrants;
  match grants !! role with
  | None => throwM TypeError
  | Some grantItem =>
      match resources grantItem !! res with
      | None => throwM TypeError
      | Some resourceEntry =>
          write (<[role := mkRole (extend grantItem)
                             (<[res := <[ap := attrs]> resourceEntry]>
                                (resources grantItem))]>)
      end
  end.

Definition hasResource (grants : gmap string RoleEntry) (role res : string) : bool :=
  match grants !! role with
  | Some grantItem => bool_decide (is_Some (resources grantItem !! res))
  | None => false
  end.

(** The inner loop body of [commitToGrants]. *)
Definition commitResource (role ap : string) (attrs : list string)
    (res : string) : M unit :=
  valid ← liftR (validName res true);
  grants ← getGrants;
  _ ← (if valid && negb (hasResource grants role res)
       then createResource role res else mret ());
  setAttributes role res ap attrs.

(** The outer loop body of [commitToGrants]. *)
Definition commitRole (accessInfo : AccessInfo) (role : string) : M unit :=
  valid ← liftR (validName role true);
  grants ← getGrants;
  _ ← (if valid && negb (hasRole grants role)
       then write (<[role := emptyRole]>) else mret ());
  let ap := toString (na_action accessInfo) +:+ ":"
            +:+ toString (na_possession accessInfo) in
  forEachM (commitResource role ap (na_attributes accessInfo))
    (na_resource accessInfo).

Definition commitToGrants (access : Arg IAccessInfo) (normalizeAll : bool)
  : M unit :=
  accessInfo ← liftR (normalizeAccessInfo access normalizeAll);
  forEachM (commitRole accessInfo) (na_role accessInfo).

(** ** The lock *)

Record AccessControl : Type := mkAC {
  _grants : option Store;
  _isLocked : bool
}.

(** [deepFreeze(o)] is [undefined] unless [o] is a plain object. *)
Definition deepFreeze (o : Store) : option Store :=
  Some (mkStore (grants o) true).

(** [isLocked] is the accessor [ac.isLocked] of the instance passed in. *)
Definition lockAC (isLocked : AccessControl → bool) (ac : AccessControl)
  : Result AccessControl :=
  match _grants ac with
  | None => raise EmptyOrInvalidGrants
  | Some g =>
      if size (grants g) =? 0 then raise EmptyOrInvalidGrants
      else
        let locked := isLocked ac && frozen g in
        let '(locked, g') :=
          if negb locked then
            match deepFreeze g with
            | Some g' => (true, g')
            | None => (false, g)
            end
          else (locked, g) in
        if negb locked then raise LockFailed
        else Ok (mkAC (Some g') locked)
  end.

(** ** The query evaluator *)

Section Evaluator.

(** [Notation.Glob.union], the union of two lists of glob patterns, is
    supplied by the [notation] package. *)
Variable union : list string → list string → list string.

(** [(resource[action:possession] || resource[action:any] || []).concat()] *)
Definition attrsOf (resource : RoleProp) (query : QueryInfo) : list string :=
  match resource with
  | ResourceEntry r =>
      match r !! (nq_action query +:+ ":" +:+ nq_possession query) with
      | Some attrs => attrs
      | None =>
          match r !! (nq_action query +:+ ":any") with
          | Some attrs => attrs
          | None => []
          end
      end
  | ExtendList _ => []
  end.

(** The body of the loop over the flattened roles. *)
Definition pushAttrs (grants : gmap string RoleEntry) (query : QueryInfo)
    (attrsList : list (list string)) (roleName : string)
  : Result (list (list string)) :=
  match grants !! roleName with
  | None => Throw TypeError
  | Some role =>
      if negb (String.eqb (nq_resource query) "") then
        match roleProp role (nq_resource query) with
        | None => Throw TypeError
        | Some resource => Ok (attrsList ++ [attrsOf resource query])
        end
      else Ok attrsList
  end.

Definition unionAll (attrsList : list (list string)) : list string :=
  match attrsList with
  | [] => []
  | attrs :: rest => foldl union attrs rest
  end.

Definition getUnionAttrsOfRoles (grants : gmap string RoleEntry)
    (query : Arg IQueryInfo) : Result (list string) :=
  query ← normalizeQueryInfo query;
  roles ← getFlatRoles grants (VArr (nq_role query));
  attrsList ← foldM (pushAttrs grants query) [] roles;
  Ok (unionAll attrsList).

End Evaluator.

(** ** The query evaluator with object identity

    The evaluator above computes with values. To state what a query does
    to the objects it is handed, the same functions are given here over a
    heap: arrays and query objects live at addresses, [concat] and array
    literals allocate, [push] and property assignment write in place, and
    an array held by two objects is one address. The table is a tree of
    dictionaries whose leaves are addresses of arrays; no function on the
    query path assigns to a property of the table. *)
Module Heap.

Abbreviation addr := nat.

Inductive HValue : Type :=
  | HUndefined
  | HNull
  | HBool (b : bool)
  | HNum (n : Z)
  | HStr (s : string)
  | HArr (a : addr)
  | HObject.

Definition truthy (v : HValue) : bool :=
  match v with
  | HUndefined | HNull => false
  | HBool b => b
  | HNum n => negb (n =? 0)%Z
  | HStr s => negb (String.eqb s "")
  | HArr _ | HObject => true
  end.

Record QueryObj : Type := mkObj {
  role : HValue;
  resource : HValue;
  action : HValue;
  possession : HValue
}.

Record Heap : Type := mkHeap {
  arrays : list (list string);
  objects : list QueryObj
}.

Definition allocArray (l : list string) : ST Heap addr :=
  λ h, (Ok (length (arrays h)), mkHeap (arrays h ++ [l]) (objects h)).

Definition readArray (a : addr) : ST Heap (list string) :=
  λ h, match arrays h !! a with
       | Some l => (Ok l, h)
       | None => (Throw TypeError, h)
       end.

(** [arr.push(item)] *)
Definition push (a : addr) (item : string) : ST Heap unit :=
  λ h, match arrays h !! a with
       | Some l => (Ok (), mkHeap (<[a := l ++ [item]]> (arrays h)) (objects h))
       | None => (Throw TypeError, h)
       end.

Definition allocObject (o : QueryObj) : ST Heap addr :=
  λ h, (Ok (length (objects h)), mkHeap (arrays h) (objects h ++ [o])).

Definition readObject (a : addr) : ST Heap QueryObj :=
  λ h, match objects h !! a with
       | Some o => (Ok o, h)
       | None => (Throw TypeError, h)
       end.

(** An assignment to a property of the object at [a]. *)
Definition writeObject (a : addr) (f : QueryObj → QueryObj) : ST Heap unit :=
  λ h, match objects h !! a with
       | Some o => (Ok (), mkHeap (arrays h) (<[a := f o]> (objects h)))
       | None => (Throw TypeError, h)
       end.

Definition toStringArray (value : HValue) : ST Heap addr :=
  match value with
  | HArr a => mret a
  | HStr s => allocArray (splitSep (trim s))
  | _ => allocArray []
  end.

Definition isFilledStringArray (arr : addr) : ST Heap bool :=
  l ← readArray arr; mret (isFilledStringArray l).

Definition pushUniq (arr : addr) (item : string) : ST Heap addr :=
  l ← readArray arr;
  if indexOf l item then mret arr else (_ ← push arr item; mret arr).

(** [arr.concat()] *)
Definition concat (a : addr) : ST Heap addr :=
  l ← readArray a; allocArray l.

Definition uniqConcat (arrA arrB : addr) : ST Heap addr :=
  arr ← concat arrA;
  items ← readArray arrB;
  _ ← forEachM (λ b, _ ← pushUniq arr b; mret ()) items;
  mret arr.

(** The fields of a normalised query object: [role] is an array and the
    others are strings. *)
Record QueryInfo : Type := mkNQuery {
  nq_role : addr;
  nq_resource : string;
  nq_action : string;
  nq_possession : string
}.

(** Works on the object at [info] and returns the two strings it has
    stored in [info.action] and [info.possession]. *)
Definition normalizeActionPossession (info : addr) : ST Heap (string * string) :=
  o ← readObject info;
  match action o with
  | HStr a =>
      let s := splitChar ":" a in
      let s0 := default "" (s !! 0) in
      if negb (indexOf actions (toLowerCase (trim s0))) then
        throwM (AccessControlError InvalidAction)
      else
        let action' := toLowerCase (trim s0) in
        _ ← writeObject info
              (λ o, mkObj (role o) (resource o) (HStr action') (possession o));
        let poss :=
          if truthy (possession o) then possession o
          else from_option HStr HUndefined (s !! 1) in
        if truthy poss then
          match poss with
          | HStr p =>
              if negb (indexOf possessions (toLowerCase (trim p))) then
                throwM (AccessControlError InvalidPossession)
              else
                _ ← writeObject info
                      (λ o, mkObj (role o) (resource o) (action o)
                              (HStr (toLowerCase (trim p))));
                mret (action', toLowerCase (trim p))
          | _ => throwM TypeError
          end
        else
          _ ← writeObject info
                (λ o, mkObj (role o) (resource o) (action o)
                        (HStr Possession_ANY));
          mret (action', Possession_ANY)
  | _ => throwM (AccessControlError InvalidAction)
  end.

(** [query] is the caller's object; [clone] is [Object.assign({}, query)],
    which every assignment below goes to. *)
Definition normalizeQueryInfo (query : Arg addr) : ST Heap QueryInfo :=
  match query with
  | NotAnObject => throwM (AccessControlError InvalidIQueryInfo)
  | AnObject query =>
      o ← readObject query;
      clone ← allocObject o;
      arr ← toStringArray (role o);
      _ ← writeObject clone
            (λ o, mkObj (HArr arr) (resource o) (action o) (possession o));
      filled ← isFilledStringArray arr;
      if negb filled then throwM (AccessControlError InvalidRoles)
      else
        match resource o with
        | HStr r =>
            if String.eqb (trim r) "" then
              throwM (AccessControlError InvalidResource)
            else
              _ ← writeObject clone
                    (λ o, mkObj (role o) (HStr (trim r)) (action o)
                            (possession o));
              '(action, possession) ← normalizeActionPossession clone;
              mret (mkNQuery arr (trim r) action possession)
        | _ => throwM (AccessControlError InvalidResource)
        end
  end.

Record RoleEntry : Type := mkRole {
  extend : option addr;
  resources : gmap string (gmap string addr)
}.

Inductive RoleProp : Type :=
  | ExtendList (a : addr)
  | ResourceEntry (r : gmap string addr).

Definition roleProp (role : RoleEntry) (key : string) : option RoleProp :=
  if String.eqb key "$extend" then ExtendList <$> extend role
  else ResourceEntry <$> resources role !! key.

Definition hasRole (grants : gmap string RoleEntry) (roleName : string) : bool :=
  bool_decide (is_Some (grants !! roleName)).

Definition hierarchyStep (recurse : string → option string → ST Heap addr)
    (grants : gmap string RoleEntry) (roleName : string)
    (_rootRole : option string) (arr : addr) (exRoleName : string)
  : ST Heap addr :=
  if negb (hasRole grants exRoleName) then
    throwM (AccessControlError (RoleNotFound (toString VUndefined)))
  else if String.eqb exRoleName roleName then
    throwM (AccessControlError (SelfExtension roleName))
  else if strTruthy _rootRole && bool_decide (_rootRole = Some exRoleName) then
    throwM (AccessControlError (CrossInheritance exRoleName exRoleName))
  else
    ext ← recurse exRoleName (if strTruthy _rootRole then _rootRole else Some roleName);
    uniqConcat arr ext.

Fixpoint hierarchyAt (depth : nat) (grants : gmap string RoleEntry)
    (roleName : string) (_rootRole : option string) : ST Heap addr :=
  match depth with
  | O => throwM RangeError
  | S depth' =>
      match grants !! roleName with
      | None => throwM (AccessControlError (RoleNotFound roleName))
      | Some role =>
          arr ← allocArray [roleName];
          match extend role with
          | None => mret arr
          | Some x =>
              ext ← readArray x;
              if length ext =? 0 then mret arr
              else
                foldST (hierarchyStep (hierarchyAt depth' grants) grants
                          roleName _rootRole) arr ext
          end
      end
  end.

Definition getRoleHierarchyOf (grants : gmap string RoleEntry)
    (roleName : string) (_rootRole : option string) : ST Heap addr :=
  hierarchyAt (S (size grants)) grants roleName _rootRole.

Definition getFlatRoles (grants : gmap string RoleEntry) (roles : HValue)
  : ST Heap addr :=
  arrRoles ← (if truthy roles then toStringArray roles
              else (e ← allocArray []; toStringArray (HArr e)));
  names ← readArray arrRoles;
  if length names =? 0 then throwM (AccessControlError InvalidRoles)
  else
    e ← allocArray [];
    arr ← uniqConcat e arrRoles;
    foldST (λ arr roleName,
      h ← getRoleHierarchyOf grants roleName None;
      uniqConcat arr h) arr names.

Section Evaluator.

(** [Notation.Glob.union] takes two arrays and returns one. *)
Variable union : addr → addr → ST Heap addr.

(** [(resource[action:possession] || resource[action:any] || []).concat()] *)
Definition attrsOf (resource : RoleProp) (query : QueryInfo) : ST Heap addr :=
  match resource with
  | ResourceEntry r =>
      match r !! (nq_action query +:+ ":" +:+ nq_possession query) with
      | Some attrs => concat attrs
      | None =>
          match r !! (nq_action query +:+ ":any") with
          | Some attrs => concat attrs
          | None => e ← allocArray []; concat e
          end
      end
  | ExtendList _ => e ← allocArray []; concat e
  end.

(** [attrsList] is a local array of arrays that is not returned. *)
Definition pushAttrs (grants : gmap string RoleEntry) (query : QueryInfo)
    (attrsList : list addr) (roleName : string) : ST Heap (list addr) :=
  match grants !! roleName with
  | None => throwM TypeError
  | Some role =>
      if negb (String.eqb (nq_resource query) "") then
        match roleProp role (nq_resource query) with
        | None => throwM TypeError
        | Some resource =>
            attrs ← attrsOf resource query;
            mret (attrsList ++ [attrs])
        end
      else mret attrsList
  end.

Definition unionAll (attrsList : list addr) : ST Heap addr :=
  attrs ← allocArray [];
  match attrsList with
  | [] => mret attrs
  | attrs :: rest => foldST union attrs rest
  end.

Definition getUnionAttrsOfRoles (grants : gmap string RoleEntry)
    (query : Arg addr) : ST Heap addr :=
  query ← normalizeQueryInfo query;
  roles ← getFlatRoles grants (HArr (nq_role query));
  names ← readArray roles;
  attrsList ← foldST (pushAttrs grants query) [] names;
  unionAll attrsList.

End Evaluator.

(** [h'] keeps what [h] holds below the marks [n] and [m]: the arrays
    at addresses below [n] and the objects at addresses below [m]. *)
Definition keeps (n m : nat) (h h' : Heap) : Prop :=
  length (arrays h) ≤ length (arrays h')
  ∧ length (objects h) ≤ length (objects h')
  ∧ (∀ a, a < n → arrays h' !! a = arrays h !! a)
  ∧ (∀ a, a < m → objects h' !! a = objects h !! a).

(** [framed n m c post]: from a heap that has at least [n] arrays and
    [m] objects, [c] keeps what is below the marks, whether it returns or
    throws, and what it returns satisfies [post]. *)
Definition framed {A} (n m : nat) (c : ST Heap A) (post : A → Prop) : Prop :=
  ∀ h, n ≤ length (arrays h) → m ≤ length (objects h) →
    keeps n m h (execM c h) ∧ ∀ a, evalM c h = Ok a → post a.

(** What is assumed of the glob union: it writes to no object, and to no
    array other than the two it is given and those it allocates, and it
    returns one of the two or an array it has allocated. *)
Definition unionFrame (union : addr → addr → ST Heap addr) : Prop :=
  ∀ a b h,
    let '(r, h') := union a b h in
    length (arrays h) ≤ length (arrays h')
    ∧ length (objects h) ≤ length (objects h')
    ∧ (∀ c, c < length (arrays h) → c ≠ a → c ≠ b →
         arrays h' !! c = arrays h !! c)
    ∧ (∀ c, c < length (objects h) → objects h' !! c = objects h !! c)
    ∧ (∀ c, r = Ok c → c = a ∨ c = b ∨ length (arrays h) ≤ c).

(** A union that works in place: it pushes the names of the second
    array that the first lacks onto the first, and returns the first. *)
Definition unionInPlace (a b : addr) : ST Heap addr :=
  items ← readArray b;
  _ ← forEachM (λ x, _ ← pushUniq a x; mret ()) items;
  mret a.

(** The union on the heap that reads its two arguments and allocates the
    [union] of what they hold. *)
Definition unionOf (union : list string → list string → list string)
    (a b : addr) : ST Heap addr :=
  la ← readArray a;
  lb ← readArray b;
  allocArray (union la lb).

(** An example: the array [["*"]] at address 0 is the rule [create:any] of
    role [u] on [video], the array [["u"]] at address 1 is the [role] of
    the query object at address 0. *)
Definition exampleHeap : Heap :=
  mkHeap [["*"]; ["u"]]
    [mkObj (HArr 1) (HStr "video") (HStr "create") HUndefined].

Definition exampleTable : gmap string RoleEntry :=
  {[ "u" := mkRole None {[ "video" := {[ "create:any" := 0 ]} ]} ]}.

End Heap.

(** ** The evaluator on the heap and the evaluator on values *)

(** The heap has grown: its arrays are still there, as they were. *)
Definition grows (h h' : Heap.Heap) : Prop :=
  Heap.arrays h `prefix_of` Heap.arrays h'.

(** The array at [a] holds [l]. *)
Definition holds (h : Heap.Heap) (a : Heap.addr) (l : list string) : Prop :=
  Heap.arrays h !! a = Some l.

Definition repValue (h : Heap.Heap) (hv : Heap.HValue) (v : Value) : Prop :=
  match hv, v with
  | Heap.HUndefined, VUndefined => True
  | Heap.HNull, VNull => True
  | Heap.HBool b, VBool b' => b = b'
  | Heap.HNum n, VNum n' => n = n'
  | Heap.HStr s, VStr s' => s = s'
  | Heap.HArr a, VArr l => holds h a l
  | Heap.HObject, VObject => True
  | _, _ => False
  end.

Definition repQuery (h : Heap.Heap) (query : Arg Heap.addr) (q : Arg IQueryInfo) : Prop :=
  match query, q with
  | AnObject a, AnObject q =>
      ∃ o, Heap.objects h !! a = Some o
           ∧ repValue h (Heap.role o) (q_role q)
           ∧ repValue h (Heap.resource o) (q_resource q)
           ∧ repValue h (Heap.action o) (q_action q)
           ∧ repValue h (Heap.possession o) (q_possession q)
  | NotAnObject, NotAnObject => True
  | _, _ => False
  end.

Definition repRole (h : Heap.Heap) (hr : Heap.RoleEntry) (r : RoleEntry) : Prop :=
  option_Forall2 (holds h) (Heap.extend hr) (extend r)
  ∧ ∀ res,
      option_Forall2
        (λ (he : gmap string Heap.addr) (e : gmap string (list string)),
           ∀ k, option_Forall2 (holds h) (he !! k) (e !! k))
        (Heap.resources hr !! res) (resources r !! res).

Definition repTable (h : Heap.Heap) (hg : gmap string Heap.RoleEntry)
    (g : gmap string RoleEntry) : Prop :=
  ∀ name, option_Forall2 (repRole h) (hg !! name) (g !! name).

(** [runs c h v R]: from the heap [h], [c] throws what [v] throws, or
    returns a value that stands for the value of [v], by [R], in the heap
    it leaves; that heap has grown. *)
Definition runs {A B} (c : ST Heap.Heap A) (h : Heap.Heap) (v : Result B)
    (R : A → B → Heap.Heap → Prop) : Prop :=
  ∃ r h', c h = (r, h') ∧ grows h h'
    ∧ match v with
      | Ok b => ∃ a, r = Ok a ∧ R a b h'
      | Throw e => r = Throw e
      end.

(** A union on the heap that allocates its result and computes [union]. *)
Definition unionRefines (union_h : Heap.addr → Heap.addr → ST Heap.Heap Heap.addr)
    (union : list string → list string → list string) : Prop :=
  ∀ h a b la lb,
    holds h a la → holds h b lb →
    runs (union_h a b) h (Ok (union la lb)) (λ r l h', holds h' r l).

(** What [role[key]] is on the heap and as a value. *)
Definition repProp (h : Heap.Heap) (hp : Heap.RoleProp) (p : RoleProp) : Prop :=
  match hp, p with
  | Heap.ExtendList a, ExtendList l => holds h a l
  | Heap.ResourceEntry he, ResourceEntry e =>
      ∀ k, option_Forall2 (holds h) (he !! k) (e !! k)
  | _, _ => False
  end.

Definition repNQuery (hq : Heap.QueryInfo) (q : QueryInfo) (h : Heap.Heap) : Prop :=
  holds h (Heap.nq_role hq) (nq_role q)
  ∧ Heap.nq_resource hq = nq_resource q
  ∧ Heap.nq_action hq = nq_action q
  ∧ Heap.nq_possession hq = nq_possession q.

(** ** Notions used by the statements *)

(** The error kinds of the specification's taxonomy that the statements
    refer to, and the kind of each message. *)
Inductive ErrorKind : Type :=
  | KInvalidName
  | KInvalidAction
  | KInvalidPossession
  | KInvalidRoleList
  | KInvalidResourceList
  | KRoleNotFound
  | KSelfExtension
  | KCrossInheritance
  | KLocked
  | KEmptyOrInvalidGrants
  | KOther.

Definition kindOf (e : ACError) : ErrorKind :=
  match e with
  | InvalidName | ReservedName _ => KInvalidName
  | InvalidAction => KInvalidAction
  | InvalidPossession => KInvalidPossession
  | InvalidRoles => KInvalidRoleList
  | InvalidResource | InvalidResources => KInvalidResourceList
  | RoleNotFound _ | NonExistentExtenders _ => KRoleNotFound
  | SelfExtension _ => KSelfExtension
  | CrossInheritance _ _ => KCrossInheritance
  | Locked => KLocked
  | EmptyOrInvalidGrants => KEmptyOrInvalidGrants
  | InvalidIQueryInfo | InvalidIAccessInfo | InvalidExtenders | LockFailed => KOther
  end.

(** [failsWith k r]: the call threw an [AccessControlError] of kind [k]. *)
Definition failsWith {A} (k : ErrorKind) (r : Result A) : Prop :=
  ∃ e, r = Throw (AccessControlError e) ∧ kindOf e = k.

(** A value that is neither a string nor an array. *)
Definition neitherStringNorArray (v : Value) : Prop :=
  match v with
  | VStr _ | VArr _ => False
  | _ => True
  end.

(** Names and separators in a string of names: a name is not empty, holds
    neither [,] nor [;], and neither starts nor ends with white space; a
    separator is a [,] or a [;] with white space on either side. *)
Fixpoint allWhiteSpace (w : string) : bool :=
  match w with
  | EmptyString => true
  | String c w' => isWhiteSpace c && allWhiteSpace w'
  end.

Fixpoint noListSep (a : string) : bool :=
  match a with
  | EmptyString => true
  | String c a' => negb (isListSep c) && noListSep a'
  end.

Definition startsNonWs (a : string) : bool :=
  match a with
  | EmptyString => false
  | String c _ => negb (isWhiteSpace c)
  end.

Fixpoint endsNonWs (a : string) : bool :=
  match a with
  | EmptyString => false
  | String c EmptyString => negb (isWhiteSpace c)
  | String _ a' => endsNonWs a'
  end.

Definition cleanName (a : string) : bool :=
  startsNonWs a && endsNonWs a && noListSep a.

Inductive isSeparator : string → Prop :=
  | IsSeparator (w1 : string) (c : ascii) (w2 : string) :
      allWhiteSpace w1 = true → isListSep c = true → allWhiteSpace w2 = true →
      isSeparator (w1 +:+ String c w2).

(** The first name, then each separator with the name after it. *)
Fixpoint joinNames (first : string) (rest : list (string * string)) : string :=
  match rest with
  | [] => first
  | (sep, name) :: rest' => first +:+ sep +:+ joinNames name rest'
  end.

(** The names in the [$extend] list of a role. *)
Definition extendersOf (grants : gmap string RoleEntry) (roleName : string)
  : list string :=
  match grants !! roleName with
  | Some role => default [] (extend role)
  | None => []
  end.

(** [a] extends [b] directly. *)
Definition extendsEdge (grants : gmap string RoleEntry) (a b : string) : Prop :=
  b ∈ extendersOf grants a.

(** No role extends itself through one or more steps. *)
Definition acyclic (grants : gmap string RoleEntry) : Prop :=
  ∀ a, ¬ tc (extendsEdge grants) a a.

(** The tables that the committer and [extendRole] build from the empty
    one: no inheritance cycle, and no role of the empty name. *)
Definition wellFormed (grants : gmap string RoleEntry) : Prop :=
  acyclic grants ∧ grants !! "" = None.

(** Breadth order: the role, then its direct extenders, then theirs, each
    name once. *)
Fixpoint breadthFirst (fuel : nat) (grants : gmap string RoleEntry)
    (queue visited : list string) : list string :=
  match fuel, queue with
  | S fuel', x :: queue' =>
      let visited' := uniqConcat visited (extendersOf grants x) in
      breadthFirst fuel' grants (queue' ++ drop (length visited) visited') visited'
  | _, _ => visited
  end.

Definition breadthOrder (grants : gmap string RoleEntry) (roleName : string)
  : list string :=
  breadthFirst
    (S (map_fold (λ _ role n, n + length (default [] (extend role))) 0 grants))
    grants [roleName] [roleName].

(** Depth-first order: the role, then for each direct extender in turn the
    extender followed by its own closure, each name once. *)
Fixpoint depthFirst (depth : nat) (grants : gmap string RoleEntry)
    (roleName : string) : list string :=
  match depth with
  | O => [roleName]
  | S depth' =>
      foldl (λ arr e, uniqConcat arr (depthFirst depth' grants e)) [roleName]
        (extendersOf grants roleName)
  end.

Definition depthFirstOrder (grants : gmap string RoleEntry) (roleName : string)
  : list string :=
  depthFirst (S (size grants)) grants roleName.

(** A call that throws leaves the table as it found it. *)
Definition unchangedOnError {A} (m : M A) : Prop :=
  ∀ st e, evalM m st = Throw e → execM m st = st.

(** [covers ap attrs st1 st2]: neither table is frozen, and [st2] has every
    role and every resource entry that [st1] has, with the rule
    [ap := attrs] wherever [st1] has it. *)
Definition covers (ap : string) (attrs : list string) (st1 st2 : Store) : Prop :=
  frozen st1 = false ∧ frozen st2 = false
  ∧ ∀ r item1, grants st1 !! r = Some item1 →
      ∃ item2, grants st2 !! r = Some item2
        ∧ ∀ res e1, resources item1 !! res = Some e1 →
            ∃ e2, resources item2 !! res = Some e2
              ∧ (e1 !! ap = Some attrs → e2 !! ap = Some attrs).

(** A computation that only adds to the table, and that repeats its
    outcome without a further change on any table covering the one it has
    left. [P] is what it expects of the table it starts from. *)
Definition absorbing (ap : string) (attrs : list string) (P : Store → Prop)
    (m : M unit) : Prop :=
  ∀ st r st1, frozen st = false → P st → m st = (r, st1) →
    covers ap attrs st st1 ∧ ∀ st2, covers ap attrs st1 st2 → m st2 = (r, st2).

(** ** Tables used as examples *)

Definition roleExtending (ext : list string) : RoleEntry := mkRole (Some ext) ∅.

(** [A] extends [B], which extends [C]. *)
Definition tblChain : gmap string RoleEntry :=
  <["A" := roleExtending ["B"]]>
    (<["B" := roleExtending ["C"]]> (<["C" := emptyRole]> ∅)).

(** [A] extends [B] and [C]; [B] extends [D]. *)
Definition tblBranch : gmap string RoleEntry :=
  <["A" := roleExtending ["B"; "C"]]>
    (<["B" := roleExtending ["D"]]>
       (<["C" := emptyRole]> (<["D" := emptyRole]> ∅))).

(** [A] extends [B], [B] extends [C] and [C] extends [B]. *)
Definition tblCycle : gmap string RoleEntry :=
  <["A" := roleExtending ["B"]]>
    (<["B" := roleExtending ["C"]]> (<["C" := roleExtending ["B"]]> ∅)).

(** A role of the empty name, which extends [A]. *)
Definition tblNoName : gmap string RoleEntry :=
  <["" := roleExtending ["A"]]> (<["A" := emptyRole]> ∅).

(** Role [u] holds one rule, on [video]: [create:any] in the first table
    and [create:own] in the second. *)
Definition tblAny : gmap string RoleEntry :=
  {[ "u" := mkRole None {[ "video" := {[ "create:any" := ["*"] ]} ]} ]}.

Definition tblOwn : gmap string RoleEntry :=
  {[ "u" := mkRole None {[ "video" := {[ "create:own" := ["*"] ]} ]} ]}.

Definition queryOf (role resource action possession : string) : Arg IQueryInfo :=
  AnObject (mkQuery (VStr role) (VStr resource) (VStr action) (VStr possession)).

(** The level of a role of these two tables in its hierarchy. *)
Definition rankOf (r : string) : nat :=
  if String.eqb r "A" then 2 else if String.eqb r "B" then 1 else 0.

(** ** Further utilities *)

(** [arrA.concat().filter(a => arrB.indexOf(a) === -1)] *)
Definition subtractArray (arrA arrB : list string) : list string :=
  filter (λ a, indexOf arrB a = false) arrA.

(** The loop of [hasValidNames]: [utils.each] stops at the first name for
    which the callback returns [false]. *)
Fixpoint hasValidNames_loop (names : list string) (throwOnInvalid : bool)
  : Result bool :=
  match names with
  | [] => Ok true
  | name :: rest =>
      valid ← validName name throwOnInvalid;
      if negb valid then Ok false else hasValidNames_loop rest throwOnInvalid
  end.

Definition hasValidNames (list : Value) (throwOnInvalid : bool) : Result bool :=
  hasValidNames_loop (toStringArray list) throwOnInvalid.

(** [access.attributes = v], the other properties kept. *)
Definition withAttributes (access : IAccessInfo) (v : Value) : IAccessInfo :=
  mkAccess (a_role access) (a_resource access) (a_action access)
    (a_possession access) v (a_denied access).

Definition resetAttributes (access : IAccessInfo) : IAccessInfo :=
  if truthy (a_denied access) then withAttributes access (VArr [])
  else if negb (truthy (a_attributes access)) || isEmptyArray (a_attributes access)
  then withAttributes access (VArr ["*"])
  else access.

(** A name that [validName] accepts. *)
Definition acceptedName (name : string) : bool :=
  negb (String.eqb (trim name) "") && negb (indexOf RESERVED_KEYWORDS name).

(** [c] occurs in [s]. *)
Fixpoint hasChar (c : ascii) (s : string) : bool :=
  match s with
  | EmptyString => false
  | String c' s' => Ascii.eqb c' c || hasChar c s'
  end.

(** Every extender named in the table is a role of the table. *)
Definition closed (grants : gmap string RoleEntry) : Prop :=
  ∀ a b, extendsEdge grants a b → is_Some (grants !! b).

(** The body of the loop of [preCreateRoles]. *)
Definition preCreateRole (role : string) : M unit :=
  valid ← liftR (validName role true);
  grants ← getGrants;
  if valid && negb (hasRole grants role) then write (<[role := emptyRole]>)
  else mret ().

Definition preCreateRoles (roles : Value) : M unit :=
  let roles := match roles with
               | VStr _ => VArr (toStringArray roles)
               | _ => roles
               end in
  match roles with
  | VArr ((_ :: _) as roles) => forEachM preCreateRole roles
  | _ => throwM (AccessControlError InvalidRoles)
  end.

(** The attribute list that the table holds for a role, a resource and a
    key [action:possession]. *)
Definition ruleOf (grants : gmap string RoleEntry) (role res key : string)
  : option (list string) :=
  item ← grants !! role; entry ← resources item !! res; entry !! key.

(** ** Inspecting a grants object

    [getInspectedGrants] checks a grants object that the caller supplies,
    or builds the table from an array of access statements. The object is
    a table as typed above: a role is an object, its [$extend] an array of
    strings, a resource entry an object and an attribute list an array of
    strings, so that the tests of these types are passed. The order in
    which [Object.keys] lists the keys of an object is the parameter
    [ownKeys]. *)

(** What the inspection throws: an error of a function above, or one of
    its own messages. *)
Inductive InspectError : Type :=
  | Raised (e : Exn)
  | InvalidResourceDefinition
  | InvalidResourceAttributes (action : string)
  | InvalidRoleDefinition
  | InvalidExtendValue (roleName : string)
  | ReservedResourceName (resourceName : string)
  | InvalidGrantsObject.

Inductive Outcome (A : Type) : Type :=
  | Done (a : A)
  | Failed (e : InspectError).
Arguments Done {A} a.
Arguments Failed {A} e.

#[global] Instance Outcome_ret : MRet Outcome := @Done.
#[global] Instance Outcome_bind : MBind Outcome :=
  λ A B f m, match m with Done a => f a | Failed e => Failed e end.

Fixpoint forEachO {A} (f : A → Outcome unit) (l : list A) : Outcome unit :=
  match l with
  | [] => Done ()
  | x :: l' => _ ← f x; forEachO f l'
  end.

(** A computation of the inspection over the object inspected. *)
Definition Inspect (A : Type) : Type := Store → Outcome A * Store.

#[global] Instance Inspect_ret : MRet Inspect := λ A a st, (Done a, st).
#[global] Instance Inspect_bind : MBind Inspect :=
  λ A B f m st,
    match m st with
    | (Done a, st') => f a st'
    | (Failed e, st') => (Failed e, st')
    end.

Definition failI {A} (e : InspectError) : Inspect A := λ st, (Failed e, st).

Definition liftO {A} (r : Outcome A) : Inspect A := λ st, (r, st).

Definition liftM {A} (m : M A) : Inspect A :=
  λ st,
    match m st with
    | (Ok a, st') => (Done a, st')
    | (Throw e, st') => (Failed (Raised e), st')
    end.

Fixpoint forEachI {A} (f : A → Inspect unit) (l : list A) : Inspect unit :=
  match l with
  | [] => mret ()
  | x :: l' => _ ← f x; forEachI f l'
  end.

(** [utils.each] with a callback that may throw: the loop ends when the
    callback returns [false]. *)
Fixpoint eachI {A} (callback : A → Inspect bool) (array : list A) : Inspect unit :=
  match array with
  | [] => mret ()
  | x :: rest =>
      again ← callback x;
      if (again : bool) then eachI callback rest else (mret () : Inspect unit)
  end.

(** The callback of [validResourceObject] for one key of the resource
    entry. *)
Definition validResourceKey (o : gmap string (list string)) (action : string)
  : Outcome unit :=
  let s := splitChar ":" action in
  if negb (indexOf actions (default "" (s !! 0))) then
    Failed (Raised (AccessControlError InvalidAction))
  else if strTruthy (s !! 1) && negb (indexOf possessions (default "" (s !! 1))) then
    Failed (Raised (AccessControlError InvalidPossession))
  else
    let perms := default [] (o !! action) in
    if negb (isEmptyArray (VArr perms)) && negb (isFilledStringArray perms) then
      Failed (InvalidResourceAttributes action)
    else Done ().

(** The keys of a role object: [$extend], if the role has the property,
    and the names of its resources. *)
Definition roleKeys (role : RoleEntry) : gset string :=
  (match extend role with Some _ => {["$extend"]} | None => ∅ end)
  ∪ (dom (resources role) ∖ {["$extend"]}).

(** One of the two forms of grants that [getInspectedGrants] accepts, or
    another value. *)
Inductive GrantsInput : Type :=
  | GrantsObject (o : Store)
  | GrantsArray (items : list (Arg IAccessInfo))
  | GrantsOther.

Section Inspection.

Variable ownKeys : gset string → list string.

Definition validResourceObject (o : gmap string (list string)) : Outcome bool :=
  _ ← forEachO (validResourceKey o) (ownKeys (dom o));
  Done true.

(** The callback of [validRoleObject] for one key of the role object;
    [role] is the role object as it is when [validRoleObject] is called:
    the one property that changes under it, [$extend], is read before the
    call that may write it. *)
Definition validRoleKey (role : RoleEntry) (roleName resourceName : string)
  : Inspect unit :=
  match validName resourceName false with
  | Throw e => failI (Raised e)
  | Ok false =>
      if String.eqb resourceName "$extend" then
        let extRoles := default [] (extend role) in
        if negb (isFilledStringArray extRoles) then failI (InvalidExtendValue roleName)
        else liftM (extendRole (VStr roleName) (VArr extRoles))
      else failI (ReservedResourceName resourceName)
  | Ok true =>
      match resources role !! resourceName with
      | None => failI InvalidResourceDefinition
      | Some o => liftO (_ ← validResourceObject o; Done ())
      end
  end.

Definition validRoleObject (roleName : string) : Inspect bool :=
  λ st,
    match grants st !! roleName with
    | None => (Failed InvalidRoleDefinition, st)
    | Some role =>
        (_ ← forEachI (validRoleKey role roleName) (ownKeys (roleKeys role));
         mret true) st
    end.

(** The callback of [getInspectedGrants] for one key of the object. *)
Definition inspectRole (roleName : string) : Inspect bool :=
  valid ← liftM (liftR (validName roleName true));
  if (valid : bool) then validRoleObject roleName else (mret false : Inspect bool).

Definition getInspectedGrants (o : GrantsInput) : Outcome Store :=
  match o with
  | GrantsObject o =>
      match eachI inspectRole (ownKeys (dom (grants o))) o with
      | (Done _, o') => Done o'
      | (Failed e, _) => Failed e
      end
  | GrantsArray items =>
      match forEachM (λ item, commitToGrants item true) items (mkStore ∅ false) with
      | (Ok _, grants) => Done grants
      | (Throw e, _) => Failed (Raised e)
      end
  | GrantsOther => Failed InvalidGrantsObject
  end.

End Inspection.

(** A key that [validResourceObject] accepts: one of the four actions
    alone, or followed by a colon and nothing, or by a colon and one of
    the two possessions; what follows a second colon is not read. *)
Definition acceptedRuleKey (key : string) : bool :=
  let s := splitChar ":" key in
  indexOf actions (default "" (s !! 0))
  && (negb (strTruthy (s !! 1)) || indexOf possessions (default "" (s !! 1))).

(** What the inspection checks of a role [r] of the table [g]: no
    extender is blank or the role itself, each extender resolves to a
    hierarchy that does not hold the role, and every resource has an
    accepted name, accepted keys and no blank attribute. *)
Definition inspected (g : gmap string RoleEntry) (r : string) (role : RoleEntry)
  : Prop :=
  (∀ ext, extend role = Some ext →
     isFilledStringArray ext = true ∧ (r ∉ ext)
     ∧ ∀ e, e ∈ ext → ∃ h, getRoleHierarchyOf g e None = Ok h ∧ r ∉ h)
  ∧ (∀ res entry, resources role !! res = Some entry → res ≠ "$extend" →
       acceptedName res = true
       ∧ ∀ key attrs, entry !! key = Some attrs →
           acceptedRuleKey key = true ∧ isFilledStringArray attrs = true).

(** Roles [a], [b] and [c], and a role whose name is the list of [a] and
    [b] and which extends [c]. *)
Definition tblListName : gmap string RoleEntry :=
  <["a,b" := roleExtending ["c"]]>
    (<["a" := emptyRole]> (<["b" := emptyRole]> (<["c" := emptyRole]> ∅))).

(** ** The resources of the table *)

Section Resources.

Variable ownKeys : gset string → list string.

(** [eachRoleResource] with a callback that updates a value of its own
    and neither throws nor ends the loop; the callback is given
    [roleInfo[resource]]. *)
Definition eachRoleResource {S} (grants : gmap string RoleEntry)
    (callback : string → string → option (gmap string (list string)) → S → S)
    (s : S) : S :=
  foldl (λ s role,
           match grants !! role with
           | None => s
           | Some roleInfo =>
               foldl (λ s resource,
                        match validName resource false with
                        | Ok true =>
                            callback role resource (resources roleInfo !! resource) s
                        | _ => s
                        end)
                 s (ownKeys (roleKeys roleInfo))
           end)
    s (ownKeys (dom grants)).

(** The keys of the object in which [getResources] sets a property for
    each resource that the loop gives it. *)
Definition getResources (grants : gmap string RoleEntry) : list string :=
  ownKeys (eachRoleResource grants (λ _ resource _ resources, {[resource]} ∪ resources) ∅).

End Resources.

(** ** Names that an object literal inherits

    The grants table and the objects under it are object literals, whose
    prototype is [Object.prototype]. The module reads a role with
    [grants[roleName]] and a resource with [role[resource]], which find a
    member of [Object.prototype] where the object has no key of that name;
    it calls [hasOwnProperty] through the table and through a role, where
    a key of that name hides the method; and an assignment to the key
    [__proto__] sets the prototype of an object instead of a key. The
    embedding reads and writes the keys of the objects themselves. The two
    agree where the names of roles, extenders and resources are none of
    the names below, and the statements that depend on it are made for
    such tables and arguments. *)

(** The property names of [Object.prototype]. *)
Definition objectPrototypeNames : list string :=
  ["constructor"; "__defineGetter__"; "__defineSetter__"; "hasOwnProperty";
   "__lookupGetter__"; "__lookupSetter__"; "isPrototypeOf"; "propertyIsEnumerable";
   "toString"; "valueOf"; "__proto__"; "toLocaleString"].

Definition plainName (name : string) : bool :=
  negb (indexOf objectPrototypeNames name).

Definition plainNames (names : list string) : Prop :=
  Forall (λ name, plainName name = true) names.

(** No role, extender or resource of the table has one of these names. *)
Definition plainTable (grants : gmap string RoleEntry) : Prop :=
  map_Forall (λ r role,
                plainName r = true
                ∧ plainNames (default [] (extend role))
                ∧ map_Forall (λ res _, plainName res = true) (resources role))
    grants.

#[global] Instance plainNames_dec (names : list string) : Decision (plainNames names).
Proof. unfold plainNames. apply _. Defined.

#[global] Instance plainTable_dec (grants : gmap string RoleEntry)
  : Decision (plainTable grants).
Proof. unfold plainTable. apply _. Defined.

(** [toString] prints a number with all its digits; so does JavaScript
    for the integers that a number holds exactly, up to [2^53 - 1]. *)
Definition printedInFull (v : Value) : bool :=
  match v with
  | VNum n => (Z.abs n <=? 9007199254740991)%Z
  | _ => true
  end.

(** A normalised statement whose roles and resources have none of the
    names above, and whose action and possession make the key that
    [toString] gives. *)
Definition plainStatement (ai : AccessInfo) : Prop :=
  plainNames (na_role ai) ∧ plainNames (na_resource ai)
  ∧ printedInFull (na_action ai) = true ∧ printedInFull (na_possession ai) = true.

(** * Properties *)

(** ** The names of the example tables *)

Lemma tblChain_plain : plainTable tblChain.
Proof. apply (bool_decide_unpack _). vm_compute. reflexivity. Qed.

Lemma tblBranch_plain : plainTable tblBranch.
Proof. apply (bool_decide_unpack _). vm_compute. reflexivity. Qed.

Lemma tblCycle_plain : plainTable tblCycle.
Proof. apply (bool_decide_unpack _). vm_compute. reflexivity. Qed.

Lemma tblAny_plain : plainTable tblAny.
Proof. apply (bool_decide_unpack _). vm_compute. reflexivity. Qed.

Lemma plainTable_empty : plainTable ∅.
Proof. apply map_Forall_empty. Qed.

Lemma plainTable_lookup (g : gmap string RoleEntry) (r : string) (role : RoleEntry) :
  plainTable g → g !! r = Some role →
  plainName r = true
  ∧ (∀ e, e ∈ default [] (extend role) → plainName e = true)
  ∧ (∀ res, is_Some (resources role !! res) → plainName res = true).
Proof.
  intros Hg Hr. destruct (Hg r role Hr) as (Hname & Hext & Hres).
  split_and!; [done | |].
  - intros e He. by apply (proj1 (Forall_forall _ _) Hext).
  - intros res [entry Hentry]. by apply (Hres res entry).
Qed.

(** ** Lists with unique insertion *)

Lemma indexOf_true (arr : list string) (item : string) :
  indexOf arr item = true ↔ item ∈ arr.
Proof. unfold indexOf. apply bool_decide_eq_true. Qed.

Lemma indexOf_false (arr : list string) (item : string) :
  indexOf arr item = false ↔ item ∉ arr.
Proof. unfold indexOf. apply bool_decide_eq_false. Qed.

Lemma elem_of_pushUniq (arr : list string) (item x : string) :
  x ∈ pushUniq arr item ↔ x ∈ arr ∨ x = item.
Proof.
  unfold pushUniq. destruct (indexOf arr item) eqn:E.
  - apply indexOf_true in E. split; [auto | intros [?| ->]; done].
  - rewrite elem_of_app, list_elem_of_singleton. done.
Qed.

Lemma NoDup_pushUniq (arr : list string) (item : string) :
  NoDup arr → NoDup (pushUniq arr item).
Proof.
  intros Hnd. unfold pushUniq. destruct (indexOf arr item) eqn:E; [done |].
  apply indexOf_false in E. apply NoDup_app. split_and!; [done | | apply NoDup_singleton].
  intros x Hx ->%list_elem_of_singleton. done.
Qed.

Lemma pushUniq_prefix (arr : list string) (item : string) :
  arr `prefix_of` pushUniq arr item.
Proof.
  unfold pushUniq. destruct (indexOf arr item); [done |]. by apply prefix_app_r.
Qed.

Lemma elem_of_uniqConcat (arrB arrA : list string) (x : string) :
  x ∈ uniqConcat arrA arrB ↔ x ∈ arrA ∨ x ∈ arrB.
Proof.
  unfold uniqConcat. revert arrA.
  induction arrB as [| b arrB IH]; intros arrA; simpl.
  - rewrite elem_of_nil. naive_solver.
  - rewrite IH, elem_of_pushUniq, elem_of_cons. naive_solver.
Qed.

Lemma NoDup_uniqConcat (arrB arrA : list string) :
  NoDup arrA → NoDup (uniqConcat arrA arrB).
Proof.
  unfold uniqConcat. revert arrA.
  induction arrB as [| b arrB IH]; intros arrA Hnd; simpl; [done |].
  apply IH. by apply NoDup_pushUniq.
Qed.

Lemma uniqConcat_prefix (arrB arrA : list string) :
  arrA `prefix_of` uniqConcat arrA arrB.
Proof.
  unfold uniqConcat. revert arrA.
  induction arrB as [| b arrB IH]; intros arrA; simpl; [done |].
  etrans; [apply pushUniq_prefix | apply IH].
Qed.

Lemma uniqConcat_nil_r (arrA : list string) : uniqConcat arrA [] = arrA.
Proof. done. Qed.

(** Nothing is appended when every name is already there. *)
Lemma uniqConcat_absorb (arrB arrA : list string) :
  (∀ x, x ∈ arrB → x ∈ arrA) → uniqConcat arrA arrB = arrA.
Proof.
  unfold uniqConcat. induction arrB as [| b arrB IH]; intros Hsub; simpl; [done |].
  unfold pushUniq at 2.
  assert (indexOf arrA b = true) as ->.
  { apply indexOf_true, Hsub. left. }
  apply IH. intros x Hx. apply Hsub. by right.
Qed.

Lemma uniqConcat_head (arrB arrA : list string) (x : string) :
  head arrA = Some x → head (uniqConcat arrA arrB) = Some x.
Proof.
  intros Hhd. destruct (uniqConcat_prefix arrB arrA) as [k ->].
  destruct arrA; simplify_eq/=. done.
Qed.

(** ** Loops that may throw *)

Lemma foldM_app {A B} (f : B → A → Result B) (b : B) (l1 l2 : list A) :
  foldM f b (l1 ++ l2) = (b' ← foldM f b l1; foldM f b' l2).
Proof.
  revert b. induction l1 as [| x l1 IH]; intros b; simpl; [done |].
  destruct (f b x); simpl; [apply IH | done].
Qed.

(** A loop throws only what its body throws. *)
Lemma foldM_Throw {A B} (f : B → A → Result B) (b : B) (l : list A) (e : Exn) :
  foldM f b l = Throw e → ∃ b' x, x ∈ l ∧ f b' x = Throw e.
Proof.
  revert b. induction l as [| x l IH]; intros b; simpl; [done |].
  destruct (f b x) as [b' |e'] eqn:E; simpl.
  - intros (b'' & y & Hy & Hf)%IH. exists b'', y. split; [by right | done].
  - intros [= ->]. exists b, x. split; [left | done].
Qed.

(** Two bodies that agree wherever the first one does not throw [e] give
    the same loop, when the loop with the first does not throw [e]. *)
Lemma foldM_ext_except {A B} (f g : B → A → Result B) (e : Exn) (l : list A) (b : B) :
  (∀ b x, x ∈ l → f b x ≠ Throw e → g b x = f b x) →
  foldM f b l ≠ Throw e → foldM g b l = foldM f b l.
Proof.
  revert b. induction l as [| x l IH]; intros b Hfg Hne; simpl in *; [done |].
  assert (f b x ≠ Throw e) as Hx.
  { intros Hx. rewrite Hx in Hne. done. }
  rewrite (Hfg b x); [| left | done].
  destruct (f b x) as [b' |e']; simpl in *; [| done].
  apply IH; [| done]. intros b0 y Hy. apply Hfg. by right.
Qed.

(** ** Hierarchy resolution *)

Lemma hierarchyAt_S (d : nat) (g : gmap string RoleEntry) (r : string)
    (root : option string) :
  hierarchyAt (S d) g r root =
    match g !! r with
    | None => raise (RoleNotFound r)
    | Some _ => foldM (hierarchyStep (hierarchyAt d g) g r root) [r] (extendersOf g r)
    end.
Proof.
  unfold extendersOf. simpl. destruct (g !! r) as [role |]; [| done].
  destruct (extend role) as [[| e ext] |]; done.
Qed.

Lemma hierarchyAt_unfold (d : nat) (g : gmap string RoleEntry) (r : string)
    (root : option string) :
  hierarchyAt (S d) g r root =
    match g !! r with
    | None => raise (RoleNotFound r)
    | Some role =>
        match extend role with
        | None | Some [] => Ok [r]
        | Some ext => foldM (hierarchyStep (hierarchyAt d g) g r root) [r] ext
        end
    end.
Proof. done. Qed.

#[local] Arguments hierarchyAt : simpl never.

Lemma hasRole_true (g : gmap string RoleEntry) (r : string) :
  hasRole g r = true ↔ is_Some (g !! r).
Proof. unfold hasRole. apply bool_decide_eq_true. Qed.

(** What a step that does not throw has done. *)
Lemma hierarchyStep_Ok (rec : string → option string → Result (list string))
    (g : gmap string RoleEntry) (r : string) (root : option string)
    (arr : list string) (x : string) (l : list string) :
  hierarchyStep rec g r root arr x = Ok l →
  is_Some (g !! x) ∧ x ≠ r
  ∧ ∃ lx, rec x (if strTruthy root then root else Some r) = Ok lx
          ∧ l = uniqConcat arr lx.
Proof.
  unfold hierarchyStep.
  destruct (hasRole g x) eqn:Hhas; simpl; [| done].
  destruct (String.eqb_spec x r) as [-> | Hne]; [done |].
  destruct (strTruthy root && bool_decide (root = Some x)); [done |].
  destruct (rec x _) as [lx |] eqn:Hrec; simpl; [| done].
  intros [= <-]. split_and!; [by apply hasRole_true | done | eauto].
Qed.

(** A step throws a [RangeError] only out of its recursive call. *)
Lemma hierarchyStep_RangeError (rec : string → option string → Result (list string))
    (g : gmap string RoleEntry) (r : string) (root : option string)
    (arr : list string) (x : string) :
  hierarchyStep rec g r root arr x = Throw RangeError →
  is_Some (g !! x)
  ∧ rec x (if strTruthy root then root else Some r) = Throw RangeError.
Proof.
  unfold hierarchyStep.
  destruct (hasRole g x) eqn:Hhas; simpl; [| done].
  destruct (String.eqb x r); [done |].
  destruct (strTruthy root && bool_decide (root = Some x)); [done |].
  destruct (rec x _) as [lx |] eqn:Hrec; simpl; [done |].
  intros [= ->]. split; [by apply hasRole_true | done].
Qed.

(** More depth does not change a result that is not a [RangeError]. *)
Lemma hierarchyAt_mono (g : gmap string RoleEntry) (d d' : nat) (r : string)
    (root : option string) :
  d ≤ d' → hierarchyAt d g r root ≠ Throw RangeError →
  hierarchyAt d' g r root = hierarchyAt d g r root.
Proof.
  revert d' r root. induction d as [| d IH]; intros d' r root Hle Hne; [done |].
  destruct d' as [| d']; [lia |].
  rewrite !hierarchyAt_S in *. destruct (g !! r) as [role |]; [| done].
  apply foldM_ext_except with (e := RangeError); [| done].
  intros arr x _ Hx. unfold hierarchyStep in *.
  destruct (negb (hasRole g x)); [done |].
  destruct (String.eqb x r); [done |].
  destruct (strTruthy root && bool_decide (root = Some x)); [done |].
  rewrite IH; [done | lia |].
  intros Hrec. rewrite Hrec in Hx. done.
Qed.

(** On a table without inheritance cycles, the nesting of the calls under a
    role of the table stays within the number of roles: [V] holds the
    roles of the calls that are open. *)
Lemma hierarchyAt_depth (g : gmap string RoleEntry) :
  acyclic g →
  ∀ (d : nat) (V : gset string) (r : string) (root : option string),
    V ⊆ dom g →
    (∀ v, v ∈ V → tc (extendsEdge g) v r) →
    is_Some (g !! r) →
    size g ≤ d + size V →
    hierarchyAt d g r root ≠ Throw RangeError.
Proof.
  intros Hacyc. induction d as [| d IH]; intros V r root HV Hreach Hr Hsize.
  - assert (r ∉ V) as HrV.
    { intros Hin. by apply (Hacyc r), Hreach. }
    assert (size ({[r]} ∪ V) ≤ size (dom g)) as Hle.
    { apply subseteq_size. apply union_subseteq. split; [| done].
      apply singleton_subseteq_l. by apply elem_of_dom. }
    rewrite size_union, size_singleton, size_dom in Hle by set_solver. lia.
  - rewrite hierarchyAt_S. destruct Hr as [role Hrole]. rewrite Hrole.
    intros (arr & x & Hx & Hstep)%foldM_Throw.
    apply hierarchyStep_RangeError in Hstep as [Hxg Hrec].
    assert (r ∉ V) as HrV.
    { intros Hin. by apply (Hacyc r), Hreach. }
    assert (extendsEdge g r x) as Hedge.
    { unfold extendsEdge. done. }
    revert Hrec. apply (IH ({[r]} ∪ V)); [| | done |].
    + apply union_subseteq. split; [| done].
      apply singleton_subseteq_l. apply elem_of_dom. eauto.
    + intros v [->%elem_of_singleton | Hv]%elem_of_union.
      * by apply tc_once.
      * eapply tc_r; [by apply Hreach | done].
    + rewrite size_union, size_singleton by set_solver. lia.
Qed.

(** The resolved list is the depth-first order. *)
Lemma foldM_hierarchyStep_depthFirst (d : nat) (g : gmap string RoleEntry)
    (r : string) (root : option string) (ext arr l : list string) :
  (∀ x root' lx, hierarchyAt d g x root' = Ok lx → lx = depthFirst d g x) →
  foldM (hierarchyStep (hierarchyAt d g) g r root) arr ext = Ok l →
  l = foldl (λ arr e, uniqConcat arr (depthFirst d g e)) arr ext.
Proof.
  intros Hrec. revert arr. induction ext as [| x ext IH]; intros arr; simpl.
  - by intros [= ->].
  - destruct (hierarchyStep _ g r root arr x) as [arr' |] eqn:Hstep; simpl; [| done].
    apply hierarchyStep_Ok in Hstep as (_ & _ & lx & Hlx & ->).
    apply Hrec in Hlx as ->. apply IH.
Qed.

Lemma hierarchyAt_depthFirst (d : nat) (g : gmap string RoleEntry) (r : string)
    (root : option string) (l : list string) :
  hierarchyAt d g r root = Ok l → l = depthFirst d g r.
Proof.
  revert r root l. induction d as [| d IH]; intros r root l; [done |].
  rewrite hierarchyAt_S. destruct (g !! r) as [role |]; [| done].
  simpl. apply foldM_hierarchyStep_depthFirst. apply IH.
Qed.

Lemma depthFirst_head (d : nat) (g : gmap string RoleEntry) (r : string) :
  head (depthFirst d g r) = Some r.
Proof.
  destruct d as [| d]; simpl; [done |].
  generalize (extendersOf g r). intros ext.
  assert (head [r] = Some r) as Hhd by done. revert Hhd.
  generalize [r]. induction ext as [| e ext IH]; intros arr Hhd; simpl; [done |].
  apply IH. by apply uniqConcat_head.
Qed.

Lemma depthFirst_NoDup (d : nat) (g : gmap string RoleEntry) (r : string) :
  NoDup (depthFirst d g r).
Proof.
  destruct d as [| d]; simpl; [apply NoDup_singleton |].
  generalize (extendersOf g r). intros ext.
  assert (NoDup [r]) as Hnd by apply NoDup_singleton. revert Hnd.
  generalize [r]. induction ext as [| e ext IH]; intros arr Hnd; simpl; [done |].
  apply IH. by apply NoDup_uniqConcat.
Qed.

(** Every name of the depth-first order is reached from the role. *)
Lemma depthFirst_reach (d : nat) (g : gmap string RoleEntry) (r x : string) :
  x ∈ depthFirst d g r → rtc (extendsEdge g) r x.
Proof.
  revert r x. induction d as [| d IH]; intros r x; simpl.
  - intros ->%list_elem_of_singleton. done.
  - assert (∀ ext arr,
      (∀ e, e ∈ ext → extendsEdge g r e) →
      (∀ y, y ∈ arr → rtc (extendsEdge g) r y) →
      x ∈ foldl (λ arr e, uniqConcat arr (depthFirst d g e)) arr ext →
      rtc (extendsEdge g) r x) as Hloop.
    { induction ext as [| e ext IHext]; intros arr Hext Harr; simpl; [by apply Harr |].
      apply IHext.
      - intros e' He'. apply Hext. by right.
      - intros y [Hy | Hy]%elem_of_uniqConcat; [by apply Harr |].
        eapply rtc_l; [apply Hext; left | by apply IH]. }
    apply Hloop; [done |].
    intros y ->%list_elem_of_singleton. done.
Qed.

(** A loop that has not thrown has resolved every extender, and its
    result holds what each of these calls returned. *)
Lemma foldM_hierarchyStep_elem (rec : string → option string → Result (list string))
    (g : gmap string RoleEntry) (r : string) (root : option string)
    (ext arr l : list string) :
  foldM (hierarchyStep rec g r root) arr ext = Ok l →
  (∀ z, z ∈ arr → z ∈ l)
  ∧ ∀ y, y ∈ ext →
      ∃ ly, rec y (if strTruthy root then root else Some r) = Ok ly
            ∧ ∀ z, z ∈ ly → z ∈ l.
Proof.
  revert arr. induction ext as [| x ext IH]; intros arr; simpl.
  - intros [= ->]. split; [done |]. intros y Hy. by apply elem_of_nil in Hy.
  - destruct (hierarchyStep rec g r root arr x) as [arr' |] eqn:Hstep; simpl; [| done].
    apply hierarchyStep_Ok in Hstep as (_ & _ & lx & Hlx & ->).
    intros [Harr Hext]%IH. split.
    + intros z Hz. apply Harr, elem_of_uniqConcat. by left.
    + intros y [-> | Hy]%elem_of_cons; [| by apply Hext].
      exists lx. split; [done |]. intros z Hz. apply Harr, elem_of_uniqConcat. by right.
Qed.

(** Every role reached from the role is in the resolved list. *)
Lemma hierarchyAt_reach (g : gmap string RoleEntry) (r x : string) :
  rtc (extendsEdge g) r x →
  ∀ d root l, hierarchyAt d g r root = Ok l → x ∈ l.
Proof.
  induction 1 as [r | r y x Hedge _ IH]; intros d root l Hl.
  - apply hierarchyAt_depthFirst in Hl as ->.
    apply list_elem_of_lookup. exists 0. rewrite <- head_lookup. apply depthFirst_head.
  - destruct d as [| d]; [done |].
    rewrite hierarchyAt_S in Hl. destruct (g !! r) as [role |] eqn:Hrole; [| done].
    apply foldM_hierarchyStep_elem in Hl as [_ Hext].
    destruct (Hext y Hedge) as (ly & Hly & Hsub).
    eapply Hsub, IH, Hly.
Qed.

Lemma acyclic_rank (g : gmap string RoleEntry) (rank : string → nat) :
  (∀ a b, extendsEdge g a b → rank b < rank a) → acyclic g.
Proof.
  intros Hrank a Ha.
  assert (∀ x y, tc (extendsEdge g) x y → rank y < rank x) as Htc.
  { induction 1 as [x y Hxy | x y z Hxy _ IH]; [by apply Hrank |].
    apply Hrank in Hxy. lia. }
  apply Htc in Ha. lia.
Qed.

Lemma tblChain_acyclic : acyclic tblChain.
Proof.
  apply (acyclic_rank _ rankOf). intros a b. unfold extendsEdge, extendersOf, tblChain.
  destruct (decide (a = "A")) as [-> | HA].
  { rewrite lookup_insert_eq. simpl. intros ->%list_elem_of_singleton.
    unfold rankOf. simpl. lia. }
  rewrite lookup_insert_ne by done.
  destruct (decide (a = "B")) as [-> | HB].
  { rewrite lookup_insert_eq. simpl. intros ->%list_elem_of_singleton.
    unfold rankOf. simpl. lia. }
  rewrite lookup_insert_ne by done.
  destruct (decide (a = "C")) as [-> | HC].
  { rewrite lookup_insert_eq. simpl. by intros ?%elem_of_nil. }
  rewrite lookup_insert_ne, lookup_empty by done. by intros ?%elem_of_nil.
Qed.

Lemma size_ge_2 (g : gmap string RoleEntry) (a b : string) :
  is_Some (g !! a) → is_Some (g !! b) → a ≠ b → 2 ≤ size g.
Proof.
  intros Ha Hb Hne. rewrite <- size_dom.
  assert (size ({[a]} ∪ {[b]} : gset string) ≤ size (dom g)) as Hle.
  { apply subseteq_size. apply union_subseteq.
    split; apply singleton_subseteq_l; by apply elem_of_dom. }
  rewrite size_union, !size_singleton in Hle by set_solver. lia.
Qed.

Lemma hierarchyAt_leaf (d : nat) (g : gmap string RoleEntry) (r : string)
    (role : RoleEntry) (root : option string) :
  g !! r = Some role → default [] (extend role) = [] →
  hierarchyAt (S d) g r root = Ok [r].
Proof.
  intros Hr Hext. rewrite hierarchyAt_S, Hr. unfold extendersOf. by rewrite Hr, Hext.
Qed.

Lemma pushUniq_new (arr : list string) (item : string) :
  item ∉ arr → pushUniq arr item = arr ++ [item].
Proof. intros Hn. unfold pushUniq. by apply indexOf_false in Hn as ->. Qed.

Lemma hierarchyAt_chain (d : nat) (g : gmap string RoleEntry) (A B C : string)
    (ra rb rc : RoleEntry) :
  g !! A = Some ra → extend ra = Some [B] →
  g !! B = Some rb → extend rb = Some [C] →
  g !! C = Some rc → default [] (extend rc) = [] →
  A ≠ B ∧ B ≠ C ∧ A ≠ C ∧ hierarchyAt (S (S (S d))) g A None = Ok [A; B; C].
Proof.
  intros HA HAe HB HBe HC HCe.
  assert (B ≠ C) as HBC.
  { intros ->. rewrite HB in HC. simplify_eq. by rewrite HBe in HCe. }
  assert (A ≠ C) as HAC.
  { intros ->. rewrite HA in HC. simplify_eq. by rewrite HAe in HCe. }
  assert (A ≠ B) as HAB.
  { intros ->. rewrite HA in HB. simplify_eq. }
  split_and!; [done.. |].
  assert (∀ root, hierarchyAt (S d) g C root = Ok [C]) as HhC.
  { intros root. by eapply hierarchyAt_leaf. }
  assert (∀ root, strTruthy root && bool_decide (root = Some C) = false
                  → hierarchyAt (S (S d)) g B root = Ok [B; C]) as HhB.
  { intros root Hroot. rewrite hierarchyAt_S, HB. unfold extendersOf. rewrite HB, HBe.
    simpl. unfold hierarchyStep.
    assert (hasRole g C = true) as -> by (apply hasRole_true; eauto).
    simpl. rewrite (proj2 (String.eqb_neq C B)) by done.
    rewrite Hroot, HhC. simpl. unfold uniqConcat. simpl.
    rewrite pushUniq_new; [done |]. by intros ->%list_elem_of_singleton. }
  rewrite hierarchyAt_S, HA. unfold extendersOf. rewrite HA, HAe.
  simpl. unfold hierarchyStep.
  assert (hasRole g B = true) as -> by (apply hasRole_true; eauto).
  simpl. rewrite (proj2 (String.eqb_neq B A)) by done.
  rewrite HhB.
  - simpl. unfold uniqConcat. simpl.
    rewrite (pushUniq_new [A] B) by (by intros ->%list_elem_of_singleton). simpl.
    rewrite pushUniq_new; [done |].
    intros [-> | ->%list_elem_of_singleton]%elem_of_cons; done.
  - simpl. rewrite bool_decide_eq_false_2; [apply andb_false_r |]. by intros [= ->].
Qed.

Lemma getRoleHierarchyOf_RangeError_free (g : gmap string RoleEntry) (r : string)
    (root : option string) :
  acyclic g → getRoleHierarchyOf g r root ≠ Throw RangeError.
Proof.
  intros Hacyc. unfold getRoleHierarchyOf.
  destruct (g !! r) as [role |] eqn:Hr.
  - apply (hierarchyAt_depth g Hacyc _ ∅); [set_solver | set_solver | eauto | lia].
  - by rewrite hierarchyAt_S, Hr.
Qed.

Lemma getFlatRoles_RangeError_free (g : gmap string RoleEntry) (roles : Value) :
  acyclic g → getFlatRoles g roles ≠ Throw RangeError.
Proof.
  intros Hacyc. unfold getFlatRoles.
  destruct (length _ =? 0); [done |].
  intros (arr & x & _ & Hx)%foldM_Throw.
  destruct (getRoleHierarchyOf g x None) as [h |] eqn:Hh; simpl in Hx; [done |].
  simplify_eq. by apply getRoleHierarchyOf_RangeError_free in Hh.
Qed.

Lemma normalizeActionPossession_RangeError_free (action possession : Value) :
  normalizeActionPossession action possession ≠ Throw RangeError.
Proof.
  unfold normalizeActionPossession. destruct action; try done.
  destruct (negb _); [done |].
  match goal with |- context [truthy ?p] => destruct (truthy p); [| done] end.
  match goal with |- context [match ?p with VStr _ => _ | _ => _ end] =>
    destruct p; try done end.
  by destruct (negb _).
Qed.

Lemma normalizeQueryInfo_RangeError_free (query : Arg IQueryInfo) :
  normalizeQueryInfo query ≠ Throw RangeError.
Proof.
  unfold normalizeQueryInfo. destruct query as [q |]; [| done].
  destruct (negb _); [done |].
  destruct (q_resource q); try done.
  destruct (String.eqb _ _); [done |].
  pose proof (normalizeActionPossession_RangeError_free (q_action q) (q_possession q)).
  destruct (normalizeActionPossession _ _) as [[a p] | e]; simpl; [done | congruence].
Qed.

(** C4, as stated, fails at [tblBranch]: [A] extends [B] and [C], and [B]
    extends [D]. The resolved list has [D], an indirect extender, before
    [C], a direct one; breadth order has [C] first. *)
Lemma getRoleHierarchyOf_not_breadth_order :
  getRoleHierarchyOf tblBranch "A" None = Ok ["A"; "B"; "D"; "C"]
  ∧ breadthOrder tblBranch "A" = ["A"; "B"; "C"; "D"]
  ∧ getRoleHierarchyOf tblBranch "A" None ≠ Ok (breadthOrder tblBranch "A").
Proof.
  split_and!; [vm_compute; reflexivity | vm_compute; reflexivity |].
  intros H. vm_compute in H. discriminate H.
Qed.

(** C4, amended. A role of the table without extenders resolves to itself
    alone; if [A] extends exactly [B], [B] extends exactly [C] and [C] has
    no extenders, then [A] resolves to [[A; B; C]]; and in general a
    resolved list is the depth-first order of the role (each direct
    extender followed by its own closure before the next direct
    extender): it starts with the role, has no duplicates, and holds
    exactly the roles reached from the role through the extends lists. *)
Theorem getRoleHierarchyOf_depth_first :
  (∀ g r role root,
     g !! r = Some role → default [] (extend role) = [] →
     getRoleHierarchyOf g r root = Ok [r])
  ∧ (∀ g A B C ra rb rc,
       g !! A = Some ra → extend ra = Some [B] →
       g !! B = Some rb → extend rb = Some [C] →
       g !! C = Some rc → default [] (extend rc) = [] →
       getRoleHierarchyOf g A None = Ok [A; B; C])
  ∧ (∀ g r root l,
       getRoleHierarchyOf g r root = Ok l →
       l = depthFirstOrder g r
       ∧ head l = Some r
       ∧ NoDup l
       ∧ ∀ x, x ∈ l ↔ rtc (extendsEdge g) r x).
Proof.
  split_and!.
  - intros g r role root Hr Hext. by eapply hierarchyAt_leaf.
  - intros g A B C ra rb rc HA HAe HB HBe HC HCe.
    destruct (hierarchyAt_chain 0 g A B C ra rb rc) as (HAB & _ & _ & Hh); [done.. |].
    unfold getRoleHierarchyOf. rewrite (hierarchyAt_mono g 3); [done | | by rewrite Hh].
    assert (2 ≤ size g) by (apply (size_ge_2 g A B); eauto). lia.
  - intros g r root l Hl. unfold getRoleHierarchyOf in Hl.
    pose proof (hierarchyAt_depthFirst _ _ _ _ _ Hl) as Heq. subst l.
    split_and!; [done | apply depthFirst_head | apply depthFirst_NoDup |].
    intros x. split; [apply depthFirst_reach |].
    intros Hreach. by eapply hierarchyAt_reach.
Qed.

Lemma getRoleHierarchyOf_depth_first_witness :
  getRoleHierarchyOf tblChain "C" None = Ok ["C"]
  ∧ getRoleHierarchyOf tblChain "A" None = Ok ["A"; "B"; "C"]
  ∧ ["A"; "B"; "D"; "C"] = depthFirstOrder tblBranch "A".
Proof.
  destruct getRoleHierarchyOf_depth_first as (H1 & H2 & H3). split_and!.
  - apply (H1 tblChain "C" emptyRole None); reflexivity.
  - apply (H2 tblChain "A" "B" "C" (roleExtending ["B"]) (roleExtending ["C"]) emptyRole);
      reflexivity.
  - apply (H3 tblBranch "A" None). vm_compute. reflexivity.
Defined.

(** ** The query evaluator *)

Lemma foldM_throws {A B} (f : B → A → Result B) (e : Exn) (x : A) (l : list A) (b : B) :
  x ∈ l → (∀ b, f b x = Throw e) →
  (∀ b y e', y ∈ l → f b y = Throw e' → e' = e) →
  foldM f b l = Throw e.
Proof.
  intros Hx Hfx. revert b. induction l as [| y l IH]; intros b Hl; simpl.
  - by apply elem_of_nil in Hx.
  - destruct (f b y) as [b' | e'] eqn:Hy; simpl.
    + apply elem_of_cons in Hx as [-> | Hx]; [by rewrite Hfx in Hy |].
      apply IH; [done |]. intros b0 z e0 Hz. apply Hl. by right.
    + f_equal. eapply Hl; [left | done].
Qed.

Lemma normalizeQueryInfo_resource (query : Arg IQueryInfo) (q : QueryInfo) :
  normalizeQueryInfo query = Ok q → nq_resource q ≠ "".
Proof.
  unfold normalizeQueryInfo. destruct query as [o |]; [| done].
  destruct (negb _); [done |].
  destruct (q_resource o) as [| | | | r | |]; try done.
  destruct (String.eqb_spec (trim r) "") as [| Hne]; [done |].
  destruct (normalizeActionPossession _ _) as [[a p] |]; simpl; [| done].
  by intros [= <-].
Qed.

Lemma pushAttrs_Throw (g : gmap string RoleEntry) (q : QueryInfo)
    (attrsList : list (list string)) (r : string) (e : Exn) :
  pushAttrs g q attrsList r = Throw e → e = TypeError.
Proof.
  unfold pushAttrs. destruct (g !! r); [| congruence].
  destruct (negb _); [| done]. destruct (roleProp _ _); [done | congruence].
Qed.

(** A role of the flattened list without an entry for the resource stops
    the evaluation with a [TypeError]. *)
Lemma getUnionAttrsOfRoles_missing_entry
    (union : list string → list string → list string)
    (g : gmap string RoleEntry) (query : Arg IQueryInfo) (q : QueryInfo)
    (flat : list string) (r : string) (role : RoleEntry) :
  normalizeQueryInfo query = Ok q →
  getFlatRoles g (VArr (nq_role q)) = Ok flat →
  r ∈ flat → g !! r = Some role → roleProp role (nq_resource q) = None →
  getUnionAttrsOfRoles union g query = Throw TypeError.
Proof.
  intros Hq Hflat Hr Hrole Hprop. unfold getUnionAttrsOfRoles.
  rewrite Hq. simpl. rewrite Hflat. simpl.
  rewrite (foldM_throws _ TypeError r); [done | done | |].
  - intros b. unfold pushAttrs. rewrite Hrole, Hprop.
    apply normalizeQueryInfo_resource in Hq.
    by rewrite (proj2 (String.eqb_neq _ _)).
  - intros b y e' _. apply pushAttrs_Throw.
Qed.

(** C1. Role [u] of [tblAny] has an entry for [video] and none for
    [photo]; the query for [create] on [photo] throws a [TypeError] where
    the claim has an empty contribution and a normal return. *)
Theorem getUnionAttrsOfRoles_no_entry_throws
    (union : list string → list string → list string) :
  getUnionAttrsOfRoles union tblAny (queryOf "u" "photo" "create" "any")
  = Throw TypeError.
Proof.
  eapply (getUnionAttrsOfRoles_missing_entry union tblAny _ _ ["u"] "u");
    [reflexivity | reflexivity | left | reflexivity | reflexivity].
Qed.

Lemma getFlatRoles_single (g : gmap string RoleEntry) (u : string) (role : RoleEntry) :
  g !! u = Some role → default [] (extend role) = [] →
  getFlatRoles g (VArr [u]) = Ok [u].
Proof.
  intros Hu Hext. unfold getFlatRoles, getRoleHierarchyOf. simpl.
  rewrite (hierarchyAt_leaf _ g u role); [| done..]. simpl.
  unfold uniqConcat. simpl. unfold pushUniq at 2. simpl.
  unfold pushUniq, indexOf. rewrite bool_decide_eq_true_2; [done | left].
Qed.

(** The evaluation for one role without extenders is the contribution of
    that role. *)
Lemma getUnionAttrsOfRoles_single
    (union : list string → list string → list string)
    (g : gmap string RoleEntry) (query : Arg IQueryInfo) (q : QueryInfo)
    (u : string) (role : RoleEntry) (resource : RoleProp) :
  normalizeQueryInfo query = Ok q → nq_role q = [u] →
  g !! u = Some role → default [] (extend role) = [] →
  roleProp role (nq_resource q) = Some resource →
  getUnionAttrsOfRoles union g query = Ok (attrsOf resource q).
Proof.
  intros Hq Hrole Hu Hext Hprop. unfold getUnionAttrsOfRoles.
  rewrite Hq. simpl. rewrite Hrole, (getFlatRoles_single g u role) by done. simpl.
  unfold pushAttrs. rewrite Hu, Hprop.
  apply normalizeQueryInfo_resource in Hq.
  by rewrite (proj2 (String.eqb_neq _ _)).
Qed.

(** C3. The contribution of a role whose resource entry defines
    [action:any] and not [action:own] to a query with possession [own] is
    the [action:any] list; with [action:any] undefined, the contribution
    to a query with possession [any] is empty, whatever [action:own] holds;
    with both undefined the contribution is empty for either possession.
    For a role without extenders queried alone, the contribution is the
    result of the evaluation. *)
Theorem any_satisfies_own_not_conversely
    (union : list string → list string → list string) :
  (∀ entry role resource action attrs,
     entry !! (action +:+ ":any") = Some attrs →
     entry !! (action +:+ ":own") = None →
     attrsOf (ResourceEntry entry) (mkNQuery role resource action "own") = attrs)
  ∧ (∀ entry role resource action,
       entry !! (action +:+ ":any") = None →
       attrsOf (ResourceEntry entry) (mkNQuery role resource action "any") = [])
  ∧ (∀ entry role resource action possession,
       entry !! (action +:+ ":any") = None →
       entry !! (action +:+ ":own") = None →
       possession ∈ possessions →
       attrsOf (ResourceEntry entry) (mkNQuery role resource action possession) = [])
  ∧ (∀ g query q u role resource,
       normalizeQueryInfo query = Ok q → nq_role q = [u] →
       g !! u = Some role → default [] (extend role) = [] →
       roleProp role (nq_resource q) = Some resource →
       getUnionAttrsOfRoles union g query = Ok (attrsOf resource q)).
Proof.
  split_and!.
  - intros entry role resource action attrs Hany Hown. unfold attrsOf.
    cbn [nq_action nq_possession]. change (":" +:+ "own") with ":own".
    by rewrite Hown, Hany.
  - intros entry role resource action Hany. unfold attrsOf.
    cbn [nq_action nq_possession]. change (":" +:+ "any") with ":any".
    by rewrite Hany.
  - intros entry role resource action possession Hany Hown Hposs.
    unfold attrsOf. cbn [nq_action nq_possession]. unfold possessions in Hposs.
    apply elem_of_cons in Hposs as [-> | Hposs].
    + change (":" +:+ "own") with ":own". by rewrite Hown, Hany.
    + apply list_elem_of_singleton in Hposs as ->.
      change (":" +:+ "any") with ":any". by rewrite Hany.
  - intros g query q u role resource. apply getUnionAttrsOfRoles_single.
Qed.

Lemma any_satisfies_own_not_conversely_witness :
  getUnionAttrsOfRoles uniqConcat tblAny (queryOf "u" "video" "create" "own") = Ok ["*"]
  ∧ getUnionAttrsOfRoles uniqConcat tblOwn (queryOf "u" "video" "create" "any") = Ok []
  ∧ attrsOf (ResourceEntry ∅) (mkNQuery ["u"] "video" "create" "own") = [].
Proof.
  destruct (any_satisfies_own_not_conversely uniqConcat) as (H1 & H2 & H3 & H4).
  split_and!.
  - rewrite (H4 tblAny _ (mkNQuery ["u"] "video" "create" "own") "u"
               (mkRole None {[ "video" := {[ "create:any" := ["*"] ]} ]})
               (ResourceEntry {[ "create:any" := ["*"] ]})); [| reflexivity..].
    rewrite (H1 {[ "create:any" := ["*"] ]} ["u"] "video" "create" ["*"]);
      reflexivity.
  - rewrite (H4 tblOwn _ (mkNQuery ["u"] "video" "create" "any") "u"
               (mkRole None {[ "video" := {[ "create:own" := ["*"] ]} ]})
               (ResourceEntry {[ "create:own" := ["*"] ]})); [| reflexivity..].
    rewrite (H2 {[ "create:own" := ["*"] ]} ["u"] "video" "create"); reflexivity.
  - apply H3; [reflexivity | reflexivity |]. left.
Defined.

(** ** Running a computation *)

Lemma bind_run {S A B} (m : ST S A) (f : A → ST S B) (st : S) :
  (m ≫= f) st =
    match m st with
    | (Ok a, st') => f a st'
    | (Throw e, st') => (Throw e, st')
    end.
Proof. done. Qed.


(** A loop that throws has completed the calls for the items before one
    item, and has thrown in the call for that item. *)
Lemma forEachM_Throw {S A} (f : A → ST S unit) (l : list A) (st st' : S) (e : Exn) :
  forEachM f l st = (Throw e, st') →
  ∃ done x rest st1,
    l = done ++ x :: rest
    ∧ forEachM f done st = (Ok (), st1)
    ∧ f x st1 = (Throw e, st').
Proof.
  revert st. induction l as [| x l IH]; intros st; simpl; [done |].
  rewrite bind_run. destruct (f x st) as [[[] | e'] st1] eqn:Hx.
  - intros (dn & y & rest & st2 & -> & Hdn & Hy)%IH.
    exists (x :: dn), y, rest, st2. split_and!; [done | | done].
    simpl. by rewrite bind_run, Hx.
  - intros [= -> ->]. by exists [], x, l, st.
Qed.

(** ** Extending roles *)

Lemma crossLoop_found (g : gmap string RoleEntry) (r : string) (rest : list string)
    (e : string) :
  e ≠ "" → crossLoop g r rest (Some e) = Ok (Some e).
Proof.
  intros He. destruct rest as [| x rest]; simpl; [done |].
  by rewrite (proj2 (String.eqb_neq e "")).
Qed.

Lemma crossLoop_some (g : gmap string RoleEntry) (r : string) (ext : list string) :
  r ∉ ext → "" ∉ ext →
  (∀ e, e ∈ ext → ∃ h, getRoleHierarchyOf g e None = Ok h) →
  (∃ e h, e ∈ ext ∧ getRoleHierarchyOf g e None = Ok h ∧ r ∈ h) →
  ∃ e, e ∈ ext ∧ e ≠ "" ∧ crossLoop g r ext None = Ok (Some e).
Proof.
  induction ext as [| x ext IH]; intros Hr Hne Hres (e & h & He & Hh & Hrh).
  { by apply elem_of_nil in He. }
  apply not_elem_of_cons in Hr as [Hrx Hr]. apply not_elem_of_cons in Hne as [Hx Hne].
  simpl. rewrite (proj2 (String.eqb_neq r x)) by done.
  destruct (Hres x) as [hx Hhx]; [left |]. rewrite Hhx. simpl.
  destruct (indexOf hx r) eqn:Hin.
  - exists x. split_and!; [left | done | by apply crossLoop_found].
  - destruct IH as (e' & He' & Hne' & Hloop); [done | done | | |].
    + intros y Hy. apply Hres. by right.
    + apply elem_of_cons in He as [-> | He]; [| by eauto].
      rewrite Hhx in Hh. simplify_eq. by apply indexOf_false in Hin.
    + exists e'. split_and!; [by right | done | done].
Qed.

Lemma crossLoop_none (g : gmap string RoleEntry) (r : string) (ext : list string) :
  r ∉ ext →
  (∀ e, e ∈ ext → ∃ h, getRoleHierarchyOf g e None = Ok h ∧ r ∉ h) →
  crossLoop g r ext None = Ok None.
Proof.
  induction ext as [| x ext IH]; intros Hr Hres; simpl; [done |].
  apply not_elem_of_cons in Hr as [Hrx Hr].
  rewrite (proj2 (String.eqb_neq r x)) by done.
  destruct (Hres x) as (hx & Hhx & Hnin); [left |]. rewrite Hhx. simpl.
  apply indexOf_false in Hnin as ->. apply IH; [done |].
  intros y Hy. apply Hres. by right.
Qed.

Lemma getNonExistentRoles_nil (g : gmap string RoleEntry) (roles : list string) :
  (∀ e, e ∈ roles → is_Some (g !! e)) → getNonExistentRoles g roles = [].
Proof.
  intros Hall. unfold getNonExistentRoles.
  induction roles as [| x roles IH]; [done |].
  rewrite filter_cons_False.
  - apply IH. intros e He. apply Hall. by right.
  - intros Hx. apply Hx, Hall. left.
Qed.

Lemma getNonExistentRoles_cons (g : gmap string RoleEntry) (roles : list string)
    (e : string) :
  e ∈ roles → g !! e = None → getNonExistentRoles g roles ≠ [].
Proof.
  intros He Hnone Hnil.
  assert (e ∈ getNonExistentRoles g roles) as Hin.
  { unfold getNonExistentRoles. apply list_elem_of_filter. split; [| done].
    rewrite Hnone. by intros [? ?]. }
  rewrite Hnil in Hin. by apply elem_of_nil in Hin.
Qed.

(** The checks of [extendRole] that come before its loop over the roles,
    passed. *)
Lemma extendRole_loop (roles extenderRoles : Value) (st : Store) :
  toStringArray roles ≠ [] →
  toStringArray extenderRoles ≠ [] →
  (∀ e, e ∈ toStringArray extenderRoles → is_Some (grants st !! e)) →
  extendRole roles extenderRoles st
  = forEachM (extendOne (toStringArray extenderRoles)) (toStringArray roles) st.
Proof.
  intros Hroles Hext Hall. unfold extendRole.
  destruct (toStringArray roles) as [| r rs] eqn:Hr; [done |].
  destruct (toStringArray extenderRoles) as [| e es] eqn:He; [done |].
  assert (isEmptyArray extenderRoles = false) as ->.
  { destruct extenderRoles as [| | | | | [| ? ?] |]; done. }
  cbn [length Nat.eqb]. rewrite bind_run. unfold getGrants.
  by rewrite getNonExistentRoles_nil.
Qed.



Lemma extendOne_cross (ext : list string) (r : string) (st : Store) :
  is_Some (grants st !! r) → r ∉ ext → "" ∉ ext →
  (∀ e, e ∈ ext → ∃ h, getRoleHierarchyOf (grants st) e None = Ok h) →
  (∃ e, e ∈ ext ∧ rtc (extendsEdge (grants st)) e r) →
  ∃ e, e ∈ ext ∧ extendOne ext r st = (raise (CrossInheritance e r), st).
Proof.
  intros [role Hr] Hnin Hne Hres (e & He & Hreach).
  destruct (crossLoop_some (grants st) r ext) as (e' & He' & Hne' & Hloop); [done.. | |].
  { destruct (Hres e He) as [h Hh]. exists e, h. split_and!; [done | done |].
    by eapply hierarchyAt_reach. }
  exists e'. split; [done |].
  unfold extendOne. rewrite bind_run. unfold getGrants. rewrite Hr.
  apply indexOf_false in Hnin as ->.
  rewrite bind_run. unfold liftR, getCrossExtendingRole. simpl. rewrite Hloop.
  simpl. by rewrite (proj2 (String.eqb_neq e' "")).
Qed.

Lemma extendOne_merge (ext : list string) (r : string) (st : Store) (role : RoleEntry) :
  grants st !! r = Some role → r ∉ ext →
  (∀ e, e ∈ ext → ∃ h, getRoleHierarchyOf (grants st) e None = Ok h ∧ r ∉ h) →
  validName r false = Ok true → frozen st = false →
  extendOne ext r st
  = (Ok (),
     mkStore
       (<[r := mkRole (Some (match extend role with
                             | Some old => uniqConcat old ext
                             | None => ext
                             end)) (resources role)]> (grants st))
       false).
Proof.
  intros Hr Hnin Hres Hvalid Hfrozen.
  unfold extendOne. rewrite bind_run. unfold getGrants. rewrite Hr.
  apply indexOf_false in Hnin as Hidx. rewrite Hidx.
  rewrite bind_run. unfold liftR, getCrossExtendingRole. simpl.
  rewrite crossLoop_none by done. simpl. rewrite bind_run.
  assert (validName r true = Ok true) as ->.
  { unfold validName in *. destruct (String.eqb _ _); [done |].
    by destruct (indexOf RESERVED_KEYWORDS r). }
  destruct (extend role); unfold write; by rewrite Hfrozen.
Qed.

(** A call of the loop body that throws has written nothing. *)
Lemma extendOne_Throw (ext : list string) (r : string) (st st' : Store) (e : Exn) :
  extendOne ext r st = (Throw e, st') → st' = st.
Proof.
  unfold extendOne. rewrite bind_run. unfold getGrants.
  destruct (grants st !! r) as [role |]; [| by intros [= _ <-]].
  destruct (indexOf ext r); [by intros [= _ <-] |].
  rewrite bind_run. unfold liftR.
  destruct (getCrossExtendingRole _ _ _) as [c |]; [| by intros [= _ <-]].
  destruct (strTruthy c); [by intros [= _ <-] |].
  rewrite bind_run. destruct (validName r true); [| by intros [= _ <-]].
  destruct (extend role); unfold write; destruct (frozen st); by intros [= <-].
Qed.

(** ** Errors and the table *)

Lemma write_frozen (f : gmap string RoleEntry → gmap string RoleEntry) (st : Store) :
  frozen st = true → write f st = (Throw TypeError, st).
Proof. intros Hf. unfold write. by rewrite Hf. Qed.

Lemma forEachM_frozen {A} (f : A → M unit) (l : list A) (st : Store) :
  (∀ x st, frozen st = true → execM (f x) st = st) →
  frozen st = true → execM (forEachM f l) st = st.
Proof.
  intros Hf Hst. unfold execM in *. induction l as [| x l IH]; simpl; [done |].
  rewrite bind_run. specialize (Hf x st Hst).
  destruct (f x st) as [[[] | e] st']; simpl in *; subst; done.
Qed.

Lemma createResource_frozen (role res : string) (st : Store) :
  frozen st = true → execM (createResource role res) st = st.
Proof.
  intros Hf. unfold execM, createResource. rewrite bind_run. unfold getGrants.
  destruct (grants st !! role); [by rewrite write_frozen | done].
Qed.

Lemma setAttributes_frozen (role res ap : string) (attrs : list string) (st : Store) :
  frozen st = true → execM (setAttributes role res ap attrs) st = st.
Proof.
  intros Hf. unfold execM, setAttributes. rewrite bind_run. unfold getGrants.
  destruct (grants st !! role) as [item |]; [| done].
  destruct (resources item !! res); [by rewrite write_frozen | done].
Qed.

Lemma commitResource_frozen (role ap : string) (attrs : list string) (res : string)
    (st : Store) :
  frozen st = true → execM (commitResource role ap attrs res) st = st.
Proof.
  intros Hf. unfold execM, commitResource. rewrite bind_run. unfold liftR.
  destruct (validName res true) as [valid |]; [| done].
  rewrite bind_run. unfold getGrants. rewrite bind_run.
  destruct (valid && negb (hasResource (grants st) role res)).
  - pose proof (createResource_frozen role res st Hf) as Hc. unfold execM in Hc.
    destruct (createResource role res st) as [[[] |] st']; simpl in Hc; subst; [| done].
    by apply setAttributes_frozen.
  - by apply setAttributes_frozen.
Qed.

Lemma commitRole_frozen (accessInfo : AccessInfo) (role : string) (st : Store) :
  frozen st = true → execM (commitRole accessInfo role) st = st.
Proof.
  intros Hf. unfold execM, commitRole. rewrite bind_run. unfold liftR.
  destruct (validName role true) as [valid |]; [| done].
  rewrite bind_run. unfold getGrants. rewrite bind_run.
  destruct (valid && negb (hasRole (grants st) role)).
  - by rewrite write_frozen.
  - apply forEachM_frozen; [| done]. intros. by apply commitResource_frozen.
Qed.

Lemma commitToGrants_frozen (access : Arg IAccessInfo) (all : bool) (st : Store) :
  frozen st = true → execM (commitToGrants access all) st = st.
Proof.
  intros Hf. unfold execM, commitToGrants. rewrite bind_run. unfold liftR.
  destruct (normalizeAccessInfo access all) as [ai |]; [| done].
  apply forEachM_frozen; [| done]. intros. by apply commitRole_frozen.
Qed.

Lemma extendOne_frozen (ext : list string) (r : string) (st : Store) :
  frozen st = true → execM (extendOne ext r) st = st.
Proof.
  intros Hf. unfold execM.
  destruct (extendOne ext r st) as [[[] | e] st'] eqn:Hrun; simpl.
  - revert Hrun. unfold extendOne. rewrite bind_run. unfold getGrants.
    destruct (grants st !! r) as [role |]; [| done].
    destruct (indexOf ext r); [done |].
    rewrite bind_run. unfold liftR.
    destruct (getCrossExtendingRole _ _ _) as [c |]; [| done].
    destruct (strTruthy c); [done |].
    rewrite bind_run. destruct (validName r true); [| done].
    destruct (extend role); by rewrite write_frozen.
  - by apply extendOne_Throw in Hrun.
Qed.

Lemma extendRole_frozen (roles ext : Value) (st : Store) :
  frozen st = true → execM (extendRole roles ext) st = st.
Proof.
  intros Hf. unfold execM, extendRole.
  destruct (length (toStringArray roles) =? 0); [done |].
  destruct (isEmptyArray ext); [done |].
  destruct (length (toStringArray ext) =? 0); [done |].
  rewrite bind_run. unfold getGrants.
  destruct (0 <? length _); [done |].
  apply forEachM_frozen; [| done]. intros. by apply extendOne_frozen.
Qed.

(** A throwing [extendRole] leaves the table that the loop has made of
    it for the roles before the one it threw at. *)
Lemma extendRole_Throw (roles ext : Value) (st st' : Store) (e : Exn) :
  extendRole roles ext st = (Throw e, st') →
  ∃ done rest,
    toStringArray roles = done ++ rest ∧ (toStringArray roles ≠ [] → rest ≠ [])
    ∧ forEachM (extendOne (toStringArray ext)) done st = (Ok (), st').
Proof.
  unfold extendRole.
  destruct (toStringArray roles) as [| r rs] eqn:Hroles.
  { intros [= _ <-]. by exists [], []. }
  cbn [length Nat.eqb].
  destruct (isEmptyArray ext); [done |].
  destruct (length (toStringArray ext) =? 0).
  { intros [= _ <-]. by exists [], (r :: rs). }
  rewrite bind_run. unfold getGrants.
  destruct (0 <? length _).
  { intros [= _ <-]. by exists [], (r :: rs). }
  intros (dn & x & rest & st1 & Heq & Hdone & Hx)%forEachM_Throw.
  apply extendOne_Throw in Hx as ->.
  exists dn, (x :: rest). by rewrite Heq.
Qed.

(** ** Committing a statement again *)

Lemma store_eta (st : Store) : mkStore (grants st) (frozen st) = st.
Proof. by destruct st. Qed.

Lemma role_eta (item : RoleEntry) : mkRole (extend item) (resources item) = item.
Proof. by destruct item. Qed.

Lemma validName_true_Ok (name : string) (v : bool) :
  validName name true = Ok v → v = true.
Proof.
  unfold validName. destruct (String.eqb _ _); [done |].
  destruct (indexOf _ _); [done |]. by intros [= <-].
Qed.

Section Idempotence.

Variable ap : string.
Variable attrs : list string.

Lemma covers_refl (st : Store) : frozen st = false → covers ap attrs st st.
Proof. intros Hf. split_and!; [done.. |]. intros r item1 Hr. eauto 10. Qed.

Lemma covers_trans (st1 st2 st3 : Store) :
  covers ap attrs st1 st2 → covers ap attrs st2 st3 → covers ap attrs st1 st3.
Proof.
  intros (Hf1 & _ & H12) (_ & Hf3 & H23). split_and!; [done.. |].
  intros r item1 Hr.
  destruct (H12 r item1 Hr) as (item2 & Hr2 & Hres12).
  destruct (H23 r item2 Hr2) as (item3 & Hr3 & Hres23).
  exists item3. split; [done |]. intros res e1 He1.
  destruct (Hres12 res e1 He1) as (e2 & He2 & Hap12).
  destruct (Hres23 res e2 He2) as (e3 & He3 & Hap23).
  exists e3. split; [done |]. auto.
Qed.

Lemma covers_role (st1 st2 : Store) (role : string) :
  covers ap attrs st1 st2 → is_Some (grants st1 !! role) → is_Some (grants st2 !! role).
Proof.
  intros (_ & _ & H) [item Hitem]. destruct (H role item Hitem) as (item2 & ? & _). eauto.
Qed.

Lemma absorbing_forEachM {A} (P : Store → Prop) (f : A → M unit) (l : list A) :
  (∀ st st', P st → covers ap attrs st st' → P st') →
  (∀ x, absorbing ap attrs P (f x)) →
  absorbing ap attrs P (forEachM f l).
Proof.
  intros HP Hf. induction l as [| x l IH]; intros st r st1 Hfr HPst; simpl.
  - unfold mret, ST_ret. intros [= <- <-]. split; [by apply covers_refl | done].
  - rewrite bind_run. destruct (f x st) as [rx sta] eqn:Hx.
    destruct (Hf x st rx sta Hfr HPst Hx) as [Hcov Hre].
    destruct rx as [[] | e].
    + intros Hl.
      destruct (IH sta r st1) as [Hcov' Hre']; [apply Hcov | by eapply HP | done |].
      split; [by eapply covers_trans |].
      intros st2 Hst2. rewrite bind_run, Hre; [by apply Hre' |].
      by eapply covers_trans.
    + intros [= <- <-]. split; [done |].
      intros st2 Hst2. by rewrite bind_run, Hre.
Qed.

(** On a table that has the rule, committing it changes nothing. *)
Lemma setAttributes_again (st : Store) (role res : string) (item : RoleEntry)
    (e : gmap string (list string)) :
  frozen st = false → grants st !! role = Some item →
  resources item !! res = Some e → e !! ap = Some attrs →
  setAttributes role res ap attrs st = (Ok (), st).
Proof.
  intros Hf Hitem Hres Hap. unfold setAttributes. rewrite bind_run. unfold getGrants.
  rewrite Hitem, Hres. unfold write. rewrite Hf.
  rewrite (insert_id e), (insert_id (resources item)), role_eta, insert_id by done.
  by rewrite <- Hf, store_eta.
Qed.

Lemma commitResource_again (st : Store) (role res : string) (item : RoleEntry)
    (e : gmap string (list string)) :
  frozen st = false → grants st !! role = Some item →
  resources item !! res = Some e → e !! ap = Some attrs →
  commitResource role ap attrs res st
  = (match validName res true with Ok _ => Ok () | Throw x => Throw x end, st).
Proof.
  intros Hf Hitem Hres Hap. unfold commitResource. rewrite bind_run. unfold liftR.
  destruct (validName res true) as [v |]; [| done].
  rewrite bind_run. unfold getGrants. rewrite bind_run.
  unfold hasResource. rewrite Hitem, Hres.
  rewrite bool_decide_eq_true_2 by eauto. rewrite andb_false_r.
  unfold mret, ST_ret. by eapply setAttributes_again.
Qed.

(** What one turn of the inner loop of [commitToGrants] does to a table
    that holds the role. *)
Lemma commitResource_run (st : Store) (role res : string) (item : RoleEntry) :
  frozen st = false → grants st !! role = Some item →
  commitResource role ap attrs res st
  = match validName res true with
    | Ok _ =>
        (Ok (),
         mkStore
           (<[role := mkRole (extend item)
                        (<[res := <[ap := attrs]> (default ∅ (resources item !! res))]>
                           (resources item))]> (grants st)) false)
    | Throw e => (Throw e, st)
    end.
Proof.
  intros Hf Hitem. unfold commitResource. rewrite bind_run. unfold liftR.
  destruct (validName res true) as [v |] eqn:Hv; [| done].
  apply validName_true_Ok in Hv as ->.
  rewrite bind_run. unfold getGrants. rewrite bind_run.
  unfold hasResource. rewrite Hitem.
  destruct (resources item !! res) as [e1 |] eqn:Hres.
  - rewrite bool_decide_eq_true_2 by eauto. simpl. unfold mret, ST_ret.
    unfold setAttributes. rewrite bind_run. unfold getGrants.
    rewrite Hitem, Hres. unfold write. by rewrite Hf.
  - rewrite bool_decide_eq_false_2 by (by intros [? ?]). simpl.
    unfold createResource. rewrite bind_run. unfold getGrants. rewrite Hitem.
    unfold write at 1. rewrite Hf.
    unfold setAttributes. rewrite bind_run. unfold getGrants. simpl.
    rewrite lookup_insert_eq. simpl. rewrite lookup_insert_eq.
    unfold write. simpl. by rewrite !insert_insert_eq.
Qed.

(** The rule is in the table that a turn of the inner loop has left. *)
Lemma commitResource_Ok (st st1 : Store) (role res : string) :
  frozen st = false → is_Some (grants st !! role) →
  commitResource role ap attrs res st = (Ok (), st1) →
  ∃ item entry,
    grants st1 !! role = Some item ∧ resources item !! res = Some entry
    ∧ entry !! ap = Some attrs.
Proof.
  intros Hf [item Hitem]. rewrite (commitResource_run st role res item) by done.
  destruct (validName res true); [| done]. intros [= <-]. simpl.
  eexists _, _. rewrite lookup_insert_eq. split; [done |]. simpl.
  rewrite lookup_insert_eq. split; [done |]. apply lookup_insert_eq.
Qed.

Lemma commitResource_absorbing (role res : string) :
  absorbing ap attrs (λ st, is_Some (grants st !! role))
    (commitResource role ap attrs res).
Proof.
  intros st r st1 Hf [item Hitem].
  rewrite (commitResource_run st role res item) by done.
  destruct (validName res true) as [v |] eqn:Hv.
  - intros [= <- <-]. split.
    + split_and!; [done.. |]. simpl. intros r0 item1 Hr0.
      destruct (decide (r0 = role)) as [-> | Hne].
      * rewrite lookup_insert_eq. eexists. split; [done |]. simpl.
        intros res0 e1 He1. simplify_eq.
        destruct (decide (res0 = res)) as [-> | Hne].
        -- rewrite lookup_insert_eq. eexists. split; [done |]. intros _.
           apply lookup_insert_eq.
        -- rewrite lookup_insert_ne by done. eauto.
      * rewrite lookup_insert_ne by done. eauto 10.
    + intros st2 (_ & Hf2 & H). simpl in H.
      destruct (H role _ (lookup_insert_eq _ _ _)) as (item2 & Hitem2 & Hres2).
      destruct (Hres2 res _ (lookup_insert_eq _ _ _)) as (e2 & He2 & Hap2).
      erewrite commitResource_again; [by rewrite Hv | done.. |].
      apply Hap2, lookup_insert_eq.
  - intros [= <- <-]. split; [by apply covers_refl |].
    intros st2 _. unfold commitResource. rewrite bind_run. unfold liftR.
    by rewrite Hv.
Qed.

End Idempotence.

Lemma commitRole_absorbing (ai : AccessInfo) (role : string) :
  absorbing (toString (na_action ai) +:+ ":" +:+ toString (na_possession ai))
    (na_attributes ai) (λ _, True) (commitRole ai role).
Proof.
  set (ap := toString (na_action ai) +:+ ":" +:+ toString (na_possession ai)).
  set (attrs := na_attributes ai).
  assert (∀ st, is_Some (grants st !! role) →
            commitRole ai role st
            = match validName role true with
              | Ok _ => forEachM (commitResource role ap attrs) (na_resource ai) st
              | Throw e => (Throw e, st)
              end) as Hhas.
  { intros st Hrole. unfold commitRole. rewrite bind_run. unfold liftR.
    destruct (validName role true) as [v |]; [| done].
    rewrite bind_run. unfold getGrants. rewrite bind_run.
    unfold hasRole. rewrite bool_decide_eq_true_2 by done.
    by rewrite andb_false_r. }
  pose proof (absorbing_forEachM ap attrs (λ st, is_Some (grants st !! role))
                (commitResource role ap attrs) (na_resource ai)) as Hloop.
  intros st r st1 Hf _.
  destruct (validName role true) as [v |] eqn:Hv.
  - apply validName_true_Ok in Hv as Hv'. subst v.
    destruct (grants st !! role) as [item |] eqn:Hitem.
    + rewrite Hhas by eauto. rewrite ?Hv. intros Hrun.
      destruct (Hloop) with (st := st) (r := r) (st1 := st1) as [Hcov Hre];
        [intros; by eapply covers_role | apply commitResource_absorbing | done | eauto
        | done |].
      split; [done |]. intros st2 Hst2.
      rewrite Hhas; [rewrite ?Hv; by apply Hre |].
      apply (covers_role ap attrs st st2); [| eauto].
      by apply (covers_trans ap attrs st st1 st2).
    + unfold commitRole at 1. rewrite bind_run. unfold liftR. rewrite Hv.
      rewrite bind_run. unfold getGrants. rewrite bind_run.
      unfold hasRole. rewrite Hitem.
      rewrite bool_decide_eq_false_2 by (by intros [? ?]). simpl.
      unfold write. rewrite Hf. intros Hrun.
      assert (covers ap attrs st (mkStore (<[role := emptyRole]> (grants st)) false))
        as Hcov0.
      { split_and!; [done.. |]. simpl. intros r0 item1 Hr0.
        rewrite lookup_insert_ne by (intros ->; congruence). eauto 10. }
      destruct (Hloop) with (st := mkStore (<[role := emptyRole]> (grants st)) false)
                            (r := r) (st1 := st1) as [Hcov Hre];
        [intros; by eapply covers_role | apply commitResource_absorbing | done
        | simpl; rewrite lookup_insert_eq; eauto | done |].
      split; [by eapply covers_trans |]. intros st2 Hst2.
      rewrite Hhas; [rewrite ?Hv; by apply Hre |].
      apply (covers_role ap attrs (mkStore (<[role := emptyRole]> (grants st)) false) st2).
      * by apply (covers_trans ap attrs _ st1 st2).
      * simpl. rewrite lookup_insert_eq. eauto.
  - unfold commitRole at 1. rewrite bind_run. unfold liftR. rewrite Hv.
    intros [= <- <-]. split; [by apply covers_refl |].
    intros st2 _. unfold commitRole. rewrite bind_run. unfold liftR. by rewrite Hv.
Qed.

(** A second commit of a statement repeats the outcome of the first and
    leaves the table of the first. *)
Lemma commitToGrants_again (access : Arg IAccessInfo) (all : bool) (st : Store) :
  commitToGrants access all (execM (commitToGrants access all) st)
  = (evalM (commitToGrants access all) st, execM (commitToGrants access all) st).
Proof.
  destruct (frozen st) eqn:Hf.
  { rewrite commitToGrants_frozen by done. unfold evalM.
    pose proof (commitToGrants_frozen access all st Hf) as Hst. unfold execM in Hst.
    destruct (commitToGrants access all st); simpl in *. by subst. }
  unfold evalM, execM, commitToGrants. rewrite !bind_run. unfold liftR.
  destruct (normalizeAccessInfo access all) as [ai |]; [| done].
  destruct (forEachM (commitRole ai) (na_role ai) st) as [r st1] eqn:Hrun. simpl.
  destruct (absorbing_forEachM
              (toString (na_action ai) +:+ ":" +:+ toString (na_possession ai))
              (na_attributes ai) (λ _, True) (commitRole ai) (na_role ai))
    with (st := st) (r := r) (st1 := st1) as [Hcov Hre];
    [done | apply commitRole_absorbing | done | done | done |].
  apply Hre. apply covers_refl. apply Hcov.
Qed.

Lemma covers_rule (ap : string) (attrs : list string) (st1 st2 : Store)
    (role res : string) :
  covers ap attrs st1 st2 →
  (∃ item entry, grants st1 !! role = Some item ∧ resources item !! res = Some entry
                 ∧ entry !! ap = Some attrs) →
  ∃ item entry, grants st2 !! role = Some item ∧ resources item !! res = Some entry
                ∧ entry !! ap = Some attrs.
Proof.
  intros (_ & _ & H) (item & entry & Hitem & Hentry & Hap).
  destruct (H role item Hitem) as (item2 & Hitem2 & Hres).
  destruct (Hres res entry Hentry) as (e2 & He2 & Hap2). eauto 10.
Qed.

Lemma forEachM_commitResource_Ok (ap : string) (attrs : list string) (role : string)
    (l : list string) (st st' : Store) :
  frozen st = false → is_Some (grants st !! role) →
  forEachM (commitResource role ap attrs) l st = (Ok (), st') →
  ∀ res, res ∈ l →
    ∃ item entry, grants st' !! role = Some item ∧ resources item !! res = Some entry
                  ∧ entry !! ap = Some attrs.
Proof.
  revert st. induction l as [| x l IH]; intros st Hf Hrole Hrun res Hres.
  { by apply elem_of_nil in Hres. }
  simpl in Hrun. rewrite bind_run in Hrun.
  destruct (commitResource role ap attrs x st) as [[[] | e] sta] eqn:Hx; [| done].
  destruct (commitResource_absorbing ap attrs role x st (Ok ()) sta) as [Hcov _];
    [done.. |].
  assert (frozen sta = false) as Hfa by apply Hcov.
  assert (is_Some (grants sta !! role)) as Hra by (by eapply covers_role).
  apply elem_of_cons in Hres as [-> | Hres]; [| by eapply IH].
  destruct (absorbing_forEachM ap attrs (λ st, is_Some (grants st !! role))
              (commitResource role ap attrs) l) with (st := sta) (r := Ok ()) (st1 := st')
    as [Hcov' _];
    [intros; by eapply covers_role | apply commitResource_absorbing | done.. |].
  apply (covers_rule ap attrs sta st'); [done |].
  by apply (commitResource_Ok ap attrs st sta).
Qed.

Lemma commitRole_Ok (ai : AccessInfo) (role : string) (st st' : Store) :
  frozen st = false → commitRole ai role st = (Ok (), st') →
  ∀ res, res ∈ na_resource ai →
    ∃ item entry,
      grants st' !! role = Some item ∧ resources item !! res = Some entry
      ∧ entry !! (toString (na_action ai) +:+ ":" +:+ toString (na_possession ai))
        = Some (na_attributes ai).
Proof.
  intros Hf. unfold commitRole. rewrite bind_run. unfold liftR.
  destruct (validName role true) as [v |] eqn:Hv; [| done].
  apply validName_true_Ok in Hv as ->.
  rewrite bind_run. unfold getGrants. rewrite bind_run.
  destruct (hasRole (grants st) role) eqn:Hhas; simpl.
  - unfold mret, ST_ret. apply forEachM_commitResource_Ok; [done |].
    by apply hasRole_true.
  - unfold write. rewrite Hf. apply forEachM_commitResource_Ok; [done |].
    simpl. rewrite lookup_insert_eq. eauto.
Qed.

Lemma forEachM_commitRole_Ok (ai : AccessInfo) (l : list string) (st st' : Store) :
  frozen st = false →
  forEachM (commitRole ai) l st = (Ok (), st') →
  ∀ role res, role ∈ l → res ∈ na_resource ai →
    ∃ item entry,
      grants st' !! role = Some item ∧ resources item !! res = Some entry
      ∧ entry !! (toString (na_action ai) +:+ ":" +:+ toString (na_possession ai))
        = Some (na_attributes ai).
Proof.
  revert st. induction l as [| x l IH]; intros st Hf Hrun role res Hrole Hres.
  { by apply elem_of_nil in Hrole. }
  simpl in Hrun. rewrite bind_run in Hrun.
  destruct (commitRole ai x st) as [[[] | e] sta] eqn:Hx; [| done].
  destruct (commitRole_absorbing ai x st (Ok ()) sta) as [Hcov _]; [done.. |].
  assert (frozen sta = false) as Hfa by apply Hcov.
  apply elem_of_cons in Hrole as [-> | Hrole]; [| by eapply IH].
  destruct (absorbing_forEachM
              (toString (na_action ai) +:+ ":" +:+ toString (na_possession ai))
              (na_attributes ai) (λ _, True) (commitRole ai) l)
    with (st := sta) (r := Ok ()) (st1 := st') as [Hcov' _];
    [done | apply commitRole_absorbing | done.. |].
  eapply covers_rule; [exact Hcov' |]. by apply (commitRole_Ok ai _ st sta).
Qed.

(** ** Tables without inheritance cycles *)

(** Adding to the extenders of [r] names that do not reach [r] makes no
    cycle. *)
Lemma acyclic_add_edges (g g' : gmap string RoleEntry) (r : string) (ext : list string) :
  acyclic g →
  (∀ x, x ≠ r → extendersOf g' x = extendersOf g x) →
  (∀ y, y ∈ extendersOf g' r → y ∈ extendersOf g r ∨ y ∈ ext) →
  (∀ e, e ∈ ext → ¬ rtc (extendsEdge g) e r) →
  acyclic g'.
Proof.
  intros Hacyc Hother Hnew Hext.
  assert (∀ x y, extendsEdge g' x y → extendsEdge g x y ∨ (x = r ∧ y ∈ ext)) as Hedge.
  { intros x y Hxy. unfold extendsEdge in *.
    destruct (decide (x = r)) as [-> | Hne].
    - destruct (Hnew y Hxy); auto.
    - left. by rewrite <- Hother. }
  assert (∀ x, rtc (extendsEdge g') x r → rtc (extendsEdge g) x r) as Hto.
  { apply rtc_ind_l; [done |]. intros x y Hxy _ IH.
    destruct (Hedge x y Hxy) as [Hold | [-> _]]; [| done].
    by eapply rtc_l. }
  assert (∀ x y, tc (extendsEdge g') x y →
            tc (extendsEdge g) x y
            ∨ (rtc (extendsEdge g') x r ∧ ∃ e, e ∈ ext ∧ rtc (extendsEdge g') e y))
    as Htc.
  { induction 1 as [x y Hxy | x z y Hxz Hzy IH].
    - destruct (Hedge x y Hxy) as [Hold | [-> Hy]]; [left; by apply tc_once |].
      right. split; [done |]. by exists y.
    - destruct (Hedge x z Hxz) as [Hold | [-> Hz]].
      + destruct IH as [Hzy' | [Hzr He]].
        * left. by eapply tc_l.
        * right. split; [| done]. by eapply rtc_l.
      + right. split; [done |]. exists z. split; [done |]. by apply tc_rtc. }
  intros a Ha. destruct (Htc a a Ha) as [Hold | [Har (e & He & Hea)]].
  - by apply (Hacyc a).
  - apply (Hext e He), Hto. by etrans.
Qed.

Lemma crossLoop_falsy (g : gmap string RoleEntry) (r : string) (ext : list string)
    (c : option string) :
  r ∉ ext → "" ∉ ext →
  crossLoop g r ext None = Ok c → strTruthy c = false →
  ∀ e, e ∈ ext → ∃ h, getRoleHierarchyOf g e None = Ok h ∧ r ∉ h.
Proof.
  induction ext as [| x ext IH]; intros Hr Hne Hloop Hc e He.
  { by apply elem_of_nil in He. }
  apply not_elem_of_cons in Hr as [Hrx Hr]. apply not_elem_of_cons in Hne as [Hx Hne].
  simpl in Hloop. rewrite (proj2 (String.eqb_neq r x)) in Hloop by done.
  destruct (getRoleHierarchyOf g x None) as [hx |] eqn:Hhx; simpl in Hloop; [| done].
  destruct (indexOf hx r) eqn:Hin.
  - rewrite crossLoop_found in Hloop by done. simplify_eq. simpl in Hc.
    by rewrite (proj2 (String.eqb_neq x "")) in Hc.
  - apply elem_of_cons in He as [-> | He]; [| by apply IH].
    exists hx. split; [done |]. by apply indexOf_false.
Qed.

(** What a call of the loop body of [extendRole] that returns has
    checked and written. *)
Lemma extendOne_Ok (ext : list string) (r : string) (st st' : Store) :
  extendOne ext r st = (Ok (), st') →
  ∃ role c,
    grants st !! r = Some role ∧ (r ∉ ext)
    ∧ crossLoop (grants st) r ext None = Ok c ∧ strTruthy c = false
    ∧ st' = mkStore
              (<[r := mkRole (Some (match extend role with
                                    | Some old => uniqConcat old ext
                                    | None => ext
                                    end)) (resources role)]> (grants st))
              (frozen st).
Proof.
  unfold extendOne. rewrite bind_run. unfold getGrants.
  destruct (grants st !! r) as [role |]; [| done].
  destruct (indexOf ext r) eqn:Hidx; [done |]. apply indexOf_false in Hidx.
  rewrite bind_run. unfold liftR, getCrossExtendingRole. simpl.
  destruct (crossLoop (grants st) r ext None) as [c |] eqn:Hloop; [| done].
  destruct (strTruthy c) eqn:Hc; [done |].
  rewrite bind_run. destruct (validName r true); [| done].
  intros Hw. exists role, c. split_and!; [done.. |].
  destruct (extend role); unfold write in Hw; destruct (frozen st); by simplify_eq.
Qed.

Lemma extendOne_acyclic (ext : list string) (r : string) (st st' : Store) :
  "" ∉ ext → acyclic (grants st) →
  extendOne ext r st = (Ok (), st') → acyclic (grants st').
Proof.
  intros Hne Hacyc (role & c & Hr & Hnin & Hloop & Hc & ->)%extendOne_Ok. simpl.
  apply (acyclic_add_edges (grants st) _ r ext); [done | | |].
  - intros x Hx. unfold extendersOf. by rewrite lookup_insert_ne.
  - intros y. unfold extendersOf. rewrite lookup_insert_eq, Hr. simpl.
    destruct (extend role) as [old |]; simpl; [| by right].
    by intros ?%elem_of_uniqConcat.
  - intros e He Hreach.
    destruct (crossLoop_falsy (grants st) r ext c Hnin Hne Hloop Hc e He)
      as (h & Hh & Hrh).
    apply Hrh. by eapply hierarchyAt_reach.
Qed.

Lemma forEachM_invariant {A} (f : A → M unit) (I : Store → Prop) (l : list A)
    (st : Store) :
  (∀ x st, I st → I (execM (f x) st)) →
  I st → I (execM (forEachM f l) st).
Proof.
  intros Hf. unfold execM in *. revert st.
  induction l as [| x l IH]; intros st Hst; simpl; [done |].
  rewrite bind_run. specialize (Hf x st Hst).
  destruct (f x st) as [[[] | e] st1]; simpl in *; [by apply IH | done].
Qed.

Lemma extendOne_wellFormed (ext : list string) (r : string) (st : Store) :
  "" ∉ ext → wellFormed (grants st) →
  wellFormed (grants (execM (extendOne ext r) st)).
Proof.
  intros Hne [Hacyc Hnames]. unfold execM.
  destruct (extendOne ext r st) as [[[] | e] st'] eqn:Hrun; simpl.
  - split; [by apply (extendOne_acyclic ext r st) |].
    apply extendOne_Ok in Hrun as (role & c & Hr & _ & _ & _ & ->). simpl.
    rewrite lookup_insert_ne; [done |]. intros ->. by rewrite Hnames in Hr.
  - by apply extendOne_Throw in Hrun as ->.
Qed.

(** [extendRole] keeps a table well formed. An extender of the empty name
    is not in the table, and is reported before the first write. *)
Lemma extendRole_wellFormed (roles extenderRoles : Value) (st : Store) :
  wellFormed (grants st) →
  wellFormed (grants (execM (extendRole roles extenderRoles) st)).
Proof.
  intros Hwf. unfold execM, extendRole.
  destruct (length (toStringArray roles) =? 0); [done |].
  destruct (isEmptyArray extenderRoles); [done |].
  destruct (length (toStringArray extenderRoles) =? 0); [done |].
  rewrite bind_run. unfold getGrants.
  destruct (0 <? length _) eqn:Hnon; [done |].
  apply (forEachM_invariant _ (λ st, wellFormed (grants st))); [| done].
  intros x st1 Hst1. apply extendOne_wellFormed; [| done].
  intros Hin. apply Nat.ltb_ge in Hnon.
  assert ("" ∈ getNonExistentRoles (grants st) (toStringArray extenderRoles)) as Hmem.
  { apply list_elem_of_filter. split; [| done].
    destruct Hwf as [_ ->]. by intros [? ?]. }
  destruct (getNonExistentRoles _ _); [by apply elem_of_nil in Hmem | simpl in Hnon; lia].
Qed.

Lemma extendRole_acyclic (roles extenderRoles : Value) (st : Store) :
  "" ∉ toStringArray extenderRoles → acyclic (grants st) →
  acyclic (grants (execM (extendRole roles extenderRoles) st)).
Proof.
  intros Hne Hacyc. unfold execM, extendRole.
  destruct (length (toStringArray roles) =? 0); [done |].
  destruct (isEmptyArray extenderRoles); [done |].
  destruct (length (toStringArray extenderRoles) =? 0); [done |].
  rewrite bind_run. unfold getGrants.
  destruct (0 <? length _); [done |].
  apply (forEachM_invariant _ (λ st, acyclic (grants st))); [| done].
  intros x st1 Hst1. unfold execM.
  destruct (extendOne _ x st1) as [[[] | e] st2] eqn:Hrun; simpl.
  - by apply (extendOne_acyclic (toStringArray extenderRoles) x st1).
  - by apply extendOne_Throw in Hrun as ->.
Qed.

(** The committer leaves the extends lists as they are. *)
Lemma commitResource_extendersOf (role ap : string) (attrs : list string)
    (res : string) (st : Store) (x : string) :
  extendersOf (grants (execM (commitResource role ap attrs res) st)) x
  = extendersOf (grants st) x.
Proof.
  unfold execM. destruct (frozen st) eqn:Hf.
  { pose proof (commitResource_frozen role ap attrs res st Hf) as H.
    unfold execM in H. by rewrite H. }
  destruct (grants st !! role) as [item |] eqn:Hitem.
  - rewrite (commitResource_run ap attrs st role res item) by done.
    destruct (validName res true); [| done]. simpl. unfold extendersOf.
    destruct (decide (x = role)) as [-> | Hne].
    + by rewrite lookup_insert_eq, Hitem.
    + by rewrite lookup_insert_ne.
  - unfold commitResource. rewrite bind_run. unfold liftR.
    destruct (validName res true) as [v |]; [| done].
    rewrite bind_run. unfold getGrants. rewrite bind_run.
    unfold hasResource. rewrite Hitem. rewrite andb_true_r.
    destruct v; simpl.
    + unfold createResource. rewrite bind_run. unfold getGrants. by rewrite Hitem.
    + unfold mret, ST_ret, setAttributes. rewrite bind_run. unfold getGrants.
      by rewrite Hitem.
Qed.

Lemma forEachM_extendersOf {A} (f : A → M unit) (l : list A) (st : Store) (x : string) :
  (∀ y st, extendersOf (grants (execM (f y) st)) x = extendersOf (grants st) x) →
  extendersOf (grants (execM (forEachM f l) st)) x = extendersOf (grants st) x.
Proof.
  intros Hf. unfold execM in *. revert st.
  induction l as [| y l IH]; intros st; simpl; [done |].
  rewrite bind_run. specialize (Hf y st).
  destruct (f y st) as [[[] | e] st1]; simpl in *; [| done].
  by rewrite IH.
Qed.

Lemma commitRole_extendersOf (ai : AccessInfo) (role : string) (st : Store) (x : string) :
  extendersOf (grants (execM (commitRole ai role) st)) x = extendersOf (grants st) x.
Proof.
  unfold execM, commitRole. rewrite bind_run. unfold liftR.
  destruct (validName role true) as [v |]; [| done].
  rewrite bind_run. unfold getGrants. rewrite bind_run.
  destruct (v && negb (hasRole (grants st) role)) eqn:Hc.
  - unfold write. destruct (frozen st); [done |].
    match goal with
    | |- extendersOf (grants (forEachM ?f ?l ?s).2) _ = _ =>
        change (forEachM f l s).2 with (execM (forEachM f l) s)
    end.
    rewrite forEachM_extendersOf by (intros; apply commitResource_extendersOf).
    simpl. apply andb_true_iff in Hc as [_ Hc]. apply negb_true_iff in Hc.
    unfold hasRole in Hc. apply bool_decide_eq_false in Hc.
    unfold extendersOf. destruct (decide (x = role)) as [-> | Hne].
    + rewrite lookup_insert_eq. simpl.
      destruct (grants st !! role) eqn:E; [| done]. destruct Hc. eauto.
    + by rewrite lookup_insert_ne.
  - unfold mret, ST_ret.
    apply (forEachM_extendersOf _ (na_resource ai) st x).
    intros. apply commitResource_extendersOf.
Qed.

Lemma commitToGrants_extendersOf (access : Arg IAccessInfo) (all : bool) (st : Store)
    (x : string) :
  extendersOf (grants (execM (commitToGrants access all) st)) x
  = extendersOf (grants st) x.
Proof.
  unfold execM, commitToGrants. rewrite bind_run. unfold liftR.
  destruct (normalizeAccessInfo access all) as [ai |]; [| done].
  apply (forEachM_extendersOf _ (na_role ai) st x).
  intros. apply commitRole_extendersOf.
Qed.

Lemma commitToGrants_acyclic (access : Arg IAccessInfo) (all : bool) (st : Store) :
  acyclic (grants st) → acyclic (grants (execM (commitToGrants access all) st)).
Proof.
  intros Hacyc.
  apply (acyclic_add_edges (grants st) _ "" []); [done | | | by intros e ?%elem_of_nil].
  - intros x _. apply commitToGrants_extendersOf.
  - intros y. rewrite commitToGrants_extendersOf. by left.
Qed.

(** The committer adds roles of valid names only. *)
Lemma commitResource_roles (role ap : string) (attrs : list string)
    (res : string) (st : Store) (x : string) :
  is_Some (grants (execM (commitResource role ap attrs res) st) !! x)
  → is_Some (grants st !! x).
Proof.
  unfold execM. destruct (frozen st) eqn:Hf.
  { pose proof (commitResource_frozen role ap attrs res st Hf) as H.
    unfold execM in H. by rewrite H. }
  destruct (grants st !! role) as [item |] eqn:Hitem.
  - rewrite (commitResource_run ap attrs st role res item) by done.
    destruct (validName res true); [| done]. simpl.
    destruct (decide (x = role)) as [-> | Hne].
    + by rewrite Hitem.
    + by rewrite lookup_insert_ne.
  - unfold commitResource. rewrite bind_run. unfold liftR.
    destruct (validName res true) as [v |]; [| done].
    rewrite bind_run. unfold getGrants. rewrite bind_run.
    unfold hasResource. rewrite Hitem. rewrite andb_true_r.
    destruct v; simpl.
    + unfold createResource. rewrite bind_run. unfold getGrants. by rewrite Hitem.
    + unfold mret, ST_ret, setAttributes. rewrite bind_run. unfold getGrants.
      by rewrite Hitem.
Qed.

Lemma commitRole_roles (ai : AccessInfo) (role : string) (st : Store) (x : string) :
  is_Some (grants (execM (commitRole ai role) st) !! x)
  → is_Some (grants st !! x) ∨ validName x true = Ok true.
Proof.
  unfold execM, commitRole. rewrite bind_run. unfold liftR.
  destruct (validName role true) as [v |] eqn:Hv; [| by left].
  rewrite bind_run. unfold getGrants. rewrite bind_run.
  match goal with
  | |- context [forEachM ?f ?l] =>
      assert (∀ s, is_Some (grants (execM (forEachM f l) s) !! x)
                   → is_Some (grants s !! x)) as Hloop
  end.
  { intros s. apply (forEachM_invariant _
      (λ s', is_Some (grants s' !! x) → is_Some (grants s !! x))); [| done].
    intros y s' Hs' Hy. apply Hs'. by apply commitResource_roles in Hy. }
  unfold execM in Hloop.
  destruct (v && negb (hasRole (grants st) role)) eqn:Hc.
  - unfold write. destruct (frozen st); [by left |].
    intros Hx%Hloop. simpl in Hx.
    destruct (decide (x = role)) as [-> | Hne].
    + right. apply andb_true_iff in Hc as [-> _]. done.
    + left. by rewrite lookup_insert_ne in Hx.
  - unfold mret, ST_ret. intros Hx%Hloop. by left.
Qed.

Lemma commitToGrants_roles (access : Arg IAccessInfo) (all : bool) (st : Store)
    (x : string) :
  is_Some (grants (execM (commitToGrants access all) st) !! x)
  → is_Some (grants st !! x) ∨ validName x true = Ok true.
Proof.
  unfold execM, commitToGrants. rewrite bind_run. unfold liftR.
  destruct (normalizeAccessInfo access all) as [ai |]; [| by left].
  apply (forEachM_invariant _
    (λ s, is_Some (grants s !! x)
          → is_Some (grants st !! x) ∨ validName x true = Ok true)); [| by left].
  intros y s Hs Hy. apply commitRole_roles in Hy as [Hy | Hy]; [by apply Hs | by right].
Qed.

(** [commitToGrants] keeps a table well formed. *)
Lemma commitToGrants_wellFormed (access : Arg IAccessInfo) (all : bool) (st : Store) :
  wellFormed (grants st) →
  wellFormed (grants (execM (commitToGrants access all) st)).
Proof.
  intros [Hacyc Hnames]. split; [by apply commitToGrants_acyclic |].
  destruct (grants (execM _ st) !! "") as [role |] eqn:Hrole; [| done].
  destruct (commitToGrants_roles access all st "") as [[? Hx] | Hx];
    [by rewrite Hrole | by rewrite Hnames in Hx | done].
Qed.

Lemma wellFormed_empty : wellFormed ∅.
Proof.
  split; [| done]. intros a Ha.
  inversion Ha as [x y Hxy | x y z Hxy _]; subst;
    unfold extendsEdge, extendersOf in Hxy; rewrite lookup_empty in Hxy;
    by apply elem_of_nil in Hxy.
Qed.

(** The check of [getRoleHierarchyOf] against cycles compares an extender
    with the role the resolution started from and with the role it
    extends, with no other: in [tblCycle] the resolution from [B], on the
    cycle, is rejected, and the resolution from [A], which leads into the
    cycle without being on it, exhausts any depth. *)
Lemma tblCycle_roles :
  tblCycle !! "A" = Some (roleExtending ["B"])
  ∧ tblCycle !! "B" = Some (roleExtending ["C"])
  ∧ tblCycle !! "C" = Some (roleExtending ["B"]).
Proof. split_and!; vm_compute; reflexivity. Qed.

Lemma hierarchyAt_into_cycle (d : nat) :
  hierarchyAt d tblCycle "B" (Some "A") = Throw RangeError
  ∧ hierarchyAt d tblCycle "C" (Some "A") = Throw RangeError.
Proof.
  destruct tblCycle_roles as (HA & HB & HC).
  induction d as [| d [IHB IHC]]; [done |].
  split; rewrite hierarchyAt_unfold.
  - rewrite HB. simpl. unfold hierarchyStep, hasRole. rewrite HC. simpl.
    by rewrite IHC.
  - rewrite HC. simpl. unfold hierarchyStep, hasRole. rewrite HB. simpl.
    by rewrite IHB.
Qed.

Lemma resolution_on_cyclic_table :
  (∀ d, hierarchyAt d tblCycle "A" None = Throw RangeError)
  ∧ getRoleHierarchyOf tblCycle "B" None = raise (CrossInheritance "B" "B")
  ∧ ¬ acyclic tblCycle.
Proof.
  destruct tblCycle_roles as (HA & HB & HC). split_and!.
  - intros [| d]; [done |]. rewrite hierarchyAt_unfold, HA. simpl.
    unfold hierarchyStep, hasRole. rewrite HB. simpl.
    by rewrite (proj1 (hierarchyAt_into_cycle d)).
  - vm_compute. reflexivity.
  - intros H. apply (H "B"). apply (tc_l _ "B" "C" "B"); [| apply tc_once];
      unfold extendsEdge, extendersOf; rewrite ?HB, ?HC; simpl; left.
Qed.

(** Why a well-formed table has no role of the empty name: such an
    extender is taken for the absence of a cross-inheriting one, and
    [extendRole] closes a cycle with it. *)
Lemma extendRole_by_empty_name :
  acyclic tblNoName
  ∧ evalM (extendRole (VStr "A") (VArr [""])) (mkStore tblNoName false) = Ok ()
  ∧ ¬ acyclic (grants (execM (extendRole (VStr "A") (VArr [""]))
                         (mkStore tblNoName false))).
Proof.
  split_and!.
  - apply (acyclic_rank _ (λ r, if String.eqb r "" then 1 else 0)).
    intros a b. unfold extendsEdge, extendersOf, tblNoName.
    destruct (decide (a = "")) as [-> | Hne].
    { rewrite lookup_insert_eq. simpl. intros ->%list_elem_of_singleton.
      simpl. lia. }
    rewrite lookup_insert_ne by done.
    destruct (decide (a = "A")) as [-> | HA].
    { rewrite lookup_insert_eq. simpl. by intros ?%elem_of_nil. }
    rewrite lookup_insert_ne, lookup_empty by done. by intros ?%elem_of_nil.
  - vm_compute. reflexivity.
  - intros H. apply (H "A"). apply (tc_l _ "A" "" "A"); [| apply tc_once];
      unfold extendsEdge; vm_compute; left.
Qed.

(** ** The lock *)

Lemma validName_not_Locked (name : string) (t : bool) :
  validName name t ≠ raise Locked.
Proof.
  unfold validName. destruct (String.eqb _ _); [by destruct (negb t) |].
  destruct (indexOf _ _); by destruct (negb t).
Qed.

Lemma normalizeActionPossession_not_Locked (action possession : Value) :
  normalizeActionPossession action possession ≠ raise Locked.
Proof.
  unfold normalizeActionPossession. destruct action; try done.
  destruct (negb _); [done |].
  match goal with |- context [truthy ?p] => destruct (truthy p); [| done] end.
  match goal with |- context [match ?p with VStr _ => _ | _ => _ end] =>
    destruct p; try done end.
  by destruct (negb _).
Qed.

Lemma normalizeAccessInfo_not_Locked (access : Arg IAccessInfo) (all : bool) :
  normalizeAccessInfo access all ≠ raise Locked.
Proof.
  unfold normalizeAccessInfo. destruct access as [a |]; [| done].
  destruct (_ || _); [done |]. destruct (_ || _); [done |].
  destruct all; [| done].
  pose proof (normalizeActionPossession_not_Locked (a_action a) (a_possession a)) as H.
  destruct (normalizeActionPossession _ _) as [[x y] | e]; simpl; [done |].
  intros [= ->]. by apply H.
Qed.

Lemma normalizeAccessInfo_Ok (access : Arg IAccessInfo) (all : bool) (ai : AccessInfo) :
  normalizeAccessInfo access all = Ok ai → na_role ai ≠ [] ∧ na_resource ai ≠ [].
Proof.
  unfold normalizeAccessInfo. destruct access as [a |]; [| done].
  destruct (toStringArray (a_role a)) as [| r rs] eqn:Hr; [done |].
  destruct (_ || _); [done |].
  destruct (toStringArray (a_resource a)) as [| x xs] eqn:Hx; [done |].
  destruct (_ || _); [done |].
  destruct all.
  - destruct (normalizeActionPossession _ _) as [[? ?] |]; simpl; [| done].
    by intros [= <-].
  - by intros [= <-].
Qed.

(** On a frozen table a commit throws, and what it throws is the error
    of the normalisation, the error of the first name if that is not
    valid, or else the [TypeError] of the first write. *)
Lemma commitToGrants_on_frozen (access : Arg IAccessInfo) (all : bool) (st : Store) :
  frozen st = true →
  ∃ e, commitToGrants access all st = (Throw e, st)
       ∧ e ≠ AccessControlError Locked
       ∧ (∀ ai, normalizeAccessInfo access all = Ok ai →
                (∀ name, name ∈ na_role ai ++ na_resource ai →
                         validName name true = Ok true) →
                e = TypeError).
Proof.
  intros Hf. unfold commitToGrants. rewrite bind_run. unfold liftR.
  pose proof (normalizeAccessInfo_not_Locked access all) as HnL.
  destruct (normalizeAccessInfo access all) as [ai |] eqn:Hn.
  2:{ eexists. split; [done |]. split; [| done]. intros ->. by apply HnL. }
  destruct (normalizeAccessInfo_Ok _ _ _ Hn) as [Hroles Hres].
  destruct (na_role ai) as [| role roles] eqn:Hr; [done |].
  destruct (na_resource ai) as [| res ress] eqn:Hx; [done |].
  simpl. rewrite bind_run. unfold commitRole at 1. rewrite bind_run. unfold liftR.
  pose proof (validName_not_Locked role true) as HvL.
  destruct (validName role true) as [v |] eqn:Hv.
  2:{ eexists. split; [done |]. split.
      - intros ->. by apply HvL.
      - intros ai' [= <-] Hall. rewrite Hall in Hv; [done |].
        rewrite Hr. left. }
  apply validName_true_Ok in Hv as Hv'. subst v.
  rewrite bind_run. unfold getGrants. rewrite bind_run.
  destruct (hasRole (grants st) role) eqn:Hhas; simpl.
  2:{ rewrite write_frozen by done. eexists. split; [done |]. by split. }
  unfold mret, ST_ret. rewrite Hx. simpl. rewrite bind_run.
  unfold commitResource at 1. rewrite bind_run. unfold liftR.
  pose proof (validName_not_Locked res true) as HvL'.
  destruct (validName res true) as [v |] eqn:Hv'.
  2:{ eexists. split; [done |]. split.
      - intros ->. by apply HvL'.
      - intros ai' [= <-] Hall. rewrite Hall in Hv'; [done |].
        rewrite Hr, Hx. apply elem_of_app. right. left. }
  apply validName_true_Ok in Hv' as Hv''. subst v.
  rewrite bind_run. unfold getGrants. rewrite bind_run.
  apply hasRole_true in Hhas as [item Hitem].
  unfold hasResource. rewrite Hitem.
  destruct (resources item !! res) as [entry |] eqn:Hentry.
  - rewrite bool_decide_eq_true_2 by eauto. simpl. unfold mret, ST_ret.
    unfold setAttributes. rewrite bind_run. unfold getGrants. rewrite Hitem, Hentry.
    rewrite write_frozen by done. eexists. split; [done |]. by split.
  - rewrite bool_decide_eq_false_2 by (by intros [? ?]). simpl.
    unfold createResource. rewrite bind_run. unfold getGrants. rewrite Hitem.
    rewrite write_frozen by done. eexists. split; [done |]. by split.
Qed.

(** C7, as stated, fails in its last part: the commit that follows a lock
    throws the [TypeError] of a write to a frozen object, which is not the
    error [Locked]. *)
Lemma commit_after_lock_not_Locked :
  ∃ ac' g',
    lockAC _isLocked (mkAC (Some (mkStore tblAny false)) false) = Ok ac'
    ∧ _grants ac' = Some g'
    ∧ evalM (commitToGrants
               (AnObject (mkAccess (VStr "u") (VStr "video") (VStr "create:any")
                            VUndefined (VArr ["title"]) VUndefined)) true) g'
      = Throw TypeError
    ∧ ¬ failsWith KLocked
          (evalM (commitToGrants
                    (AnObject (mkAccess (VStr "u") (VStr "video") (VStr "create:any")
                                 VUndefined (VArr ["title"]) VUndefined)) true) g').
Proof.
  eexists _, _. split_and!; [reflexivity | reflexivity | reflexivity |].
  intros (e & He & _). vm_compute in He. discriminate He.
Qed.

(** C7, amended. [lockAC] fails with [EmptyOrInvalidGrants] exactly when
    the table has no role (or there is no table); on a table with a role
    it returns with the table frozen and the instance marked as locked,
    and locking the result again returns the same instance. Every
    [commitToGrants] on the locked table throws and leaves the table as it
    is; what it throws is never the error [Locked]: it is the
    [TypeError] of the write to the frozen table, unless the statement is
    rejected before that write. *)
Theorem lockAC_freezes_table (isLocked : AccessControl → bool) :
  (∀ ac, _grants ac = None → lockAC isLocked ac = raise EmptyOrInvalidGrants)
  ∧ (∀ ac g, _grants ac = Some g →
       (failsWith KEmptyOrInvalidGrants (lockAC isLocked ac) ↔ size (grants g) = 0))
  ∧ (∀ ac g, _grants ac = Some g → size (grants g) ≠ 0 →
       lockAC isLocked ac = Ok (mkAC (Some (mkStore (grants g) true)) true))
  ∧ (∀ ac ac' (isLocked' : AccessControl → bool),
       lockAC isLocked ac = Ok ac' → lockAC isLocked' ac' = Ok ac')
  ∧ (∀ ac ac' g' access all,
       lockAC isLocked ac = Ok ac' → _grants ac' = Some g' →
       ∃ e, commitToGrants access all g' = (Throw e, g')
            ∧ e ≠ AccessControlError Locked
            ∧ (∀ ai, normalizeAccessInfo access all = Ok ai →
                     (∀ name, name ∈ na_role ai ++ na_resource ai →
                              validName name true = Ok true) →
                     e = TypeError)).
Proof.
  assert (∀ ac g, _grants ac = Some g → size (grants g) ≠ 0 →
            lockAC isLocked ac = Ok (mkAC (Some (mkStore (grants g) true)) true))
    as Hlock.
  { intros ac g Hg Hsize. unfold lockAC. rewrite Hg.
    apply Nat.eqb_neq in Hsize as ->.
    destruct (isLocked ac && frozen g) eqn:Hl; simpl; [| done].
    apply andb_true_iff in Hl as [_ Hfr]. destruct g as [gr fr]. simpl in *. by subst. }
  assert (∀ ac ac', lockAC isLocked ac = Ok ac' →
            ∃ g, _grants ac = Some g ∧ size (grants g) ≠ 0
                 ∧ ac' = mkAC (Some (mkStore (grants g) true)) true) as Hinv.
  { intros ac ac' Hrun. unfold lockAC in Hrun.
    destruct (_grants ac) as [g |] eqn:Hg; [| done].
    destruct (size (grants g) =? 0) eqn:Hsize; [done |].
    apply Nat.eqb_neq in Hsize. exists g. split_and!; [done.. |].
    pose proof (Hlock ac g Hg Hsize) as Hl. unfold lockAC in Hl. rewrite Hg in Hl.
    apply Nat.eqb_neq in Hsize. rewrite Hsize in Hl. rewrite Hl in Hrun.
    by simplify_eq. }
  split_and!.
  - intros ac Hg. unfold lockAC. by rewrite Hg.
  - intros ac g Hg. split.
    + intros (e & He & Hk). destruct (decide (size (grants g) = 0)) as [| Hne]; [done |].
      by rewrite (Hlock ac g Hg Hne) in He.
    + intros Hsize. unfold lockAC. rewrite Hg, Hsize. simpl. by eexists.
  - done.
  - intros ac ac' isLocked' (g & Hg & Hsize & ->)%Hinv.
    unfold lockAC. simpl. apply Nat.eqb_neq in Hsize as ->.
    by destruct (isLocked' _).
  - intros ac ac' g' access all (g & Hg & Hsize & ->)%Hinv [= <-].
    by apply commitToGrants_on_frozen.
Qed.

Lemma lockAC_freezes_table_witness :
  lockAC _isLocked (mkAC (Some (mkStore tblAny false)) false)
  = Ok (mkAC (Some (mkStore tblAny true)) true).
Proof.
  destruct (lockAC_freezes_table _isLocked) as (_ & _ & H & _).
  apply (H (mkAC (Some (mkStore tblAny false)) false) (mkStore tblAny false)).
  - reflexivity.
  - vm_compute. lia.
Defined.

(** ** Roles and resources given as a string *)

Lemma toStringArray_other (v : Value) :
  neitherStringNorArray v → toStringArray v = [].
Proof. by destruct v. Qed.

Lemma append_cons (c : ascii) (s t : string) : String c s +:+ t = String c (s +:+ t).
Proof. done. Qed.

Lemma append_nil_l (s : string) : "" +:+ s = s.
Proof. done. Qed.

Lemma append_nil_r (s : string) : s +:+ "" = s.
Proof. induction s as [| c s IH]; [done |]. by rewrite append_cons, IH. Qed.

Lemma append_assoc (s1 s2 s3 : string) : (s1 +:+ s2) +:+ s3 = s1 +:+ s2 +:+ s3.
Proof. induction s1 as [| c s1 IH]; [done |]. by rewrite !append_cons, IH. Qed.

Lemma rev_app_append (s1 s2 : string) :
  String.rev_app s1 s2 = String.rev s1 +:+ s2.
Proof.
  unfold String.rev. revert s2. induction s1 as [| c s1 IH]; intros s2; simpl; [done |].
  rewrite IH, (IH (String c "")). by rewrite append_assoc.
Qed.

Lemma rev_cons (c : ascii) (s : string) :
  String.rev (String c s) = String.rev s +:+ String c "".
Proof. unfold String.rev at 1. simpl. apply rev_app_append. Qed.

Lemma rev_append (s1 s2 : string) :
  String.rev (s1 +:+ s2) = String.rev s2 +:+ String.rev s1.
Proof.
  induction s1 as [| c s1 IH].
  - change (String.rev "") with "". by rewrite append_nil_r.
  - by rewrite append_cons, !rev_cons, IH, append_assoc.
Qed.

Lemma rev_involutive (s : string) : String.rev (String.rev s) = s.
Proof.
  induction s as [| c s IH]; [done |].
  by rewrite rev_cons, rev_append, IH.
Qed.

Lemma isListSep_not_space (c : ascii) : isListSep c = true → isWhiteSpace c = false.
Proof.
  unfold isListSep. intros [Hc | Hc]%orb_true_iff; apply Ascii.eqb_eq in Hc as ->; done.
Qed.

(** The white space in front of a name that does not end with white
    space stops at a character of the name. *)
Lemma spanWs_name (a s : string) :
  endsNonWs a = true → noListSep a = true →
  ∃ k y r, spanWs (a +:+ s) = (k, String y r) ∧ isListSep y = false.
Proof.
  induction a as [| c a IH]; [done |]. intros Hend Hsep.
  simpl in Hsep. apply andb_true_iff in Hsep as [Hc Hsep]. apply negb_true_iff in Hc.
  simpl. destruct (isWhiteSpace c) eqn:Hws.
  - destruct a as [| c' a']; [simpl in Hend; by rewrite Hws in Hend |].
    destruct IH as (k & y & r & Hspan & Hy); [done | done |].
    rewrite Hspan. by exists (S k), y, r.
  - by exists 0, c, (a +:+ s).
Qed.

Lemma matchSep_name (a s : string) :
  endsNonWs a = true → noListSep a = true → matchSep (a +:+ s) = None.
Proof.
  intros Hend Hsep. unfold matchSep.
  destruct (spanWs_name a s Hend Hsep) as (k & y & r & -> & Hy). by rewrite Hy.
Qed.

(** The scan passes over a name and keeps it in the piece it reads. *)
Lemma splitSep_go_name (a cur s : string) :
  endsNonWs a = true → noListSep a = true →
  splitSep_go 0 cur (a +:+ s) = splitSep_go 0 (String.rev_app a cur) s.
Proof.
  revert cur. induction a as [| c a IH]; intros cur Hend Hsep; [done |].
  change (String c a +:+ s) with (String c (a +:+ s)).
  cbn [splitSep_go].
  change (String c (a +:+ s)) with (String c a +:+ s).
  rewrite matchSep_name by done.
  destruct a as [| c' a']; [done |].
  rewrite IH; [done | done |].
  simpl in Hsep. by apply andb_true_iff in Hsep as [_ ?].
Qed.

Lemma spanWs_allWhiteSpace (w t : string) :
  allWhiteSpace w = true → startsNonWs t = true ∨ t = "" →
  spanWs (w +:+ t) = (String.length w, t).
Proof.
  intros Hw Ht. induction w as [| c w IH].
  - rewrite append_nil_l. destruct t as [| c t]; [done |].
    destruct Ht as [Ht | ?]; [| done].
    simpl in *. by apply negb_true_iff in Ht as ->.
  - rewrite append_cons. simpl in *.
    apply andb_true_iff in Hw as [-> Hw]. by rewrite IH.
Qed.

Lemma matchSep_separator (w1 : string) (c : ascii) (w2 t : string) :
  allWhiteSpace w1 = true → isListSep c = true → allWhiteSpace w2 = true →
  startsNonWs t = true ∨ t = "" →
  matchSep ((w1 +:+ String c w2) +:+ t)
  = Some (String.length (w1 +:+ String c w2)).
Proof.
  intros Hw1 Hc Hw2 Ht. unfold matchSep.
  rewrite append_assoc. change (String c w2 +:+ t) with (String c (w2 +:+ t)).
  rewrite spanWs_allWhiteSpace; [| done |].
  2:{ left. simpl. by rewrite isListSep_not_space. }
  rewrite Hc, spanWs_allWhiteSpace by done. simpl. f_equal.
  clear. induction w1 as [| x w1 IH]; simpl; [lia |]. rewrite <- IH. lia.
Qed.

Lemma splitSep_go_skip (u cur t : string) :
  splitSep_go (String.length u) cur (u +:+ t) = splitSep_go 0 cur t.
Proof.
  induction u as [| c u IH]; [by destruct t |]. by rewrite append_cons.
Qed.

(** At a separator the scan closes the piece and goes on behind the
    separator. *)
Lemma splitSep_go_separator (sep cur t : string) :
  isSeparator sep → startsNonWs t = true ∨ t = "" →
  splitSep_go 0 cur (sep +:+ t) = String.rev cur :: splitSep_go 0 "" t.
Proof.
  intros [w1 c w2 Hw1 Hc Hw2] Ht.
  pose proof (matchSep_separator w1 c w2 t Hw1 Hc Hw2 Ht) as Hm.
  destruct (w1 +:+ String c w2) as [| x u] eqn:Hsep.
  { by destruct w1. }
  change (String x u +:+ t) with (String x (u +:+ t)) in *.
  cbn [splitSep_go]. rewrite Hm. simpl. by rewrite splitSep_go_skip.
Qed.

Lemma joinNames_startsNonWs (a : string) (rest : list (string * string)) :
  startsNonWs a = true → startsNonWs (joinNames a rest) = true.
Proof. destruct rest as [| [sep b] rest]; [done |]. by destruct a. Qed.

Lemma endsNonWs_append (s t : string) :
  endsNonWs t = true → endsNonWs (s +:+ t) = true.
Proof.
  intros Ht. induction s as [| c s IH]; [done |]. rewrite append_cons. simpl.
  destruct (s +:+ t) eqn:Hst; [| done]. by destruct s, t.
Qed.

Lemma joinNames_endsNonWs (a : string) (rest : list (string * string)) :
  endsNonWs a = true →
  Forall (λ p, isSeparator p.1 ∧ cleanName p.2 = true) rest →
  endsNonWs (joinNames a rest) = true.
Proof.
  intros Ha Hrest. revert a Ha. induction Hrest as [| [sep b] rest [_ Hb] _ IH];
    intros a Ha; [done |].
  simpl. apply endsNonWs_append, endsNonWs_append, IH.
  unfold cleanName in Hb. by apply andb_true_iff in Hb as [[_ ?]%andb_true_iff _].
Qed.

Lemma splitSep_joinNames (a : string) (rest : list (string * string)) :
  cleanName a = true →
  Forall (λ p, isSeparator p.1 ∧ cleanName p.2 = true) rest →
  splitSep (joinNames a rest) = a :: (snd <$> rest).
Proof.
  unfold splitSep. intros Ha Hrest. revert a Ha.
  induction Hrest as [| [sep b] rest [Hsep Hb] _ IH]; intros a Ha;
    unfold cleanName in Ha;
    apply andb_true_iff in Ha as [[Hstart Hend]%andb_true_iff Hno].
  - simpl. rewrite <- (append_nil_r a) at 1. rewrite splitSep_go_name by done.
    simpl. by rewrite rev_app_append, append_nil_r, rev_involutive.
  - simpl in *. rewrite splitSep_go_name by done.
    rewrite splitSep_go_separator; [| done |].
    2:{ left. apply joinNames_startsNonWs. unfold cleanName in Hb.
        by apply andb_true_iff in Hb as [[? _]%andb_true_iff _]. }
    rewrite rev_app_append, append_nil_r, rev_involutive. f_equal. by apply IH.
Qed.

Lemma trimStart_allWhiteSpace (w s : string) :
  allWhiteSpace w = true → startsNonWs s = true → trimStart (w +:+ s) = s.
Proof.
  intros Hw Hs. induction w as [| c w IH].
  - rewrite append_nil_l. destruct s as [| c s]; [done |].
    simpl in *. by apply negb_true_iff in Hs as ->.
  - rewrite append_cons. simpl in *.
    apply andb_true_iff in Hw as [-> Hw]. by apply IH.
Qed.

Lemma allWhiteSpace_append (w1 w2 : string) :
  allWhiteSpace w1 = true → allWhiteSpace w2 = true → allWhiteSpace (w1 +:+ w2) = true.
Proof.
  intros H1 H2. induction w1 as [| c w1 IH]; [done |].
  rewrite append_cons. simpl in *.
  apply andb_true_iff in H1 as [-> H1]. by apply IH.
Qed.

Lemma allWhiteSpace_rev (w : string) :
  allWhiteSpace w = true → allWhiteSpace (String.rev w) = true.
Proof.
  induction w as [| c w IH]; [done |]. simpl.
  intros [Hc Hw]%andb_true_iff. rewrite rev_cons.
  apply allWhiteSpace_append; [by apply IH |]. simpl. by rewrite Hc.
Qed.

Lemma startsNonWs_rev (s : string) :
  endsNonWs s = true → startsNonWs (String.rev s) = true.
Proof.
  induction s as [| c s IH]; [done |]. intros Hend. rewrite rev_cons.
  destruct s as [| c' s']; [done |].
  specialize (IH Hend). by destruct (String.rev (String c' s')).
Qed.

Lemma trim_names (lead s trail : string) :
  allWhiteSpace lead = true → allWhiteSpace trail = true →
  startsNonWs s = true → endsNonWs s = true →
  trim (lead +:+ s +:+ trail) = s.
Proof.
  intros Hlead Htrail Hstart Hend. unfold trim, trimEnd.
  rewrite trimStart_allWhiteSpace; [| done | by destruct s].
  rewrite rev_append, trimStart_allWhiteSpace;
    [apply rev_involutive | by apply allWhiteSpace_rev | by apply startsNonWs_rev].
Qed.

(** A string of names, with white space around it and around the
    separators, gives the list of the names. *)
Lemma toStringArray_names (lead trail a : string) (rest : list (string * string)) :
  allWhiteSpace lead = true → allWhiteSpace trail = true →
  cleanName a = true →
  Forall (λ p, isSeparator p.1 ∧ cleanName p.2 = true) rest →
  toStringArray (VStr (lead +:+ joinNames a rest +:+ trail)) = a :: (snd <$> rest).
Proof.
  intros Hlead Htrail Ha Hrest. simpl. rewrite trim_names; [| done | done | |].
  - by apply splitSep_joinNames.
  - apply joinNames_startsNonWs. unfold cleanName in Ha.
    by apply andb_true_iff in Ha as [[? _]%andb_true_iff _].
  - apply joinNames_endsNonWs; [| done]. unfold cleanName in Ha.
    by apply andb_true_iff in Ha as [[_ ?]%andb_true_iff _].
Qed.

(** ** What a query leaves untouched *)

Section HeapFrame.

Import Heap.

Variables n m : nat.

Lemma keeps_refl (h : Heap) : keeps n m h h.
Proof. by split_and!. Qed.

Lemma keeps_trans (h1 h2 h3 : Heap) :
  keeps n m h1 h2 → keeps n m h2 h3 → keeps n m h1 h3.
Proof.
  intros (Ha1 & Ho1 & Hka1 & Hko1) (Ha2 & Ho2 & Hka2 & Hko2).
  split_and!; [lia | lia | |].
  - intros a Ha. by rewrite Hka2, Hka1.
  - intros a Ha. by rewrite Hko2, Hko1.
Qed.

Lemma framed_ret {A} (a : A) (post : A → Prop) :
  post a → framed n m (mret a) post.
Proof.
  intros Hpost h Hn Hm. split; [apply keeps_refl |].
  by intros a' [= <-].
Qed.

Lemma framed_throw {A} (e : Exn) (post : A → Prop) :
  framed n m (throwM e) post.
Proof. intros h Hn Hm. split; [apply keeps_refl | done]. Qed.

Lemma framed_bind {A B} (c : ST Heap A) (f : A → ST Heap B)
    (P : A → Prop) (Q : B → Prop) :
  framed n m c P → (∀ a, P a → framed n m (f a) Q) → framed n m (c ≫= f) Q.
Proof.
  intros Hc Hf h Hn Hm. unfold execM, evalM. rewrite bind_run.
  specialize (Hc h Hn Hm). unfold execM, evalM in Hc.
  destruct (c h) as [[a | e] h1]; simpl in Hc; destruct Hc as [Hk HP].
  - destruct (Hf a (HP a eq_refl) h1) as [Hk' HQ].
    + destruct Hk as (? & _). lia.
    + destruct Hk as (_ & ? & _). lia.
    + split; [by eapply keeps_trans | done].
  - split; [done | done].
Qed.

Lemma framed_weaken {A} (c : ST Heap A) (P Q : A → Prop) :
  (∀ a, P a → Q a) → framed n m c P → framed n m c Q.
Proof.
  intros HPQ Hc h Hn Hm. destruct (Hc h Hn Hm) as [Hk HP]. split; [done |].
  intros a Ha. by apply HPQ, HP.
Qed.

Lemma framed_foldST {A B} (f : B → A → ST Heap B) (I : B → Prop) (l : list A) (b : B) :
  (∀ b x, I b → framed n m (f b x) I) → I b → framed n m (foldST f b l) I.
Proof.
  intros Hf. revert b. induction l as [| x l IH]; intros b Hb; simpl.
  - by apply framed_ret.
  - eapply framed_bind; [by apply Hf | done].
Qed.

Lemma framed_forEachM {A} (f : A → ST Heap unit) (l : list A) :
  (∀ x, framed n m (f x) (λ _, True)) → framed n m (forEachM f l) (λ _, True).
Proof.
  intros Hf. induction l as [| x l IH]; simpl.
  - by apply framed_ret.
  - eapply framed_bind; [apply Hf | done].
Qed.

Lemma framed_allocArray (l : list string) :
  framed n m (allocArray l) (λ a, n ≤ a).
Proof.
  intros h Hn Hm. unfold execM, evalM, allocArray. simpl. split.
  - split_and!; simpl; [rewrite length_app; lia | done | | done].
    intros a Ha. apply lookup_app_l. lia.
  - by intros a [= <-].
Qed.

Lemma framed_readArray (a : addr) :
  framed n m (readArray a) (λ _, True).
Proof.
  intros h Hn Hm. unfold execM, evalM, readArray.
  destruct (arrays h !! a); simpl; (split; [apply keeps_refl | done]).
Qed.

Lemma framed_push (a : addr) (item : string) :
  n ≤ a → framed n m (push a item) (λ _, True).
Proof.
  intros Ha h Hn Hm. unfold execM, evalM, push.
  destruct (arrays h !! a); simpl; (split; [| done]); [| apply keeps_refl].
  split_and!; simpl; [by rewrite length_insert | done | | done].
  intros a' Ha'. apply list_lookup_insert_ne. lia.
Qed.

Lemma framed_allocObject (o : QueryObj) :
  framed n m (allocObject o) (λ a, m ≤ a).
Proof.
  intros h Hn Hm. unfold execM, evalM, allocObject. simpl. split.
  - split_and!; simpl; [done | rewrite length_app; lia | done |].
    intros a Ha. apply lookup_app_l. lia.
  - by intros a [= <-].
Qed.

Lemma framed_readObject (a : addr) :
  framed n m (readObject a) (λ _, True).
Proof.
  intros h Hn Hm. unfold execM, evalM, readObject.
  destruct (objects h !! a); simpl; (split; [apply keeps_refl | done]).
Qed.

Lemma framed_writeObject (a : addr) (f : QueryObj → QueryObj) :
  m ≤ a → framed n m (writeObject a f) (λ _, True).
Proof.
  intros Ha h Hn Hm. unfold execM, evalM, writeObject.
  destruct (objects h !! a); simpl; (split; [| done]); [| apply keeps_refl].
  split_and!; simpl; [done | by rewrite length_insert | done |].
  intros a' Ha'. apply list_lookup_insert_ne. lia.
Qed.

(** [toStringArray] returns the array it is given or one it has
    allocated. *)
Lemma framed_toStringArray (value : HValue) :
  framed n m (toStringArray value) (λ r, value = HArr r ∨ n ≤ r).
Proof.
  destruct value; simpl;
    try (eapply framed_weaken; [| apply framed_allocArray]; by right).
  apply framed_ret. by left.
Qed.

Lemma framed_pushUniq (arr : addr) (item : string) :
  n ≤ arr → framed n m (pushUniq arr item) (λ r, n ≤ r).
Proof.
  intros Harr. unfold pushUniq.
  eapply framed_bind; [apply framed_readArray |]. intros l _.
  destruct (indexOf l item); [by apply framed_ret |].
  eapply framed_bind; [by apply framed_push |]. intros _ _. by apply framed_ret.
Qed.

Lemma framed_concat (a : addr) : framed n m (concat a) (λ r, n ≤ r).
Proof.
  unfold concat. eapply framed_bind; [apply framed_readArray |].
  intros l _. apply framed_allocArray.
Qed.

(** [uniqConcat] writes to the copy it makes of its first argument. *)
Lemma framed_uniqConcat (arrA arrB : addr) :
  framed n m (uniqConcat arrA arrB) (λ r, n ≤ r).
Proof.
  unfold uniqConcat. eapply framed_bind; [apply framed_concat |]. intros arr Harr.
  eapply framed_bind; [apply framed_readArray |]. intros items _.
  eapply framed_bind.
  - apply framed_forEachM. intros b.
    eapply framed_bind; [by apply framed_pushUniq |]. intros _ _. by apply framed_ret.
  - intros _ _. by apply framed_ret.
Qed.

Lemma framed_hierarchyAt (depth : nat) (grants : gmap string RoleEntry)
    (roleName : string) (root : option string) :
  framed n m (hierarchyAt depth grants roleName root) (λ r, n ≤ r).
Proof.
  revert roleName root. induction depth as [| depth IH]; intros roleName root; simpl.
  { apply framed_throw. }
  destruct (grants !! roleName) as [role |]; [| apply framed_throw].
  eapply framed_bind; [apply framed_allocArray |]. intros arr Harr.
  destruct (extend role) as [x |]; [| by apply framed_ret].
  eapply framed_bind; [apply framed_readArray |]. intros ext _.
  destruct (length ext =? 0); [by apply framed_ret |].
  apply framed_foldST; [| done]. intros arr' e Harr'. unfold hierarchyStep.
  destruct (negb _); [apply framed_throw |].
  destruct (String.eqb _ _); [apply framed_throw |].
  destruct (_ && _); [apply framed_throw |].
  eapply framed_bind; [apply IH |]. intros h _. apply framed_uniqConcat.
Qed.

Lemma framed_getFlatRoles (grants : gmap string RoleEntry) (roles : HValue) :
  framed n m (getFlatRoles grants roles) (λ r, n ≤ r).
Proof.
  unfold getFlatRoles. eapply framed_bind with (P := λ _, True).
  { destruct (truthy roles).
    - eapply framed_weaken; [| apply framed_toStringArray]. done.
    - eapply framed_bind; [apply framed_allocArray |]. intros e _.
      eapply framed_weaken; [| apply framed_toStringArray]. done. }
  intros arrRoles _. eapply framed_bind; [apply framed_readArray |]. intros names _.
  destruct (length names =? 0); [apply framed_throw |].
  eapply framed_bind; [apply framed_allocArray |]. intros e _.
  eapply framed_bind; [apply framed_uniqConcat |]. intros arr Harr.
  apply framed_foldST; [| done]. intros arr' roleName _.
  eapply framed_bind; [apply framed_hierarchyAt |]. intros h _.
  apply framed_uniqConcat.
Qed.

(** [normalizeActionPossession] assigns to the object it is given: the
    clone. *)
Lemma framed_normalizeActionPossession (info : addr) :
  m ≤ info → framed n m (normalizeActionPossession info) (λ _, True).
Proof.
  intros Hinfo. unfold normalizeActionPossession.
  eapply framed_bind; [apply framed_readObject |]. intros o _.
  destruct (action o); try apply framed_throw.
  destruct (negb _); [apply framed_throw |].
  eapply framed_bind; [by apply framed_writeObject |]. intros _ _.
  match goal with |- context [Heap.truthy ?p] => destruct (Heap.truthy p) end.
  - match goal with |- context [match ?p with HStr _ => _ | _ => _ end] =>
      destruct p; try apply framed_throw end.
    destruct (negb _); [apply framed_throw |].
    eapply framed_bind; [by apply framed_writeObject |]. intros _ _.
    by apply framed_ret.
  - eapply framed_bind; [by apply framed_writeObject |]. intros _ _.
    by apply framed_ret.
Qed.

Lemma framed_normalizeQueryInfo (query : Arg addr) :
  framed n m (normalizeQueryInfo query) (λ _, True).
Proof.
  unfold normalizeQueryInfo. destruct query as [query |]; [| apply framed_throw].
  eapply framed_bind; [apply framed_readObject |]. intros o _.
  eapply framed_bind; [apply framed_allocObject |]. intros clone Hclone.
  eapply framed_bind; [apply framed_toStringArray |]. intros arr _.
  eapply framed_bind; [by apply framed_writeObject |]. intros _ _.
  eapply framed_bind with (P := λ _, True).
  { unfold isFilledStringArray. eapply framed_bind; [apply framed_readArray |].
    intros l _. by apply framed_ret. }
  intros filled _. destruct (negb filled); [apply framed_throw |].
  destruct (resource o); try apply framed_throw.
  destruct (String.eqb _ _); [apply framed_throw |].
  eapply framed_bind; [by apply framed_writeObject |]. intros _ _.
  eapply framed_bind; [by apply framed_normalizeActionPossession |].
  intros [a p] _. by apply framed_ret.
Qed.

Section Union.

Variable union : addr → addr → ST Heap addr.
Hypothesis union_frame : unionFrame union.

Lemma framed_union (a b : addr) :
  n ≤ a → n ≤ b → framed n m (union a b) (λ r, n ≤ r).
Proof.
  intros Ha Hb h Hn Hm. unfold execM, evalM.
  pose proof (union_frame a b h) as Hu.
  destruct (union a b h) as [r h']. simpl.
  destruct Hu as (Hla & Hlo & Hka & Hko & Hr). split.
  - split_and!; [done | done | |].
    + intros c Hc. apply Hka; lia.
    + intros c Hc. apply Hko. lia.
  - intros c ->. destruct (Hr c eq_refl) as [-> | [-> | ?]]; lia.
Qed.

Lemma framed_attrsOf (resource : RoleProp) (query : QueryInfo) :
  framed n m (attrsOf resource query) (λ r, n ≤ r).
Proof.
  unfold attrsOf. destruct resource as [a | r].
  { eapply framed_bind; [apply framed_allocArray |]. intros e _. apply framed_concat. }
  destruct (r !! _); [apply framed_concat |].
  destruct (r !! _); [apply framed_concat |].
  eapply framed_bind; [apply framed_allocArray |]. intros e _. apply framed_concat.
Qed.

Lemma framed_getUnionAttrsOfRoles (grants : gmap string RoleEntry) (query : Arg addr) :
  framed n m (getUnionAttrsOfRoles union grants query) (λ r, n ≤ r).
Proof.
  unfold getUnionAttrsOfRoles.
  eapply framed_bind; [apply framed_normalizeQueryInfo |]. intros q _.
  eapply framed_bind; [apply framed_getFlatRoles |]. intros roles _.
  eapply framed_bind; [apply framed_readArray |]. intros names _.
  eapply framed_bind with (P := Forall (λ a, n ≤ a)).
  { apply framed_foldST; [| done]. intros attrsList roleName Hall. unfold pushAttrs.
    destruct (grants !! roleName) as [role |]; [| apply framed_throw].
    destruct (negb _); [| by apply framed_ret].
    destruct (roleProp role _) as [resource |]; [| apply framed_throw].
    eapply framed_bind; [apply framed_attrsOf |]. intros attrs Hattrs.
    apply framed_ret. apply Forall_app. split; [done |]. by apply Forall_singleton. }
  intros attrsList Hall. unfold unionAll.
  eapply framed_bind; [apply framed_allocArray |]. intros attrs Hattrs.
  destruct attrsList as [| first rest]; [by apply framed_ret |].
  apply Forall_cons in Hall as [Hfirst Hrest].
  revert first Hfirst. induction rest as [| x rest IH]; intros first Hfirst; simpl.
  - by apply framed_ret.
  - apply Forall_cons in Hrest as [Hx Hrest].
    eapply framed_bind; [by apply framed_union |]. intros c Hc. by apply IH.
Qed.

End Union.

End HeapFrame.

Lemma pushUniq_in_place (a : Heap.addr) (x : string) (h : Heap.Heap) :
  let '(r, h') := Heap.pushUniq a x h in
  length (Heap.arrays h') = length (Heap.arrays h)
  ∧ Heap.objects h' = Heap.objects h
  ∧ (∀ c, c ≠ a → Heap.arrays h' !! c = Heap.arrays h !! c)
  ∧ (∀ c, r = Ok c → c = a).
Proof.
  unfold Heap.pushUniq. rewrite bind_run. unfold Heap.readArray.
  destruct (Heap.arrays h !! a) as [l |] eqn:Hl; [| done].
  destruct (indexOf l x).
  { unfold mret, ST_ret. split_and!; [done.. |]. by intros c [= <-]. }
  rewrite bind_run. unfold Heap.push. rewrite Hl. unfold mret, ST_ret. simpl.
  split_and!; [by rewrite length_insert | done | | by intros c [= <-]].
  intros c Hc. by apply list_lookup_insert_ne.
Qed.

Lemma unionInPlace_frame : Heap.unionFrame Heap.unionInPlace.
Proof.
  intros a b h. unfold Heap.unionInPlace. rewrite bind_run. unfold Heap.readArray.
  destruct (Heap.arrays h !! b) as [items |]; [| by split_and!].
  rewrite bind_run.
  assert (∀ h0, let '(r, h') :=
                  forEachM (λ x, _ ← Heap.pushUniq a x; mret ()) items h0 in
                length (Heap.arrays h') = length (Heap.arrays h0)
                ∧ Heap.objects h' = Heap.objects h0
                ∧ (∀ c, c ≠ a → Heap.arrays h' !! c = Heap.arrays h0 !! c)) as Hloop.
  { induction items as [| x items IH]; intros h0; simpl.
    { unfold mret, ST_ret. by split_and!. }
    rewrite !bind_run. pose proof (pushUniq_in_place a x h0) as Hp.
    destruct (Heap.pushUniq a x h0) as [[c | e] h1]; destruct Hp as (Hl & Ho & Hk & _).
    - unfold mret at 1, ST_ret at 1. specialize (IH h1).
      destruct (forEachM _ items h1) as [r h2]. destruct IH as (Hl' & Ho' & Hk').
      split_and!; [congruence | congruence |]. intros c' Hc'.
      by rewrite Hk', Hk.
    - by split_and!. }
  specialize (Hloop h). destruct (forEachM _ items h) as [[[] | e] h'];
    destruct Hloop as (Hl & Ho & Hk).
  - unfold mret, ST_ret. split_and!; [lia | by rewrite Ho | | by rewrite Ho |].
    + intros c _ Hc _. by apply Hk.
    + intros c [= <-]. by left.
  - split_and!; [lia | by rewrite Ho | | by rewrite Ho | done].
    intros c _ Hc _. by apply Hk.
Qed.

(** C10. The evaluation of a query writes to no array and to no object
    that exists when it is called: the arrays of the grants table, the
    caller's query object and the array of roles it refers to are after
    the call what they were before it, whether the call returns or throws;
    and the array it returns is not one of those that existed, so that it
    shares nothing with the table. The union of the glob lists may write
    to the two arrays it is given: these are copies. *)
Theorem query_evaluation_is_read_only
    (union : Heap.addr → Heap.addr → ST Heap.Heap Heap.addr)
    (grants : gmap string Heap.RoleEntry) (query : Arg Heap.addr) (h : Heap.Heap) :
  Heap.unionFrame union →
  (∀ a, a < length (Heap.arrays h) →
     Heap.arrays (execM (Heap.getUnionAttrsOfRoles union grants query) h) !! a
     = Heap.arrays h !! a)
  ∧ (∀ o, o < length (Heap.objects h) →
       Heap.objects (execM (Heap.getUnionAttrsOfRoles union grants query) h) !! o
       = Heap.objects h !! o)
  ∧ (∀ r, evalM (Heap.getUnionAttrsOfRoles union grants query) h = Ok r →
          length (Heap.arrays h) ≤ r).
Proof.
  intros Hunion.
  destruct (framed_getUnionAttrsOfRoles (length (Heap.arrays h)) (length (Heap.objects h))
              union Hunion grants query h) as [(_ & _ & Ha & Ho) Hr]; [done.. |].
  by split_and!.
Qed.

Lemma query_evaluation_is_read_only_witness :
  Heap.arrays (execM (Heap.getUnionAttrsOfRoles Heap.unionInPlace Heap.exampleTable
                        (AnObject 0)) Heap.exampleHeap) !! 0 = Some ["*"]
  ∧ Heap.objects (execM (Heap.getUnionAttrsOfRoles Heap.unionInPlace Heap.exampleTable
                           (AnObject 0)) Heap.exampleHeap) !! 0
    = Some (Heap.mkObj (Heap.HArr 1) (Heap.HStr "video") (Heap.HStr "create")
              Heap.HUndefined).
Proof.
  destruct (query_evaluation_is_read_only Heap.unionInPlace Heap.exampleTable
              (AnObject 0) Heap.exampleHeap unionInPlace_frame) as (Ha & Ho & _).
  split.
  - rewrite Ha; [reflexivity | vm_compute; lia].
  - rewrite Ho; [reflexivity | vm_compute; lia].
Defined.

(** The evaluation of the example returns a new array that holds the
    attributes of the rule. *)
Lemma heap_evaluation_example :
  ∃ r h',
    Heap.getUnionAttrsOfRoles Heap.unionInPlace Heap.exampleTable (AnObject 0)
      Heap.exampleHeap = (Ok r, h')
    ∧ 2 ≤ r ∧ Heap.arrays h' !! r = Some ["*"].
Proof. eexists _, _. split_and!; [reflexivity | vm_compute; lia | reflexivity]. Qed.

(** ** The two evaluators agree *)

Lemma grows_refl (h : Heap.Heap) : grows h h.
Proof. by unfold grows. Qed.

Lemma grows_trans (h1 h2 h3 : Heap.Heap) : grows h1 h2 → grows h2 h3 → grows h1 h3.
Proof. unfold grows. by etrans. Qed.

Lemma holds_grows (h h' : Heap.Heap) (a : Heap.addr) (l : list string) :
  grows h h' → holds h a l → holds h' a l.
Proof. intros Hg Hh. by eapply prefix_lookup_Some. Qed.

Lemma option_Forall2_holds_grows (h h' : Heap.Heap) (x : option Heap.addr)
    (y : option (list string)) :
  grows h h' → option_Forall2 (holds h) x y → option_Forall2 (holds h') x y.
Proof. intros Hg [a l Hal |]; constructor. by eapply holds_grows. Qed.

Lemma repTable_grows (h h' : Heap.Heap) (hg : gmap string Heap.RoleEntry)
    (g : gmap string RoleEntry) :
  grows h h' → repTable h hg g → repTable h' hg g.
Proof.
  intros Hg Hrep name. destruct (Hrep name) as [hr r [Hext Hres] |]; constructor.
  split; [by eapply option_Forall2_holds_grows |].
  intros res. destruct (Hres res) as [he e He |]; constructor.
  intros k. by eapply option_Forall2_holds_grows.
Qed.

Lemma Forall2_holds_grows (h h' : Heap.Heap) (hl : list Heap.addr)
    (vl : list (list string)) :
  grows h h' → Forall2 (holds h) hl vl → Forall2 (holds h') hl vl.
Proof.
  intros Hg Hall. eapply Forall2_impl; [done |]. intros a l. by apply holds_grows.
Qed.

Lemma runs_ret {A B} (a : A) (b : B) (h : Heap.Heap) (R : A → B → Heap.Heap → Prop) :
  R a b h → runs (mret a) h (Ok b) R.
Proof. intros HR. exists (Ok a), h. split_and!; [done | apply grows_refl | eauto]. Qed.

Lemma runs_throw {A B} (e : Exn) (h : Heap.Heap) (R : A → B → Heap.Heap → Prop) :
  runs (throwM e) h (Throw e) R.
Proof. exists (Throw e), h. split_and!; [done | apply grows_refl | done]. Qed.

Lemma runs_bind {A B A' B'} (c : ST Heap.Heap A) (h : Heap.Heap) (v : Result B)
    (R : A → B → Heap.Heap → Prop) (f : A → ST Heap.Heap A') (g : B → Result B')
    (Q : A' → B' → Heap.Heap → Prop) :
  runs c h v R →
  (∀ x b h1, v = Ok b → grows h h1 → R x b h1 → runs (f x) h1 (g b) Q) →
  runs (c ≫= f) h (v ≫= g) Q.
Proof.
  intros (r & h1 & Hrun & Hg & Hres) Hf. unfold runs.
  rewrite bind_run, Hrun. destruct v as [b | e].
  - destruct Hres as (x & -> & HR).
    destruct (Hf x b h1 eq_refl Hg HR) as (r2 & h2 & Hrun2 & Hg2 & Hres2).
    exists r2, h2. split_and!; [done | by eapply grows_trans | done].
  - subst r. exists (Throw e), h1. by split_and!.
Qed.

(** The same, where the value is computed without a step of its own. *)
Lemma runs_bind_pure {A B A' B'} (c : ST Heap.Heap A) (h : Heap.Heap) (b : B)
    (R : A → B → Heap.Heap → Prop) (f : A → ST Heap.Heap A') (v : Result B')
    (Q : A' → B' → Heap.Heap → Prop) :
  runs c h (Ok b) R →
  (∀ x h1, grows h h1 → R x b h1 → runs (f x) h1 v Q) →
  runs (c ≫= f) h v Q.
Proof.
  intros Hc Hf. apply (runs_bind c h (Ok b) R f (λ _, v) Q); [done |].
  intros x b' h1 [= <-]. apply Hf.
Qed.

Lemma runs_post {A B} (c : ST Heap.Heap A) (h : Heap.Heap) (v : Result B)
    (R R' : A → B → Heap.Heap → Prop) :
  (∀ a b h', grows h h' → R a b h' → R' a b h') → runs c h v R → runs c h v R'.
Proof.
  intros HRR (r & h1 & Hrun & Hg & Hres).
  exists r, h1. split_and!; [done.. |]. destruct v; [| done].
  destruct Hres as (x & -> & HR). eauto.
Qed.

Lemma runs_allocArray (l : list string) (h : Heap.Heap) :
  runs (Heap.allocArray l) h (Ok l) (λ a b h', holds h' a b).
Proof.
  eexists _, _. split_and!; [done | by apply prefix_app_r |].
  eexists. split; [done |]. unfold holds. simpl.
  rewrite lookup_app_r by done. by rewrite Nat.sub_diag.
Qed.

Lemma runs_readArray (a : Heap.addr) (l : list string) (h : Heap.Heap) :
  holds h a l → runs (Heap.readArray a) h (Ok l) (λ x y _, x = y).
Proof.
  intros Ha. exists (Ok l), h. split_and!; [| apply grows_refl | eauto].
  unfold Heap.readArray. by rewrite Ha.
Qed.

Lemma runs_concat (a : Heap.addr) (l : list string) (h : Heap.Heap) :
  holds h a l → runs (Heap.concat a) h (Ok l) (λ r l' h', holds h' r l').
Proof.
  intros Ha. unfold Heap.concat.
  eapply runs_bind_pure; [by apply runs_readArray |].
  intros x h1 _ ->. apply runs_allocArray.
Qed.

(** The loop of [uniqConcat] works on the array allocated last. *)
Lemma pushUniq_last_step (A : list (list string)) (O : list Heap.QueryObj)
    (l : list string) (x : string) :
  Heap.pushUniq (length A) x (Heap.mkHeap (A ++ [l]) O)
  = (Ok (length A), Heap.mkHeap (A ++ [pushUniq l x]) O).
Proof.
  unfold Heap.pushUniq, pushUniq. rewrite bind_run. unfold Heap.readArray. simpl.
  rewrite lookup_app_r, Nat.sub_diag by done. simpl.
  destruct (indexOf l x); [done |].
  rewrite bind_run. unfold Heap.push. simpl.
  rewrite lookup_app_r, Nat.sub_diag by done. simpl.
  by rewrite insert_app_r_alt, Nat.sub_diag by done.
Qed.

Lemma pushUniq_last (A : list (list string)) (O : list Heap.QueryObj)
    (l items : list string) :
  forEachM (λ b, _ ← Heap.pushUniq (length A) b; mret ()) items
    (Heap.mkHeap (A ++ [l]) O)
  = (Ok (), Heap.mkHeap (A ++ [foldl pushUniq l items]) O).
Proof.
  revert l. induction items as [| x items IH]; intros l; simpl; [done |].
  rewrite !bind_run, pushUniq_last_step. apply IH.
Qed.

Lemma uniqConcat_run (h : Heap.Heap) (a b : Heap.addr) (la lb : list string) :
  holds h a la → holds h b lb →
  Heap.uniqConcat a b h
  = (Ok (length (Heap.arrays h)),
     Heap.mkHeap (Heap.arrays h ++ [uniqConcat la lb]) (Heap.objects h)).
Proof.
  unfold holds. intros Ha Hb.
  unfold Heap.uniqConcat, Heap.concat. rewrite !bind_run. unfold Heap.readArray at 1.
  rewrite Ha. unfold Heap.allocArray. rewrite bind_run. unfold Heap.readArray. simpl.
  rewrite lookup_app_l by (by eapply lookup_lt_Some). rewrite Hb.
  by rewrite bind_run, pushUniq_last.
Qed.

Lemma runs_uniqConcat (a b : Heap.addr) (la lb : list string) (h : Heap.Heap) :
  holds h a la → holds h b lb →
  runs (Heap.uniqConcat a b) h (Ok (uniqConcat la lb)) (λ r l h', holds h' r l).
Proof.
  intros Ha Hb. unfold runs. rewrite (uniqConcat_run h a b la lb) by done.
  eexists _, _. split_and!; [done | by apply prefix_app_r |].
  eexists. split; [done |]. unfold holds. simpl.
  by rewrite lookup_app_r, Nat.sub_diag by done.
Qed.

Lemma truthy_rep (h : Heap.Heap) (hv : Heap.HValue) (v : Value) :
  repValue h hv v → Heap.truthy hv = truthy v.
Proof. destruct hv, v; simpl; try done; by intros ->. Qed.

Lemma runs_toStringArray (hv : Heap.HValue) (v : Value) (h : Heap.Heap) :
  repValue h hv v →
  runs (Heap.toStringArray hv) h (Ok (toStringArray v)) (λ r l h', holds h' r l).
Proof.
  destruct hv, v; simpl; try done; intros Hrep; subst;
    try apply runs_allocArray.
  by apply runs_ret.
Qed.

Lemma runs_foldST {A B X} (f : A → X → ST Heap.Heap A) (fv : B → X → Result B)
    (P : Heap.Heap → Prop) (I : A → B → Heap.Heap → Prop) :
  (∀ h h', grows h h' → P h → P h') →
  (∀ h a b x, P h → I a b h → runs (f a x) h (fv b x) I) →
  ∀ l h a b, P h → I a b h → runs (foldST f a l) h (foldM fv b l) I.
Proof.
  intros HP Hf. induction l as [| x l IH]; intros h a b Hh HI; simpl.
  - by apply runs_ret.
  - eapply runs_bind; [by apply Hf |]. intros a' b' h1 _ Hg HI'. apply IH; eauto.
Qed.

Lemma hasRole_rep (h : Heap.Heap) (hg : gmap string Heap.RoleEntry)
    (g : gmap string RoleEntry) (name : string) :
  repTable h hg g → Heap.hasRole hg name = hasRole g name.
Proof.
  intros Hrep. unfold Heap.hasRole, hasRole.
  destruct (Hrep name).
  - by rewrite !bool_decide_eq_true_2 by eauto.
  - by rewrite !bool_decide_eq_false_2 by (by intros [? ?]).
Qed.

Lemma runs_hierarchyAt (hg : gmap string Heap.RoleEntry) (g : gmap string RoleEntry)
    (depth : nat) :
  ∀ h roleName root,
    repTable h hg g →
    runs (Heap.hierarchyAt depth hg roleName root) h
      (hierarchyAt depth g roleName root) (λ r l h', holds h' r l).
Proof.
  induction depth as [| depth IH]; intros h roleName root Hrep.
  { apply runs_throw. }
  cbn [Heap.hierarchyAt]. rewrite hierarchyAt_unfold.
  destruct (Hrep roleName) as [hr r [Hext Hres] |]; [| apply runs_throw].
  eapply runs_bind_pure; [apply runs_allocArray |]. intros arr h1 Hg1 Harr.
  destruct Hext as [x ext Hx |]; [| by apply runs_ret].
  eapply runs_bind_pure; [apply runs_readArray; by eapply holds_grows |].
  intros ext' h2 Hg2 ->.
  destruct ext as [| e ext]; [by apply runs_ret; eapply holds_grows |].
  cbn [length Nat.eqb].
  apply (runs_foldST _ _ (λ h, repTable h hg g) (λ a l h', holds h' a l)).
  - intros. by eapply repTable_grows.
  - intros h3 acc accv y Hrep3 Hacc. unfold Heap.hierarchyStep, hierarchyStep.
    rewrite (hasRole_rep h3 hg g y Hrep3).
    destruct (negb (hasRole g y)); [apply runs_throw |].
    destruct (String.eqb y roleName); [apply runs_throw |].
    destruct (_ && _); [apply runs_throw |].
    eapply runs_bind; [by apply IH |]. intros hx lx h4 _ Hg4 Hlx.
    apply runs_uniqConcat; [by eapply holds_grows | done].
  - eapply repTable_grows; [| done]. by eapply grows_trans.
  - by eapply holds_grows.
Qed.

Lemma size_rep (h : Heap.Heap) (hg : gmap string Heap.RoleEntry)
    (g : gmap string RoleEntry) :
  repTable h hg g → size hg = size g.
Proof.
  intros Hrep. rewrite <- !size_dom. f_equal. apply set_eq. intros name.
  rewrite !elem_of_dom. destruct (Hrep name) as [hr r _ |].
  - split; eauto.
  - split; by intros [? ?].
Qed.

Lemma runs_getRoleHierarchyOf (hg : gmap string Heap.RoleEntry)
    (g : gmap string RoleEntry) (h : Heap.Heap) (roleName : string)
    (root : option string) :
  repTable h hg g →
  runs (Heap.getRoleHierarchyOf hg roleName root) h
    (getRoleHierarchyOf g roleName root) (λ r l h', holds h' r l).
Proof.
  intros Hrep. unfold Heap.getRoleHierarchyOf, getRoleHierarchyOf.
  rewrite (size_rep h hg g Hrep). by apply runs_hierarchyAt.
Qed.

Lemma runs_getFlatRoles (hg : gmap string Heap.RoleEntry) (g : gmap string RoleEntry)
    (hroles : Heap.HValue) (roles : Value) (h : Heap.Heap) :
  repTable h hg g → repValue h hroles roles →
  runs (Heap.getFlatRoles hg hroles) h (getFlatRoles g roles) (λ r l h', holds h' r l).
Proof.
  intros Hrep Hroles. unfold Heap.getFlatRoles, getFlatRoles.
  rewrite (truthy_rep h hroles roles Hroles).
  set (l0 := toStringArray (if truthy roles then roles else VArr [])).
  eapply runs_bind_pure with (b := l0) (R := λ r l h', holds h' r l).
  { subst l0. destruct (truthy roles); [by apply runs_toStringArray |].
    eapply runs_bind_pure; [apply runs_allocArray |]. intros e h1 _ He.
    by apply (runs_toStringArray (Heap.HArr e) (VArr [])). }
  intros arrRoles h1 Hg1 Harr.
  eapply runs_bind_pure; [by apply runs_readArray |]. intros names h2 Hg2 ->.
  destruct (length _ =? 0); [apply runs_throw |].
  eapply runs_bind_pure; [apply runs_allocArray |]. intros e h3 Hg3 He.
  eapply runs_bind_pure.
  { apply (runs_uniqConcat e arrRoles [] l0); [done |].
    eapply holds_grows; [| done]. by eapply grows_trans. }
  intros arr h4 Hg4 Harr4.
  apply (runs_foldST _ _ (λ h, repTable h hg g) (λ a l h', holds h' a l)).
  - intros. by eapply repTable_grows.
  - intros h5 acc accv y Hrep5 Hacc.
    eapply runs_bind; [by apply runs_getRoleHierarchyOf |]. intros hx lx h6 _ Hg6 Hlx.
    apply runs_uniqConcat; [by eapply holds_grows | done].
  - eapply repTable_grows; [| done].
    eapply grows_trans; [| done]. eapply grows_trans; [| done].
    by eapply grows_trans.
  - done.
Qed.

Lemma readObject_last (A : list (list string)) (O : list Heap.QueryObj)
    (o : Heap.QueryObj) :
  Heap.readObject (length O) (Heap.mkHeap A (O ++ [o]))
  = (Ok o, Heap.mkHeap A (O ++ [o])).
Proof.
  unfold Heap.readObject. simpl. by rewrite lookup_app_r, Nat.sub_diag by done.
Qed.

Lemma writeObject_last (A : list (list string)) (O : list Heap.QueryObj)
    (o : Heap.QueryObj) (f : Heap.QueryObj → Heap.QueryObj) :
  Heap.writeObject (length O) f (Heap.mkHeap A (O ++ [o]))
  = (Ok (), Heap.mkHeap A (O ++ [f o])).
Proof.
  unfold Heap.writeObject. simpl. rewrite lookup_app_r, Nat.sub_diag by done. simpl.
  by rewrite insert_app_r_alt, Nat.sub_diag by done.
Qed.

(** [repValue] for a value that is not an array does not look at the
    heap. *)
Lemma repValue_heap (h h' : Heap.Heap) (hv : Heap.HValue) (v : Value) :
  grows h h' → repValue h hv v → repValue h' hv v.
Proof. intros Hg. destruct hv, v; simpl; try done. by apply holds_grows. Qed.

Lemma normalizeActionPossession_last (A : list (list string))
    (O : list Heap.QueryObj) (o : Heap.QueryObj) (action possession : Value) :
  repValue (Heap.mkHeap A (O ++ [o])) (Heap.action o) action →
  repValue (Heap.mkHeap A (O ++ [o])) (Heap.possession o) possession →
  ∃ o', Heap.normalizeActionPossession (length O) (Heap.mkHeap A (O ++ [o]))
        = (normalizeActionPossession action possession, Heap.mkHeap A (O ++ [o'])).
Proof.
  intros Hact Hposs.
  unfold Heap.normalizeActionPossession, normalizeActionPossession.
  rewrite bind_run, readObject_last.
  destruct (Heap.action o) as [| | | | a | |] eqn:Ha, action as [| | | | a' | |];
    simpl in Hact; try done; try (by exists o).
  subst a'.
  destruct (negb (indexOf actions _)); [by exists o |].
  rewrite bind_run, writeObject_last.
  rewrite (truthy_rep _ _ _ Hposs).
  set (hposs := if truthy possession then Heap.possession o
                else from_option Heap.HStr Heap.HUndefined (splitChar ":" a !! 1)).
  set (vposs := if truthy possession then possession
                else from_option VStr VUndefined (splitChar ":" a !! 1)).
  assert (repValue (Heap.mkHeap A (O ++ [o])) hposs vposs) as Hp.
  { subst hposs vposs. destruct (truthy possession); [done |].
    by destruct (splitChar ":" a !! 1). }
  rewrite (truthy_rep _ _ _ Hp).
  destruct (truthy vposs).
  - destruct hposs as [| | | | p | |], vposs as [| | | | p' | |];
      simpl in Hp; try done; try (by eexists).
    subst p'. destruct (negb (indexOf possessions _)); [by eexists |].
    rewrite bind_run, writeObject_last. by eexists.
  - rewrite bind_run, writeObject_last. by eexists.
Qed.

Lemma toStringArray_run (h : Heap.Heap) (hv : Heap.HValue) (v : Value) :
  repValue h hv v →
  ∃ arr new,
    Heap.toStringArray hv h
    = (Ok arr, Heap.mkHeap (Heap.arrays h ++ new) (Heap.objects h))
    ∧ (Heap.arrays h ++ new) !! arr = Some (toStringArray v).
Proof.
  intros Hrep.
  assert (∀ l, ∃ arr new,
            Heap.allocArray l h
            = (Ok arr, Heap.mkHeap (Heap.arrays h ++ new) (Heap.objects h))
            ∧ (Heap.arrays h ++ new) !! arr = Some l) as Halloc.
  { intros l. exists (length (Heap.arrays h)), [l]. split; [done |].
    by rewrite lookup_app_r, Nat.sub_diag by done. }
  destruct hv as [| | | | s | a |], v as [| | | | s' | l |];
    simpl in *; try done; try apply Halloc.
  - subst s'. apply Halloc.
  - exists a, []. rewrite app_nil_r. split; [by destruct h | done].
Qed.

Lemma runs_normalizeQueryInfo (query : Arg Heap.addr) (q : Arg IQueryInfo)
    (h : Heap.Heap) :
  repQuery h query q →
  runs (Heap.normalizeQueryInfo query) h (normalizeQueryInfo q) repNQuery.
Proof.
  destruct query as [qa |], q as [q |]; simpl; try done; [| intros _; apply runs_throw].
  intros (o & Ho & Hrole & Hres & Hact & Hposs). unfold runs.
  rewrite bind_run. unfold Heap.readObject at 1. rewrite Ho.
  rewrite bind_run. unfold Heap.allocObject. rewrite bind_run.
  destruct (toStringArray_run
              (Heap.mkHeap (Heap.arrays h) (Heap.objects h ++ [o])) (Heap.role o)
              (q_role q)) as (arr & new & -> & Harr).
  { destruct (Heap.role o), (q_role q); done. }
  simpl in Harr |- *.
  rewrite bind_run, writeObject_last.
  rewrite bind_run. unfold Heap.isFilledStringArray. rewrite bind_run.
  unfold Heap.readArray. simpl. rewrite Harr.
  unfold mret at 1, ST_ret at 1.
  assert (grows h (Heap.mkHeap (Heap.arrays h ++ new)
                     (Heap.objects h ++ [Heap.mkObj (Heap.HArr arr) (Heap.resource o)
                                           (Heap.action o) (Heap.possession o)])))
    as Hg by (by apply prefix_app_r).
  destruct (negb (isFilledStringArray (toStringArray (q_role q)))).
  { eexists _, _. by split_and!. }
  destruct (Heap.resource o) as [| | | | r | |] eqn:Hr,
           (q_resource q) as [| | | | r' | |];
    simpl in Hres; try done; try (eexists _, _; by split_and!).
  subst r'. destruct (String.eqb (trim r) ""); [eexists _, _; by split_and! |].
  rewrite bind_run, writeObject_last. simpl. rewrite bind_run.
  destruct (normalizeActionPossession_last (Heap.arrays h ++ new) (Heap.objects h)
              (Heap.mkObj (Heap.HArr arr) (Heap.HStr (trim r)) (Heap.action o)
                 (Heap.possession o)) (q_action q) (q_possession q))
    as (o' & ->).
  { simpl. eapply repValue_heap; [| done]. by apply prefix_app_r. }
  { simpl. eapply repValue_heap; [| done]. by apply prefix_app_r. }
  destruct (normalizeActionPossession (q_action q) (q_possession q)) as [[a p] | e];
    simpl.
  - eexists _, _. split_and!; [done | by apply prefix_app_r |].
    eexists. split; [done |]. by split_and!.
  - eexists _, _. split_and!; [done | by apply prefix_app_r | done].
Qed.

Lemma runs_attrsOf (hp : Heap.RoleProp) (p : RoleProp) (hq : Heap.QueryInfo)
    (q : QueryInfo) (h : Heap.Heap) :
  repProp h hp p → repNQuery hq q h →
  runs (Heap.attrsOf hp hq) h (Ok (attrsOf p q)) (λ r l h', holds h' r l).
Proof.
  intros Hp (_ & _ & Hact & Hposs). unfold Heap.attrsOf, attrsOf.
  rewrite Hact, Hposs.
  assert (runs (e ← Heap.allocArray []; Heap.concat e) h (Ok [])
            (λ (r : Heap.addr) (l : list string) h', holds h' r l)) as Hempty.
  { eapply runs_bind_pure; [apply runs_allocArray |]. intros e h1 _ He.
    by apply runs_concat. }
  destruct hp as [a | he], p as [l | e]; simpl in Hp; try done.
  destruct (Hp (nq_action q +:+ ":" +:+ nq_possession q)) as [a l Hal |].
  { by apply runs_concat. }
  destruct (Hp (nq_action q +:+ ":any")) as [a l Hal |]; [by apply runs_concat | done].
Qed.

Lemma roleProp_rep (h : Heap.Heap) (hr : Heap.RoleEntry) (r : RoleEntry) (key : string) :
  repRole h hr r →
  option_Forall2 (repProp h) (Heap.roleProp hr key) (roleProp r key).
Proof.
  intros [Hext Hres]. unfold Heap.roleProp, roleProp.
  destruct (String.eqb key "$extend").
  - destruct Hext; by constructor.
  - destruct (Hres key); by constructor.
Qed.

Lemma runs_pushAttrs (hg : gmap string Heap.RoleEntry) (g : gmap string RoleEntry)
    (hq : Heap.QueryInfo) (q : QueryInfo) (hl : list Heap.addr)
    (vl : list (list string)) (roleName : string) (h : Heap.Heap) :
  repTable h hg g → repNQuery hq q h → Forall2 (holds h) hl vl →
  runs (Heap.pushAttrs hg hq hl roleName) h (pushAttrs g q vl roleName)
    (λ hl' vl' h', Forall2 (holds h') hl' vl').
Proof.
  intros Hrep Hq Hall. unfold Heap.pushAttrs, pushAttrs.
  destruct (Hrep roleName) as [hr r Hrole |]; [| apply runs_throw].
  destruct Hq as (Hqr & Hqres & Hqa & Hqp). rewrite Hqres.
  destruct (negb (String.eqb (nq_resource q) "")); [| by apply runs_ret].
  destruct (roleProp_rep h hr r (nq_resource q) Hrole) as [hp p Hp |];
    [| apply runs_throw].
  eapply runs_bind_pure; [by apply runs_attrsOf |]. intros attrs h1 Hg1 Hattrs.
  apply runs_ret. apply Forall2_app; [by eapply Forall2_holds_grows |].
  by constructor.
Qed.

Lemma runs_unionAll (union_h : Heap.addr → Heap.addr → ST Heap.Heap Heap.addr)
    (union : list string → list string → list string) (hl : list Heap.addr)
    (vl : list (list string)) (h : Heap.Heap) :
  unionRefines union_h union → Forall2 (holds h) hl vl →
  runs (Heap.unionAll union_h hl) h (Ok (unionAll union vl)) (λ r l h', holds h' r l).
Proof.
  intros Hunion Hall. unfold Heap.unionAll, unionAll.
  eapply runs_bind_pure; [apply runs_allocArray |]. intros attrs h1 Hg1 Hattrs.
  apply (Forall2_holds_grows h h1) in Hall; [| done].
  destruct Hall as [| first l0 rest lrest Hfirst Hrest]; [by apply runs_ret |].
  clear Hattrs Hg1. revert h1 first l0 lrest Hfirst Hrest.
  induction rest as [| x rest IH]; intros h1 first l0 lrest Hfirst Hrest.
  - apply Forall2_nil_inv_l in Hrest as ->. by apply runs_ret.
  - apply Forall2_cons_inv_l in Hrest as (lx & lrest' & Hx & Hrest & ->). simpl.
    eapply runs_bind_pure; [by apply Hunion |]. intros c h2 Hg2 Hc.
    apply IH; [done |]. by eapply Forall2_holds_grows.
Qed.

(** The evaluator on the heap throws what the evaluator on values throws,
    and otherwise returns an array that holds the list the latter
    returns. *)
Theorem heap_evaluator_refines
    (union_h : Heap.addr → Heap.addr → ST Heap.Heap Heap.addr)
    (union : list string → list string → list string)
    (hg : gmap string Heap.RoleEntry) (g : gmap string RoleEntry)
    (query : Arg Heap.addr) (q : Arg IQueryInfo) (h : Heap.Heap) :
  unionRefines union_h union → repTable h hg g → repQuery h query q →
  runs (Heap.getUnionAttrsOfRoles union_h hg query) h
    (getUnionAttrsOfRoles union g q) (λ r l h', holds h' r l).
Proof.
  intros Hunion Hrep Hq. unfold Heap.getUnionAttrsOfRoles, getUnionAttrsOfRoles.
  eapply runs_bind. { apply runs_normalizeQueryInfo. exact Hq. }
  intros hq nq h1 _ Hg1 Hnq.
  eapply runs_bind.
  { apply runs_getFlatRoles; [by apply (repTable_grows h h1) | apply Hnq]. }
  intros roles flat h2 _ Hg2 Hflat.
  eapply runs_bind_pure; [apply runs_readArray; exact Hflat |]. intros names h3 Hg3 ->.
  assert (repNQuery hq nq h3) as Hnq3.
  { destruct Hnq as (Hr & ? & ? & ?). split_and!; [| done..].
    apply (holds_grows h1 h3); [| done]. by apply (grows_trans h1 h2 h3). }
  eapply runs_bind
    with (R := λ (hl : list Heap.addr) (vl : list (list string)) h',
                 Forall2 (holds h') hl vl).
  { apply (runs_foldST _ _ (λ h, repTable h hg g ∧ repNQuery hq nq h)
             (λ hl vl h', Forall2 (holds h') hl vl)).
    - intros h4 h5 Hg45 [? (? & ? & ? & ?)]. split; [by eapply repTable_grows |].
      split_and!; [by eapply holds_grows | done..].
    - intros h4 hl vl x [? ?] ?. by apply runs_pushAttrs.
    - split; [| done]. apply (repTable_grows h h3); [| done].
      apply (grows_trans h h2 h3); [| done]. by apply (grows_trans h h1 h2).
    - constructor. }
  intros hl vl h4 _ Hg4 Hall. by eapply runs_unionAll.
Qed.

Lemma unionOf_refines (union : list string → list string → list string) :
  unionRefines (Heap.unionOf union) union.
Proof.
  intros h a b la lb Ha Hb. unfold Heap.unionOf.
  eapply runs_bind_pure; [by apply runs_readArray |]. intros x h1 Hg1 ->.
  eapply runs_bind_pure; [apply runs_readArray; by eapply holds_grows |].
  intros y h2 Hg2 ->. apply runs_allocArray.
Qed.

Lemma unionOf_frame (union : list string → list string → list string) :
  Heap.unionFrame (Heap.unionOf union).
Proof.
  intros a b h. unfold Heap.unionOf. rewrite bind_run. unfold Heap.readArray.
  destruct (Heap.arrays h !! a) as [la |]; [| by split_and!].
  rewrite bind_run. destruct (Heap.arrays h !! b) as [lb |]; [| by split_and!].
  unfold Heap.allocArray. simpl. split_and!; [rewrite length_app; lia | done | | done |].
  - intros c Hc _ _. by apply lookup_app_l.
  - intros c [= <-]. by right; right.
Qed.

(** With a union that allocates its result, the evaluator on the heap
    returns a new array that holds the list that the evaluator on values
    returns, throws what it throws, and leaves the arrays and objects it
    has found as they were. *)
Corollary heap_evaluator_sound
    (union : list string → list string → list string)
    (hg : gmap string Heap.RoleEntry) (g : gmap string RoleEntry)
    (query : Arg Heap.addr) (q : Arg IQueryInfo) (h : Heap.Heap) :
  repTable h hg g → repQuery h query q →
  ∃ r h',
    Heap.getUnionAttrsOfRoles (Heap.unionOf union) hg query h = (r, h')
    ∧ Heap.keeps (length (Heap.arrays h)) (length (Heap.objects h)) h h'
    ∧ match getUnionAttrsOfRoles union g q with
      | Ok l => ∃ a, r = Ok a ∧ length (Heap.arrays h) ≤ a ∧ holds h' a l
      | Throw e => r = Throw e
      end.
Proof.
  intros Hrep Hq.
  destruct (heap_evaluator_refines (Heap.unionOf union) union hg g query q h)
    as (r & h' & Hrun & _ & Hres); [apply unionOf_refines | done | done |].
  destruct (framed_getUnionAttrsOfRoles (length (Heap.arrays h))
              (length (Heap.objects h)) (Heap.unionOf union) (unionOf_frame union)
              hg query h) as [Hkeeps Hfresh]; [done.. |].
  unfold execM, evalM in *. rewrite Hrun in Hkeeps, Hfresh. simpl in *.
  exists r, h'. split_and!; [done | done |].
  destruct (getUnionAttrsOfRoles union g q) as [l | e]; [| done].
  destruct Hres as (a & -> & Ha). exists a. split_and!; [done | by apply Hfresh | done].
Qed.

(** * Further properties *)

(** ** Arrays without duplicates *)

Lemma uniqConcat_snoc (arrA arrB : list string) (b : string) :
  uniqConcat arrA (arrB ++ [b]) = pushUniq (uniqConcat arrA arrB) b.
Proof. unfold uniqConcat. by rewrite foldl_app. Qed.

Lemma uniqConcat_again (arrA arrB : list string) :
  uniqConcat (uniqConcat arrA arrB) arrB = uniqConcat arrA arrB.
Proof. apply uniqConcat_absorb. intros x Hx. apply elem_of_uniqConcat. by right. Qed.

Lemma subtractArray_elem (arrA arrB : list string) (x : string) :
  x ∈ subtractArray arrA arrB ↔ x ∈ arrA ∧ x ∉ arrB.
Proof.
  unfold subtractArray. rewrite list_elem_of_filter, indexOf_false. tauto.
Qed.

Lemma subtractArray_snoc (arrA arrB : list string) (a : string) :
  subtractArray (arrA ++ [a]) arrB
  = subtractArray arrA arrB ++ (if indexOf arrB a then [] else [a]).
Proof.
  unfold subtractArray. rewrite filter_app. f_equal.
  destruct (indexOf arrB a) eqn:Ha.
  - rewrite filter_cons_False; [done |]. by rewrite Ha.
  - by rewrite filter_cons_True.
Qed.

Lemma uniqConcat_subtractArray (arrA arrB : list string) :
  uniqConcat arrA arrB = arrA ++ subtractArray (uniqConcat [] arrB) arrA.
Proof.
  induction arrB as [| b arrB IH] using rev_ind.
  { simpl. by rewrite app_nil_r. }
  rewrite !uniqConcat_snoc. unfold pushUniq.
  destruct (indexOf (uniqConcat [] arrB) b) eqn:Hb.
  - apply indexOf_true in Hb.
    assert (indexOf (uniqConcat arrA arrB) b = true) as ->; [| done].
    apply indexOf_true, elem_of_uniqConcat. right.
    by apply elem_of_uniqConcat in Hb as [?%elem_of_nil | ?].
  - rewrite subtractArray_snoc. apply indexOf_false in Hb.
    destruct (indexOf arrA b) eqn:Ha.
    + assert (indexOf (uniqConcat arrA arrB) b = true) as ->.
      { apply indexOf_true, elem_of_uniqConcat. left. by apply indexOf_true. }
      by rewrite app_nil_r.
    + assert (indexOf (uniqConcat arrA arrB) b = false) as ->.
      { apply indexOf_false. rewrite elem_of_uniqConcat. apply indexOf_false in Ha.
        intros [? | ?]; [done |]. apply Hb, elem_of_uniqConcat. by right. }
      by rewrite IH, <- app_assoc.
Qed.

(** X1. [uniqConcat] keeps the first array as the start of its result,
    adds the items of the second that are new and nothing else, and makes
    no duplicate of its own; uniting with the same array again, or with
    two arrays in turn instead of their concatenation, changes nothing. *)
Theorem uniqConcat_union (arrA arrB arrC : list string) :
  arrA `prefix_of` uniqConcat arrA arrB
  ∧ (∀ x, x ∈ uniqConcat arrA arrB ↔ x ∈ arrA ∨ x ∈ arrB)
  ∧ (NoDup arrA → NoDup (uniqConcat arrA arrB))
  ∧ uniqConcat (uniqConcat arrA arrB) arrB = uniqConcat arrA arrB
  ∧ uniqConcat (uniqConcat arrA arrB) arrC = uniqConcat arrA (arrB ++ arrC).
Proof.
  split_and!.
  - apply uniqConcat_prefix.
  - intros x. apply elem_of_uniqConcat.
  - apply NoDup_uniqConcat.
  - apply uniqConcat_again.
  - unfold uniqConcat. by rewrite foldl_app.
Qed.

Lemma uniqConcat_union_witness :
  NoDup (uniqConcat ["a"; "b"] ["b"; "c"; "c"]).
Proof.
  apply (uniqConcat_union ["a"; "b"] ["b"; "c"; "c"] []).
  apply (bool_decide_unpack _). vm_compute. reflexivity.
Defined.

(** X2. [subtractArray] keeps, in their order, the items of the first
    array that are not in the second; and the result of [uniqConcat] is
    the first array followed by what is left of the second, freed of
    repetitions, when the first is subtracted from it. *)
Theorem subtractArray_difference (arrA arrB : list string) :
  (∀ x, x ∈ subtractArray arrA arrB ↔ x ∈ arrA ∧ x ∉ arrB)
  ∧ subtractArray arrA arrB `sublist_of` arrA
  ∧ subtractArray arrA [] = arrA
  ∧ subtractArray arrA arrA = []
  ∧ uniqConcat arrA arrB = arrA ++ subtractArray (uniqConcat [] arrB) arrA.
Proof.
  split_and!.
  - intros x. apply subtractArray_elem.
  - apply sublist_filter.
  - unfold subtractArray. induction arrA as [| a arrA IH]; [done |].
    rewrite filter_cons_True by done. by rewrite IH.
  - unfold subtractArray. induction arrA as [| a arrA IH]; [done |].
    destruct (filter _ (a :: arrA)) as [| x l] eqn:Hf; [done |].
    assert (x ∈ filter (λ b, indexOf (a :: arrA) b = false) (a :: arrA)) as Hx
      by (rewrite Hf; left).
    apply list_elem_of_filter in Hx as [Hx1 Hx2]. by apply indexOf_false in Hx1.
  - apply uniqConcat_subtractArray.
Qed.

(** ** Names *)

Lemma validName_accepted (name : string) (t : bool) :
  acceptedName name = true → validName name t = Ok true.
Proof.
  unfold acceptedName, validName. intros [H1 H2]%andb_true_iff.
  apply negb_true_iff in H1, H2. by rewrite H1, H2.
Qed.

Lemma validName_quiet (name : string) :
  validName name false = Ok (acceptedName name).
Proof.
  unfold acceptedName, validName.
  destruct (String.eqb (trim name) ""); [done |].
  by destruct (indexOf RESERVED_KEYWORDS name).
Qed.

Lemma validName_rejected (name : string) :
  acceptedName name = false →
  validName name true
  = raise (if String.eqb (trim name) "" then InvalidName else ReservedName name).
Proof.
  unfold acceptedName, validName.
  destruct (String.eqb (trim name) ""); [done |].
  by destruct (indexOf RESERVED_KEYWORDS name).
Qed.

Lemma validName_Ok_accepted (name : string) (t : bool) :
  validName name t = Ok true → acceptedName name = true.
Proof.
  unfold acceptedName, validName.
  destruct (String.eqb (trim name) ""); [by destruct t |].
  destruct (indexOf RESERVED_KEYWORDS name); [by destruct t | done].
Qed.

(** X3. [hasValidNames] without throwing tells whether every name of the
    list is accepted, and an empty list or a value that is no list of names
    passes; with throwing it returns [true] or throws, and what it throws
    is the error of the first name that is not accepted. *)
Theorem hasValidNames_all_accepted (list : Value) :
  hasValidNames list false = Ok (forallb acceptedName (toStringArray list))
  ∧ (hasValidNames list true = Ok true
     ↔ forallb acceptedName (toStringArray list) = true)
  ∧ hasValidNames list true ≠ Ok false
  ∧ (∀ before name after,
       toStringArray list = before ++ name :: after →
       forallb acceptedName before = true → acceptedName name = false →
       hasValidNames list true
       = raise (if String.eqb (trim name) "" then InvalidName
                else ReservedName name)).
Proof.
  unfold hasValidNames. generalize (toStringArray list) as names. intros names.
  split_and!.
  - induction names as [| n names IH]; [done |]. simpl.
    rewrite validName_quiet. simpl. destruct (acceptedName n); [by rewrite IH | done].
  - induction names as [| n names IH]; [done |]. simpl.
    destruct (acceptedName n) eqn:Hn.
    + rewrite (validName_accepted n true Hn). simpl. by rewrite IH.
    + rewrite (validName_rejected n Hn). simpl. split; [| done].
      by destruct (String.eqb (trim n) "").
  - induction names as [| n names IH]; [done |]. simpl.
    destruct (acceptedName n) eqn:Hn.
    + by rewrite (validName_accepted n true Hn).
    + rewrite (validName_rejected n Hn). by destruct (String.eqb (trim n) "").
  - intros before name after -> Hbefore Hname.
    induction before as [| b before IH]; simpl.
    + by rewrite (validName_rejected name Hname).
    + simpl in Hbefore. apply andb_true_iff in Hbefore as [Hb Hbefore].
      rewrite (validName_accepted b true Hb). simpl. by apply IH.
Qed.

Lemma hasValidNames_all_accepted_witness :
  hasValidNames (VStr "admin, $extend, user") true = raise (ReservedName "$extend").
Proof.
  apply (proj2 (proj2 (proj2 (hasValidNames_all_accepted (VStr "admin, $extend, user"))))
           ["admin"] "$extend" ["user"]); reflexivity.
Defined.

(** ** White space and letter case *)

Lemma trimStart_split (s : string) :
  ∃ w, allWhiteSpace w = true ∧ s = w +:+ trimStart s
       ∧ (trimStart s = "" ∨ startsNonWs (trimStart s) = true).
Proof.
  induction s as [| c s (w & Hw & Hs & Hcase)]; [by exists ""; auto |].
  simpl. destruct (isWhiteSpace c) eqn:Hc.
  - exists (String c w). split_and!; [by simpl; rewrite Hc | | done].
    by rewrite append_cons, <- Hs.
  - exists "". split_and!; [done | done |]. right. simpl. by rewrite Hc.
Qed.

Lemma endsNonWs_rev (s : string) :
  startsNonWs s = true → endsNonWs (String.rev s) = true.
Proof.
  destruct s as [| c s]; [done |]. simpl. intros Hc.
  rewrite rev_cons. apply endsNonWs_append. simpl. done.
Qed.

Lemma trimEnd_split (s : string) :
  ∃ w, allWhiteSpace w = true ∧ s = trimEnd s +:+ w
       ∧ (trimEnd s = "" ∨ endsNonWs (trimEnd s) = true).
Proof.
  unfold trimEnd. destruct (trimStart_split (String.rev s)) as (w & Hw & Hs & Hcase).
  exists (String.rev w). split_and!.
  - by apply allWhiteSpace_rev.
  - rewrite <- rev_append, <- Hs. by rewrite rev_involutive.
  - destruct Hcase as [-> | Hcase]; [by left | right; by apply endsNonWs_rev].
Qed.

Lemma allWhiteSpace_not_start (w : string) :
  allWhiteSpace w = true → startsNonWs w = false.
Proof. destruct w as [| c w]; [done |]. simpl. by intros [-> _]%andb_true_iff. Qed.

(** A string is white space, and trimmed to nothing, or it is its trimmed
    string between two runs of white space. *)
Lemma trim_split (s : string) :
  (trim s = "" ∧ allWhiteSpace s = true)
  ∨ (startsNonWs (trim s) = true ∧ endsNonWs (trim s) = true
     ∧ ∃ lead trail, allWhiteSpace lead = true ∧ allWhiteSpace trail = true
                     ∧ s = lead +:+ trim s +:+ trail).
Proof.
  unfold trim. destruct (trimStart_split s) as (lead & Hlead & Hs & Hcase).
  destruct (trimEnd_split (trimStart s)) as (trail & Htrail & Ht & Hcase').
  destruct Hcase as [Hempty | Hstart].
  - left. rewrite Hempty in *. split; [done |].
    rewrite Hs, append_nil_r. done.
  - right.
    assert (trimEnd (trimStart s) ≠ "") as Hne.
    { intros Heq. rewrite Heq, append_nil_l in Ht. rewrite Ht in Hstart.
      by rewrite allWhiteSpace_not_start in Hstart. }
    destruct Hcase' as [? | Hend]; [done |]. split_and!; [| done |].
    + destruct (trimEnd (trimStart s)) as [| c r] eqn:Hr; [done |].
      rewrite Ht in Hstart. by rewrite append_cons in Hstart.
    + exists lead, trail. split_and!; [done.. |]. by rewrite <- Ht.
Qed.

Lemma trim_trim (s : string) : trim (trim s) = trim s.
Proof.
  destruct (trim_split s) as [[-> _] | (Hstart & Hend & _)]; [done |].
  rewrite <- (append_nil_r (trim s)) at 1.
  rewrite <- (append_nil_l (trim s +:+ "")). by apply trim_names.
Qed.

Lemma trim_fixed (s : string) :
  startsNonWs s = true → endsNonWs s = true → trim s = s.
Proof.
  intros Hstart Hend. rewrite <- (append_nil_r s) at 1.
  rewrite <- (append_nil_l (s +:+ "")). by apply trim_names.
Qed.

Lemma lowerChar_facts (c : ascii) :
  isWhiteSpace (lowerChar c) = isWhiteSpace c
  ∧ lowerChar (lowerChar c) = lowerChar c
  ∧ Ascii.eqb (lowerChar c) ":" = Ascii.eqb c ":".
Proof.
  destruct c as [[] [] [] [] [] [] [] []]; vm_compute; split_and!; reflexivity.
Qed.

Lemma toLowerCase_append (s t : string) :
  toLowerCase (s +:+ t) = toLowerCase s +:+ toLowerCase t.
Proof. induction s as [| c s IH]; [done |]. simpl. by rewrite !append_cons, <- IH. Qed.

Lemma toLowerCase_rev (s : string) :
  toLowerCase (String.rev s) = String.rev (toLowerCase s).
Proof.
  induction s as [| c s IH]; [done |]. simpl.
  by rewrite !rev_cons, toLowerCase_append, IH.
Qed.

Lemma toLowerCase_again (s : string) : toLowerCase (toLowerCase s) = toLowerCase s.
Proof.
  induction s as [| c s IH]; [done |]. simpl.
  by rewrite IH, (proj1 (proj2 (lowerChar_facts c))).
Qed.

Lemma trimStart_toLowerCase (s : string) :
  trimStart (toLowerCase s) = toLowerCase (trimStart s).
Proof.
  induction s as [| c s IH]; [done |]. simpl.
  rewrite (proj1 (lowerChar_facts c)). by destruct (isWhiteSpace c).
Qed.

Lemma trim_toLowerCase (s : string) : trim (toLowerCase s) = toLowerCase (trim s).
Proof.
  unfold trim, trimEnd.
  by rewrite trimStart_toLowerCase, <- toLowerCase_rev, trimStart_toLowerCase,
    toLowerCase_rev.
Qed.

Lemma splitChar_go_toLowerCase (cur s : string) :
  splitChar_go ":" (toLowerCase cur) (toLowerCase s)
  = toLowerCase <$> splitChar_go ":" cur s.
Proof.
  revert cur. induction s as [| c s IH]; intros cur; simpl.
  { by rewrite toLowerCase_rev. }
  rewrite (proj2 (proj2 (lowerChar_facts c))).
  destruct (Ascii.eqb c ":").
  - simpl. rewrite toLowerCase_rev. f_equal. apply (IH "").
  - apply (IH (String c cur)).
Qed.

Lemma splitChar_toLowerCase (s : string) :
  splitChar ":" (toLowerCase s) = toLowerCase <$> splitChar ":" s.
Proof. apply (splitChar_go_toLowerCase "" s). Qed.

Lemma toLowerCase_empty (s : string) :
  String.eqb (toLowerCase s) "" = String.eqb s "".
Proof. by destruct s. Qed.

(** ** Normal forms *)

Lemma splitChar_go_head (a cur rest : string) :
  hasChar ":" a = false →
  splitChar_go ":" cur (a +:+ rest) = splitChar_go ":" (String.rev_app a cur) rest.
Proof.
  revert cur. induction a as [| c a IH]; intros cur Ha; [done |].
  simpl in Ha. apply orb_false_iff in Ha as [Hc Ha].
  rewrite append_cons. simpl. rewrite Hc. by apply IH.
Qed.

Lemma splitChar_first (a rest : string) :
  hasChar ":" a = false →
  splitChar ":" a !! 0 = Some a
  ∧ splitChar ":" (a +:+ String ":" rest) !! 0 = Some a.
Proof.
  intros Ha. unfold splitChar. split.
  - rewrite <- (append_nil_r a) at 1. rewrite splitChar_go_head by done. simpl.
    by rewrite rev_app_append, append_nil_r, rev_involutive.
  - rewrite splitChar_go_head by done. simpl.
    by rewrite rev_app_append, append_nil_r, rev_involutive.
Qed.

Lemma normalizeActionPossession_toLowerCase (action : string) (possession : Value) :
  normalizeActionPossession (VStr (toLowerCase action)) possession
  = normalizeActionPossession (VStr action) possession.
Proof.
  unfold normalizeActionPossession.
  rewrite splitChar_toLowerCase, !list_lookup_fmap.
  assert (∀ o : option string,
            default "" (toLowerCase <$> o) = toLowerCase (default "" o)) as Hd
    by (by intros []).
  rewrite Hd, trim_toLowerCase, toLowerCase_again.
  destruct (negb (indexOf actions _)); [done |].
  destruct (truthy possession); [done |].
  destruct (splitChar ":" action !! 1) as [s1 |]; simpl; [| done].
  by rewrite toLowerCase_empty, trim_toLowerCase, toLowerCase_again.
Qed.

Lemma normalizeActionPossession_possession_toLowerCase (action : Value) (p : string) :
  normalizeActionPossession action (VStr (toLowerCase p))
  = normalizeActionPossession action (VStr p).
Proof.
  unfold normalizeActionPossession. destruct action; try done.
  destruct (negb (indexOf actions _)); [done |].
  cbn [truthy]. rewrite toLowerCase_empty.
  destruct (negb (String.eqb p "")) eqn:Hp; [| done].
  cbn [truthy]. rewrite toLowerCase_empty, Hp.
  by rewrite trim_toLowerCase, toLowerCase_again.
Qed.

Lemma normalizeActionPossession_Ok (action possession : Value) (a p : string) :
  normalizeActionPossession action possession = Ok (a, p) →
  a ∈ actions ∧ p ∈ possessions.
Proof.
  unfold normalizeActionPossession. destruct action as [| | | | s | |]; try done.
  destruct (indexOf actions _) eqn:Ha; [| done]. simpl.
  apply indexOf_true in Ha.
  match goal with |- context [truthy ?v] => destruct (truthy v) end.
  - match goal with |- context [match ?v with VStr _ => _ | _ => _ end] =>
      destruct v; try done end.
    destruct (indexOf possessions _) eqn:Hp; [| done]. simpl.
    apply indexOf_true in Hp. by intros [= <- <-].
  - intros [= <- <-]. split; [done |]. unfold possessions, Possession_ANY.
    apply elem_of_cons. right. apply elem_of_cons. by left.
Qed.

Lemma normalizeActionPossession_fixed (a p : string) :
  a ∈ actions → p ∈ possessions →
  normalizeActionPossession (VStr a) (VStr p) = Ok (a, p)
  ∧ normalizeActionPossession (VStr (a +:+ ":" +:+ p)) VUndefined = Ok (a, p)
  ∧ normalizeActionPossession (VStr a) VUndefined = Ok (a, "any").
Proof.
  unfold actions, possessions. intros Ha Hp.
  repeat (apply elem_of_cons in Ha as [-> | Ha]);
    try (by apply elem_of_nil in Ha);
    repeat (apply elem_of_cons in Hp as [-> | Hp]);
    try (by apply elem_of_nil in Hp);
    vm_compute; split_and!; reflexivity.
Qed.

(** X4. What [normalizeActionPossession] returns is one of the four
    actions and one of the two possessions, and is returned unchanged when
    it is normalised again, as two properties or as one string
    [action:possession]; without a possession the result is [any]. The
    letter case of the action and of the possession does not matter. A
    possession given as a property prevails over one given after the colon.
    A possession that is set and is not a string makes the call throw a
    [TypeError], where the action is valid. *)
Theorem normalizeActionPossession_normal_form :
  (∀ action possession a p,
     normalizeActionPossession action possession = Ok (a, p) →
     a ∈ actions ∧ p ∈ possessions
     ∧ normalizeActionPossession (VStr a) (VStr p) = Ok (a, p)
     ∧ normalizeActionPossession (VStr (a +:+ ":" +:+ p)) VUndefined = Ok (a, p)
     ∧ normalizeActionPossession (VStr a) VUndefined = Ok (a, "any"))
  ∧ (∀ action possession,
       normalizeActionPossession (VStr (toLowerCase action)) possession
       = normalizeActionPossession (VStr action) possession)
  ∧ (∀ action p,
       normalizeActionPossession action (VStr (toLowerCase p))
       = normalizeActionPossession action (VStr p))
  ∧ (∀ a suffix possession,
       hasChar ":" a = false → truthy possession = true →
       normalizeActionPossession (VStr (a +:+ String ":" suffix)) possession
       = normalizeActionPossession (VStr a) possession)
  ∧ (∀ action possession,
       truthy possession = true → (∀ p, possession ≠ VStr p) →
       normalizeActionPossession action possession = Throw TypeError
       ∨ normalizeActionPossession action possession = raise InvalidAction).
Proof.
  split_and!.
  - intros action possession a p Hn.
    destruct (normalizeActionPossession_Ok _ _ _ _ Hn) as [Ha Hp].
    split; [done |]. split; [done |]. by apply normalizeActionPossession_fixed.
  - apply normalizeActionPossession_toLowerCase.
  - apply normalizeActionPossession_possession_toLowerCase.
  - intros a suffix possession Ha Hposs. unfold normalizeActionPossession.
    destruct (splitChar_first a suffix Ha) as [-> ->]. simpl.
    destruct (negb (indexOf actions _)); [done |]. by rewrite Hposs.
  - intros action possession Hposs Hstr. unfold normalizeActionPossession.
    destruct action; try (by right).
    destruct (negb (indexOf actions _)); [by right |].
    left. rewrite Hposs. cbv iota. rewrite Hposs.
    destruct possession as [| | | | p | |]; try done. by destruct (Hstr p).
Qed.

Lemma normalizeActionPossession_normal_form_witness :
  normalizeActionPossession (VStr " CREATE :Own") (VStr "ANY") = Ok ("create", "any")
  ∧ normalizeActionPossession (VStr "create:own") (VNum 1) = Throw TypeError.
Proof.
  destruct normalizeActionPossession_normal_form as (_ & _ & _ & Hprop & _).
  split.
  - exact (eq_trans (Hprop " CREATE " "Own" (VStr "ANY") eq_refl eq_refl) eq_refl).
  - reflexivity.
Defined.

(** X5. A query that [normalizeQueryInfo] returns has no blank role (its
    list of roles may be empty), a resource that is trimmed and not empty, one of the four actions and
    one of the two possessions; and it is returned as it is when it is
    normalised again. *)
Theorem normalizeQueryInfo_normal_form (query : Arg IQueryInfo) (q : QueryInfo) :
  normalizeQueryInfo query = Ok q →
  isFilledStringArray (nq_role q) = true
  ∧ nq_resource q ≠ "" ∧ trim (nq_resource q) = nq_resource q
  ∧ nq_action q ∈ actions ∧ nq_possession q ∈ possessions
  ∧ normalizeQueryInfo
      (AnObject (mkQuery (VArr (nq_role q)) (VStr (nq_resource q))
                   (VStr (nq_action q)) (VStr (nq_possession q))))
    = Ok q.
Proof.
  intros Hq. unfold normalizeQueryInfo in Hq. destruct query as [query |]; [| done].
  destruct (isFilledStringArray (toStringArray (q_role query))) eqn:Hfilled; [| done].
  simpl in Hq. destruct (q_resource query) as [| | | | r | |]; try done.
  destruct (String.eqb (trim r) "") eqn:Hr; [done |].
  destruct (normalizeActionPossession _ _) as [[a p] |] eqn:Hn; [| done].
  simpl in Hq. injection Hq as <-.
  cbn [nq_role nq_resource nq_action nq_possession].
  destruct (normalizeActionPossession_Ok _ _ _ _ Hn) as [Ha Hp].
  split_and!; [done | by apply String.eqb_neq | apply trim_trim | done | done |].
  unfold normalizeQueryInfo.
  cbn [q_role q_resource q_action q_possession toStringArray].
  rewrite Hfilled, trim_trim, Hr.
  by rewrite (proj1 (normalizeActionPossession_fixed a p Ha Hp)).
Qed.

Lemma normalizeQueryInfo_normal_form_witness :
  normalizeQueryInfo
    (AnObject (mkQuery (VArr ["admin"; "user"]) (VStr "video") (VStr "read")
                 (VStr "own")))
  = Ok (mkNQuery ["admin"; "user"] "video" "read" "own").
Proof.
  apply (normalizeQueryInfo_normal_form
           (AnObject (mkQuery (VStr "admin; user") (VStr " video ") (VStr "READ:own")
                        VUndefined))
           (mkNQuery ["admin"; "user"] "video" "read" "own")).
  reflexivity.
Defined.

(** X6. An access statement that [normalizeAccessInfo] returns has at
    least one role and one resource, none of them blank; its attributes
    are empty when the statement is denied or gives an empty array, and
    are all attributes when it is not denied and gives none. With [all]
    set, its action and possession are one of the four actions and one of
    the two possessions; without, they are the caller's values, unchecked.
    It is returned as it is when it is normalised again. *)
Theorem normalizeAccessInfo_normal_form (access : IAccessInfo) (all : bool)
    (ai : AccessInfo) :
  normalizeAccessInfo (AnObject access) all = Ok ai →
  (na_role ai ≠ [] ∧ isFilledStringArray (na_role ai) = true)
  ∧ (na_resource ai ≠ [] ∧ isFilledStringArray (na_resource ai) = true)
  ∧ (truthy (a_denied access) = true ∨ isEmptyArray (a_attributes access) = true →
     na_attributes ai = [])
  ∧ (truthy (a_denied access) = false → truthy (a_attributes access) = false →
     na_attributes ai = ["*"])
  ∧ (all = true →
     ∃ a p, na_action ai = VStr a ∧ na_possession ai = VStr p
            ∧ a ∈ actions ∧ p ∈ possessions)
  ∧ (all = false →
     na_action ai = a_action access ∧ na_possession ai = a_possession access)
  ∧ normalizeAccessInfo
      (AnObject (mkAccess (VArr (na_role ai)) (VArr (na_resource ai)) (na_action ai)
                   (na_possession ai) (VArr (na_attributes ai)) VUndefined)) all
    = Ok ai.
Proof.
  intros Hai. unfold normalizeAccessInfo in Hai.
  destruct (toStringArray (a_role access)) as [| r rs] eqn:Hrole; [done |].
  destruct (isFilledStringArray (r :: rs)) eqn:Hfr; [| done].
  destruct (toStringArray (a_resource access)) as [| x xs] eqn:Hres; [done |].
  destruct (isFilledStringArray (x :: xs)) eqn:Hfx; [| done].
  cbn [length Nat.eqb orb negb] in Hai.
  set (attrs := if truthy (a_denied access) || isEmptyArray (a_attributes access)
                then [] else _) in Hai.
  assert ((truthy (a_denied access) = true ∨ isEmptyArray (a_attributes access) = true
           → attrs = [])
          ∧ (truthy (a_denied access) = false → truthy (a_attributes access) = false
             → attrs = ["*"])) as [Hdenied Hnone].
  { subst attrs. split.
    - intros [-> | ->]; [done | by rewrite orb_true_r].
    - intros -> Hnone. rewrite Hnone.
      by destruct (a_attributes access) as [| | | | | [] |]. }
  assert ((if isEmptyArray (VArr attrs) then [] else attrs) = attrs) as Hattrs
    by (by destruct attrs).
  destruct all.
  - destruct (normalizeActionPossession _ _) as [[a p] |] eqn:Hn; [| done].
    simpl in Hai. injection Hai as <-.
    cbn [na_role na_resource na_action na_possession na_attributes].
    destruct (normalizeActionPossession_Ok _ _ _ _ Hn) as [Ha Hp].
    split_and!; [done.. | by exists a, p | done |].
    unfold normalizeAccessInfo.
    cbn [a_role a_resource a_action a_possession a_attributes a_denied toStringArray].
    rewrite Hfr, Hfx, (proj1 (normalizeActionPossession_fixed a p Ha Hp)).
    cbn [length Nat.eqb orb negb truthy]. by rewrite Hattrs.
  - injection Hai as <-.
    cbn [na_role na_resource na_action na_possession na_attributes].
    split_and!; [done.. |].
    unfold normalizeAccessInfo.
    cbn [a_role a_resource a_action a_possession a_attributes a_denied toStringArray].
    rewrite Hfr, Hfx. cbn [length Nat.eqb orb negb truthy]. by rewrite Hattrs.
Qed.

Lemma normalizeAccessInfo_normal_form_witness :
  ∃ a p, VStr "update" = VStr a ∧ VStr "own" = VStr p ∧ a ∈ actions ∧ p ∈ possessions.
Proof.
  apply (normalizeAccessInfo_normal_form
           (mkAccess (VStr "admin, user") (VArr ["video"]) (VStr "Update:OWN")
              VUndefined VUndefined (VBool true)) true
           (mkNAccess ["admin"; "user"] ["video"] (VStr "update") (VStr "own") []));
    reflexivity.
Defined.

(** X7. [resetAttributes] applied twice is [resetAttributes] applied
    once. The normalisation of a statement reads the attributes it has
    reset as it reads the attributes it was given, except for a statement
    that is not denied and gives the empty array: normalised as given it
    allows no attribute, and once reset it allows all. *)
Theorem resetAttributes_then_normalize (access : IAccessInfo) (all : bool) :
  resetAttributes (resetAttributes access) = resetAttributes access
  ∧ (truthy (a_denied access) = true ∨ isEmptyArray (a_attributes access) = false →
     normalizeAccessInfo (AnObject (resetAttributes access)) all
     = normalizeAccessInfo (AnObject access) all)
  ∧ (truthy (a_denied access) = false → isEmptyArray (a_attributes access) = true →
     ∀ ai, normalizeAccessInfo (AnObject access) all = Ok ai →
           na_attributes ai = []
           ∧ normalizeAccessInfo (AnObject (resetAttributes access)) all
             = Ok (mkNAccess (na_role ai) (na_resource ai) (na_action ai)
                     (na_possession ai) ["*"])).
Proof.
  split_and!.
  - unfold resetAttributes.
    destruct (truthy (a_denied access)) eqn:Hd; simpl; [by rewrite Hd |].
    destruct (negb (truthy (a_attributes access)) || isEmptyArray (a_attributes access))
      eqn:Ha; simpl; [by rewrite Hd | by rewrite Hd, Ha].
  - intros Hcase. unfold resetAttributes.
    destruct (truthy (a_denied access)) eqn:Hd.
    + unfold normalizeAccessInfo, withAttributes.
      cbn [a_role a_resource a_action a_possession a_attributes a_denied].
      by rewrite !Hd.
    + destruct Hcase as [? | He]; [done |]. rewrite He, orb_false_r.
      destruct (truthy (a_attributes access)) eqn:Ht; [done |].
      unfold normalizeAccessInfo, withAttributes.
      cbn [negb a_role a_resource a_action a_possession a_attributes a_denied].
      by rewrite !Hd, !He, !Ht.
  - intros Hd He ai. unfold resetAttributes. rewrite Hd, He, orb_true_r.
    unfold normalizeAccessInfo, withAttributes.
    cbn [a_role a_resource a_action a_possession a_attributes a_denied].
    rewrite !Hd, !He. cbn [orb isEmptyArray truthy negb].
    destruct (_ || _); [done |]. destruct (_ || _); [done |].
    destruct all.
    + destruct (normalizeActionPossession _ _) as [[a p] |]; [| done].
      simpl. by intros [= <-].
    + by intros [= <-].
Qed.

Lemma resetAttributes_then_normalize_witness :
  na_attributes (mkNAccess ["u"] ["video"] (VStr "create") (VStr "any") []) = []
  ∧ normalizeAccessInfo
      (AnObject (resetAttributes
                   (mkAccess (VStr "u") (VStr "video") (VStr "create") VUndefined
                      (VArr []) VUndefined))) true
    = Ok (mkNAccess ["u"] ["video"] (VStr "create") (VStr "any") ["*"]).
Proof.
  apply (proj2 (proj2 (resetAttributes_then_normalize
                         (mkAccess (VStr "u") (VStr "video") (VStr "create")
                            VUndefined (VArr []) VUndefined) true)));
    reflexivity.
Defined.

(** ** Resolving a hierarchy: success and errors *)

Lemma extendsEdge_role (g : gmap string RoleEntry) (a b : string) :
  extendsEdge g a b → ∃ role ext, g !! a = Some role ∧ extend role = Some ext ∧ b ∈ ext.
Proof.
  unfold extendsEdge, extendersOf. destruct (g !! a) as [role |]; [| by intros ?%elem_of_nil].
  destruct (extend role) as [ext |] eqn:Hext; simpl; [| by intros ?%elem_of_nil].
  intros Hb. by exists role, ext.
Qed.

Lemma extendsEdge_intro (g : gmap string RoleEntry) (a b : string) (role : RoleEntry)
    (ext : list string) :
  g !! a = Some role → extend role = Some ext → b ∈ ext → extendsEdge g a b.
Proof. unfold extendsEdge, extendersOf. by intros -> ->. Qed.

Lemma tc_inv_l (g : gmap string RoleEntry) (a b : string) :
  tc (extendsEdge g) a b → ∃ y, extendsEdge g a y ∧ rtc (extendsEdge g) y b.
Proof.
  inversion 1 as [x y Hxy | x y z Hxy Hyz]; subst; [by exists b |].
  exists y. split; [done |]. by apply tc_rtc.
Qed.

Lemma tc_intro_l (g : gmap string RoleEntry) (a y b : string) :
  extendsEdge g a y → rtc (extendsEdge g) y b → tc (extendsEdge g) a b.
Proof.
  intros Hay Hyb. eapply tc_rtc_r; [by apply tc_once | done].
Qed.

Lemma tc_intro_r (g : gmap string RoleEntry) (a y b : string) :
  rtc (extendsEdge g) a y → extendsEdge g y b → tc (extendsEdge g) a b.
Proof.
  intros Hay Hyb. eapply tc_rtc_l; [done | by apply tc_once].
Qed.

(** A resolution that returns has met no missing role and no cycle. *)
Lemma hierarchyAt_Ok_sound (g : gmap string RoleEntry) (d : nat) :
  ∀ r root l,
    hierarchyAt d g r root = Ok l →
    ∀ x, rtc (extendsEdge g) r x → is_Some (g !! x) ∧ ¬ tc (extendsEdge g) x x.
Proof.
  induction d as [| d IH]; intros r root l Hl; [done |].
  rewrite hierarchyAt_unfold in Hl.
  destruct (g !! r) as [role |] eqn:Hrole; [| done].
  assert (∀ y, extendsEdge g r y →
            ∀ x, rtc (extendsEdge g) y x → is_Some (g !! x) ∧ ¬ tc (extendsEdge g) x x)
    as Hbelow.
  { intros y (role' & ext & Hr' & Hext & Hy)%extendsEdge_role. simplify_eq.
    rewrite Hext in Hl. destruct ext as [| e ext]; [by apply elem_of_nil in Hy |].
    apply foldM_hierarchyStep_elem in Hl as [_ Hsteps].
    destruct (Hsteps y Hy) as (ly & Hly & _). by apply (IH _ _ _ Hly). }
  intros x Hx. apply rtc_inv in Hx as [<- | (y & Hry & Hyx)]; [| by eapply Hbelow].
  split; [by rewrite Hrole |].
  intros (y & Hry & Hyr)%tc_inv_l.
  destruct (Hbelow y Hry r Hyr) as [_ Hcyc]. apply Hcyc. by eapply tc_intro_l.
Qed.

(** What a resolution throws it has found below the role. *)
Lemma hierarchyAt_Throw_sound (g : gmap string RoleEntry) (d : nat) :
  ∀ r root e,
    is_Some (g !! r) →
    (∀ top, root = Some top → rtc (extendsEdge g) top r) →
    hierarchyAt d g r root = Throw e →
    match e with
    | AccessControlError (RoleNotFound name) =>
        name = "undefined"
        ∧ ∃ a b, rtc (extendsEdge g) r a ∧ extendsEdge g a b ∧ g !! b = None
    | AccessControlError (SelfExtension name) =>
        rtc (extendsEdge g) r name ∧ extendsEdge g name name
    | AccessControlError (CrossInheritance a b) =>
        a = b ∧ tc (extendsEdge g) a a
    | RangeError => True
    | _ => False
    end.
Proof.
  induction d as [| d IH]; intros r root e Hr Hroot He; [by injection He as <- |].
  rewrite hierarchyAt_unfold in He.
  destruct (g !! r) as [role |] eqn:Hrole; [| by destruct Hr].
  destruct (extend role) as [[| x0 ext] |] eqn:Hext; [done | | done].
  apply foldM_Throw in He as (arr & x & Hx & Hstep).
  assert (extendsEdge g r x) as Hedge by (by eapply extendsEdge_intro).
  unfold hierarchyStep in Hstep.
  destruct (hasRole g x) eqn:Hhas; simpl in Hstep.
  - apply hasRole_true in Hhas.
    destruct (String.eqb_spec x r) as [-> | Hne].
    { unfold raise in Hstep. simplify_eq. done. }
    destruct (strTruthy root && bool_decide (root = Some x)) eqn:Hcross.
    { unfold raise in Hstep. simplify_eq. split; [done |].
      apply andb_true_iff in Hcross as [_ Hx'%bool_decide_eq_true].
      eapply tc_intro_r; [by apply Hroot | done]. }
    destruct (hierarchyAt d g x _) as [lx |] eqn:Hrec; simpl in Hstep; [done |].
    simplify_eq. apply IH in Hrec; [| done |].
    + destruct e as [[] | |]; try done.
      * destruct Hrec as (-> & a & b & Hxa & Hab & Hb). split; [done |].
        exists a, b. split_and!; [by eapply rtc_l | done | done].
      * destruct Hrec as [Hxn Hnn]. split; [by eapply rtc_l | done].
    + intros top Htop. destruct (strTruthy root) eqn:Ht.
      * eapply rtc_r; [by apply Hroot | done].
      * simplify_eq. by apply rtc_once.
  - unfold raise in Hstep. simplify_eq. split; [done |].
    exists r, x. split_and!; [done | done |].
    apply eq_None_not_Some. intros Hsome. apply hasRole_true in Hsome. congruence.
Qed.

(** X8. On a table and for a role whose names are none of those that an
    object literal inherits: when [getRoleHierarchyOf] returns, every role
    of its result is in the table, is reached from the role through the
    extends lists, and is on no inheritance cycle. *)
Theorem getRoleHierarchyOf_Ok_sound (g : gmap string RoleEntry) (r : string)
    (root : option string) (l : list string) :
  plainTable g → plainName r = true →
  getRoleHierarchyOf g r root = Ok l →
  ∀ x, x ∈ l →
       is_Some (g !! x) ∧ rtc (extendsEdge g) r x ∧ ¬ tc (extendsEdge g) x x.
Proof.
  unfold getRoleHierarchyOf. intros _ _ Hl x Hx.
  assert (rtc (extendsEdge g) r x) as Hreach.
  { apply hierarchyAt_depthFirst in Hl as ->. by eapply depthFirst_reach. }
  destruct (hierarchyAt_Ok_sound g _ r root l Hl x Hreach). done.
Qed.

Lemma getRoleHierarchyOf_Ok_sound_witness :
  is_Some (tblBranch !! "D") ∧ rtc (extendsEdge tblBranch) "A" "D"
  ∧ ¬ tc (extendsEdge tblBranch) "D" "D".
Proof.
  apply (getRoleHierarchyOf_Ok_sound tblBranch "A" None ["A"; "B"; "D"; "C"]).
  - exact tblBranch_plain.
  - reflexivity.
  - vm_compute. reflexivity.
  - apply (bool_decide_unpack _). vm_compute. reflexivity.
Defined.

Lemma getRoleHierarchyOf_total (g : gmap string RoleEntry) (r : string) :
  closed g → acyclic g → is_Some (g !! r) →
  ∃ l, getRoleHierarchyOf g r None = Ok l.
Proof.
  intros Hclosed Hacyc Hr.
  destruct (getRoleHierarchyOf g r None) as [l | e] eqn:Hl; [by exists l |].
  pose proof (getRoleHierarchyOf_RangeError_free g r None Hacyc) as Hrange.
  unfold getRoleHierarchyOf in *. pose proof Hl as Hthrow.
  apply hierarchyAt_Throw_sound in Hl; [| done | done].
  destruct e as [[] | |]; try done.
  - destruct Hl as (_ & a & b & _ & Hab & Hb). apply Hclosed in Hab.
    rewrite Hb in Hab. by destruct Hab.
  - destruct Hl as [_ Hself]. destruct (Hacyc roleName). by apply tc_once.
  - destruct Hl as [_ Hcyc]. by destruct (Hacyc extender).
Qed.

Lemma resolving_closed_acyclic (g : gmap string RoleEntry) :
  (∀ r, is_Some (g !! r) → ∃ l, getRoleHierarchyOf g r None = Ok l) →
  closed g ∧ acyclic g.
Proof.
  intros Hall.
  assert (∀ a b, extendsEdge g a b → is_Some (g !! a)) as Hsrc.
  { intros a b (role & ext & -> & _)%extendsEdge_role. eauto. }
  split.
  - intros a b Hab. destruct (Hall a) as [l Hl]; [by eapply Hsrc |].
    unfold getRoleHierarchyOf in Hl.
    apply (hierarchyAt_Ok_sound g _ a None l Hl b). by apply rtc_once.
  - intros a Ha. destruct (tc_inv_l g a a Ha) as (y & Hay & _).
    destruct (Hall a) as [l Hl]; [by eapply Hsrc |].
    unfold getRoleHierarchyOf in Hl.
    by apply (hierarchyAt_Ok_sound g _ a None l Hl a).
Qed.

(** X9. On a table whose names are none of those that an object literal
    inherits, [getRoleHierarchyOf] returns for every role of the table
    exactly when the table has no inheritance cycle and names no extender
    that is not one of its roles; what it returns is then the depth-first
    list of the role. *)
Theorem getRoleHierarchyOf_returns (g : gmap string RoleEntry) :
  plainTable g →
  closed g ∧ acyclic g
  ↔ ∀ r, is_Some (g !! r) → getRoleHierarchyOf g r None = Ok (depthFirstOrder g r).
Proof.
  intros _. split.
  - intros [Hclosed Hacyc] r Hr.
    destruct (getRoleHierarchyOf_total g r Hclosed Hacyc Hr) as [l Hl].
    rewrite Hl. f_equal. unfold getRoleHierarchyOf in Hl.
    by apply hierarchyAt_depthFirst in Hl.
  - intros Hall. apply resolving_closed_acyclic. intros r Hr. eauto.
Qed.

Lemma tblChain_closed : closed tblChain.
Proof.
  intros a b. unfold extendsEdge, extendersOf, tblChain.
  destruct (decide (a = "A")) as [-> | HA].
  { rewrite lookup_insert_eq. simpl. intros ->%list_elem_of_singleton.
    vm_compute. eauto. }
  rewrite lookup_insert_ne by done.
  destruct (decide (a = "B")) as [-> | HB].
  { rewrite lookup_insert_eq. simpl. intros ->%list_elem_of_singleton.
    vm_compute. eauto. }
  rewrite lookup_insert_ne by done.
  destruct (decide (a = "C")) as [-> | HC].
  { rewrite lookup_insert_eq. simpl. by intros ?%elem_of_nil. }
  rewrite lookup_insert_ne, lookup_empty by done. by intros ?%elem_of_nil.
Qed.

Lemma getRoleHierarchyOf_returns_witness :
  getRoleHierarchyOf tblChain "A" None = Ok (depthFirstOrder tblChain "A").
Proof.
  apply (proj1 (getRoleHierarchyOf_returns tblChain tblChain_plain)
           (conj tblChain_closed tblChain_acyclic)).
  vm_compute. eauto.
Defined.

(** X10. On a table and for a role whose names are none of those that an
    object literal inherits: what [getRoleHierarchyOf] throws for a role
    of the table names a defect that is below that role. "Role not found"
    tells of an extender that is missing from the table, and gives its
    name as [undefined]; "cannot extend by itself" names a role, reached
    from the given one, that has itself in its extends list; "cross
    inheritance" names a role that is on a cycle; an exhausted stack tells
    that the table has a cycle. A role that is not in the table is
    reported by its name. *)
Theorem getRoleHierarchyOf_errors (g : gmap string RoleEntry) (r : string) :
  plainTable g → plainName r = true →
  (g !! r = None → getRoleHierarchyOf g r None = raise (RoleNotFound r))
  ∧ (is_Some (g !! r) →
     (∀ name, getRoleHierarchyOf g r None = raise (RoleNotFound name) →
        name = "undefined"
        ∧ ∃ a b, rtc (extendsEdge g) r a ∧ extendsEdge g a b ∧ g !! b = None)
     ∧ (∀ name, getRoleHierarchyOf g r None = raise (SelfExtension name) →
          rtc (extendsEdge g) r name ∧ extendsEdge g name name)
     ∧ (∀ a b, getRoleHierarchyOf g r None = raise (CrossInheritance a b) →
          a = b ∧ tc (extendsEdge g) a a)
     ∧ (getRoleHierarchyOf g r None = Throw RangeError → ¬ acyclic g)
     ∧ getRoleHierarchyOf g r None ≠ Throw TypeError).
Proof.
  intros _ _. split.
  - intros Hr. unfold getRoleHierarchyOf. by rewrite hierarchyAt_unfold, Hr.
  - intros Hr.
    assert (∀ e, getRoleHierarchyOf g r None = Throw e →
              match e with
              | AccessControlError (RoleNotFound name) =>
                  name = "undefined"
                  ∧ ∃ a b, rtc (extendsEdge g) r a ∧ extendsEdge g a b ∧ g !! b = None
              | AccessControlError (SelfExtension name) =>
                  rtc (extendsEdge g) r name ∧ extendsEdge g name name
              | AccessControlError (CrossInheritance a b) =>
                  a = b ∧ tc (extendsEdge g) a a
              | RangeError => True
              | _ => False
              end) as Hsound.
    { intros e He. unfold getRoleHierarchyOf in He.
      by apply (hierarchyAt_Throw_sound g _ r None e Hr) in He. }
    split_and!.
    + intros name Hn. apply (Hsound _ Hn).
    + intros name Hn. apply (Hsound _ Hn).
    + intros a b Hn. apply (Hsound _ Hn).
    + intros Hn Hacyc. by apply (getRoleHierarchyOf_RangeError_free g r None Hacyc).
    + intros Hn. apply (Hsound _ Hn).
Qed.

Lemma getRoleHierarchyOf_errors_witness :
  "B" = "B" ∧ tc (extendsEdge tblCycle) "B" "B".
Proof.
  destruct (getRoleHierarchyOf_errors tblCycle "B" tblCycle_plain eq_refl) as [_ H].
  destruct H as (_ & _ & Hcross & _); [vm_compute; eauto |].
  apply Hcross. vm_compute. reflexivity.
Defined.

(** ** Flat roles *)

Lemma getRoleHierarchyOf_elem (g : gmap string RoleEntry) (r x : string)
    (h : list string) :
  getRoleHierarchyOf g r None = Ok h → x ∈ h ↔ rtc (extendsEdge g) r x.
Proof.
  unfold getRoleHierarchyOf. intros Hh. split.
  - apply hierarchyAt_depthFirst in Hh as ->. apply depthFirst_reach.
  - intros Hx. by apply (hierarchyAt_reach g r x Hx _ _ _ Hh).
Qed.

Lemma getRoleHierarchyOf_NoDup (g : gmap string RoleEntry) (r : string)
    (h : list string) :
  getRoleHierarchyOf g r None = Ok h → NoDup h.
Proof.
  unfold getRoleHierarchyOf. intros ->%hierarchyAt_depthFirst. apply depthFirst_NoDup.
Qed.

Lemma flatRoles_loop (g : gmap string RoleEntry) (roles acc l : list string) :
  foldM (λ arr roleName,
           h ← getRoleHierarchyOf g roleName None; Ok (uniqConcat arr h)) acc roles
  = Ok l →
  acc `prefix_of` l
  ∧ (NoDup acc → NoDup l)
  ∧ ∀ x, x ∈ l ↔ x ∈ acc ∨ ∃ r, r ∈ roles ∧ rtc (extendsEdge g) r x.
Proof.
  revert acc. induction roles as [| r roles IH]; intros acc; simpl.
  - intros [= ->]. split_and!; [done | done |]. intros x. split; [by left |].
    intros [? | (r & Hr & _)]; [done | by apply elem_of_nil in Hr].
  - destruct (getRoleHierarchyOf g r None) as [h |] eqn:Hh; simpl; [| done].
    intros (Hpre & Hnd & Hmem)%IH. split_and!.
    + etrans; [apply uniqConcat_prefix | done].
    + intros Hacc. by apply Hnd, NoDup_uniqConcat.
    + intros x. rewrite Hmem, elem_of_uniqConcat, (getRoleHierarchyOf_elem g r x h Hh).
      split.
      * intros [[? | ?] | (r' & Hr' & Hx)]; [by left | |].
        -- right. exists r. split; [left | done].
        -- right. exists r'. split; [by right | done].
      * intros [? | (r' & [-> | Hr']%elem_of_cons & Hx)]; [by left; left | |].
        -- left. by right.
        -- right. by exists r'.
Qed.

Lemma flatRoles_loop_total (g : gmap string RoleEntry) (roles acc : list string) :
  closed g → acyclic g → (∀ r, r ∈ roles → is_Some (g !! r)) →
  ∃ l, foldM (λ arr roleName,
                h ← getRoleHierarchyOf g roleName None; Ok (uniqConcat arr h))
         acc roles = Ok l.
Proof.
  intros Hclosed Hacyc. revert acc.
  induction roles as [| r roles IH]; intros acc Hall; simpl; [by eexists |].
  destruct (getRoleHierarchyOf_total g r Hclosed Hacyc) as [h ->].
  { apply Hall. left. }
  simpl. apply IH. intros r' Hr'. apply Hall. by right.
Qed.

(** X11. When [getFlatRoles] returns, its result starts with the roles
    given, each once, has no duplicate, and holds exactly the roles
    reached from a given role through the extends lists. It returns on a
    table without cycles and without missing extenders when the roles
    given, at least one, are roles of the table; and it rejects as invalid
    a value that gives no role. *)
Theorem getFlatRoles_closure (g : gmap string RoleEntry) (roles : Value) :
  (∀ l, getFlatRoles g roles = Ok l →
        toStringArray roles ≠ []
        ∧ uniqConcat [] (toStringArray roles) `prefix_of` l
        ∧ NoDup l
        ∧ ∀ x, x ∈ l ↔ ∃ r, r ∈ toStringArray roles ∧ rtc (extendsEdge g) r x)
  ∧ (closed g → acyclic g → truthy roles = true → toStringArray roles ≠ [] →
     (∀ r, r ∈ toStringArray roles → is_Some (g !! r)) →
     ∃ l, getFlatRoles g roles = Ok l)
  ∧ (truthy roles = false ∨ toStringArray roles = [] →
     getFlatRoles g roles = raise InvalidRoles).
Proof.
  unfold getFlatRoles. split_and!.
  - intros l. destruct (truthy roles) eqn:Ht; [| done].
    destruct (toStringArray roles) as [| r0 rest] eqn:Hroles; [done |].
    cbn [length Nat.eqb]. intros (Hpre & Hnd & Hmem)%flatRoles_loop.
    split_and!; [done | done | |].
    + apply Hnd, NoDup_uniqConcat, NoDup_nil_2.
    + intros x. rewrite Hmem, elem_of_uniqConcat. split.
      * intros [[?%elem_of_nil | Hx] | ?]; [done | | done].
        exists x. split; [done | apply rtc_refl].
      * intros ?. by right.
  - intros Hclosed Hacyc Ht Hne Hall. rewrite Ht.
    destruct (toStringArray roles) as [| r0 rest] eqn:Hroles; [done |].
    cbn [length Nat.eqb].
    by apply flatRoles_loop_total.
  - intros [-> | Hnil]; [done |].
    destruct (truthy roles); [by rewrite Hnil | done].
Qed.

Lemma getFlatRoles_closure_witness :
  ∃ l, getFlatRoles tblChain (VStr "B, A") = Ok l.
Proof.
  apply (getFlatRoles_closure tblChain (VStr "B, A"));
    [apply tblChain_closed | apply tblChain_acyclic | reflexivity | done |].
  intros r Hr. apply (bool_decide_unpack _) in Hr || idtac.
  vm_compute in Hr.
  repeat (apply elem_of_cons in Hr as [-> | Hr]; [vm_compute; eauto |]).
  by apply elem_of_nil in Hr.
Defined.

(** ** The extender that inherits the role *)

Lemma crossLoop_sound (g : gmap string RoleEntry) (r : string) (ext : list string)
    (acc : option string) (c : string) :
  crossLoop g r ext acc = Ok (Some c) →
  acc = Some c ∨ (c ∈ ext ∧ rtc (extendsEdge g) c r).
Proof.
  revert acc. induction ext as [| e ext IH]; intros acc; simpl.
  { intros [= ->]. by left. }
  destruct (strTruthy acc || String.eqb r e); [intros [= ->]; by left |].
  destruct (getRoleHierarchyOf g e None) as [h |] eqn:Hh; simpl; [| done].
  destruct (indexOf h r) eqn:Hin.
  - intros [[= ->] | [Hc Hreach]]%IH.
    + right. split; [left |]. apply indexOf_true in Hin.
      by apply (getRoleHierarchyOf_elem g c r h Hh).
    + right. split; [by right | done].
  - intros [-> | [Hc Hreach]]%IH; [by left |]. right. split; [by right | done].
Qed.

Lemma crossLoop_Throw (g : gmap string RoleEntry) (r : string) (ext : list string)
    (acc : option string) (err : Exn) :
  crossLoop g r ext acc = Throw err →
  ∃ e, e ∈ ext ∧ getRoleHierarchyOf g e None = Throw err.
Proof.
  revert acc. induction ext as [| e ext IH]; intros acc; simpl; [done |].
  destruct (strTruthy acc || String.eqb r e); [done |].
  destruct (getRoleHierarchyOf g e None) as [h |] eqn:Hh; simpl.
  - intros (e' & He' & Hthrow)%IH. exists e'. split; [by right | done].
  - intros [= ->]. exists e. split; [left | done].
Qed.

Lemma crossLoop_app (g : gmap string RoleEntry) (r : string) (before rest : list string) :
  r ∉ before →
  (∀ x, x ∈ before → ∃ hx, getRoleHierarchyOf g x None = Ok hx ∧ r ∉ hx) →
  crossLoop g r (before ++ rest) None = crossLoop g r rest None.
Proof.
  induction before as [| b before IH]; intros Hr Hbefore; [done |].
  apply not_elem_of_cons in Hr as [Hrb Hr]. simpl.
  rewrite (proj2 (String.eqb_neq r b)) by done.
  destruct (Hbefore b) as (hb & -> & Hnin); [left |]. simpl.
  apply indexOf_false in Hnin as ->. apply IH; [done |].
  intros x Hx. apply Hbefore. by right.
Qed.

(** The loop passes over the extenders that resolve to a hierarchy
    without the role, and over an extender of the empty name whatever it
    inherits: found, it is kept as a value that counts as not found. *)
Lemma crossLoop_pass (g : gmap string RoleEntry) (r : string) (before rest : list string)
    (acc : option string) :
  strTruthy acc = false → r ∉ before →
  (∀ x, x ∈ before →
        ∃ hx, getRoleHierarchyOf g x None = Ok hx ∧ (r ∉ hx ∨ x = "")) →
  ∃ acc', strTruthy acc' = false
          ∧ crossLoop g r (before ++ rest) acc = crossLoop g r rest acc'.
Proof.
  revert acc. induction before as [| b before IH]; intros acc Hacc Hr Hbefore.
  { by exists acc. }
  apply not_elem_of_cons in Hr as [Hrb Hr]. simpl.
  rewrite Hacc, (proj2 (String.eqb_neq r b)) by done. simpl.
  destruct (Hbefore b) as (hb & -> & Hb); [left |]. simpl.
  apply IH; [| done | intros x Hx; apply Hbefore; by right].
  destruct (indexOf hb r) eqn:Hin; [| done].
  apply indexOf_true in Hin. by destruct Hb as [Hb | ->].
Qed.

(** X12. [getCrossExtendingRole] returns the first extender of a name
    that is not empty whose hierarchy holds the role, the extenders before
    it having resolved, without resolving the extenders after it: an
    extender of the empty name is passed over even when it inherits the
    role. The loop stops at the role itself when that is among the
    extenders, and does not examine those that follow. An extender it
    returns is one of those given and inherits the role; an error it
    throws is the error of the resolution of one of the extenders. *)
Theorem getCrossExtendingRole_first (g : gmap string RoleEntry) (r : string) :
  (∀ before e after h,
     r ∉ before →
     (∀ x, x ∈ before →
           ∃ hx, getRoleHierarchyOf g x None = Ok hx ∧ (r ∉ hx ∨ x = "")) →
     r ≠ e → e ≠ "" → getRoleHierarchyOf g e None = Ok h → r ∈ h →
     getCrossExtendingRole g r (VArr (before ++ e :: after)) = Ok (Some e))
  ∧ (∀ before after,
       r ∉ before →
       (∀ x, x ∈ before → ∃ hx, getRoleHierarchyOf g x None = Ok hx ∧ r ∉ hx) →
       getCrossExtendingRole g r (VArr (before ++ r :: after)) = Ok None)
  ∧ (∀ extenderRoles c,
       getCrossExtendingRole g r extenderRoles = Ok (Some c) →
       c ∈ toStringArray extenderRoles ∧ rtc (extendsEdge g) c r)
  ∧ (∀ extenderRoles err,
       getCrossExtendingRole g r extenderRoles = Throw err →
       ∃ e, e ∈ toStringArray extenderRoles
            ∧ getRoleHierarchyOf g e None = Throw err).
Proof.
  unfold getCrossExtendingRole. split_and!.
  - intros before e after h Hr Hbefore Hre He Hh Hin. simpl.
    destruct (crossLoop_pass g r before (e :: after) None) as (acc & Hacc & ->);
      [done.. |].
    simpl. rewrite Hacc, (proj2 (String.eqb_neq r e)) by done. simpl.
    rewrite Hh. simpl.
    apply indexOf_true in Hin as ->. by apply crossLoop_found.
  - intros before after Hr Hbefore. simpl. rewrite crossLoop_app by done. simpl.
    by rewrite String.eqb_refl.
  - intros ext c [? | ?]%crossLoop_sound; done.
  - intros ext err. apply crossLoop_Throw.
Qed.

Lemma getCrossExtendingRole_first_witness :
  getCrossExtendingRole tblBranch "D" (VArr ["C"; "B"; "A"]) = Ok (Some "B").
Proof.
  apply (proj1 (getCrossExtendingRole_first tblBranch "D") ["C"] "B" ["A"] ["B"; "D"]).
  - apply (bool_decide_unpack _). vm_compute. reflexivity.
  - intros x Hx. apply list_elem_of_singleton in Hx as ->. exists ["C"].
    split; [vm_compute; reflexivity |]. left.
    apply (bool_decide_unpack _). vm_compute. reflexivity.
  - done.
  - done.
  - vm_compute. reflexivity.
  - apply (bool_decide_unpack _). vm_compute. reflexivity.
Defined.

(** ** Creating roles ahead of their rules *)

Lemma preCreateRoles_loop (roles : Value) :
  preCreateRoles roles
  = match toStringArray roles with
    | [] => throwM (AccessControlError InvalidRoles)
    | l => forEachM preCreateRole l
    end.
Proof.
  unfold preCreateRoles. destruct roles as [| | | | s | l |]; try done.
  - cbn [toStringArray]. destruct (splitSep (trim s)); reflexivity.
  - by destruct l.
Qed.

Lemma preCreateRole_run (role : string) (st : Store) :
  preCreateRole role st
  = match validName role true with
    | Throw e => (Throw e, st)
    | Ok _ =>
        if hasRole (grants st) role then (Ok (), st)
        else if frozen st then (Throw TypeError, st)
        else (Ok (), mkStore (<[role := emptyRole]> (grants st)) false)
    end.
Proof.
  unfold preCreateRole. rewrite bind_run. unfold liftR.
  destruct (validName role true) as [v |] eqn:Hv; [| done].
  apply validName_true_Ok in Hv as ->. rewrite bind_run. unfold getGrants.
  destruct (hasRole (grants st) role); simpl; [done |].
  unfold write. by destruct (frozen st) eqn:Hf; rewrite ?Hf.
Qed.

(** A loop that has returned has returned at each item: [R] relates the
    tables before and after a turn, [P] is what a turn leaves. *)
Lemma forEachM_Ok_each {A} (f : A → M unit) (R : Store → Store → Prop)
    (P : A → Store → Prop) (l : list A) (st st' : Store) :
  (∀ s, R s s) → (∀ s1 s2 s3, R s1 s2 → R s2 s3 → R s1 s3) →
  (∀ x s s', R st s → f x s = (Ok (), s') → R s s' ∧ P x s') →
  (∀ x s s', P x s → R s s' → P x s') →
  forEachM f l st = (Ok (), st') →
  R st st' ∧ ∀ x, x ∈ l → P x st'.
Proof.
  intros Hrefl Htrans Hstep Hstable.
  assert (∀ s, R st s → forEachM f l s = (Ok (), st') →
            R s st' ∧ ∀ x, x ∈ l → P x st') as Hgen.
  { induction l as [| x l IH]; intros s Hs Hrun.
    - cbn in Hrun. unfold mret, ST_ret in Hrun. simplify_eq. split; [done |].
      intros x Hx. by apply elem_of_nil in Hx.
    - simpl in Hrun. rewrite bind_run in Hrun.
      destruct (f x s) as [[[] | e] s1] eqn:Hx; [| done].
      destruct (Hstep x s s1 Hs Hx) as [HR HP].
      destruct (IH s1) as [HR' HP']; [by eapply Htrans | done |].
      split; [by eapply Htrans |].
      intros y [-> | Hy]%elem_of_cons; [by eapply Hstable | by apply HP']. }
  by apply Hgen.
Qed.

(** X13. On a table and for roles whose names are none of those that an
    object literal inherits: [preCreateRoles] never replaces the entry of
    a role that the table has. When it returns, each role it was given is
    in the table, with an empty entry if it was not there, and has a name
    that is accepted; no other role is added; and a second call returns
    without a change. On a frozen table it changes nothing, and returns
    exactly when the roles given, at least one, are accepted names of
    roles of the table. *)
Theorem preCreateRoles_creates (roles : Value) (st : Store) :
  plainTable (grants st) → plainNames (toStringArray roles) →
  (∀ r item, grants st !! r = Some item →
             grants (execM (preCreateRoles roles) st) !! r = Some item)
  ∧ (∀ r, is_Some (grants (execM (preCreateRoles roles) st) !! r) →
          is_Some (grants st !! r) ∨ r ∈ toStringArray roles)
  ∧ (∀ st', preCreateRoles roles st = (Ok (), st') →
       toStringArray roles ≠ []
       ∧ (∀ r, r ∈ toStringArray roles →
               acceptedName r = true
               ∧ grants st' !! r = Some (default emptyRole (grants st !! r)))
       ∧ preCreateRoles roles st' = (Ok (), st'))
  ∧ (frozen st = true →
       execM (preCreateRoles roles) st = st
       ∧ (evalM (preCreateRoles roles) st = Ok ()
          ↔ toStringArray roles ≠ []
            ∧ ∀ r, r ∈ toStringArray roles →
                   acceptedName r = true ∧ is_Some (grants st !! r))).
Proof.
  intros _ _. rewrite preCreateRoles_loop.
  set (keeps := λ s s' : Store,
         (∀ r item, grants s !! r = Some item → grants s' !! r = Some item)
         ∧ (frozen s = true → s' = s)).
  assert (∀ x s, keeps s (execM (preCreateRole x) s)
                 ∧ ∀ r, is_Some (grants (execM (preCreateRole x) s) !! r) →
                        is_Some (grants s !! r) ∨ r = x) as Hstep.
  { intros x s. unfold keeps, execM. rewrite preCreateRole_run.
    destruct (validName x true); [| by split; [split |]; auto].
    destruct (hasRole (grants s) x) eqn:Hhas; [by split; [split |]; auto |].
    destruct (frozen s) eqn:Hf; [by split; [split |]; auto |]. simpl.
    apply not_true_iff_false in Hhas. rewrite hasRole_true in Hhas.
    split; [split |].
    - intros r item Hr. rewrite lookup_insert_ne; [done |]. intros ->.
      apply Hhas. eauto.
    - done.
    - intros r. destruct (decide (r = x)) as [-> | Hne]; [by right |].
      rewrite lookup_insert_ne by done. by left. }
  assert (∀ l s, keeps s (execM (forEachM preCreateRole l) s)
                 ∧ ∀ r, is_Some (grants (execM (forEachM preCreateRole l) s) !! r) →
                        is_Some (grants s !! r) ∨ r ∈ l) as Hloop.
  { unfold keeps in *. induction l as [| x l IH]; intros s.
    { split; [by split | by left]. }
    unfold execM. simpl. rewrite bind_run.
    destruct (Hstep x s) as [[Hk1 Hk2] Hnew]. unfold execM in Hk1, Hk2, Hnew.
    destruct (preCreateRole x s) as [[[] | e] s1] eqn:Hx; simpl in *.
    - destruct (IH s1) as [[Hk1' Hk2'] Hnew']. unfold execM in Hk1', Hk2', Hnew'.
      split; [split |].
      + intros r item Hr. by apply Hk1', Hk1.
      + intros Hf. specialize (Hk2 Hf). subst s1. by apply Hk2'.
      + intros r [Hr | Hr]%Hnew'; [| right; by right].
        destruct (Hnew r Hr) as [? | ->]; [by left | right; left].
    - split; [by split |].
      intros r [? | ->]%Hnew; [by left | right; left]. }
  split_and!.
  - intros r item Hr. destruct (toStringArray roles) as [| x l]; [done |].
    by apply (Hloop (x :: l) st).
  - intros r. destruct (toStringArray roles) as [| x l]; [by left |].
    apply (Hloop (x :: l) st).
  - intros st' Hrun.
    destruct (toStringArray roles) as [| x0 l0] eqn:Hroles; [done |].
    split; [done |].
    set (fresh := λ s : Store,
           ∀ r, grants st !! r = None →
                grants s !! r = None ∨ grants s !! r = Some emptyRole).
    destruct (forEachM_Ok_each preCreateRole
                (λ s s', (∀ r item, grants s !! r = Some item →
                                    grants s' !! r = Some item)
                         ∧ (fresh s → fresh s'))
                (λ x s, acceptedName x = true
                        ∧ grants s !! x = Some (default emptyRole (grants st !! x)))
                (x0 :: l0) st st') as [Hkeep Heach];
      [done | intros s1 s2 s3 [H1 H2] [H3 H4]; split;
                [intros r item Hr; by apply H3, H1 | intros Hs1; by apply H4, H2]
       | | | done |].
    { intros x s s' [Hs Hfresh]. rewrite preCreateRole_run.
      assert (fresh s) as Hfs by (apply Hfresh; intros r Hr; by left).
      destruct (validName x true) as [v |] eqn:Hv; [| done].
      apply validName_true_Ok in Hv as Hv'. subst v.
      apply validName_Ok_accepted in Hv.
      destruct (hasRole (grants s) x) eqn:Hhas.
      - intros [= <-]. split; [done |]. split; [done |].
        apply hasRole_true in Hhas as [item Hitem]. rewrite Hitem.
        destruct (grants st !! x) as [item0 |] eqn:Hst; simpl.
        + apply Hs in Hst. congruence.
        + destruct (Hfs x Hst); congruence.
      - apply not_true_iff_false in Hhas. rewrite hasRole_true in Hhas.
        destruct (frozen s); [done |]. intros [= <-]. simpl. split; [split |].
        + intros r item Hr. rewrite lookup_insert_ne; [done |]. intros ->.
          apply Hhas. eauto.
        + intros _ r Hr. simpl. destruct (decide (r = x)) as [-> | Hne].
          * right. apply lookup_insert_eq.
          * rewrite lookup_insert_ne by done. by apply Hfs.
        + split; [done |]. rewrite lookup_insert_eq.
          destruct (grants st !! x) as [item0 |] eqn:Hst; simpl; [| done].
          apply Hs in Hst. destruct Hhas. eauto. }
    { intros x s s' [Hx1 Hx2] [Hs _]. split; [done |]. by apply Hs. }
    split; [done |].
    assert (∀ l, (∀ x, x ∈ l → acceptedName x = true ∧ is_Some (grants st' !! x)) →
                 forEachM preCreateRole l st' = (Ok (), st')) as Hagain.
    { induction l as [| x l IH]; intros Hl; [done |].
      simpl. rewrite bind_run, preCreateRole_run.
      destruct (Hl x) as [Hacc Hsome]; [left |].
      rewrite (validName_accepted x true Hacc).
      apply hasRole_true in Hsome as ->. apply IH.
      intros y Hy. apply Hl. by right. }
    apply Hagain. intros x Hx. destruct (Heach x Hx) as [? Hsome]. split; [done |].
    rewrite Hsome. eauto.
  - intros Hf. split.
    { destruct (toStringArray roles) as [| x l]; [done |].
      by apply (Hloop (x :: l) st). }
    assert (∀ l, evalM (forEachM preCreateRole l) st = Ok ()
                 ↔ ∀ r, r ∈ l → acceptedName r = true ∧ is_Some (grants st !! r))
      as Hfrozen.
    { unfold evalM. induction l as [| x l IH].
      { split; [| done]. intros _ r Hr. by apply elem_of_nil in Hr. }
      simpl. rewrite bind_run, preCreateRole_run.
      destruct (acceptedName x) eqn:Hacc.
      - rewrite (validName_accepted x true Hacc).
        destruct (hasRole (grants st) x) eqn:Hhas.
        + rewrite IH. apply hasRole_true in Hhas. split.
          * intros Hl r [-> | Hr]%elem_of_cons; [done | by apply Hl].
          * intros Hl r Hr. apply Hl. by right.
        + rewrite Hf. simpl. split; [done |]. intros Hl.
          destruct (Hl x) as [_ Hsome]; [left |].
          apply hasRole_true in Hsome. congruence.
      - rewrite (validName_rejected x Hacc). simpl. split; [done |]. intros Hl.
        destruct (Hl x) as [? _]; [left |]. congruence. }
    destruct (toStringArray roles) as [| x l] eqn:Hroles.
    + split; [done | by intros [? _]].
    + rewrite (Hfrozen (x :: l)). split; [done | by intros [_ ?]].
Qed.

Lemma preCreateRoles_creates_witness :
  toStringArray (VStr "u, editor") ≠ []
  ∧ (∀ r, r ∈ toStringArray (VStr "u, editor") →
          acceptedName r = true
          ∧ grants (execM (preCreateRoles (VStr "u, editor")) (mkStore tblAny false)) !! r
            = Some (default emptyRole (grants (mkStore tblAny false) !! r)))
  ∧ preCreateRoles (VStr "u, editor")
      (execM (preCreateRoles (VStr "u, editor")) (mkStore tblAny false))
    = (Ok (), execM (preCreateRoles (VStr "u, editor")) (mkStore tblAny false)).
Proof.
  apply (preCreateRoles_creates (VStr "u, editor") (mkStore tblAny false)).
  - exact tblAny_plain.
  - apply (bool_decide_unpack _). vm_compute. reflexivity.
  - vm_compute. reflexivity.
Defined.

(** ** What a commit leaves as it was *)

Lemma forEachM_invariant_in {A} (f : A → M unit) (I : Store → Prop) (l : list A)
    (st : Store) :
  (∀ x s, x ∈ l → I s → I (execM (f x) s)) →
  I st → I (execM (forEachM f l) st).
Proof.
  unfold execM. revert st. induction l as [| x l IH]; intros st Hf Hst; simpl; [done |].
  rewrite bind_run. pose proof (Hf x st (list_elem_of_here x l) Hst) as Hx.
  destruct (f x st) as [[[] | e] st1]; simpl in *; [| done].
  apply IH; [| done]. intros y s Hy. apply Hf. by right.
Qed.

Lemma commitResource_absent (role ap : string) (attrs : list string) (res : string)
    (st : Store) :
  grants st !! role = None → execM (commitResource role ap attrs res) st = st.
Proof.
  intros Hitem. unfold execM, commitResource. rewrite bind_run. unfold liftR.
  destruct (validName res true) as [v |]; [| done].
  rewrite bind_run. unfold getGrants. rewrite bind_run.
  unfold hasResource. rewrite Hitem. rewrite andb_true_r.
  destruct v; simpl.
  - unfold createResource. rewrite bind_run. unfold getGrants. by rewrite Hitem.
  - unfold mret, ST_ret, setAttributes. rewrite bind_run. unfold getGrants.
    by rewrite Hitem.
Qed.

Lemma commitResource_ruleOf (role ap : string) (attrs : list string) (res : string)
    (st : Store) (role0 res0 key0 : string) :
  ¬ (role0 = role ∧ res0 = res ∧ key0 = ap) →
  ruleOf (grants (execM (commitResource role ap attrs res) st)) role0 res0 key0
  = ruleOf (grants st) role0 res0 key0.
Proof.
  intros Hother. destruct (frozen st) eqn:Hf.
  { by rewrite commitResource_frozen. }
  destruct (grants st !! role) as [item |] eqn:Hitem.
  2: { by rewrite commitResource_absent. }
  unfold execM. rewrite (commitResource_run ap attrs st role res item) by done.
  destruct (validName res true); [| done]. simpl. unfold ruleOf.
  destruct (decide (role0 = role)) as [-> | Hrole].
  2: { by rewrite lookup_insert_ne. }
  rewrite lookup_insert_eq, Hitem. simpl.
  destruct (decide (res0 = res)) as [-> | Hres].
  2: { by rewrite lookup_insert_ne. }
  rewrite lookup_insert_eq. simpl.
  rewrite lookup_insert_ne by (intros ->; by apply Hother).
  by destruct (resources item !! res).
Qed.

Lemma commitRole_ruleOf (ai : AccessInfo) (role : string) (st : Store)
    (role0 res0 key0 : string) :
  ¬ (role0 = role ∧ res0 ∈ na_resource ai
     ∧ key0 = toString (na_action ai) +:+ ":" +:+ toString (na_possession ai)) →
  ruleOf (grants (execM (commitRole ai role) st)) role0 res0 key0
  = ruleOf (grants st) role0 res0 key0.
Proof.
  intros Hother. unfold execM, commitRole. rewrite bind_run. unfold liftR.
  destruct (validName role true) as [v |]; [| done].
  rewrite bind_run. unfold getGrants. rewrite bind_run.
  match goal with
  | |- context [forEachM ?f ?l] =>
      assert (∀ s, ruleOf (grants (execM (forEachM f l) s)) role0 res0 key0
                   = ruleOf (grants s) role0 res0 key0) as Hloop
  end.
  { intros s. apply (forEachM_invariant_in _
      (λ s', ruleOf (grants s') role0 res0 key0 = ruleOf (grants s) role0 res0 key0));
      [| done].
    intros res s' Hres <-. apply commitResource_ruleOf.
    intros (-> & -> & ->). by apply Hother. }
  unfold execM in Hloop.
  destruct (v && negb (hasRole (grants st) role)) eqn:Hc.
  - unfold write. destruct (frozen st); [done |]. rewrite Hloop. simpl.
    apply andb_true_iff in Hc as [_ Hc]. apply negb_true_iff in Hc.
    apply not_true_iff_false in Hc. rewrite hasRole_true in Hc.
    unfold ruleOf. destruct (decide (role0 = role)) as [-> | Hne].
    + rewrite lookup_insert_eq. simpl. rewrite lookup_empty. simpl.
      destruct (grants st !! role) eqn:E; [| done]. destruct Hc. eauto.
    + by rewrite lookup_insert_ne.
  - unfold mret, ST_ret. apply Hloop.
Qed.

Lemma commitToGrants_present (access : Arg IAccessInfo) (all : bool) (st : Store)
    (P : Store → Prop) :
  P st →
  (∀ role ap attrs res s, P s → P (execM (commitResource role ap attrs res) s)) →
  (∀ role s, frozen s = false → P s → grants s !! role = None →
             P (mkStore (<[role := emptyRole]> (grants s)) false)) →
  P (execM (commitToGrants access all) st).
Proof.
  intros Hst Hres Hnew. unfold execM, commitToGrants. rewrite bind_run. unfold liftR.
  destruct (normalizeAccessInfo access all) as [ai |]; [| done].
  apply (forEachM_invariant (commitRole ai) P); [| done].
  intros role s Hs. unfold execM, commitRole. rewrite bind_run. unfold liftR.
  destruct (validName role true) as [v |]; [| done].
  rewrite bind_run. unfold getGrants. rewrite bind_run.
  destruct (v && negb (hasRole (grants s) role)) eqn:Hc.
  - unfold write. destruct (frozen s) eqn:Hf; [done |].
    apply (forEachM_invariant _ P); [intros; apply Hres; done |].
    apply Hnew; [done | done |].
    apply andb_true_iff in Hc as [_ Hc]. apply negb_true_iff in Hc.
    apply not_true_iff_false in Hc. rewrite hasRole_true in Hc.
    apply eq_None_not_Some. done.
  - unfold mret, ST_ret. apply (forEachM_invariant _ P); [| done].
    intros; by apply Hres.
Qed.

Lemma commitResource_keeps_entries (role ap : string) (attrs : list string)
    (res : string) (s : Store) (role0 res0 : string) :
  (∃ item, grants s !! role0 = Some item ∧ is_Some (resources item !! res0)) →
  ∃ item, grants (execM (commitResource role ap attrs res) s) !! role0 = Some item
          ∧ is_Some (resources item !! res0).
Proof.
  intros (item0 & Hitem0 & Hres0). destruct (frozen s) eqn:Hf.
  { rewrite commitResource_frozen by done. eauto. }
  destruct (grants s !! role) as [item |] eqn:Hitem.
  2: { rewrite commitResource_absent by done. eauto. }
  unfold execM. rewrite (commitResource_run ap attrs s role res item) by done.
  destruct (validName res true); [| by eauto]. simpl.
  destruct (decide (role0 = role)) as [-> | Hrole].
  2: { rewrite lookup_insert_ne by done. eauto. }
  rewrite lookup_insert_eq. eexists. split; [done |]. simpl. simplify_eq.
  destruct (decide (res0 = res)) as [-> | Hres].
  - rewrite lookup_insert_eq. eauto.
  - by rewrite lookup_insert_ne.
Qed.

Lemma commitToGrants_ruleOf (access : Arg IAccessInfo) (all : bool) (st : Store)
    (role res key : string) :
  (∀ ai, normalizeAccessInfo access all = Ok ai →
         ¬ (role ∈ na_role ai ∧ res ∈ na_resource ai
            ∧ key = toString (na_action ai) +:+ ":"
                    +:+ toString (na_possession ai))) →
  ruleOf (grants (execM (commitToGrants access all) st)) role res key
  = ruleOf (grants st) role res key.
Proof.
  intros Hother. unfold execM, commitToGrants.
  rewrite bind_run. unfold liftR.
  destruct (normalizeAccessInfo access all) as [ai |]; [| done].
  specialize (Hother ai eq_refl).
  apply (forEachM_invariant_in (commitRole ai)
           (λ s, ruleOf (grants s) role res key = ruleOf (grants st) role res key));
    [| done].
  intros r s Hr <-. apply commitRole_ruleOf. intros (-> & Hres & ->).
  by apply Hother.
Qed.

(** X14. On a table and for a statement whose names are none of those
    that an object literal inherits, the action and the possession being
    no numbers beyond those printed in full: a commit changes no rule but
    the one it writes. The attribute list under any other role, resource
    or key [action:possession] is after the call what it was before,
    whether the call returns or throws. It changes no extends list, and
    removes no role and no resource entry. *)
Theorem commitToGrants_frame (access : Arg IAccessInfo) (all : bool) (st : Store) :
  plainTable (grants st) →
  (∀ ai, normalizeAccessInfo access all = Ok ai → plainStatement ai) →
  (∀ role res key,
     (∀ ai, normalizeAccessInfo access all = Ok ai →
            ¬ (role ∈ na_role ai ∧ res ∈ na_resource ai
               ∧ key = toString (na_action ai) +:+ ":"
                       +:+ toString (na_possession ai))) →
     ruleOf (grants (execM (commitToGrants access all) st)) role res key
     = ruleOf (grants st) role res key)
  ∧ (∀ role,
       extendersOf (grants (execM (commitToGrants access all) st)) role
       = extendersOf (grants st) role)
  ∧ (∀ role res item,
       grants st !! role = Some item → is_Some (resources item !! res) →
       ∃ item', grants (execM (commitToGrants access all) st) !! role = Some item'
                ∧ is_Some (resources item' !! res))
  ∧ (∀ role, is_Some (grants st !! role) →
             is_Some (grants (execM (commitToGrants access all) st) !! role)).
Proof.
  intros _ _. split_and!.
  - intros role res key. apply commitToGrants_ruleOf.
  - intros role. apply commitToGrants_extendersOf.
  - intros role res item Hitem Hres.
    apply (commitToGrants_present access all st
             (λ s, ∃ item', grants s !! role = Some item'
                            ∧ is_Some (resources item' !! res))); [by eauto | |].
    + intros. by apply commitResource_keeps_entries.
    + intros r s _ (item' & Hitem' & Hres') Hnone. simpl.
      rewrite lookup_insert_ne by congruence. eauto.
  - intros role Hrole.
    apply (commitToGrants_present access all st (λ s, is_Some (grants s !! role)));
      [done | |].
    + intros r ap attrs res s [item Hs]. destruct (frozen s) eqn:Hf.
      { rewrite commitResource_frozen by done. eauto. }
      destruct (grants s !! r) as [item' |] eqn:Hitem.
      2: { rewrite commitResource_absent by done. eauto. }
      unfold execM. rewrite (commitResource_run ap attrs s r res item') by done.
      destruct (validName res true); [| by eauto]. simpl.
      destruct (decide (role = r)) as [-> | Hne];
        [rewrite lookup_insert_eq | rewrite lookup_insert_ne by done]; eauto.
    + intros r s _ [item Hs] Hnone. simpl. rewrite lookup_insert_ne by congruence.
      eauto.
Qed.

Lemma commitToGrants_frame_witness :
  ruleOf (grants (execM (commitToGrants
                           (AnObject (mkAccess (VStr "u") (VStr "video")
                                        (VStr "create:own") VUndefined
                                        (VArr ["title"]) VUndefined)) true)
                    (mkStore tblAny false))) "u" "video" "create:any"
  = ruleOf (grants (mkStore tblAny false)) "u" "video" "create:any".
Proof.
  apply (commitToGrants_frame
           (AnObject (mkAccess (VStr "u") (VStr "video") (VStr "create:own") VUndefined
                        (VArr ["title"]) VUndefined)) true (mkStore tblAny false)).
  - exact tblAny_plain.
  - intros ai [= <-]. split_and!; [| | reflexivity | reflexivity];
      apply (bool_decide_unpack _); vm_compute; reflexivity.
  - intros ai [= <-] (_ & _ & Hkey). vm_compute in Hkey. discriminate Hkey.
Defined.

(** ** From a commit to the query *)

Lemma commitResource_Ok_name (role ap : string) (attrs : list string) (res : string)
    (s s' : Store) :
  commitResource role ap attrs res s = (Ok (), s') → acceptedName res = true.
Proof.
  unfold commitResource. rewrite bind_run. unfold liftR.
  destruct (validName res true) as [v |] eqn:Hv; [| done].
  apply validName_true_Ok in Hv as Hv'. subst v. intros _.
  by apply validName_Ok_accepted in Hv.
Qed.

Lemma commitRole_Ok_names (ai : AccessInfo) (role : string) (s s' : Store) :
  commitRole ai role s = (Ok (), s') →
  acceptedName role = true ∧ ∀ res, res ∈ na_resource ai → acceptedName res = true.
Proof.
  unfold commitRole. rewrite bind_run. unfold liftR.
  destruct (validName role true) as [v |] eqn:Hv; [| done].
  apply validName_true_Ok in Hv as Hv'. subst v.
  apply validName_Ok_accepted in Hv.
  rewrite bind_run. unfold getGrants. rewrite bind_run.
  match goal with
  | |- context [forEachM ?f ?l] =>
      assert (∀ s1, forEachM f l s1 = (Ok (), s') →
                    ∀ res, res ∈ l → acceptedName res = true) as Hloop
  end.
  { intros s1 Hrun.
    apply (forEachM_Ok_each _ (λ _ _, True) (λ res _, acceptedName res = true))
      in Hrun as [_ Hall]; [done | done | done | | done].
    intros res t t' _ Hres. split; [done |]. by eapply commitResource_Ok_name. }
  destruct (true && negb (hasRole (grants s) role)).
  - unfold write. destruct (frozen s); [done |]. intros Hrun. split; [done |].
    by eapply Hloop.
  - unfold mret, ST_ret. intros Hrun. split; [done |]. by eapply Hloop.
Qed.

Lemma commitToGrants_Ok_names (access : Arg IAccessInfo) (all : bool) (st st' : Store)
    (ai : AccessInfo) :
  normalizeAccessInfo access all = Ok ai →
  commitToGrants access all st = (Ok (), st') →
  (∀ role, role ∈ na_role ai → acceptedName role = true)
  ∧ (∀ res, res ∈ na_resource ai → acceptedName res = true).
Proof.
  intros Hn. unfold commitToGrants. rewrite bind_run. unfold liftR. rewrite Hn.
  intros Hrun.
  apply (forEachM_Ok_each _ (λ _ _, True)
           (λ role _, acceptedName role = true
                      ∧ ∀ res, res ∈ na_resource ai → acceptedName res = true))
    in Hrun as [_ Hall]; [| done | done | | done].
  - split; [intros role Hrole; by apply Hall |].
    destruct (normalizeAccessInfo_Ok access all ai Hn) as [Hne _].
    destruct (na_role ai) as [| r0 rest]; [done |].
    apply (Hall r0). left.
  - intros role t t' _ Hrole. split; [done |]. by eapply commitRole_Ok_names.
Qed.

Lemma acceptedName_not_blank (name : string) :
  acceptedName name = true → trim name ≠ "" ∧ name ≠ "$extend".
Proof.
  unfold acceptedName. intros [H1 H2]%andb_true_iff.
  apply negb_true_iff in H1, H2. split; [by apply String.eqb_neq |].
  intros ->. by vm_compute in H2.
Qed.

Lemma normalizeQueryInfo_fixed (role res a p : string) :
  trim role ≠ "" → trim res = res → res ≠ "" → a ∈ actions → p ∈ possessions →
  normalizeQueryInfo (AnObject (mkQuery (VArr [role]) (VStr res) (VStr a) (VStr p)))
  = Ok (mkNQuery [role] res a p).
Proof.
  intros Hrole Hres Hne Ha Hp. unfold normalizeQueryInfo.
  cbn [q_role q_resource q_action q_possession toStringArray isFilledStringArray forallb].
  rewrite (proj2 (String.eqb_neq _ _) Hrole), Hres, (proj2 (String.eqb_neq _ _) Hne).
  cbn [negb andb].
  by rewrite (proj1 (normalizeActionPossession_fixed a p Ha Hp)).
Qed.

Lemma append_inj_r (a x y : string) : a +:+ x = a +:+ y → x = y.
Proof.
  induction a as [| c a IH]; [done |]. rewrite !append_cons. intros [= H]. by apply IH.
Qed.

Lemma ruleOf_Some (g : gmap string RoleEntry) (role res key : string)
    (item : RoleEntry) (entry : gmap string (list string)) :
  g !! role = Some item → resources item !! res = Some entry →
  ruleOf g role res key = entry !! key.
Proof. unfold ruleOf. intros -> Hentry. simpl. by rewrite Hentry. Qed.

Lemma normalizeAccessInfo_all (access : Arg IAccessInfo) (ai : AccessInfo) :
  normalizeAccessInfo access true = Ok ai →
  ∃ a p, na_action ai = VStr a ∧ na_possession ai = VStr p
         ∧ a ∈ actions ∧ p ∈ possessions.
Proof.
  unfold normalizeAccessInfo. destruct access as [acc |]; [| done].
  destruct (_ || _); [done |]. destruct (_ || _); [done |].
  destruct (normalizeActionPossession _ _) as [[a p] |] eqn:Hn; [| done].
  simpl. intros [= <-]. simpl.
  destruct (normalizeActionPossession_Ok _ _ _ _ Hn). by exists a, p.
Qed.

(** X15. A rule that a commit has written is the answer to the query for
    it. When [commitToGrants], normalising all, has returned, the query
    for a role of the statement that has no extenders, a resource of the
    statement (given trimmed), and the action and possession of the
    statement returns the attributes of the statement; and if the
    statement was for [any] and the table held no [own] rule there, the
    query for [own] returns them as well. *)
Theorem grant_then_query (union : list string → list string → list string)
    (access : Arg IAccessInfo) (st st' : Store) (ai : AccessInfo) (role res : string) :
  normalizeAccessInfo access true = Ok ai →
  commitToGrants access true st = (Ok (), st') →
  role ∈ na_role ai → res ∈ na_resource ai → trim res = res →
  extendersOf (grants st') role = [] →
  ∃ a p,
    na_action ai = VStr a ∧ na_possession ai = VStr p
    ∧ getUnionAttrsOfRoles union (grants st')
        (AnObject (mkQuery (VArr [role]) (VStr res) (VStr a) (VStr p)))
      = Ok (na_attributes ai)
    ∧ (p = "any" → ruleOf (grants st) role res (a +:+ ":own") = None →
       getUnionAttrsOfRoles union (grants st')
         (AnObject (mkQuery (VArr [role]) (VStr res) (VStr a) (VStr "own")))
       = Ok (na_attributes ai)).
Proof.
  intros Hn Hrun Hrole Hres Htrim Hext.
  assert (frozen st = false) as Hf.
  { destruct (frozen st) eqn:Hf; [| done].
    destruct (commitToGrants_on_frozen access true st Hf) as (e & He & _).
    congruence. }
  destruct (commitToGrants_Ok_names access true st st' ai Hn Hrun) as [Hroles Hress].
  destruct (acceptedName_not_blank role (Hroles role Hrole)) as [Hrole_ne _].
  destruct (acceptedName_not_blank res (Hress res Hres)) as [Hres_ne Hres_ext].
  rewrite Htrim in Hres_ne.
  assert (∃ a p, na_action ai = VStr a ∧ na_possession ai = VStr p
                 ∧ a ∈ actions ∧ p ∈ possessions) as (a & p & Ha & Hp & Hain & Hpin).
  { by apply (normalizeAccessInfo_all access ai). }
  exists a, p. split; [done |]. split; [done |].
  assert (∃ item entry, grants st' !! role = Some item
                        ∧ resources item !! res = Some entry
                        ∧ entry !! (a +:+ ":" +:+ p) = Some (na_attributes ai))
    as (item & entry & Hitem & Hentry & Hrule).
  { unfold commitToGrants in Hrun. rewrite bind_run in Hrun. unfold liftR in Hrun.
    rewrite Hn in Hrun.
    destruct (forEachM_commitRole_Ok ai (na_role ai) st st' Hf Hrun role res Hrole Hres)
      as (item & entry & ? & ? & Hrule).
    rewrite Ha, Hp in Hrule. simpl in Hrule. eauto. }
  assert (default [] (extend item) = []) as Hnoext.
  { unfold extendersOf in Hext. by rewrite Hitem in Hext. }
  assert (roleProp item res = Some (ResourceEntry entry)) as Hprop.
  { unfold roleProp. rewrite (proj2 (String.eqb_neq _ _) Hres_ext).
    cbv iota. by rewrite Hentry. }
  split.
  - rewrite (getUnionAttrsOfRoles_single union (grants st') _
               (mkNQuery [role] res a p) role item (ResourceEntry entry));
      [| by apply normalizeQueryInfo_fixed | done..].
    unfold attrsOf. cbn [nq_action nq_possession]. by rewrite Hrule.
  - intros -> Hown.
    rewrite (getUnionAttrsOfRoles_single union (grants st') _
               (mkNQuery [role] res a "own") role item (ResourceEntry entry));
      [| apply normalizeQueryInfo_fixed; try done | done..].
    2: { unfold possessions. left. }
    unfold attrsOf. cbn [nq_action nq_possession].
    assert (entry !! (a +:+ ":" +:+ "own") = None) as ->.
    { rewrite <- (ruleOf_Some (grants st') role res _ item entry Hitem Hentry).
      change (":" +:+ "own") with ":own". rewrite <- Hown.
      replace st' with (execM (commitToGrants access true) st)
        by (unfold execM; by rewrite Hrun).
      apply commitToGrants_ruleOf. intros ai' Hai' (_ & _ & Hkey).
      rewrite Hn in Hai'. simplify_eq. rewrite Ha, Hp in Hkey. simpl in Hkey.
      by apply append_inj_r in Hkey. }
    change (":" +:+ "any") with ":any" in Hrule. by rewrite Hrule.
Qed.

Lemma grant_then_query_witness :
  ∃ a p,
    VStr "create" = VStr a ∧ VStr "any" = VStr p
    ∧ getUnionAttrsOfRoles uniqConcat
        (grants (execM (commitToGrants
                          (AnObject (mkAccess (VStr "u") (VStr "video")
                                       (VStr "create") VUndefined
                                       (VArr ["title"]) VUndefined)) true)
                   (mkStore tblAny false)))
        (AnObject (mkQuery (VArr ["u"]) (VStr "video") (VStr a) (VStr p)))
      = Ok ["title"]
    ∧ (p = "any" →
       ruleOf (grants (mkStore tblAny false)) "u" "video" (a +:+ ":own") = None →
       getUnionAttrsOfRoles uniqConcat
         (grants (execM (commitToGrants
                           (AnObject (mkAccess (VStr "u") (VStr "video")
                                        (VStr "create") VUndefined
                                        (VArr ["title"]) VUndefined)) true)
                    (mkStore tblAny false)))
         (AnObject (mkQuery (VArr ["u"]) (VStr "video") (VStr a) (VStr "own")))
       = Ok ["title"]).
Proof.
  apply (grant_then_query uniqConcat
           (AnObject (mkAccess (VStr "u") (VStr "video") (VStr "create") VUndefined
                        (VArr ["title"]) VUndefined))
           (mkStore tblAny false) _
           (mkNAccess ["u"] ["video"] (VStr "create") (VStr "any") ["title"])
           "u" "video").
  - reflexivity.
  - vm_compute. reflexivity.
  - left.
  - left.
  - reflexivity.
  - vm_compute. reflexivity.
Defined.

(** ** What extending a role changes *)

Lemma extendRole_Ok (roles extenderRoles : Value) (st st' : Store) :
  extendRole roles extenderRoles st = (Ok (), st') →
  toStringArray roles ≠ []
  ∧ ((isEmptyArray extenderRoles = true ∧ st' = st)
     ∨ (isEmptyArray extenderRoles = false
        ∧ toStringArray extenderRoles ≠ []
        ∧ (∀ e, e ∈ toStringArray extenderRoles → is_Some (grants st !! e))
        ∧ forEachM (extendOne (toStringArray extenderRoles)) (toStringArray roles) st
          = (Ok (), st'))).
Proof.
  unfold extendRole. intros H.
  destruct (toStringArray roles) as [| r rs] eqn:Hroles; [done |].
  cbn [length Nat.eqb] in H. split; [done |].
  destruct (isEmptyArray extenderRoles).
  { left. unfold mret, ST_ret in H. by simplify_eq. }
  destruct (toStringArray extenderRoles) as [| e es] eqn:Hext; [done |].
  cbn [length Nat.eqb] in H. rewrite bind_run in H. unfold getGrants in H.
  destruct (getNonExistentRoles (grants st) (e :: es)) as [| x xs] eqn:Hnon; [| done].
  right. split_and!; [done | done | | done].
  intros y Hy. destruct (grants st !! y) as [item |] eqn:Hitem; [eauto |].
  by destruct (getNonExistentRoles_cons (grants st) (e :: es) y Hy Hitem).
Qed.

(** What one turn of the loop of [extendRole] leaves of the table. *)
Lemma extendOne_frame (ext : list string) (r : string) (st : Store) :
  let st' := execM (extendOne ext r) st in
  (∀ role res key, ruleOf (grants st') role res key = ruleOf (grants st) role res key)
  ∧ (∀ x, is_Some (grants st' !! x) ↔ is_Some (grants st !! x))
  ∧ (∀ x, x ≠ r → extendersOf (grants st') x = extendersOf (grants st) x)
  ∧ (∀ x, extendersOf (grants st) x `prefix_of` extendersOf (grants st') x)
  ∧ (∀ x e, e ∈ extendersOf (grants st') x →
            e ∈ extendersOf (grants st) x ∨ (x = r ∧ e ∈ ext)).
Proof.
  unfold execM. destruct (extendOne ext r st) as [[[] | err] st'] eqn:Hrun; simpl.
  2: { apply extendOne_Throw in Hrun as ->. split_and!; by eauto. }
  apply extendOne_Ok in Hrun as (role & c & Hr & _ & _ & _ & ->). simpl.
  split_and!.
  - intros role0 res key. unfold ruleOf.
    destruct (decide (role0 = r)) as [-> | Hne].
    + by rewrite lookup_insert_eq, Hr.
    + by rewrite lookup_insert_ne.
  - intros x. destruct (decide (x = r)) as [-> | Hne].
    + rewrite lookup_insert_eq, Hr. split; eauto.
    + by rewrite lookup_insert_ne.
  - intros x Hne. unfold extendersOf. by rewrite lookup_insert_ne.
  - intros x. unfold extendersOf. destruct (decide (x = r)) as [-> | Hne].
    + rewrite lookup_insert_eq, Hr. simpl.
      destruct (extend role); simpl; [apply uniqConcat_prefix | apply prefix_nil].
    + by rewrite lookup_insert_ne.
  - intros x e. unfold extendersOf. destruct (decide (x = r)) as [-> | Hne].
    + rewrite lookup_insert_eq, Hr. simpl.
      destruct (extend role); simpl; [| by right].
      intros [? | ?]%elem_of_uniqConcat; [by left | by right].
    + rewrite lookup_insert_ne by done. by left.
Qed.

Lemma extendOne_added (ext : list string) (r : string) (st st' : Store) :
  extendOne ext r st = (Ok (), st') →
  ∀ e, e ∈ ext → e ∈ extendersOf (grants st') r.
Proof.
  intros (role & c & Hr & _ & _ & _ & ->)%extendOne_Ok e He. simpl.
  unfold extendersOf. rewrite lookup_insert_eq. simpl.
  destruct (extend role); simpl; [| done]. apply elem_of_uniqConcat. by right.
Qed.

(** X16. On a table and for roles and extenders whose names are none of
    those that an object literal inherits: [extendRole] changes no rule,
    adds and removes no role, and leaves the extends list of every role
    that it was not given as it is; the extends list of a role it was
    given keeps what it had, in its order, and receives nothing but the
    extenders given. This holds whether the call returns or throws. *)
Theorem extendRole_frame (roles extenderRoles : Value) (st : Store) :
  plainTable (grants st) → plainNames (toStringArray roles) →
  plainNames (toStringArray extenderRoles) →
  (∀ role res key,
     ruleOf (grants (execM (extendRole roles extenderRoles) st)) role res key
     = ruleOf (grants st) role res key)
  ∧ (∀ x, is_Some (grants (execM (extendRole roles extenderRoles) st) !! x)
          ↔ is_Some (grants st !! x))
  ∧ (∀ x, x ∉ toStringArray roles →
          extendersOf (grants (execM (extendRole roles extenderRoles) st)) x
          = extendersOf (grants st) x)
  ∧ (∀ x, extendersOf (grants st) x
          `prefix_of` extendersOf (grants (execM (extendRole roles extenderRoles) st)) x)
  ∧ (∀ x e,
       e ∈ extendersOf (grants (execM (extendRole roles extenderRoles) st)) x →
       e ∈ extendersOf (grants st) x
       ∨ (x ∈ toStringArray roles ∧ e ∈ toStringArray extenderRoles)).
Proof.
  intros _ _ _.
  set (I := λ s : Store,
         (∀ role res key, ruleOf (grants s) role res key = ruleOf (grants st) role res key)
         ∧ (∀ x, is_Some (grants s !! x) ↔ is_Some (grants st !! x))
         ∧ (∀ x, x ∉ toStringArray roles →
                 extendersOf (grants s) x = extendersOf (grants st) x)
         ∧ (∀ x, extendersOf (grants st) x `prefix_of` extendersOf (grants s) x)
         ∧ (∀ x e, e ∈ extendersOf (grants s) x →
                   e ∈ extendersOf (grants st) x
                   ∨ (x ∈ toStringArray roles ∧ e ∈ toStringArray extenderRoles))).
  assert (I st) as Hst by (unfold I; split_and!; by eauto).
  enough (I (execM (extendRole roles extenderRoles) st)) as HI by apply HI.
  unfold execM, extendRole.
  destruct (length (toStringArray roles) =? 0); [done |].
  destruct (isEmptyArray extenderRoles); [done |].
  destruct (length (toStringArray extenderRoles) =? 0); [done |].
  rewrite bind_run. unfold getGrants.
  destruct (0 <? length _); [done |].
  apply (forEachM_invariant_in _ I); [| done].
  intros r s Hr (H1 & H2 & H3 & H4 & H5).
  destruct (extendOne_frame (toStringArray extenderRoles) r s)
    as (F1 & F2 & F3 & F4 & F5).
  unfold I. split_and!.
  - intros role res key. by rewrite F1.
  - intros x. by rewrite F2.
  - intros x Hx. rewrite F3; [by apply H3 |]. by intros ->.
  - intros x. etrans; [apply H4 | apply F4].
  - intros x e [He | [-> He]]%F5; [by apply H5 | by right].
Qed.

Lemma extendRole_frame_witness :
  extendersOf (grants (execM (extendRole (VStr "C") (VStr "D"))
                         (mkStore tblBranch false))) "A"
  = extendersOf (grants (mkStore tblBranch false)) "A".
Proof.
  apply (extendRole_frame (VStr "C") (VStr "D") (mkStore tblBranch false)).
  - exact tblBranch_plain.
  - apply (bool_decide_unpack _). vm_compute. reflexivity.
  - apply (bool_decide_unpack _). vm_compute. reflexivity.
  - apply (bool_decide_unpack _). vm_compute. reflexivity.
Defined.

(** X17. On a table and for roles and extenders whose names are none of
    those that an object literal inherits: when [extendRole] has returned
    for a table without cycles, in which no role has the empty name and
    every extender is a role, the table is still one; and if the
    extenders were not the empty array, the hierarchy of each role given
    resolves, and holds each extender given with all that the role and
    the extender inherited before. *)
Theorem extendRole_then_inherits (roles extenderRoles : Value) (st st' : Store) :
  plainTable (grants st) → plainNames (toStringArray roles) →
  plainNames (toStringArray extenderRoles) →
  closed (grants st) → wellFormed (grants st) →
  extendRole roles extenderRoles st = (Ok (), st') →
  closed (grants st') ∧ wellFormed (grants st')
  ∧ (isEmptyArray extenderRoles = false →
     ∀ r, r ∈ toStringArray roles →
       ∃ l, getRoleHierarchyOf (grants st') r None = Ok l
            ∧ (∀ x, rtc (extendsEdge (grants st)) r x → x ∈ l)
            ∧ ∀ e, e ∈ toStringArray extenderRoles →
                   e ∈ l ∧ ∀ x, rtc (extendsEdge (grants st)) e x → x ∈ l).
Proof.
  intros _ _ _ Hclosed Hwf Hrun.
  assert (st' = execM (extendRole roles extenderRoles) st) as Hst'
    by (unfold execM; by rewrite Hrun).
  assert (wellFormed (grants st')) as Hwf'.
  { rewrite Hst'. by apply extendRole_wellFormed. }
  destruct (extendRole_Ok roles extenderRoles st st' Hrun)
    as [Hroles [[Hempty ->] | (Hempty & Hext & Hall & Hloop)]].
  { split_and!; [done | done | by rewrite Hempty]. }
  assert ((∀ x, is_Some (grants st' !! x) ↔ is_Some (grants st !! x))
          ∧ (∀ x, extendersOf (grants st) x `prefix_of` extendersOf (grants st') x)
          ∧ (∀ x e, e ∈ extendersOf (grants st') x →
                    e ∈ extendersOf (grants st) x
                    ∨ e ∈ toStringArray extenderRoles))
    as (Hdom & Hgrow & Hnew).
  { apply (forEachM_Ok_each _
             (λ s s', (∀ x, is_Some (grants s' !! x) ↔ is_Some (grants s !! x))
                      ∧ (∀ x, extendersOf (grants s) x
                              `prefix_of` extendersOf (grants s') x)
                      ∧ (∀ x e, e ∈ extendersOf (grants s') x →
                                e ∈ extendersOf (grants s) x
                                ∨ e ∈ toStringArray extenderRoles))
             (λ _ _, True)) in Hloop as [HR _]; [done | | | | done].
    - intros s. split_and!; by eauto.
    - intros s1 s2 s3 (A1 & A2 & A3) (B1 & B2 & B3). split_and!.
      + intros x. by rewrite B1.
      + intros x. etrans; [apply A2 | apply B2].
      + intros x e [He | He]%B3; [by apply A3 | by right].
    - intros r s s' _ Hstep. split; [| done].
      assert (s' = execM (extendOne (toStringArray extenderRoles) r) s) as ->
        by (unfold execM; by rewrite Hstep).
      destruct (extendOne_frame (toStringArray extenderRoles) r s)
        as (_ & F2 & _ & F4 & F5).
      split_and!; [done | done |].
      intros x e [He | [_ He]]%F5; [by left | by right]. }
  assert (∀ a b, extendsEdge (grants st) a b → extendsEdge (grants st') a b) as Hedge.
  { intros a b Hab. unfold extendsEdge in *.
    destruct (Hgrow a) as [k ->]. apply elem_of_app. by left. }
  assert (∀ a b, rtc (extendsEdge (grants st)) a b → rtc (extendsEdge (grants st')) a b)
    as Hreach.
  { intros a b. apply rtc_subrel. exact Hedge. }
  assert (closed (grants st')) as Hclosed'.
  { intros a b [Hab | Hb]%Hnew; apply Hdom; [by eapply Hclosed | by apply Hall]. }
  split; [done |]. split; [done |]. intros _ r Hr.
  assert (∀ e, e ∈ toStringArray extenderRoles → extendsEdge (grants st') r e) as Hadded.
  { apply (forEachM_Ok_each _
             (λ s s', ∀ x, extendersOf (grants s) x
                           `prefix_of` extendersOf (grants s') x)
             (λ r s, ∀ e, e ∈ toStringArray extenderRoles →
                          e ∈ extendersOf (grants s) r)) in Hloop as [_ Hall'];
      [by apply Hall' | done | | | ].
    - intros s1 s2 s3 A B x. etrans; [apply A | apply B].
    - intros x s s' _ Hstep. split; [| by eapply extendOne_added].
      assert (s' = execM (extendOne (toStringArray extenderRoles) x) s) as ->
        by (unfold execM; by rewrite Hstep).
      apply (extendOne_frame (toStringArray extenderRoles) x s).
    - intros x s s' Hx Hs e He. destruct (Hs x) as [k ->].
      apply elem_of_app. left. by apply Hx. }
  assert (is_Some (grants st' !! r)) as Hr'.
  { destruct (toStringArray extenderRoles) as [| e es] eqn:Hes; [done |].
    destruct (extendsEdge_role (grants st') r e) as (role & _ & -> & _); [| by eauto].
    apply Hadded. left. }
  destruct Hwf' as [Hacyc' _].
  destruct (getRoleHierarchyOf_total (grants st') r Hclosed' Hacyc' Hr') as [l Hl].
  exists l. split; [done |]. split.
  - intros x Hx. apply (getRoleHierarchyOf_elem (grants st') r x l Hl). by apply Hreach.
  - intros e He. split.
    + apply (getRoleHierarchyOf_elem (grants st') r e l Hl). apply rtc_once.
      by apply Hadded.
    + intros x Hx. apply (getRoleHierarchyOf_elem (grants st') r x l Hl).
      eapply rtc_l; [by apply Hadded | by apply Hreach].
Qed.

Lemma resolving_check (g : gmap string RoleEntry) :
  map_Forall (λ r _, match getRoleHierarchyOf g r None with
                     | Ok _ => true
                     | Throw _ => false
                     end = true) g →
  closed g ∧ acyclic g.
Proof.
  intros Hall. apply resolving_closed_acyclic. intros r [role Hr].
  specialize (Hall r role Hr). simpl in Hall.
  destruct (getRoleHierarchyOf g r None) as [l |]; [by exists l | done].
Qed.

Lemma tblBranch_wellFormed : closed tblBranch ∧ wellFormed tblBranch.
Proof.
  destruct (resolving_check tblBranch) as [Hc Ha].
  { apply (bool_decide_unpack _). vm_compute. reflexivity. }
  split; [done |]. split; [done |]. vm_compute. reflexivity.
Qed.

Lemma extendRole_then_inherits_witness :
  closed (grants (execM (extendRole (VStr "C") (VStr "D")) (mkStore tblBranch false)))
  ∧ wellFormed
      (grants (execM (extendRole (VStr "C") (VStr "D")) (mkStore tblBranch false))).
Proof.
  assert (plainNames ["C"]) as HC
    by (apply (bool_decide_unpack _); vm_compute; reflexivity).
  assert (plainNames ["D"]) as HD
    by (apply (bool_decide_unpack _); vm_compute; reflexivity).
  destruct (extendRole_then_inherits (VStr "C") (VStr "D") (mkStore tblBranch false)
              (execM (extendRole (VStr "C") (VStr "D")) (mkStore tblBranch false))
              tblBranch_plain HC HD
              (proj1 tblBranch_wellFormed) (proj2 tblBranch_wellFormed))
    as (H1 & H2 & _); [vm_compute; reflexivity |].
  by split.
Defined.

(** ** Extending roles of a locked table *)

Lemma lockAC_Ok_frozen (isLocked : AccessControl → bool) (ac ac' : AccessControl)
    (g' : Store) :
  lockAC isLocked ac = Ok ac' → _grants ac' = Some g' → frozen g' = true.
Proof.
  unfold lockAC. destruct (_grants ac) as [g |]; [| done].
  destruct (size (grants g) =? 0); [done |].
  destruct (isLocked ac && frozen g) eqn:Hl; simpl.
  - intros [= <-] [= <-]. by apply andb_true_iff in Hl as [_ ?].
  - by intros [= <-] [= <-].
Qed.

Lemma getRoleHierarchyOf_not_Locked (g : gmap string RoleEntry) (e : string) :
  getRoleHierarchyOf g e None ≠ raise Locked.
Proof.
  unfold getRoleHierarchyOf. destruct (g !! e) as [role |] eqn:He.
  - intros H. apply hierarchyAt_Throw_sound in H; [done | by eauto | done].
  - by rewrite hierarchyAt_unfold, He.
Qed.

Lemma extendOne_on_frozen (ext : list string) (r : string) (st : Store) :
  frozen st = true →
  ∃ e, extendOne ext r st = (Throw e, st) ∧ e ≠ AccessControlError Locked
       ∧ (is_Some (grants st !! r) → r ∉ ext →
          (∀ x, x ∈ ext → ∃ h, getRoleHierarchyOf (grants st) x None = Ok h ∧ r ∉ h) →
          acceptedName r = true → e = TypeError).
Proof.
  intros Hf. unfold extendOne. rewrite bind_run. unfold getGrants.
  destruct (grants st !! r) as [role |] eqn:Hr.
  2: { eexists. split_and!; [done | done |]. by intros [? ?]. }
  destruct (indexOf ext r) eqn:Hidx.
  { eexists. split_and!; [done | done |]. intros _ Hnin.
    by apply indexOf_true in Hidx. }
  rewrite bind_run. unfold liftR, getCrossExtendingRole. simpl.
  destruct (crossLoop (grants st) r ext None) as [c |] eqn:Hloop.
  2: { eexists. split_and!; [done | |].
       - intros ->. apply crossLoop_Throw in Hloop as (x & _ & Hx).
         by apply getRoleHierarchyOf_not_Locked in Hx.
       - intros _ Hnin Hres _. by rewrite crossLoop_none in Hloop. }
  destruct (strTruthy c) eqn:Hc.
  { eexists. split_and!; [done | done |]. intros _ Hnin Hres _.
    rewrite crossLoop_none in Hloop by done. by simplify_eq. }
  rewrite bind_run. pose proof (validName_not_Locked r true) as HvL.
  destruct (validName r true) as [v |] eqn:Hv.
  2: { eexists. split_and!; [done | by intros -> |]. intros _ _ _ Hacc.
       by rewrite (validName_accepted r true Hacc) in Hv. }
  destruct (extend role); rewrite write_frozen by done;
    eexists; split_and!; done.
Qed.

(** X18. On a table and for roles and extenders whose names are none of
    those that an object literal inherits: once [lockAC] has returned,
    [extendRole] changes nothing in the table. It returns only for the
    call that has nothing to do, with the empty array of extenders; any
    other call throws, and never the error "locked": where a single role
    and its extenders pass every check of [extendRole], what is thrown is
    the [TypeError] of the write. *)
Theorem extendRole_after_lock (isLocked : AccessControl → bool)
    (ac ac' : AccessControl) (g' : Store) (roles extenderRoles : Value) :
  plainTable (grants g') → plainNames (toStringArray roles) →
  plainNames (toStringArray extenderRoles) →
  lockAC isLocked ac = Ok ac' → _grants ac' = Some g' →
  execM (extendRole roles extenderRoles) g' = g'
  ∧ (evalM (extendRole roles extenderRoles) g' = Ok ()
     ↔ toStringArray roles ≠ [] ∧ isEmptyArray extenderRoles = true)
  ∧ evalM (extendRole roles extenderRoles) g' ≠ raise Locked
  ∧ (∀ r, toStringArray roles = [r] → toStringArray extenderRoles ≠ [] →
          is_Some (grants g' !! r) → r ∉ toStringArray extenderRoles →
          (∀ x, x ∈ toStringArray extenderRoles →
                ∃ h, getRoleHierarchyOf (grants g') x None = Ok h ∧ r ∉ h) →
          acceptedName r = true →
          evalM (extendRole roles extenderRoles) g' = Throw TypeError).
Proof.
  intros _ _ _ Hlock Hg'. pose proof (lockAC_Ok_frozen _ _ _ _ Hlock Hg') as Hf.
  split; [by apply extendRole_frozen |].
  unfold evalM, extendRole.
  destruct (toStringArray roles) as [| r0 rs] eqn:Hroles.
  { split_and!; [| done |]; [split; [done | by intros [? _]] |]. intros r [=]. }
  cbn [length Nat.eqb].
  destruct (isEmptyArray extenderRoles) eqn:Hempty.
  { split_and!; [done | done |]. intros r _ Hne.
    by destruct extenderRoles as [| | | | | [] |]. }
  destruct (toStringArray extenderRoles) as [| e0 es] eqn:Hext.
  { split_and!; [| done | done]. split; [done | by intros [_ ?]]. }
  cbn [length Nat.eqb]. rewrite bind_run. unfold getGrants.
  destruct (getNonExistentRoles (grants g') (e0 :: es)) as [| x xs] eqn:Hnon.
  2: { split_and!; [| done |]; [split; [done | by intros [_ ?]] |].
       intros r _ _ _ _ Hres _.
       rewrite getNonExistentRoles_nil in Hnon; [done |].
       intros y Hy. destruct (Hres y Hy) as (h & Hh & _).
       unfold getRoleHierarchyOf in Hh.
       by apply (hierarchyAt_Ok_sound (grants g') _ y None h Hh y). }
  cbn [length Nat.ltb Nat.leb]. simpl. rewrite bind_run.
  destruct (extendOne_on_frozen (e0 :: es) r0 g' Hf) as (e & -> & HnL & Htype).
  simpl. split_and!.
  - split; [done | by intros [_ ?]].
  - intros [= ->]. by apply HnL.
  - intros r [= -> ->] _ Hr Hnin Hres Hacc. by rewrite Htype.
Qed.

Lemma extendRole_after_lock_witness :
  execM (extendRole (VStr "C") (VStr "D")) (mkStore tblBranch true)
  = mkStore tblBranch true
  ∧ evalM (extendRole (VStr "C") (VStr "D")) (mkStore tblBranch true) = Throw TypeError.
Proof.
  destruct (extendRole_after_lock _isLocked (mkAC (Some (mkStore tblBranch false)) false)
              (mkAC (Some (mkStore tblBranch true)) true) (mkStore tblBranch true)
              (VStr "C") (VStr "D")) as (H1 & _ & _ & H4);
    [exact tblBranch_plain
    | apply (bool_decide_unpack _); vm_compute; reflexivity
    | apply (bool_decide_unpack _); vm_compute; reflexivity
    | vm_compute; reflexivity | reflexivity |].
  split; [exact H1 |].
  apply (H4 "C"); [reflexivity | done | vm_compute; eauto | | | reflexivity].
  - apply (bool_decide_unpack _). vm_compute. reflexivity.
  - intros x Hx. apply list_elem_of_singleton in Hx as ->. exists ["D"]. split.
    + vm_compute. reflexivity.
    + apply (bool_decide_unpack _). vm_compute. reflexivity.
Defined.

(** ** Inspecting a grants object *)

Lemma forEachO_Done {A} (f : A → Outcome unit) (l : list A) :
  forEachO f l = Done () ↔ ∀ x, x ∈ l → f x = Done ().
Proof.
  induction l as [| x l IH]; simpl.
  { split; [| done]. intros _ x Hx. by apply elem_of_nil in Hx. }
  destruct (f x) as [[] | e] eqn:Hx; simpl.
  - rewrite IH. split.
    + intros Hl y [-> | Hy]%elem_of_cons; [done | by apply Hl].
    + intros Hl y Hy. apply Hl. by right.
  - split; [done |]. intros Hl. specialize (Hl x (list_elem_of_here x l)). congruence.
Qed.

Lemma validResourceKey_Done (o : gmap string (list string)) (key : string) :
  validResourceKey o key = Done ()
  ↔ acceptedRuleKey key = true ∧ isFilledStringArray (default [] (o !! key)) = true.
Proof.
  unfold validResourceKey, acceptedRuleKey.
  destruct (indexOf actions _); simpl; [| by split; [| intros [? _]]].
  destruct (strTruthy _); simpl.
  - destruct (indexOf possessions _); simpl; [| by split; [| intros [? _]]].
    destruct (default [] (o !! key)) as [| a l]; [done |]. simpl.
    destruct (negb _ && _); simpl; split; try done; by intros [_ ?].
  - destruct (default [] (o !! key)) as [| a l]; [done |]. simpl.
    destruct (negb _ && _); simpl; split; try done; by intros [_ ?].
Qed.

Section InspectionFacts.

Variable ownKeys : gset string → list string.
Hypothesis ownKeys_elem : ∀ (s : gset string) (x : string), x ∈ ownKeys s ↔ x ∈ s.

Lemma validResourceObject_Done (o : gmap string (list string)) :
  validResourceObject ownKeys o = Done true
  ↔ ∀ key attrs, o !! key = Some attrs →
      acceptedRuleKey key = true ∧ isFilledStringArray attrs = true.
Proof.
  unfold validResourceObject.
  destruct (forEachO (validResourceKey o) (ownKeys (dom o))) as [[] | e] eqn:Hloop; simpl.
  - split; [intros _ | done]. intros key attrs Hkey.
    apply (proj1 (forEachO_Done _ _)) with (x := key) in Hloop.
    + apply validResourceKey_Done in Hloop. by rewrite Hkey in Hloop.
    + apply ownKeys_elem, elem_of_dom. eauto.
  - split; [done |]. intros Hall.
    assert (forEachO (validResourceKey o) (ownKeys (dom o)) = Done ()) as Hdone;
      [| congruence].
    apply forEachO_Done. intros key [attrs Hkey]%ownKeys_elem%elem_of_dom.
    apply validResourceKey_Done. rewrite Hkey. by apply (Hall key attrs).
Qed.

End InspectionFacts.

Lemma hasChar_append (c : ascii) (s t : string) :
  hasChar c (s +:+ t) = hasChar c s || hasChar c t.
Proof.
  induction s as [| x s IH]; [done |]. rewrite append_cons. simpl.
  by rewrite IH, orb_assoc.
Qed.

Lemma attrsOf_no_colon (key : string) (attrs : list string) (q : QueryInfo) :
  hasChar ":" key = false →
  attrsOf (ResourceEntry {[key := attrs]}) q = [].
Proof.
  intros Hkey. unfold attrsOf.
  assert (∀ a rest, ({[key := attrs]} : gmap string (list string))
                    !! (a +:+ String ":" rest) = None) as Hnone.
  { intros a rest. apply lookup_singleton_ne. intros ->.
    rewrite hasChar_append in Hkey. simpl in Hkey. by rewrite orb_true_r in Hkey. }
  change (nq_action q +:+ ":" +:+ nq_possession q)
    with (nq_action q +:+ String ":" (nq_possession q)).
  change (nq_action q +:+ ":any") with (nq_action q +:+ String ":" "any").
  by rewrite !Hnone.
Qed.

Lemma splitChar_no_colon (a : string) :
  hasChar ":" a = false → splitChar ":" a = [a].
Proof.
  intros Ha. unfold splitChar. rewrite <- (append_nil_r a) at 1.
  rewrite splitChar_go_head by done. simpl.
  by rewrite rev_app_append, append_nil_r, rev_involutive.
Qed.

Lemma splitChar_colon (a rest : string) :
  hasChar ":" a = false →
  splitChar ":" (a +:+ String ":" rest) = a :: splitChar ":" rest.
Proof.
  intros Ha. unfold splitChar. rewrite splitChar_go_head by done. simpl.
  by rewrite rev_app_append, append_nil_r, rev_involutive.
Qed.

(** A string has no colon, or a first one. *)
Lemma first_colon (key : string) :
  hasChar ":" key = false
  ∨ ∃ a rest, key = a +:+ String ":" rest ∧ hasChar ":" a = false.
Proof.
  induction key as [| c key IH]; [by left |]. simpl.
  destruct (Ascii.eqb_spec c ":") as [-> | Hc].
  - right. by exists "", key.
  - destruct IH as [-> | (a & rest & -> & Ha)]; [by left |].
    right. exists (String c a), rest. split; [done |]. simpl. rewrite Ha.
    by rewrite (proj2 (Ascii.eqb_neq c ":")).
Qed.

Lemma actions_no_colon (a : string) : a ∈ actions → hasChar ":" a = false.
Proof.
  unfold actions. intros Ha.
  repeat (apply elem_of_cons in Ha as [-> | Ha]; [reflexivity |]).
  by apply elem_of_nil in Ha.
Qed.

Lemma possessions_no_colon (p : string) :
  p = "" ∨ p ∈ possessions → hasChar ":" p = false.
Proof.
  unfold possessions. intros [-> | Hp]; [done |].
  repeat (apply elem_of_cons in Hp as [-> | Hp]; [reflexivity |]).
  by apply elem_of_nil in Hp.
Qed.

Lemma strTruthy_possession (p : string) :
  negb (strTruthy (Some p)) || indexOf possessions p = true
  ↔ p = "" ∨ p ∈ possessions.
Proof.
  simpl. rewrite negb_involutive. rewrite orb_true_iff. unfold indexOf.
  rewrite bool_decide_eq_true. by rewrite String.eqb_eq.
Qed.

(** The keys that are accepted: an action; an action, a colon and a
    possession or nothing; and either of these followed by a colon and
    any text. *)
Lemma acceptedRuleKey_forms (key : string) :
  acceptedRuleKey key = true
  ↔ ∃ a, a ∈ actions
         ∧ (key = a
            ∨ ∃ p, (p = "" ∨ p ∈ possessions)
                   ∧ (key = a +:+ ":" +:+ p
                      ∨ ∃ tail, key = a +:+ ":" +:+ p +:+ String ":" tail)).
Proof.
  unfold acceptedRuleKey. split.
  - destruct (first_colon key) as [Hkey | (a & rest & -> & Ha)].
    + rewrite splitChar_no_colon by done. simpl. rewrite andb_true_r.
      intros Hin%bool_decide_eq_true. exists key. split; [done | by left].
    + rewrite splitChar_colon by done. simpl.
      intros [Hin%bool_decide_eq_true Hp]%andb_true_iff.
      exists a. split; [done |]. right.
      destruct (first_colon rest) as [Hrest | (p & tail & -> & Hpc)].
      * rewrite splitChar_no_colon in Hp by done. simpl in Hp.
        exists rest. split; [| by left].
        by apply strTruthy_possession.
      * rewrite splitChar_colon in Hp by done. simpl in Hp.
        exists p. split; [by apply strTruthy_possession |]. right. by exists tail.
  - intros (a & Ha & [-> | (p & Hp & [-> | (tail & ->)])]).
    + rewrite splitChar_no_colon by (by apply actions_no_colon). simpl.
      rewrite andb_true_r. by apply bool_decide_eq_true.
    + change (a +:+ ":" +:+ p) with (a +:+ String ":" p).
      rewrite splitChar_colon by (by apply actions_no_colon).
      rewrite splitChar_no_colon by (by apply possessions_no_colon).
      cbn [lookup list_lookup default]. apply andb_true_iff. split.
      * by apply bool_decide_eq_true.
      * by apply strTruthy_possession.
    + change (a +:+ ":" +:+ p +:+ String ":" tail)
        with (a +:+ String ":" (p +:+ String ":" tail)).
      rewrite splitChar_colon by (by apply actions_no_colon).
      rewrite splitChar_colon by (by apply possessions_no_colon).
      cbn [lookup list_lookup default]. apply andb_true_iff. split.
      * by apply bool_decide_eq_true.
      * by apply strTruthy_possession.
Qed.

(** X19. [validResourceObject] returns, and returns [true], exactly when
    every key of the resource entry is accepted and no attribute of its
    lists is blank. The accepted keys are: one of the four actions as
    they are spelt; an action followed by a colon and by nothing or by
    one of the two possessions; and such a key followed by a second
    colon and any text, which is not read ([create:any:zzz] and
    [create::own] are accepted). A rule under a key without a colon
    passes this inspection and is read by no query. *)
Theorem validResourceObject_accepts (ownKeys : gset string → list string)
    (o : gmap string (list string)) :
  (∀ (s : gset string) (x : string), x ∈ ownKeys s ↔ x ∈ s) →
  (validResourceObject ownKeys o = Done true
   ↔ ∀ key attrs, o !! key = Some attrs →
       acceptedRuleKey key = true ∧ isFilledStringArray attrs = true)
  ∧ validResourceObject ownKeys o ≠ Done false
  ∧ (∀ key,
       acceptedRuleKey key = true
       ↔ ∃ a, a ∈ actions
              ∧ (key = a
                 ∨ ∃ p, (p = "" ∨ p ∈ possessions)
                        ∧ (key = a +:+ ":" +:+ p
                           ∨ ∃ tail, key = a +:+ ":" +:+ p +:+ String ":" tail)))
  ∧ (∀ a p, a ∈ actions → p ∈ possessions →
       acceptedRuleKey a = true ∧ acceptedRuleKey (a +:+ ":") = true
       ∧ acceptedRuleKey (a +:+ ":" +:+ p) = true)
  ∧ (∀ key attrs q,
       hasChar ":" key = false →
       attrsOf (ResourceEntry {[key := attrs]}) q = []).
Proof.
  intros Hkeys. split_and!.
  - by apply validResourceObject_Done.
  - unfold validResourceObject. by destruct (forEachO _ _) as [[] |].
  - apply acceptedRuleKey_forms.
  - unfold actions, possessions. intros a p Ha Hp.
    repeat (apply elem_of_cons in Ha as [-> | Ha]);
      try (by apply elem_of_nil in Ha);
      repeat (apply elem_of_cons in Hp as [-> | Hp]);
      try (by apply elem_of_nil in Hp);
      vm_compute; split_and!; reflexivity.
  - intros key attrs q. apply attrsOf_no_colon.
Qed.

Lemma validResourceObject_accepts_witness :
  validResourceObject elements {[ "create" := ["*"]; "read:own" := ["title"] ]}
  = Done true.
Proof.
  apply (validResourceObject_accepts elements
           {[ "create" := ["*"]; "read:own" := ["title"] ]}).
  - intros s x. apply elem_of_elements.
  - intros key attrs Hkey.
    apply lookup_insert_Some in Hkey as [[<- <-] | [_ Hkey]]; [done |].
    apply lookup_singleton_Some in Hkey as [<- <-]. done.
Defined.

Lemma bindI_run {A B} (m : Inspect A) (f : A → Inspect B) (st : Store) :
  (m ≫= f) st
  = match m st with
    | (Done a, st') => f a st'
    | (Failed e, st') => (Failed e, st')
    end.
Proof. done. Qed.

(** A loop of the inspection that has returned, when no turn from the
    table [s] that returns changes it. *)
Lemma forEachI_same {A} (f : A → Inspect unit) (P : A → Prop) (l : list A)
    (s s' : Store) :
  (∀ x s1, x ∈ l → f x s = (Done (), s1) → s1 = s ∧ P x) →
  forEachI f l s = (Done (), s') → s' = s ∧ ∀ x, x ∈ l → P x.
Proof.
  induction l as [| x l IH]; intros Hf Hrun.
  { cbn in Hrun. unfold mret, Inspect_ret in Hrun. simplify_eq. split; [done |].
    intros x Hx. by apply elem_of_nil in Hx. }
  simpl in Hrun. rewrite bindI_run in Hrun.
  destruct (f x s) as [[[] | e] s1] eqn:Hx; [| done].
  destruct (Hf x s1 (list_elem_of_here x l) Hx) as [-> HP].
  destruct IH as [-> Hall]; [| done |].
  { intros y s1 Hy. apply Hf. by right. }
  split; [done |]. intros y [-> | Hy]%elem_of_cons; [done | by apply Hall].
Qed.

Lemma eachI_same {A} (f : A → Inspect bool) (P : A → Prop) (l : list A)
    (s s' : Store) :
  (∀ x b s1, x ∈ l → f x s = (Done b, s1) → b = true ∧ s1 = s ∧ P x) →
  eachI f l s = (Done (), s') → s' = s ∧ ∀ x, x ∈ l → P x.
Proof.
  induction l as [| x l IH]; intros Hf Hrun.
  { cbn in Hrun. unfold mret, Inspect_ret in Hrun. simplify_eq. split; [done |].
    intros x Hx. by apply elem_of_nil in Hx. }
  simpl in Hrun. rewrite bindI_run in Hrun.
  destruct (f x s) as [[b | e] s1] eqn:Hx; [| done].
  destruct (Hf x b s1 (list_elem_of_here x l) Hx) as (-> & -> & HP).
  destruct IH as [-> Hall]; [| done |].
  { intros y b s1 Hy. apply Hf. by right. }
  split; [done |]. intros y [-> | Hy]%elem_of_cons; [done | by apply Hall].
Qed.

Lemma isFilledStringArray_not_blank (l : list string) :
  isFilledStringArray l = true → "" ∉ l.
Proof.
  unfold isFilledStringArray. intros Hl Hin.
  rewrite forallb_forall in Hl. apply list_elem_of_In, Hl in Hin.
  by vm_compute in Hin.
Qed.

(** [extendRole] called by the inspection for a role, with the extends
    list that the role has: when it returns it has changed nothing. *)
Lemma extendRole_own_list (r : string) (role : RoleEntry) (s s' : Store) :
  grants s !! r = Some role → toStringArray (VStr r) = [r] →
  isFilledStringArray (default [] (extend role)) = true →
  extendRole (VStr r) (VArr (default [] (extend role))) s = (Ok (), s') →
  s' = s
  ∧ ∀ ext, extend role = Some ext →
      (r ∉ ext)
      ∧ ∀ e, e ∈ ext → ∃ h, getRoleHierarchyOf (grants s) e None = Ok h ∧ r ∉ h.
Proof.
  intros Hr Hclean Hfilled Hrun.
  apply extendRole_Ok in Hrun as [_ [[Hempty ->] | (Hempty & Hne & _ & Hloop)]].
  { split; [done |]. intros ext Hext. rewrite Hext in Hempty. simpl in Hempty.
    destruct ext; [| done]. split; [by intros ?%elem_of_nil |].
    by intros e ?%elem_of_nil. }
  rewrite Hclean in Hloop. cbn [toStringArray] in Hloop, Hne.
  simpl in Hloop. rewrite bind_run in Hloop.
  destruct (extendOne _ r s) as [[[] | err] s1] eqn:Hone; [| done].
  unfold mret, ST_ret in Hloop. simplify_eq.
  pose proof Hone as Hone'.
  apply extendOne_Ok in Hone as (role' & c & Hr' & Hnin & Hcross & Hc & ->).
  rewrite Hr in Hr'. injection Hr' as <-.
  destruct (extend role) as [ext |] eqn:Hext; [| done]. simpl in *. split.
  - rewrite uniqConcat_absorb by done. rewrite <- Hext, role_eta, insert_id by done.
    apply store_eta.
  - intros ext' [= <-]. split; [done |].
    apply (crossLoop_falsy (grants s) r ext c); [done | | done | done].
    by apply isFilledStringArray_not_blank.
Qed.

Section InspectionSound.

Variable ownKeys : gset string → list string.
Hypothesis ownKeys_elem : ∀ (s : gset string) (x : string), x ∈ ownKeys s ↔ x ∈ s.

Lemma validRoleKey_Done (role : RoleEntry) (r key : string) (s s1 : Store) :
  grants s !! r = Some role → toStringArray (VStr r) = [r] →
  validRoleKey ownKeys role r key s = (Done (), s1) →
  s1 = s
  ∧ (key = "$extend" →
     isFilledStringArray (default [] (extend role)) = true
     ∧ ∀ ext, extend role = Some ext →
         (r ∉ ext)
         ∧ ∀ e, e ∈ ext → ∃ h, getRoleHierarchyOf (grants s) e None = Ok h ∧ r ∉ h)
  ∧ (key ≠ "$extend" →
     acceptedName key = true
     ∧ ∀ entry, resources role !! key = Some entry →
         ∀ k attrs, entry !! k = Some attrs →
           acceptedRuleKey k = true ∧ isFilledStringArray attrs = true).
Proof.
  intros Hr Hclean. unfold validRoleKey. rewrite validName_quiet.
  destruct (acceptedName key) eqn:Hacc.
  - destruct (acceptedName_not_blank key Hacc) as [_ Hne].
    destruct (resources role !! key) as [o |] eqn:Ho; [| done].
    unfold liftO. destruct (validResourceObject ownKeys o) as [b |] eqn:Hvalid; [| done].
    simpl. intros [= <-]. split; [done |]. split; [done |]. intros _. split; [done |].
    intros entry [= <-].
    assert (b = true) as ->.
    { unfold validResourceObject in Hvalid. destruct (forEachO _ _); by simplify_eq/=. }
    by apply (validResourceObject_Done ownKeys ownKeys_elem o).
  - destruct (String.eqb_spec key "$extend") as [-> | Hne]; [| done].
    destruct (isFilledStringArray (default [] (extend role))) eqn:Hfilled; [| done].
    simpl. unfold liftM.
    destruct (extendRole _ _ s) as [[[] | err] s2] eqn:Hrun; [| done].
    intros [= <-].
    destruct (extendRole_own_list r role s s2 Hr Hclean Hfilled Hrun) as [-> Hext].
    split; [done |]. split; [done |]. done.
Qed.

Lemma validRoleObject_Done (r : string) (s s1 : Store) (b : bool) :
  toStringArray (VStr r) = [r] →
  validRoleObject ownKeys r s = (Done b, s1) →
  b = true ∧ s1 = s ∧ ∃ role, grants s !! r = Some role ∧ inspected (grants s) r role.
Proof.
  intros Hclean. unfold validRoleObject.
  destruct (grants s !! r) as [role |] eqn:Hr; [| done].
  rewrite bindI_run.
  destruct (forEachI _ _ s) as [[[] | e] s2] eqn:Hloop; [| done].
  unfold mret, Inspect_ret. intros [= <- <-].
  apply (forEachI_same _
           (λ key,
              (key = "$extend" →
               isFilledStringArray (default [] (extend role)) = true
               ∧ ∀ ext, extend role = Some ext →
                   (r ∉ ext)
                   ∧ ∀ e, e ∈ ext →
                          ∃ h, getRoleHierarchyOf (grants s) e None = Ok h ∧ r ∉ h)
              ∧ (key ≠ "$extend" →
                 acceptedName key = true
                 ∧ ∀ entry, resources role !! key = Some entry →
                     ∀ k attrs, entry !! k = Some attrs →
                       acceptedRuleKey k = true ∧ isFilledStringArray attrs = true)))
    in Hloop as [-> Hkeys].
  2: { intros key s3 _ Hkey. by apply (validRoleKey_Done role r key s s3). }
  split; [done |]. split; [done |]. exists role. split; [done |]. split.
  - intros ext Hext.
    destruct (Hkeys "$extend") as [Hextend _].
    { apply ownKeys_elem. unfold roleKeys. rewrite Hext. set_solver. }
    destruct (Hextend eq_refl) as [Hfilled Hchecks]. rewrite Hext in Hfilled.
    split; [done |]. by apply Hchecks.
  - intros res entry Hres Hne.
    destruct (Hkeys res) as [_ Hresource].
    { apply ownKeys_elem. unfold roleKeys.
      assert (res ∈ dom (resources role)) by (apply elem_of_dom; eauto). set_solver. }
    destruct (Hresource Hne) as [Hacc Hentry]. split; [done |]. by apply Hentry.
Qed.

Lemma inspected_wellFormed (g : gmap string RoleEntry) :
  (∀ r role, g !! r = Some role → acceptedName r = true ∧ inspected g r role) →
  closed g ∧ wellFormed g.
Proof.
  intros Hall.
  assert (∀ a b, extendsEdge g a b →
            ∃ h, getRoleHierarchyOf g b None = Ok h ∧ a ∉ h) as Hedge.
  { intros a b (role & ext & Ha & Hext & Hb)%extendsEdge_role.
    destruct (Hall a role Ha) as [_ [Hextend _]].
    destruct (Hextend ext Hext) as (_ & _ & Hchecks). by apply Hchecks. }
  split; [| split].
  - intros a b (h & Hh & _)%Hedge. unfold getRoleHierarchyOf in Hh.
    by apply (hierarchyAt_Ok_sound g _ b None h Hh b).
  - intros a (b & Hab & Hba)%tc_inv_l. destruct (Hedge a b Hab) as (h & Hh & Hnin).
    by apply Hnin, (getRoleHierarchyOf_elem g b a h Hh).
  - destruct (g !! "") as [role |] eqn:Hrole; [| done].
    destruct (Hall "" role Hrole) as [Hacc _]. by vm_compute in Hacc.
Qed.

Lemma getInspectedGrants_object (o g : Store) :
  (∀ r, is_Some (grants o !! r) → toStringArray (VStr r) = [r]) →
  getInspectedGrants ownKeys (GrantsObject o) = Done g →
  g = o
  ∧ ∀ r role, grants o !! r = Some role →
      acceptedName r = true ∧ inspected (grants o) r role.
Proof.
  intros Hclean. unfold getInspectedGrants.
  destruct (eachI _ _ o) as [[[] | e] o'] eqn:Hloop; [| done]. intros [= <-].
  apply (eachI_same _
           (λ r, acceptedName r = true
                 ∧ ∃ role, grants o !! r = Some role ∧ inspected (grants o) r role))
    in Hloop as [-> Hroles].
  - split; [done |]. intros r role Hr.
    destruct (Hroles r) as (Hacc & role' & Hr' & Hrole).
    { apply ownKeys_elem, elem_of_dom. eauto. }
    by simplify_eq.
  - intros r b s1 [role Hr]%ownKeys_elem%elem_of_dom. unfold inspectRole.
    rewrite bindI_run. unfold liftM, liftR.
    destruct (validName r true) as [v |] eqn:Hv; [| done].
    apply validName_true_Ok in Hv as Hv'. subst v.
    apply validName_Ok_accepted in Hv.
    intros (-> & -> & Hrole)%validRoleObject_Done; [done |].
    apply Hclean. eauto.
Qed.

End InspectionSound.

Lemma forEachI_all {A} (f : A → Inspect unit) (l : list A) (s : Store) :
  (∀ x, x ∈ l → f x s = (Done (), s)) → forEachI f l s = (Done (), s).
Proof.
  induction l as [| x l IH]; intros Hf; [done |].
  simpl. rewrite bindI_run, (Hf x) by left. apply IH. intros y Hy. apply Hf. by right.
Qed.

Lemma eachI_all {A} (f : A → Inspect bool) (l : list A) (s : Store) :
  (∀ x, x ∈ l → f x s = (Done true, s)) → eachI f l s = (Done (), s).
Proof.
  induction l as [| x l IH]; intros Hf; [done |].
  simpl. rewrite bindI_run, (Hf x) by left. apply IH. intros y Hy. apply Hf. by right.
Qed.

Section InspectionComplete.

Variable ownKeys : gset string → list string.
Hypothesis ownKeys_elem : ∀ (s : gset string) (x : string), x ∈ ownKeys s ↔ x ∈ s.

Lemma validRoleKey_passes (role : RoleEntry) (r key : string) (s : Store) :
  frozen s = false → grants s !! r = Some role → toStringArray (VStr r) = [r] →
  acceptedName r = true → inspected (grants s) r role →
  key ∈ roleKeys role →
  validRoleKey ownKeys role r key s = (Done (), s).
Proof.
  intros Hf Hr Hclean Hacc [Hextend Hres] Hkey.
  unfold validRoleKey. rewrite validName_quiet.
  unfold roleKeys in Hkey. apply elem_of_union in Hkey as [Hkey | Hkey].
  - destruct (extend role) as [ext |] eqn:Hext; [| set_solver].
    apply elem_of_singleton in Hkey as ->.
    destruct (Hextend ext eq_refl) as (Hfilled & Hnin & Hchecks).
    change (acceptedName "$extend") with false. cbv iota.
    rewrite String.eqb_refl. simpl. rewrite Hfilled. simpl. unfold liftM.
    destruct ext as [| e0 es].
    { unfold extendRole. rewrite Hclean. done. }
    rewrite extendRole_loop; [| by rewrite Hclean | done |].
    2: { intros e He. destruct (Hchecks e He) as (h & Hh & _).
         unfold getRoleHierarchyOf in Hh.
         by apply (hierarchyAt_Ok_sound (grants s) _ e None h Hh e). }
    rewrite Hclean. cbn [toStringArray]. simpl. rewrite bind_run.
    rewrite (extendOne_merge (e0 :: es) r s role Hr Hnin Hchecks);
      [| by rewrite validName_quiet, Hacc | done].
    rewrite Hext. rewrite uniqConcat_absorb by done.
    rewrite <- Hext, role_eta, insert_id by done.
    unfold mret, ST_ret. by rewrite <- Hf, store_eta.
  - apply elem_of_difference in Hkey as [[entry Hentry]%elem_of_dom Hne].
    assert (key ≠ "$extend") as Hne' by set_solver.
    destruct (Hres key entry Hentry Hne') as [Hk Hrules].
    rewrite Hk, Hentry. unfold liftO.
    by rewrite (proj2 (validResourceObject_Done ownKeys ownKeys_elem entry) Hrules).
Qed.

Lemma getInspectedGrants_object_passes (o : Store) :
  frozen o = false →
  (∀ r, is_Some (grants o !! r) → toStringArray (VStr r) = [r]) →
  (∀ r role, grants o !! r = Some role →
             acceptedName r = true ∧ inspected (grants o) r role) →
  getInspectedGrants ownKeys (GrantsObject o) = Done o.
Proof.
  intros Hf Hclean Hall. unfold getInspectedGrants.
  rewrite eachI_all; [done |].
  intros r [role Hr]%ownKeys_elem%elem_of_dom.
  destruct (Hall r role Hr) as [Hacc Hrole].
  unfold inspectRole. rewrite bindI_run. unfold liftM, liftR.
  rewrite (validName_accepted r true Hacc). unfold validRoleObject. rewrite Hr.
  rewrite bindI_run, forEachI_all; [done |].
  intros key Hkey%ownKeys_elem.
  apply validRoleKey_passes; [done | done | | done | done | done].
  apply Hclean. eauto.
Qed.

End InspectionComplete.

(** Why the names of the roles are taken without list separators: the
    inspection hands the name of a role to [extendRole], which reads it as
    a list; the roles of that list are given the extenders, and the
    object is returned changed. *)
Lemma inspection_reads_name_as_list :
  ∃ g, getInspectedGrants elements (GrantsObject (mkStore tblListName false)) = Done g
       ∧ extendersOf tblListName "a" = []
       ∧ extendersOf (grants g) "a" = ["c"]
       ∧ extendersOf (grants g) "b" = ["c"].
Proof. eexists. split_and!; vm_compute; reflexivity. Qed.

(** X20. The inspection of a grants object whose names are none of those
    that an object literal inherits, and whose role names hold no list
    separator and no white space at their ends, returns the object as it
    is, and returns exactly for an object in which every role has an
    accepted name, extenders that are not blank, are not the role and
    resolve to hierarchies without the role, and resources of accepted
    names with accepted keys and without blank attributes (the object
    not being frozen). Such a table has no inheritance cycle, no missing
    extender and no role of the empty name. *)
Theorem getInspectedGrants_object_accepts (ownKeys : gset string → list string)
    (o : Store) :
  (∀ (s : gset string) (x : string), x ∈ ownKeys s ↔ x ∈ s) →
  plainTable (grants o) →
  (∀ r, is_Some (grants o !! r) → toStringArray (VStr r) = [r]) →
  (∀ g, getInspectedGrants ownKeys (GrantsObject o) = Done g →
        g = o ∧ closed (grants o) ∧ wellFormed (grants o)
        ∧ ∀ r role, grants o !! r = Some role →
            acceptedName r = true ∧ inspected (grants o) r role)
  ∧ (frozen o = false →
     (∀ r role, grants o !! r = Some role →
                acceptedName r = true ∧ inspected (grants o) r role) →
     getInspectedGrants ownKeys (GrantsObject o) = Done o).
Proof.
  intros Hkeys _ Hclean. split.
  - intros g Hg.
    destruct (getInspectedGrants_object ownKeys Hkeys o g Hclean Hg) as [-> Hall].
    destruct (inspected_wellFormed (grants o) Hall). done.
  - intros Hf Hall. by apply getInspectedGrants_object_passes.
Qed.

Lemma getInspectedGrants_object_accepts_witness :
  mkStore tblBranch false = mkStore tblBranch false
  ∧ closed tblBranch ∧ wellFormed tblBranch
  ∧ ∀ r role, tblBranch !! r = Some role →
      acceptedName r = true ∧ inspected tblBranch r role.
Proof.
  apply (getInspectedGrants_object_accepts elements (mkStore tblBranch false)).
  - intros s x. apply elem_of_elements.
  - exact tblBranch_plain.
  - assert (map_Forall (λ r _, toStringArray (VStr r) = [r]) tblBranch) as Hall.
    { apply (bool_decide_unpack _). vm_compute. reflexivity. }
    intros r [role Hr]. by apply (Hall r role).
  - vm_compute. reflexivity.
Defined.

(** ** A table built from an array of statements *)

(** An invariant of the table under [commitToGrants]: it is kept when a
    role of an accepted name is created, and when a rule of the statement
    is written under a resource of an accepted name. *)
Lemma commitToGrants_invariant (P : Store → Prop) (access : Arg IAccessInfo)
    (all : bool) (st : Store) :
  P st →
  (∀ role s, frozen s = false → P s → grants s !! role = None →
             acceptedName role = true →
             P (mkStore (<[role := emptyRole]> (grants s)) false)) →
  (∀ ai role res item s,
     normalizeAccessInfo access all = Ok ai →
     frozen s = false → P s → grants s !! role = Some item →
     acceptedName res = true →
     P (mkStore
          (<[role := mkRole (extend item)
                       (<[res := <[toString (na_action ai) +:+ ":"
                                   +:+ toString (na_possession ai)
                                   := na_attributes ai]>
                                   (default ∅ (resources item !! res))]>
                          (resources item))]> (grants s)) false)) →
  P (execM (commitToGrants access all) st).
Proof.
  intros Hst Hnew Hrule. unfold execM, commitToGrants. rewrite bind_run. unfold liftR.
  destruct (normalizeAccessInfo access all) as [ai |] eqn:Hn; [| done].
  apply (forEachM_invariant (commitRole ai) P); [| done].
  intros role s Hs. unfold execM, commitRole. rewrite bind_run. unfold liftR.
  destruct (validName role true) as [v |] eqn:Hv; [| done].
  apply validName_true_Ok in Hv as Hv'. subst v. apply validName_Ok_accepted in Hv.
  rewrite bind_run. unfold getGrants. rewrite bind_run.
  assert (∀ s1, P s1 →
            P (forEachM (commitResource role
                           (toString (na_action ai) +:+ ":"
                            +:+ toString (na_possession ai)) (na_attributes ai))
                 (na_resource ai) s1).2) as Hloop.
  { intros s1 Hs1. apply (forEachM_invariant _ P); [| done].
    intros res s2 Hs2. destruct (frozen s2) eqn:Hf.
    { by rewrite commitResource_frozen. }
    destruct (grants s2 !! role) as [item |] eqn:Hitem.
    2: { by rewrite commitResource_absent. }
    unfold execM. rewrite (commitResource_run _ _ s2 role res item) by done.
    destruct (validName res true) as [v |] eqn:Hres; [| done].
    apply validName_true_Ok in Hres as Hres'. subst v.
    apply validName_Ok_accepted in Hres. simpl. by apply Hrule. }
  destruct (true && negb (hasRole (grants s) role)) eqn:Hc.
  - unfold write. destruct (frozen s) eqn:Hf; [done |]. apply Hloop.
    apply Hnew; [done | done | | done].
    simpl in Hc. apply negb_true_iff in Hc.
    apply not_true_iff_false in Hc. rewrite hasRole_true in Hc.
    by apply eq_None_not_Some.
  - unfold mret, ST_ret. by apply Hloop.
Qed.

Lemma acceptedRuleKey_pair (a p : string) :
  a ∈ actions → p ∈ possessions → acceptedRuleKey (a +:+ ":" +:+ p) = true.
Proof.
  unfold actions, possessions. intros Ha Hp.
  repeat (apply elem_of_cons in Ha as [-> | Ha]);
    try (by apply elem_of_nil in Ha);
    repeat (apply elem_of_cons in Hp as [-> | Hp]);
    try (by apply elem_of_nil in Hp);
    vm_compute; reflexivity.
Qed.

(** X21. The table that [getInspectedGrants] builds from an array of
    access statements is not frozen and has no extends list; its roles
    and resources have accepted names, and each of its rules is under a
    key [action:possession] made of one of the four actions and one of
    the two possessions. It has therefore no inheritance cycle, no
    missing extender and no role of the empty name. *)
Theorem getInspectedGrants_array_built (ownKeys : gset string → list string)
    (items : list (Arg IAccessInfo)) (g : Store) :
  getInspectedGrants ownKeys (GrantsArray items) = Done g →
  frozen g = false ∧ closed (grants g) ∧ wellFormed (grants g)
  ∧ ∀ r role, grants g !! r = Some role →
      acceptedName r = true ∧ extend role = None
      ∧ ∀ res entry, resources role !! res = Some entry →
          acceptedName res = true
          ∧ ∀ key attrs, entry !! key = Some attrs →
              acceptedRuleKey key = true
              ∧ ∃ a p, key = a +:+ ":" +:+ p ∧ a ∈ actions ∧ p ∈ possessions.
Proof.
  unfold getInspectedGrants.
  destruct (forEachM _ items _) as [[[] | e] g'] eqn:Hrun; [| done]. intros [= <-].
  set (J := λ s : Store,
         frozen s = false
         ∧ ∀ r role, grants s !! r = Some role →
             acceptedName r = true ∧ extend role = None
             ∧ ∀ res entry, resources role !! res = Some entry →
                 acceptedName res = true
                 ∧ ∀ key attrs, entry !! key = Some attrs →
                     acceptedRuleKey key = true
                     ∧ ∃ a p, key = a +:+ ":" +:+ p ∧ a ∈ actions ∧ p ∈ possessions).
  assert (J g') as [Hf Hall].
  { replace g' with (execM (forEachM (λ item, commitToGrants item true) items)
                       (mkStore ∅ false)) by (unfold execM; by rewrite Hrun).
    apply (forEachM_invariant _ J).
    2: { split; [done |]. intros r role Hr. simpl in Hr.
         by rewrite lookup_empty in Hr. }
    intros item s Hs. apply (commitToGrants_invariant J); [done | |].
    - intros role s1 _ [_ Hs1] Hnone Hacc. split; [done |]. intros r role' Hr.
      simpl in Hr. apply lookup_insert_Some in Hr as [[<- <-] | [_ Hr]].
      + split_and!; [done | done |]. intros res entry Hres. simpl in Hres.
        by rewrite lookup_empty in Hres.
      + by apply Hs1.
    - intros ai role res item' s1 Hn _ [_ Hs1] Hitem Hacc. split; [done |].
      intros r role' Hr. simpl in Hr.
      apply lookup_insert_Some in Hr as [[<- <-] | [_ Hr]]; [| by apply Hs1].
      destruct (Hs1 role item' Hitem) as (Hrole & Hext & Hres).
      split_and!; [done | done |]. intros res' entry Hentry. simpl in Hentry.
      apply lookup_insert_Some in Hentry as [[<- <-] | [_ Hentry]];
        [| by apply (Hres res' entry)].
      split; [done |]. intros key attrs Hkey.
      apply lookup_insert_Some in Hkey as [[<- <-] | [_ Hkey]].
      + destruct (normalizeAccessInfo_all item ai Hn) as (a & p & -> & -> & Ha & Hp).
        simpl. split; [by apply acceptedRuleKey_pair | by exists a, p].
      + destruct (resources item' !! res) as [old |] eqn:Hold; simpl in Hkey.
        * by apply (proj2 (Hres res old Hold) key attrs).
        * by rewrite lookup_empty in Hkey. }
  split; [done |].
  assert (∀ a b, ¬ extendsEdge (grants g') a b) as Hnone.
  { intros a b (role & ext & Ha & Hext & _)%extendsEdge_role.
    destruct (Hall a role Ha) as (_ & Hno & _). congruence. }
  split_and!; [| | done].
  - intros a b Hab. by destruct (Hnone a b).
  - split.
    + intros a (b & Hab & _)%tc_inv_l. by destruct (Hnone a b).
    + destruct (grants g' !! "") as [role |] eqn:Hrole; [| done].
      destruct (Hall "" role Hrole) as [Hacc _]. by vm_compute in Hacc.
Qed.

Lemma getInspectedGrants_array_built_witness :
  frozen (mkStore tblAny false) = false ∧ closed tblAny ∧ wellFormed tblAny
  ∧ ∀ r role, tblAny !! r = Some role →
      acceptedName r = true ∧ extend role = None
      ∧ ∀ res entry, resources role !! res = Some entry →
          acceptedName res = true
          ∧ ∀ key attrs, entry !! key = Some attrs →
              acceptedRuleKey key = true
              ∧ ∃ a p, key = a +:+ ":" +:+ p ∧ a ∈ actions ∧ p ∈ possessions.
Proof.
  apply (getInspectedGrants_array_built elements
           [AnObject (mkAccess (VStr "u") (VStr "video") (VStr "create") VUndefined
                        VUndefined VUndefined)]
           (mkStore tblAny false)).
  vm_compute. reflexivity.
Defined.

(** ** The resources of the table *)

Lemma foldl_collect {A} (f : gset string → A → gset string) (P : A → string → Prop)
    (l : list A) (acc : gset string) :
  (∀ s a x, x ∈ f s a ↔ x ∈ s ∨ P a x) →
  ∀ x, x ∈ foldl f acc l ↔ x ∈ acc ∨ ∃ a, a ∈ l ∧ P a x.
Proof.
  intros Hf. revert acc. induction l as [| a l IH]; intros acc x; simpl.
  - split; [by left |]. intros [? | (a & Ha & _)]; [done | by apply elem_of_nil in Ha].
  - rewrite IH, Hf. split.
    + intros [[? | ?] | (b & Hb & ?)]; [by left | |].
      * right. exists a. split; [left | done].
      * right. exists b. split; [by right | done].
    + intros [? | (b & [-> | Hb]%elem_of_cons & ?)]; [by left; left | |].
      * left. by right.
      * right. by exists b.
Qed.

Lemma getResources_elem (ownKeys : gset string → list string)
    (g : gmap string RoleEntry) (x : string) :
  (∀ (s : gset string) (y : string), y ∈ ownKeys s ↔ y ∈ s) →
  x ∈ getResources ownKeys g
  ↔ acceptedName x = true ∧ ∃ r role, g !! r = Some role ∧ is_Some (resources role !! x).
Proof.
  intros Hkeys. unfold getResources, eachRoleResource. rewrite Hkeys.
  rewrite (foldl_collect _
             (λ r y, acceptedName y = true
                     ∧ ∃ role, g !! r = Some role ∧ is_Some (resources role !! y))).
  - split.
    + intros [?%elem_of_empty | (r & _ & Hacc & role & Hr & Hres)]; [done |]. eauto.
    + intros (Hacc & r & role & Hr & Hres). right. exists r. split; [| by eauto].
      apply Hkeys, elem_of_dom. eauto.
  - intros s r y. destruct (g !! r) as [role |] eqn:Hr.
    2: { split; [by left |]. by intros [? | (_ & ? & ? & _)]. }
    rewrite (foldl_collect _
               (λ res z, z = res ∧ acceptedName res = true)).
    + split.
      * intros [? | (res & Hres%Hkeys & -> & Hacc)]; [by left |]. right.
        split; [done |]. exists role. split; [done |].
        destruct (acceptedName_not_blank res Hacc) as [_ Hne].
        apply elem_of_dom. unfold roleKeys in Hres.
        destruct (extend role); set_solver.
      * intros [? | (Hacc & role' & [= <-] & Hres)]; [by left |]. right.
        exists y. split; [| done]. apply Hkeys. unfold roleKeys.
        destruct (acceptedName_not_blank y Hacc) as [_ Hne].
        apply elem_of_dom in Hres. set_solver.
    + intros s' res z. rewrite validName_quiet.
      destruct (acceptedName res) eqn:Hacc.
      2: { split; [by left |]. by intros [? | (_ & ?)]. }
      rewrite elem_of_union, elem_of_singleton. split.
      * intros [-> | ?]; [by right | by left].
      * intros [? | (-> & _)]; [by right | by left].
Qed.

(** X22. On a table whose names are none of those that an object literal
    inherits, [getResources] lists, each once, the resources of accepted
    names that some role has an entry for; a commit of a statement with
    such names removes none of them, and one that has returned has added
    the resources of its statement. *)
Theorem getResources_lists (ownKeys : gset string → list string)
    (g : gmap string RoleEntry) :
  (∀ (s : gset string) (y : string), y ∈ ownKeys s ↔ y ∈ s) →
  (∀ s : gset string, NoDup (ownKeys s)) →
  plainTable g →
  NoDup (getResources ownKeys g)
  ∧ (∀ x, x ∈ getResources ownKeys g
          ↔ acceptedName x = true
            ∧ ∃ r role, g !! r = Some role ∧ is_Some (resources role !! x))
  ∧ (∀ access all st x,
       grants st = g →
       (∀ ai, normalizeAccessInfo access all = Ok ai → plainStatement ai) →
       x ∈ getResources ownKeys g →
       x ∈ getResources ownKeys (grants (execM (commitToGrants access all) st)))
  ∧ (∀ access all st st' ai x,
       grants st = g →
       normalizeAccessInfo access all = Ok ai → plainStatement ai →
       commitToGrants access all st = (Ok (), st') →
       x ∈ na_resource ai → x ∈ getResources ownKeys (grants st')).
Proof.
  intros Hkeys Hnodup _. split_and!.
  - apply Hnodup.
  - intros x. by apply getResources_elem.
  - intros access all st x <- _ (Hacc & r & role & Hr & Hres)%getResources_elem; [| done].
    apply getResources_elem; [done |]. split; [done |]. exists r.
    apply (commitToGrants_present access all st
             (λ s, ∃ item', grants s !! r = Some item'
                            ∧ is_Some (resources item' !! x))); [by eauto | |].
    + intros. by apply commitResource_keeps_entries.
    + intros r' s _ (item' & Hitem' & Hres') Hnone. simpl.
      rewrite lookup_insert_ne by congruence. eauto.
  - intros access all st st' ai x <- Hn _ Hrun Hx.
    apply getResources_elem; [done |].
    destruct (commitToGrants_Ok_names access all st st' ai Hn Hrun) as [_ Hress].
    split; [by apply Hress |].
    assert (frozen st = false) as Hf.
    { destruct (frozen st) eqn:Hf; [| done].
      destruct (commitToGrants_on_frozen access all st Hf) as (e & He & _).
      congruence. }
    destruct (normalizeAccessInfo_Ok access all ai Hn) as [Hne _].
    destruct (na_role ai) as [| r0 rest] eqn:Hroles; [done |].
    unfold commitToGrants in Hrun. rewrite bind_run in Hrun. unfold liftR in Hrun.
    rewrite Hn in Hrun.
    destruct (forEachM_commitRole_Ok ai (na_role ai) st st' Hf Hrun r0 x)
      as (item & entry & Hitem & Hentry & _); [rewrite Hroles; left | done |].
    exists r0, item. split; [done |]. eauto.
Qed.

Lemma getResources_lists_witness :
  NoDup (getResources elements tblAny).
Proof.
  apply (getResources_lists elements tblAny).
  - intros s y. apply elem_of_elements.
  - intros s. apply NoDup_elements.
  - exact tblAny_plain.
Defined.

(** ** The pieces of a string of names *)

Lemma spanWs_split (s : string) (n : nat) (r : string) :
  spanWs s = (n, r) →
  ∃ w, s = w +:+ r ∧ String.length w = n ∧ allWhiteSpace w = true
       ∧ (r = "" ∨ startsNonWs r = true).
Proof.
  revert n r. induction s as [| c s IH]; intros n r; simpl.
  { intros [= <- <-]. exists "". by auto. }
  destruct (isWhiteSpace c) eqn:Hc.
  - destruct (spanWs s) as [k t] eqn:Hs. intros [= <- <-].
    destruct (IH k t eq_refl) as (w & -> & Hlen & Hw & Ht).
    exists (String c w). split_and!; [done | by simpl; rewrite Hlen | | done].
    simpl. by rewrite Hc.
  - intros [= <- <-]. exists "". split_and!; [done | done | done |]. right.
    simpl. by rewrite Hc.
Qed.

Lemma noListSep_append (s t : string) :
  noListSep (s +:+ t) = noListSep s && noListSep t.
Proof.
  induction s as [| c s IH]; [done |]. rewrite append_cons. simpl.
  by rewrite IH, andb_assoc.
Qed.

Lemma noListSep_rev (s : string) : noListSep (String.rev s) = noListSep s.
Proof.
  induction s as [| c s IH]; [done |]. rewrite rev_cons, noListSep_append, IH. simpl.
  by rewrite andb_true_r, andb_comm.
Qed.

Lemma endsNonWs_tail (c : ascii) (s : string) :
  endsNonWs (String c s) = true → s = "" ∨ endsNonWs s = true.
Proof. destruct s; [by left | by right]. Qed.

Lemma allWhiteSpace_not_end (w : string) :
  allWhiteSpace w = true → endsNonWs w = false.
Proof.
  induction w as [| c w IH]; [done |]. simpl. intros [Hc Hw]%andb_true_iff.
  destruct w; [by rewrite Hc | by apply IH].
Qed.

Lemma endsNonWs_append_ws (w r : string) :
  endsNonWs (w +:+ r) = true → allWhiteSpace w = true → r ≠ "".
Proof.
  intros Hend Hw ->. rewrite append_nil_r in Hend.
  by rewrite allWhiteSpace_not_end in Hend.
Qed.

Lemma length_append (s t : string) :
  String.length (s +:+ t) = String.length s + String.length t.
Proof. induction s as [| c s IH]; [done |]. rewrite append_cons. simpl. by rewrite IH. Qed.

(** What [matchSep] has matched, and what follows the match. *)
Lemma matchSep_Some (s : string) (n : nat) :
  matchSep s = Some n →
  ∃ m t, s = m +:+ t ∧ String.length m = n ∧ 0 < n ∧ (t = "" ∨ startsNonWs t = true).
Proof.
  unfold matchSep. destruct (spanWs s) as [n1 r1] eqn:H1.
  destruct r1 as [| y r2]; [done |]. destruct (isListSep y); [| done].
  destruct (spanWs r2) as [n2 t] eqn:H2. simpl. intros [= <-].
  apply spanWs_split in H1 as (w1 & -> & Hl1 & _ & _).
  apply spanWs_split in H2 as (w2 & -> & Hl2 & _ & Ht).
  exists (w1 +:+ String y w2), t. split_and!; [| | lia | done].
  - by rewrite append_assoc, append_cons.
  - rewrite length_append. simpl. lia.
Qed.

Lemma matchSep_None_sep (c : ascii) (s : string) :
  matchSep (String c s) = None → isListSep c = false.
Proof.
  destruct (isListSep c) eqn:Hc; [| done]. unfold matchSep. simpl.
  by rewrite (isListSep_not_space c Hc), Hc.
Qed.

Lemma matchSep_None_ws (c : ascii) (s : string) :
  matchSep (String c s) = None → isWhiteSpace c = true →
  endsNonWs (String c s) = true →
  ∃ k y r, spanWs s = (k, String y r) ∧ isListSep y = false.
Proof.
  unfold matchSep. simpl. intros Hm Hc Hend. rewrite Hc in Hm.
  destruct (spanWs s) as [k r] eqn:Hs.
  destruct r as [| y r].
  - apply spanWs_split in Hs as (w & -> & _ & Hw & _). rewrite append_nil_r in Hend.
    assert (endsNonWs (String c w) = false) as Hfalse.
    { apply allWhiteSpace_not_end. simpl. by rewrite Hc. }
    simpl in Hfalse. congruence.
  - exists k, y, r. split; [done |]. by destruct (isListSep y).
Qed.

Lemma splitSep_go_pieces (s : string) :
  ∀ (skip : nat) (cur : string),
    noListSep cur = true →
    cur = "" ∨ endsNonWs cur = true →
    s = "" ∨ endsNonWs s = true →
    match skip with
    | 0 =>
        (cur = "" → s = "" ∨ startsNonWs s = true)
        ∧ (cur ≠ "" → startsNonWs cur = false →
           ∃ k y r, spanWs s = (k, String y r) ∧ isListSep y = false)
    | S _ =>
        cur = ""
        ∧ ∃ u t, s = u +:+ t ∧ String.length u = skip
                 ∧ (t = "" ∨ startsNonWs t = true)
    end →
    Forall (λ x, x = "" ∨ cleanName x = true) (splitSep_go skip cur s).
Proof.
  assert (∀ cur, noListSep cur = true → cur = "" ∨ endsNonWs cur = true →
                 cur = "" ∨ startsNonWs cur = true →
                 String.rev cur = "" ∨ cleanName (String.rev cur) = true) as Hpiece.
  { intros cur Hsep [-> | Hend] Hstart; [by left |]. right.
    destruct Hstart as [-> | Hstart]; [done |]. unfold cleanName.
    by rewrite startsNonWs_rev, endsNonWs_rev, noListSep_rev, Hsep. }
  induction s as [| c s IH]; intros skip cur Hsep Hcur Hs Hcond.
  { simpl. apply Forall_singleton. destruct skip.
    - apply Hpiece; [done | done |]. destruct Hcond as [_ Hws].
      destruct cur as [| x cur]; [by left |]. right.
      destruct (startsNonWs (String x cur)) eqn:Hx; [done |].
      by destruct (Hws ltac:(done) eq_refl) as (k & y & r & ? & _).
    - destruct Hcond as [-> _]. by left. }
  assert (s = "" ∨ endsNonWs s = true) as Htail.
  { destruct Hs as [? | Hs]; [done |]. by apply (endsNonWs_tail c). }
  destruct skip as [| k].
  - destruct Hcond as [Hfresh Hws]. cbn [splitSep_go].
    destruct (matchSep (String c s)) as [n |] eqn:Hm.
    + apply Forall_cons. split.
      * apply Hpiece; [done | done |].
        destruct cur as [| x cur]; [by left |]. right.
        destruct (startsNonWs (String x cur)) eqn:Hx; [done |].
        destruct (Hws ltac:(done) eq_refl) as (k & y & r & Hspan & Hy).
        unfold matchSep in Hm. rewrite Hspan, Hy in Hm. done.
      * destruct (matchSep_Some _ _ Hm) as (m & t & Heq & Hlen & Hpos & Ht).
        destruct m as [| c' m']; [simpl in Hlen; lia |].
        rewrite append_cons in Heq. injection Heq as <- ->. simpl in Hlen.
        apply IH; [done | by left | done |].
        destruct n as [| n']; [lia |]. simpl. injection Hlen as Hlen.
        destruct n' as [| n''].
        -- destruct m'; [| done]. split; [by intros _ | done].
        -- split; [done |]. by exists m', t.
    + apply IH; [| | done |].
      * simpl. by rewrite (matchSep_None_sep c s Hm), Hsep.
      * right. destruct cur as [| x cur].
        -- destruct (Hfresh eq_refl) as [? | Hstart]; [done |]. done.
        -- destruct Hcur as [? | Hcur]; [done |]. done.
      * split; [done |]. intros _ Hc. simpl in Hc. apply negb_false_iff in Hc.
        destruct Hs as [? | Hs]; [done |]. by apply (matchSep_None_ws c s).
  - destruct Hcond as (-> & u & t & Heq & Hlen & Ht). cbn [splitSep_go].
    destruct u as [| c' u']; [done |]. rewrite append_cons in Heq.
    injection Heq as <- ->. simpl in Hlen. injection Hlen as Hlen.
    apply IH; [done | by left | done |].
    destruct k as [| k'].
    + destruct u'; [| done]. split; [by intros _ | done].
    + split; [done |]. by exists u', t.
Qed.

Lemma toStringArray_pieces (s : string) :
  Forall (λ x, x = "" ∨ cleanName x = true) (toStringArray (VStr s)).
Proof.
  simpl. unfold splitSep. apply splitSep_go_pieces; [done | by left | |].
  - destruct (trim_split s) as [[-> _] | (_ & Hend & _)]; [by left | by right].
  - split; [| done]. intros _.
    destruct (trim_split s) as [[-> _] | (Hstart & _ & _)]; [by left | by right].
Qed.

Lemma splitSep_go_not_nil (skip : nat) (cur s : string) : splitSep_go skip cur s ≠ [].
Proof.
  revert skip cur. induction s as [| c s IH]; intros skip cur; [done |].
  destruct skip; simpl; [| apply IH]. destruct (matchSep _); [done | apply IH].
Qed.

Lemma toStringArray_clean (x : string) :
  cleanName x = true → toStringArray (VStr x) = [x].
Proof.
  intros Hx. pose proof (toStringArray_names "" "" x [] eq_refl eq_refl Hx) as H.
  simpl in H. rewrite append_nil_r in H. by apply H.
Qed.

(** X23. A string given for roles or resources gives at least one name;
    each name it gives is empty, or has no list separator in it and no
    white space at its ends, and is then read as itself when it is given
    again. So the names of a string that is accepted, as it has no empty
    name, are all of this kind. *)
Theorem toStringArray_of_string (s : string) :
  toStringArray (VStr s) ≠ []
  ∧ (∀ x, x ∈ toStringArray (VStr s) → x = "" ∨ cleanName x = true)
  ∧ (∀ x, x ∈ toStringArray (VStr s) → x ≠ "" → toStringArray (VStr x) = [x])
  ∧ (isFilledStringArray (toStringArray (VStr s)) = true →
     ∀ x, x ∈ toStringArray (VStr s) → toStringArray (VStr x) = [x]).
Proof.
  pose proof (toStringArray_pieces s) as Hall. rewrite Forall_forall in Hall.
  split_and!.
  - apply splitSep_go_not_nil.
  - done.
  - intros x Hx Hne. destruct (Hall x Hx) as [? | Hclean]; [done |].
    by apply toStringArray_clean.
  - intros Hfilled x Hx. destruct (Hall x Hx) as [-> | Hclean].
    + by apply isFilledStringArray_not_blank in Hfilled.
    + by apply toStringArray_clean.
Qed.

Lemma toStringArray_of_string_witness :
  toStringArray (VStr "user") = ["user"].
Proof.
  apply (proj1 (proj2 (proj2 (toStringArray_of_string " admin ;; user,")))).
  - apply (bool_decide_unpack _). vm_compute. reflexivity.
  - done.
Defined.

(** * Errors, repeated commits and termination *)

(** ** What an error leaves of the table *)

(** On a frozen table the body of the loop of [commitToGrants] throws. *)
Lemma commitRole_on_frozen (ai : AccessInfo) (role : string) (st : Store) :
  frozen st = true → na_resource ai ≠ [] →
  ∃ e, commitRole ai role st = (Throw e, st).
Proof.
  intros Hf Hres. unfold commitRole. rewrite bind_run. unfold liftR.
  destruct (validName role true) as [v |]; [| by eexists].
  rewrite bind_run. unfold getGrants. rewrite bind_run.
  destruct (v && negb (hasRole (grants st) role)).
  { rewrite write_frozen by done. by eexists. }
  unfold mret, ST_ret.
  destruct (na_resource ai) as [| res ress]; [done |]. simpl. rewrite bind_run.
  pose proof (commitResource_frozen role
                (toString (na_action ai) +:+ ":" +:+ toString (na_possession ai))
                (na_attributes ai) res st Hf) as Hsame.
  unfold execM in Hsame.
  destruct (commitResource _ _ _ res st) as [[[] | e] st1] eqn:Hrun;
    simpl in Hsame; subst st1; [| by eexists].
  exfalso. revert Hrun. unfold commitResource. rewrite bind_run. unfold liftR.
  destruct (validName res true) as [v' |]; [| done].
  rewrite bind_run. unfold getGrants. rewrite bind_run.
  destruct (v' && negb (hasResource (grants st) role res)).
  - unfold createResource. rewrite bind_run. unfold getGrants.
    destruct (grants st !! role); [by rewrite write_frozen | done].
  - unfold mret, ST_ret, setAttributes. rewrite bind_run. unfold getGrants.
    destruct (grants st !! role) as [item |]; [| done].
    destruct (resources item !! res); [by rewrite write_frozen | done].
Qed.

(** The rules written for the roles before the one at which a commit
    throws are in the table it leaves. *)
Lemma commitToGrants_Throw_keeps (ai : AccessInfo) (dn : list string) (role : string)
    (st st1 st' : Store) (e : Exn) :
  na_resource ai ≠ [] →
  forEachM (commitRole ai) dn st = (Ok (), st1) →
  commitRole ai role st1 = (Throw e, st') →
  ∀ r res, r ∈ dn → res ∈ na_resource ai →
    ruleOf (grants st') r res
      (toString (na_action ai) +:+ ":" +:+ toString (na_possession ai))
    = Some (na_attributes ai).
Proof.
  intros Hres Hdone Hrole r res Hr Hin.
  assert (frozen st = false) as Hf.
  { destruct (frozen st) eqn:Hf; [| done].
    destruct dn as [| x dn]; [by apply elem_of_nil in Hr |].
    simpl in Hdone. rewrite bind_run in Hdone.
    destruct (commitRole_on_frozen ai x st Hf Hres) as [e' He'].
    by rewrite He' in Hdone. }
  destruct (absorbing_forEachM
              (toString (na_action ai) +:+ ":" +:+ toString (na_possession ai))
              (na_attributes ai) (λ _, True) (commitRole ai) dn)
    with (st := st) (r := Ok ()) (st1 := st1) as [Hcov _];
    [done | apply commitRole_absorbing | done.. |].
  assert (frozen st1 = false) as Hf1 by apply Hcov.
  destruct (commitRole_absorbing ai role st1 (Throw e) st') as [Hcov' _]; [done.. |].
  destruct (forEachM_commitRole_Ok ai dn st st1 Hf Hdone r res Hr Hin)
    as (item & entry & Hitem & Hentry & Hap).
  destruct (covers_rule _ _ st1 st' r res Hcov') as (item' & entry' & Hi & He & Ha);
    [by eauto 10 |].
  unfold ruleOf. rewrite Hi. simpl. rewrite He. simpl. done.
Qed.

(** Where the checks of [extendRole] on its arguments fail, and where
    the body of its loop throws for the first role, nothing is written. *)
Lemma extendRole_checks_fail (roles extenderRoles : Value) (st : Store) :
  toStringArray roles = [] ∨ toStringArray extenderRoles = []
  ∨ getNonExistentRoles (grants st) (toStringArray extenderRoles) ≠ [] →
  execM (extendRole roles extenderRoles) st = st.
Proof.
  unfold execM, extendRole. intros Hfail.
  destruct (toStringArray roles) as [| r rs]; [done |]. cbn [length Nat.eqb].
  destruct (isEmptyArray extenderRoles); [done |].
  destruct (toStringArray extenderRoles) as [| e es]; [done |]. cbn [length Nat.eqb].
  rewrite bind_run. unfold getGrants.
  destruct (getNonExistentRoles (grants st) (e :: es)) as [| x xs]; [| done].
  by destruct Hfail as [? | [? | ?]].
Qed.

Lemma extendRole_first_Throw (roles extenderRoles : Value) (r : string)
    (rest : list string) (st st1 : Store) (e : Exn) :
  toStringArray roles = r :: rest →
  extendOne (toStringArray extenderRoles) r st = (Throw e, st1) →
  execM (extendRole roles extenderRoles) st = st.
Proof.
  intros Hroles Hfirst.
  destruct (extendRole roles extenderRoles st) as [[[] | e'] st'] eqn:Hrun;
    unfold execM; rewrite Hrun; simpl.
  - apply extendRole_Ok in Hrun as [_ [[_ ->] | (_ & _ & _ & Hloop)]]; [done |].
    rewrite Hroles in Hloop. simpl in Hloop. rewrite bind_run, Hfirst in Hloop. done.
  - apply extendRole_Throw in Hrun as (dn & rst & Heq & _ & Hdone).
    destruct dn as [| x dn].
    + cbn in Hdone. unfold mret, ST_ret in Hdone. by simplify_eq.
    + rewrite Hroles in Heq. simplify_eq/=.
      rewrite bind_run, Hfirst in Hdone. done.
Qed.

(** What the loop of [extendRole] that has returned has made of the
    table: each role it was given has received the extenders, once. *)
Lemma extendOne_loop_merged (ext l : list string) (st st' : Store) :
  forEachM (extendOne ext) l st = (Ok (), st') →
  (∀ r, r ∈ l → is_Some (grants st !! r))
  ∧ ∀ r,
      grants st' !! r
      = if bool_decide (r ∈ l) then
          (λ role, mkRole (Some (match extend role with
                                 | Some old => uniqConcat old ext
                                 | None => ext
                                 end)) (resources role)) <$> grants st !! r
        else grants st !! r.
Proof.
  revert st. induction l as [| x l IH]; intros st Hrun.
  { cbn in Hrun. unfold mret, ST_ret in Hrun. simplify_eq. split; [| done].
    intros r Hr. by apply elem_of_nil in Hr. }
  simpl in Hrun. rewrite bind_run in Hrun.
  destruct (extendOne ext x st) as [[[] | e] s1] eqn:Hx; [| done].
  destruct (IH s1 Hrun) as [Hin Hmap].
  apply extendOne_Ok in Hx as (role & c & Hrole & _ & _ & _ & ->). simpl in *.
  split.
  - intros r [-> | Hr]%elem_of_cons; [by eauto |].
    specialize (Hin r Hr). destruct (decide (r = x)) as [-> | Hne]; [by eauto |].
    by rewrite lookup_insert_ne in Hin.
  - intros r. rewrite Hmap. destruct (decide (r = x)) as [-> | Hne].
    + rewrite lookup_insert_eq, Hrole. simpl.
      rewrite (bool_decide_eq_true_2 (x ∈ x :: l)) by left.
      destruct (bool_decide (x ∈ l)); [| done]. simpl. do 3 f_equal.
      destruct (extend role) as [old |]; [apply uniqConcat_again |].
      by apply uniqConcat_absorb.
    + rewrite lookup_insert_ne by done.
      destruct (bool_decide (r ∈ l)) eqn:Hl.
      * apply bool_decide_eq_true in Hl.
        rewrite (bool_decide_eq_true_2 (r ∈ x :: l)); [done | by right].
      * apply bool_decide_eq_false in Hl.
        rewrite (bool_decide_eq_false_2 (r ∈ x :: l)); [done |].
        by intros [-> | ?]%elem_of_cons.
Qed.

(** C2, as stated, fails. A statement for the roles [u] and [$] is
    rejected for the reserved name after the rule of [u] has been written;
    [extendRole] for the roles [C] and [ghost] is rejected for the absent
    role after [C] has been extended. *)
Lemma error_after_partial_write :
  ¬ (∀ access all, unchangedOnError (commitToGrants access all))
  ∧ ¬ (∀ roles extenderRoles, unchangedOnError (extendRole roles extenderRoles)).
Proof.
  split.
  - intros H.
    specialize (H (AnObject (mkAccess (VArr ["u"; "$"]) (VStr "video") (VStr "create:any")
                               VUndefined VUndefined VUndefined)) true
                  (mkStore ∅ false) (AccessControlError (ReservedName "$"))).
    apply (f_equal (λ st, size (grants st))) in H; [| vm_compute; reflexivity].
    vm_compute in H. discriminate H.
  - intros H.
    specialize (H (VArr ["C"; "ghost"]) (VArr ["D"]) (mkStore tblBranch false)
                  (AccessControlError (RoleNotFound "ghost"))).
    apply (f_equal (λ st, extend <$> grants st !! "C")) in H; [| vm_compute; reflexivity].
    vm_compute in H. discriminate H.
Qed.

(** C2, amended. An error of [commitToGrants] raised by the normalisation
    of the statement or by the name of its first role, and an error of
    [extendRole] raised by the checks of its arguments or in the turn of
    the loop for its first role, leave the table unchanged, and so does
    any error once the table is frozen. An error raised later leaves what
    has been written: the loop over the roles has completed the turns for
    the roles before the one it threw at; after [commitToGrants] the rule
    of the statement is in the table for each of these roles and each
    resource, and after [extendRole] each of these roles has received
    the extenders (both on a table and for arguments whose names are
    none of those that an object literal inherits, the action and the
    possession of the statement being no numbers beyond those printed in
    full). *)
Theorem errors_before_first_write_leave_table :
  (∀ access all st e,
     normalizeAccessInfo access all = Throw e →
     commitToGrants access all st = (Throw e, st))
  ∧ (∀ access all st ai role rest e,
       normalizeAccessInfo access all = Ok ai → na_role ai = role :: rest →
       validName role true = Throw e →
       commitToGrants access all st = (Throw e, st))
  ∧ (∀ access all st st' ai e,
       normalizeAccessInfo access all = Ok ai →
       commitToGrants access all st = (Throw e, st') →
       ∃ done role rest st1,
         na_role ai = done ++ role :: rest
         ∧ forEachM (commitRole ai) done st = (Ok (), st1)
         ∧ commitRole ai role st1 = (Throw e, st')
         ∧ (plainTable (grants st) → plainStatement ai →
            ∀ r res, r ∈ done → res ∈ na_resource ai →
              ruleOf (grants st') r res
                (toString (na_action ai) +:+ ":" +:+ toString (na_possession ai))
              = Some (na_attributes ai)))
  ∧ (∀ roles extenderRoles st st' e,
       extendRole roles extenderRoles st = (Throw e, st') →
       ∃ done rest,
         toStringArray roles = done ++ rest
         ∧ (toStringArray roles ≠ [] → rest ≠ [])
         ∧ forEachM (extendOne (toStringArray extenderRoles)) done st = (Ok (), st')
         ∧ (plainTable (grants st) → plainNames (toStringArray roles) →
            ∀ r, r ∈ done →
              ∃ role,
                grants st !! r = Some role
                ∧ grants st' !! r
                  = Some (mkRole
                            (Some (match extend role with
                                   | Some old =>
                                       uniqConcat old (toStringArray extenderRoles)
                                   | None => toStringArray extenderRoles
                                   end)) (resources role))))
  ∧ (∀ roles extenderRoles st,
       toStringArray roles = [] ∨ toStringArray extenderRoles = []
       ∨ getNonExistentRoles (grants st) (toStringArray extenderRoles) ≠ [] →
       execM (extendRole roles extenderRoles) st = st)
  ∧ (∀ roles extenderRoles r rest st st1 e,
       toStringArray roles = r :: rest →
       extendOne (toStringArray extenderRoles) r st = (Throw e, st1) →
       execM (extendRole roles extenderRoles) st = st)
  ∧ (∀ roles extenderRoles r st st' e,
       toStringArray roles = [r] →
       extendRole roles extenderRoles st = (Throw e, st') → st' = st)
  ∧ (∀ access all roles extenderRoles st,
       frozen st = true →
       execM (commitToGrants access all) st = st
       ∧ execM (extendRole roles extenderRoles) st = st).
Proof.
  split_and!.
  - intros access all st e Hn. unfold commitToGrants. rewrite bind_run. unfold liftR.
    by rewrite Hn.
  - intros access all st ai role rest e Hn Hrole Hname.
    unfold commitToGrants. rewrite bind_run. unfold liftR. rewrite Hn, Hrole. simpl.
    rewrite bind_run. unfold commitRole at 1. rewrite bind_run. unfold liftR.
    by rewrite Hname.
  - intros access all st st' ai e Hn. unfold commitToGrants.
    rewrite bind_run. unfold liftR. rewrite Hn.
    intros (dn & role & rest & st1 & Heq & Hdone & Hrole)%forEachM_Throw.
    exists dn, role, rest, st1. split_and!; [done.. |]. intros _ _.
    apply (commitToGrants_Throw_keeps ai dn role st st1 st' e); [| done | done].
    by destruct (normalizeAccessInfo_Ok access all ai Hn).
  - intros roles extenderRoles st st' e
      (dn & rest & Heq & Hrest & Hdone)%extendRole_Throw.
    exists dn, rest. split_and!; [done.. |]. intros _ _ r Hr.
    destruct (extendOne_loop_merged _ _ st st' Hdone) as [Hin Hmap].
    destruct (Hin r Hr) as [role Hrole]. exists role. split; [done |].
    by rewrite Hmap, bool_decide_eq_true_2, Hrole.
  - apply extendRole_checks_fail.
  - apply extendRole_first_Throw.
  - intros roles extenderRoles r st st' e Hroles
      (dn & rest & Heq & Hrest & Hdone)%extendRole_Throw.
    rewrite Hroles in Heq, Hrest.
    destruct dn as [| x dn].
    + cbn in Hdone. unfold mret, ST_ret in Hdone. by simplify_eq.
    + destruct dn, rest; simplify_eq/=. by destruct Hrest.
  - intros access all roles extenderRoles st Hf.
    split; [by apply commitToGrants_frozen | by apply extendRole_frozen].
Qed.

Lemma errors_before_first_write_leave_table_witness :
  commitToGrants
    (AnObject (mkAccess (VArr ["$"; "u"]) (VStr "video") (VStr "create:any")
                 VUndefined VUndefined VUndefined)) true (mkStore tblAny false)
  = (Throw (AccessControlError (ReservedName "$")), mkStore tblAny false)
  ∧ execM (extendRole (VArr ["B"; "C"]) (VArr ["A"])) (mkStore tblChain false)
    = mkStore tblChain false
  ∧ ruleOf (grants (execM (commitToGrants
                             (AnObject (mkAccess (VArr ["u"; "$"]) (VStr "video")
                                          (VStr "read:own") VUndefined
                                          (VArr ["title"]) VUndefined)) true)
                      (mkStore tblAny false))) "u" "video" "read:own"
    = Some ["title"].
Proof.
  destruct errors_before_first_write_leave_table as (_ & H2 & H3 & _ & _ & H6 & _).
  split_and!.
  - eapply (H2 _ true (mkStore tblAny false) _ "$" ["u"]); reflexivity.
  - eapply (H6 (VArr ["B"; "C"]) (VArr ["A"]) "B" ["C"]); [reflexivity |].
    vm_compute. reflexivity.
  - set (access := AnObject (mkAccess (VArr ["u"; "$"]) (VStr "video") (VStr "read:own")
                               VUndefined (VArr ["title"]) VUndefined)).
    set (ai := mkNAccess ["u"; "$"] ["video"] (VStr "read") (VStr "own") ["title"]).
    destruct (H3 access true (mkStore tblAny false)
                (execM (commitToGrants access true) (mkStore tblAny false)) ai
                (AccessControlError (ReservedName "$")))
      as (dn & role & rest & st1 & Heq & Hdone & Hrole & Hkept);
      [reflexivity | vm_compute; reflexivity |].
    assert (dn = ["u"]) as ->.
    { destruct dn as [| x [| y dn]].
      - simpl in Heq. injection Heq as <- <-.
        cbn in Hdone. unfold mret, ST_ret in Hdone. injection Hdone as <-.
        vm_compute in Hrole. discriminate Hrole.
      - simpl in Heq. by injection Heq as <- _.
      - simpl in Heq. injection Heq as _ Heq. by destruct dn. }
    apply (Hkept tblAny_plain); [| left | left].
    split_and!; [| | reflexivity | reflexivity];
      apply (bool_decide_unpack _); vm_compute; reflexivity.
Defined.

(** ** The errors of [extendRole] and the lists it writes *)







(** ** A commit that returns *)

Lemma commitResource_returns (role ap : string) (attrs : list string) (res : string)
    (st : Store) :
  frozen st = false → is_Some (grants st !! role) → acceptedName res = true →
  ∃ st', commitResource role ap attrs res st = (Ok (), st')
         ∧ frozen st' = false ∧ is_Some (grants st' !! role).
Proof.
  intros Hf [item Hitem] Hres.
  rewrite (commitResource_run ap attrs st role res item) by done.
  rewrite (validName_accepted res true Hres).
  eexists. split; [done |]. split; [done |]. simpl. rewrite lookup_insert_eq. eauto.
Qed.

Lemma forEachM_commitResource_returns (role ap : string) (attrs : list string)
    (l : list string) (st : Store) :
  frozen st = false → is_Some (grants st !! role) →
  (∀ res, res ∈ l → acceptedName res = true) →
  ∃ st', forEachM (commitResource role ap attrs) l st = (Ok (), st')
         ∧ frozen st' = false.
Proof.
  revert st. induction l as [| res l IH]; intros st Hf Hrole Hl.
  { by exists st. }
  destruct (commitResource_returns role ap attrs res st Hf Hrole)
    as (s1 & Hrun & Hf1 & Hrole1); [apply Hl; left |].
  destruct (IH s1 Hf1 Hrole1) as (st' & Hloop & Hf'); [intros x Hx; apply Hl; by right |].
  exists st'. split; [| done]. simpl. by rewrite bind_run, Hrun.
Qed.

Lemma commitRole_returns (ai : AccessInfo) (role : string) (st : Store) :
  frozen st = false → acceptedName role = true →
  (∀ res, res ∈ na_resource ai → acceptedName res = true) →
  ∃ st', commitRole ai role st = (Ok (), st') ∧ frozen st' = false.
Proof.
  intros Hf Hrole Hres. unfold commitRole. rewrite bind_run. unfold liftR.
  rewrite (validName_accepted role true Hrole).
  rewrite bind_run. unfold getGrants. rewrite bind_run.
  destruct (hasRole (grants st) role) eqn:Hhas; simpl.
  - unfold mret, ST_ret. apply forEachM_commitResource_returns; [done | | done].
    by apply hasRole_true.
  - unfold write. rewrite Hf. apply forEachM_commitResource_returns; [done | | done].
    simpl. rewrite lookup_insert_eq. eauto.
Qed.

(** On a table that is not frozen, a statement that passes the
    normalisation and has accepted names is committed. *)
Lemma commitToGrants_returns (access : Arg IAccessInfo) (all : bool) (st : Store)
    (ai : AccessInfo) :
  frozen st = false →
  normalizeAccessInfo access all = Ok ai →
  (∀ name, name ∈ na_role ai ++ na_resource ai → acceptedName name = true) →
  ∃ st', commitToGrants access all st = (Ok (), st').
Proof.
  intros Hf Hn Hnames. unfold commitToGrants. rewrite bind_run. unfold liftR.
  rewrite Hn.
  assert (∀ l s, frozen s = false → (∀ r, r ∈ l → acceptedName r = true) →
                 ∃ s', forEachM (commitRole ai) l s = (Ok (), s')
                       ∧ frozen s' = false) as Hloop.
  { induction l as [| r l IH]; intros s Hs Hl; [by exists s |].
    destruct (commitRole_returns ai r s Hs) as (s1 & Hrun & Hs1).
    { apply Hl. left. }
    { intros res Hres. apply Hnames, elem_of_app. by right. }
    destruct (IH s1 Hs1) as (s' & Hrest & Hs'); [intros x Hx; apply Hl; by right |].
    exists s'. split; [| done]. simpl. by rewrite bind_run, Hrun. }
  destruct (Hloop (na_role ai) st Hf) as (st' & Hrun & _); [| by exists st'].
  intros r Hr. apply Hnames, elem_of_app. by left.
Qed.

(** C6. Committing a statement a second time leaves the table that the
    first commit has left. After a commit that has returned, the entry of
    every role and resource of the statement has the normalised
    attributes under the key [action:possession], whatever it had before.
    And a commit returns, on a table that is not frozen, for every
    statement that passes the normalisation with accepted names of roles
    and resources. Both are stated for names that are none of those that
    an object literal inherits, and for an action and a possession that
    are no numbers beyond those printed in full. *)
Theorem commitToGrants_idempotent :
  (∀ access all st,
     execM (commitToGrants access all) (execM (commitToGrants access all) st)
     = execM (commitToGrants access all) st)
  ∧ (∀ access all st st' ai role res,
       normalizeAccessInfo access all = Ok ai → plainStatement ai →
       commitToGrants access all st = (Ok (), st') →
       role ∈ na_role ai → res ∈ na_resource ai →
       ∃ item entry,
         grants st' !! role = Some item ∧ resources item !! res = Some entry
         ∧ entry !! (toString (na_action ai) +:+ ":" +:+ toString (na_possession ai))
           = Some (na_attributes ai))
  ∧ (∀ access all st ai,
       plainTable (grants st) → plainStatement ai →
       frozen st = false →
       normalizeAccessInfo access all = Ok ai →
       (∀ name, name ∈ na_role ai ++ na_resource ai → acceptedName name = true) →
       ∃ st', commitToGrants access all st = (Ok (), st')).
Proof.
  split_and!.
  - intros access all st. unfold execM at 1.
    by rewrite commitToGrants_again.
  - intros access all st st' ai role res Hn _ Hrun.
    assert (frozen st = false) as Hf.
    { destruct (frozen st) eqn:Hf; [| done].
      destruct (commitToGrants_on_frozen access all st Hf) as (e & He & _).
      congruence. }
    revert Hrun. unfold commitToGrants.
    rewrite bind_run. unfold liftR. rewrite Hn. intros Hrun.
    by apply forEachM_commitRole_Ok with (st := st).
  - intros access all st ai _ _. apply commitToGrants_returns.
Qed.

Lemma commitToGrants_idempotent_witness :
  (∃ st', commitToGrants
            (AnObject (mkAccess (VStr "u, editor") (VStr "video; photo")
                         (VStr "create:any") VUndefined (VArr ["title"]) VUndefined))
            true (mkStore tblAny false) = (Ok (), st'))
  ∧ ∃ item entry,
      grants (execM (commitToGrants
                       (AnObject (mkAccess (VStr "u, editor") (VStr "video; photo")
                                    (VStr "create:any") VUndefined (VArr ["title"])
                                    VUndefined)) true)
                (mkStore tblAny false)) !! "editor" = Some item
      ∧ resources item !! "photo" = Some entry
      ∧ entry !! "create:any" = Some ["title"].
Proof.
  destruct commitToGrants_idempotent as (_ & Hset & Hret).
  set (access := AnObject (mkAccess (VStr "u, editor") (VStr "video; photo")
                             (VStr "create:any") VUndefined (VArr ["title"]) VUndefined)).
  set (ai := mkNAccess ["u"; "editor"] ["video"; "photo"] (VStr "create") (VStr "any")
               ["title"]).
  split.
  - apply (Hret access true (mkStore tblAny false) ai tblAny_plain).
    + split_and!; [| | reflexivity | reflexivity];
        apply (bool_decide_unpack _); vm_compute; reflexivity.
    + reflexivity.
    + reflexivity.
    + intros name Hname. apply (bool_decide_unpack _) in Hname || idtac.
      vm_compute in Hname.
      repeat (apply elem_of_cons in Hname as [-> | Hname]; [reflexivity |]).
      by apply elem_of_nil in Hname.
  - apply (Hset access true (mkStore tblAny false) _ ai "editor" "photo").
    + reflexivity.
    + split_and!; [| | reflexivity | reflexivity];
        apply (bool_decide_unpack _); vm_compute; reflexivity.
    + reflexivity.
    + right. left.
    + right. left.
Defined.

(** ** The tables that the operations keep *)

Lemma plainTable_insert (g : gmap string RoleEntry) (r : string) (role : RoleEntry) :
  plainTable g → plainName r = true →
  plainNames (default [] (extend role)) →
  (∀ res, is_Some (resources role !! res) → plainName res = true) →
  plainTable (<[r := role]> g).
Proof.
  intros Hg Hr Hext Hres. apply map_Forall_insert_2; [| done].
  split_and!; [done | done |]. intros res entry Hentry. apply Hres. eauto.
Qed.

(** A commit of a statement with such names keeps the names of the table. *)
Lemma commitToGrants_plainTable (access : Arg IAccessInfo) (all : bool) (st : Store) :
  plainTable (grants st) →
  (∀ ai, normalizeAccessInfo access all = Ok ai → plainStatement ai) →
  plainTable (grants (execM (commitToGrants access all) st)).
Proof.
  intros Hst Hplain. unfold execM, commitToGrants. rewrite bind_run. unfold liftR.
  destruct (normalizeAccessInfo access all) as [ai |] eqn:Hn; [| done].
  destruct (Hplain ai eq_refl) as (Hroles & Hress & _).
  apply (forEachM_invariant_in (commitRole ai) (λ s, plainTable (grants s))); [| done].
  intros role s Hrole Hs. unfold execM, commitRole. rewrite bind_run. unfold liftR.
  destruct (validName role true) as [v |]; [| done].
  rewrite bind_run. unfold getGrants. rewrite bind_run.
  assert (plainName role = true) as Hpr
    by (by apply (proj1 (Forall_forall _ _) Hroles)).
  assert (∀ s1, plainTable (grants s1) →
            plainTable
              (grants
                 (forEachM (commitResource role
                              (toString (na_action ai) +:+ ":"
                               +:+ toString (na_possession ai)) (na_attributes ai))
                    (na_resource ai) s1).2)) as Hloop.
  { intros s1 Hs1.
    apply (forEachM_invariant_in _ (λ s, plainTable (grants s))); [| done].
    intros res s2 Hres Hs2. destruct (frozen s2) eqn:Hf.
    { by rewrite commitResource_frozen. }
    destruct (grants s2 !! role) as [item |] eqn:Hitem.
    2: { by rewrite commitResource_absent. }
    unfold execM. rewrite (commitResource_run _ _ s2 role res item) by done.
    destruct (validName res true); [| done]. simpl.
    destruct (plainTable_lookup (grants s2) role item Hs2 Hitem) as (_ & Hext & Hold).
    apply plainTable_insert; [done | done | |].
    - simpl. apply Forall_forall. exact Hext.
    - simpl. intros res0. destruct (decide (res0 = res)) as [-> | Hne].
      + intros _. by apply (proj1 (Forall_forall _ _) Hress).
      + rewrite lookup_insert_ne by done. apply Hold. }
  destruct (v && negb (hasRole (grants s) role)).
  - unfold write. destruct (frozen s); [done |]. apply Hloop. simpl.
    apply plainTable_insert; [done | done | by apply Forall_nil |].
    simpl. intros res [? Hres]. by rewrite lookup_empty in Hres.
  - unfold mret, ST_ret. by apply Hloop.
Qed.

(** [extendRole] with extenders of such names keeps the names of the
    table. *)
Lemma extendRole_plainTable (roles extenderRoles : Value) (st : Store) :
  plainTable (grants st) → plainNames (toStringArray extenderRoles) →
  plainTable (grants (execM (extendRole roles extenderRoles) st)).
Proof.
  intros Hst Hext. unfold execM, extendRole.
  destruct (length (toStringArray roles) =? 0); [done |].
  destruct (isEmptyArray extenderRoles); [done |].
  destruct (length (toStringArray extenderRoles) =? 0); [done |].
  rewrite bind_run. unfold getGrants.
  destruct (0 <? length _); [done |].
  apply (forEachM_invariant _ (λ s, plainTable (grants s))); [| done].
  intros r s Hs. unfold execM.
  destruct (extendOne _ r s) as [[[] | e] s'] eqn:Hrun; simpl.
  2: { by apply extendOne_Throw in Hrun as ->. }
  apply extendOne_Ok in Hrun as (role & c & Hr & _ & _ & _ & ->). simpl.
  destruct (plainTable_lookup (grants s) r role Hs Hr) as (Hname & Hold & Hres).
  apply plainTable_insert; [done | done | | done].
  simpl. apply Forall_forall. intros x Hx.
  destruct (extend role) as [old |]; simpl in *.
  - apply elem_of_uniqConcat in Hx as [Hx | Hx]; [by apply Hold |].
    by apply (proj1 (Forall_forall _ _) Hext).
  - by apply (proj1 (Forall_forall _ _) Hext).
Qed.

(** C8, as stated, fails in two places. The absence of cycles is not
    kept by [extendRole] on every table: on [tblNoName], which has no
    cycle and has a role of the empty name, the call for [A] and that
    extender returns and leaves a cycle. And the resolution does not
    reject every cycle: on [tblCycle] the resolution from [B], which is on
    the cycle, is rejected, and the resolution from [A], which leads into
    the cycle without being on it, nests its calls beyond any depth. *)
Lemma acyclic_not_kept_nor_checked :
  (acyclic tblNoName
   ∧ evalM (extendRole (VStr "A") (VArr [""])) (mkStore tblNoName false) = Ok ()
   ∧ ¬ acyclic (grants (execM (extendRole (VStr "A") (VArr [""]))
                          (mkStore tblNoName false))))
  ∧ (¬ acyclic tblCycle
     ∧ getRoleHierarchyOf tblCycle "B" None = raise (CrossInheritance "B" "B")
     ∧ ∀ d, hierarchyAt d tblCycle "A" None = Throw RangeError).
Proof.
  split; [exact extendRole_by_empty_name |].
  destruct resolution_on_cyclic_table as (HA & HB & Hcyc). by split_and!.
Qed.

(** C8, amended. On a grants table whose inheritance relation has no
    cycle and whose names are none of those that an object literal
    inherits, hierarchy resolution terminates: the nesting of the calls
    of [getRoleHierarchyOf] under a role of the table never exceeds the
    number of roles (a depth of [size g] is enough, and any greater depth
    gives the same result), so that neither [getRoleHierarchyOf] nor
    [getFlatRoles] nor the query evaluator exhausts the call stack. When
    the table has no role of the empty name, the committer and
    [extendRole], given names that are none of those either, keep it such
    a table: without cycle, without a role of the empty name and with
    such names. *)
Theorem hierarchy_resolution_terminates (g : gmap string RoleEntry) :
  acyclic g → plainTable g →
  (∀ r root d, is_Some (g !! r) → size g ≤ d →
     hierarchyAt d g r root ≠ Throw RangeError
     ∧ getRoleHierarchyOf g r root = hierarchyAt d g r root)
  ∧ (∀ r root, getRoleHierarchyOf g r root ≠ Throw RangeError)
  ∧ (∀ roles, getFlatRoles g roles ≠ Throw RangeError)
  ∧ (∀ union query, getUnionAttrsOfRoles union g query ≠ Throw RangeError)
  ∧ (g !! "" = None → ∀ st, grants st = g →
       (∀ access all,
          (∀ ai, normalizeAccessInfo access all = Ok ai → plainStatement ai) →
          wellFormed (grants (execM (commitToGrants access all) st))
          ∧ plainTable (grants (execM (commitToGrants access all) st)))
       ∧ (∀ roles extenderRoles,
            plainNames (toStringArray roles) →
            plainNames (toStringArray extenderRoles) →
            wellFormed (grants (execM (extendRole roles extenderRoles) st))
            ∧ plainTable (grants (execM (extendRole roles extenderRoles) st)))).
Proof.
  intros Hacyc Hplain. split_and!.
  - intros r root d Hr Hd.
    assert (hierarchyAt (size g) g r root ≠ Throw RangeError) as Hsz.
    { apply (hierarchyAt_depth g Hacyc _ ∅); [set_solver | set_solver | done | lia]. }
    unfold getRoleHierarchyOf.
    rewrite (hierarchyAt_mono g (size g) d), (hierarchyAt_mono g (size g) (S (size g)));
      [done | lia | done | done | done].
  - intros r root. by apply getRoleHierarchyOf_RangeError_free.
  - intros roles. by apply getFlatRoles_RangeError_free.
  - intros union query. unfold getUnionAttrsOfRoles.
    pose proof (normalizeQueryInfo_RangeError_free query) as Hq.
    destruct (normalizeQueryInfo query) as [q |]; simpl; [| congruence].
    pose proof (getFlatRoles_RangeError_free g (VArr (nq_role q)) Hacyc) as Hf.
    destruct (getFlatRoles g _) as [roles |]; simpl; [| congruence].
    destruct (foldM _ _ _) as [attrsList |] eqn:Hfold; simpl; [done |].
    apply foldM_Throw in Hfold as (b & x & _ & Hx).
    unfold pushAttrs in Hx.
    destruct (g !! x) as [role |]; [| congruence].
    destruct (negb _); [| done].
    destruct (roleProp _ _); [done | congruence].
  - intros Hnames st <-. split.
    + intros access all Hai.
      split; [by apply commitToGrants_wellFormed | by apply commitToGrants_plainTable].
    + intros roles extenderRoles _ Hext.
      split; [by apply extendRole_wellFormed | by apply extendRole_plainTable].
Qed.

Lemma hierarchy_resolution_terminates_witness :
  (hierarchyAt 3 tblChain "A" None ≠ Throw RangeError
   ∧ getRoleHierarchyOf tblChain "A" None = hierarchyAt 3 tblChain "A" None)
  ∧ wellFormed
      (grants (execM (extendRole (VStr "A") (VStr "C")) (mkStore tblChain false)))
  ∧ plainTable
      (grants (execM (extendRole (VStr "A") (VStr "C")) (mkStore tblChain false))).
Proof.
  destruct (hierarchy_resolution_terminates tblChain tblChain_acyclic tblChain_plain)
    as (Hdepth & _ & _ & _ & Hkept).
  split.
  - apply (Hdepth "A" None 3).
    + exists (roleExtending ["B"]). reflexivity.
    + vm_compute. lia.
  - apply (Hkept eq_refl (mkStore tblChain false) eq_refl);
      apply (bool_decide_unpack _); vm_compute; reflexivity.
Defined.

(** ** A role that is neither a string nor an array *)

Lemma normalizeActionPossession_TypeError (a : string) (possession : Value) :
  a ∈ actions → truthy possession = true → (∀ p, possession ≠ VStr p) →
  normalizeActionPossession (VStr a) possession = Throw TypeError.
Proof.
  unfold actions. intros Ha Ht Hp.
  repeat (apply elem_of_cons in Ha as [-> | Ha]);
    try (by apply elem_of_nil in Ha);
    unfold normalizeActionPossession; simpl; rewrite !Ht;
    (destruct possession as [| | | | p0 | |]; [done.. | by destruct (Hp p0) | done | done]).
Qed.

(** C9, as stated, fails for the query. A role that is neither a
    string nor an array becomes the empty list, and [normalizeQueryInfo]
    returns the query with that list instead of rejecting it; and where
    the possession of such a query is set and is no string, the
    evaluation ends with a [TypeError], not with the rejection of the
    roles. *)
Lemma normalizeQueryInfo_accepts_no_roles :
  neitherStringNorArray (VNum 42)
  ∧ normalizeQueryInfo
      (AnObject (mkQuery (VNum 42) (VStr "video") (VStr "create") VUndefined))
    = Ok (mkNQuery [] "video" "create" "any")
  ∧ (∀ union g,
       getUnionAttrsOfRoles union g
         (AnObject (mkQuery (VNum 42) (VStr "video") (VStr "create") (VNum 1)))
       = Throw TypeError).
Proof. split_and!; [done | reflexivity | reflexivity]. Qed.

(** C9, amended. A role or resource given as a string is trimmed and
    split at each [,] or [;] together with the white space around it (a
    string of names with such separators gives the list of the names),
    and is normalised as the array of the pieces is; a value that is neither
    a string nor an array becomes the empty list. The normalisation of an
    access statement rejects that list as invalid roles, whatever else
    the statement holds, or, the roles being valid, as invalid resources.
    The normalisation of a query does not reject an empty list of roles:
    the query is normalised as one whose roles are the empty array, so
    that the errors of its resource, action and possession are raised, a
    [TypeError] for a possession that is set and is no string among them;
    a query that passes them is rejected as invalid roles by the
    evaluation. *)
Theorem string_or_list_normalisation :
  toStringArray (VStr "admin, user") = ["admin"; "user"]
  ∧ toStringArray (VStr "  admin ;user  ,  guest ") = ["admin"; "user"; "guest"]
  ∧ (∀ s, toStringArray (VStr s) = splitSep (trim s))
  ∧ (∀ lead trail a rest,
       allWhiteSpace lead = true → allWhiteSpace trail = true →
       cleanName a = true →
       Forall (λ p, isSeparator p.1 ∧ cleanName p.2 = true) rest →
       toStringArray (VStr (lead +:+ joinNames a rest +:+ trail))
       = a :: (snd <$> rest))
  ∧ (∀ s resource action possession attributes denied all,
       normalizeAccessInfo
         (AnObject (mkAccess (VStr s) resource action possession attributes denied)) all
       = normalizeAccessInfo
           (AnObject (mkAccess (VArr (splitSep (trim s))) resource action possession
                        attributes denied)) all)
  ∧ (∀ s role action possession attributes denied all,
       normalizeAccessInfo
         (AnObject (mkAccess role (VStr s) action possession attributes denied)) all
       = normalizeAccessInfo
           (AnObject (mkAccess role (VArr (splitSep (trim s))) action possession
                        attributes denied)) all)
  ∧ (∀ s resource action possession,
       normalizeQueryInfo (AnObject (mkQuery (VStr s) resource action possession))
       = normalizeQueryInfo
           (AnObject (mkQuery (VArr (splitSep (trim s))) resource action possession)))
  ∧ (∀ v, neitherStringNorArray v → toStringArray v = [])
  ∧ (∀ v resource action possession attributes denied all,
       neitherStringNorArray v →
       normalizeAccessInfo
         (AnObject (mkAccess v resource action possession attributes denied)) all
       = raise InvalidRoles)
  ∧ (∀ v role action possession attributes denied all,
       neitherStringNorArray v →
       toStringArray role ≠ [] → isFilledStringArray (toStringArray role) = true →
       normalizeAccessInfo
         (AnObject (mkAccess role v action possession attributes denied)) all
       = raise InvalidResources)
  ∧ (∀ v resource action possession,
       neitherStringNorArray v →
       normalizeQueryInfo (AnObject (mkQuery v resource action possession))
       ≠ raise InvalidRoles
       ∧ normalizeQueryInfo (AnObject (mkQuery v resource action possession))
         = normalizeQueryInfo (AnObject (mkQuery (VArr []) resource action possession))
       ∧ ∀ union g,
           getUnionAttrsOfRoles union g
             (AnObject (mkQuery v resource action possession))
           = match normalizeQueryInfo
                     (AnObject (mkQuery v resource action possession)) with
             | Ok _ => raise InvalidRoles
             | Throw e => Throw e
             end)
  ∧ (∀ v r a possession union g,
       neitherStringNorArray v → String.eqb (trim r) "" = false → a ∈ actions →
       (truthy possession = true → (∀ p, possession ≠ VStr p) →
        getUnionAttrsOfRoles union g (AnObject (mkQuery v (VStr r) (VStr a) possession))
        = Throw TypeError)
       ∧ (∀ p, possession = VUndefined ∨ (possession = VStr p ∧ p ∈ possessions) →
          getUnionAttrsOfRoles union g
            (AnObject (mkQuery v (VStr r) (VStr a) possession))
          = raise InvalidRoles)).
Proof.
  split_and!; try reflexivity.
  - apply toStringArray_names.
  - apply toStringArray_other.
  - intros v resource action possession attributes denied all Hv.
    unfold normalizeAccessInfo. simpl. by rewrite toStringArray_other.
  - intros v role action possession attributes denied all Hv Hrole Hfilled.
    unfold normalizeAccessInfo. simpl.
    destruct (toStringArray role) as [| r rs]; [done |].
    rewrite Hfilled. simpl. by rewrite toStringArray_other.
  - intros v resource action possession Hv.
    assert (∀ q, normalizeQueryInfo (AnObject (mkQuery v resource action possession))
                 = Ok q → nq_role q = []) as Hq.
    { intros q. unfold normalizeQueryInfo. simpl. rewrite toStringArray_other by done.
      simpl. destruct resource; try done.
      destruct (String.eqb _ _); [done |].
      destruct (normalizeActionPossession _ _) as [[a p] |]; simpl; [| done].
      by intros [= <-]. }
    split_and!.
    + unfold normalizeQueryInfo. simpl. rewrite toStringArray_other by done.
      simpl. destruct resource; try done.
      destruct (String.eqb _ _); [done |].
      unfold normalizeActionPossession.
      destruct action; try done.
      destruct (negb _); [done |].
      match goal with |- context [truthy ?p] => destruct (truthy p); [| done] end.
      match goal with |- context [match ?p with VStr _ => _ | _ => _ end] =>
        destruct p; try done end.
      by destruct (negb _).
    + unfold normalizeQueryInfo. simpl. by rewrite toStringArray_other.
    + intros union g. unfold getUnionAttrsOfRoles.
      destruct (normalizeQueryInfo _) as [q |] eqn:Hn; simpl; [| done].
      by rewrite (Hq q eq_refl).
  - intros v r a possession union g Hv Hr Ha.
    assert (∀ x, normalizeActionPossession (VStr a) possession = x →
              getUnionAttrsOfRoles union g
                (AnObject (mkQuery v (VStr r) (VStr a) possession))
              = match x with
                | Ok _ => raise InvalidRoles
                | Throw e => Throw e
                end) as Hrun.
    { intros x <-. unfold getUnionAttrsOfRoles, normalizeQueryInfo.
      cbn [q_role q_resource q_action q_possession].
      rewrite toStringArray_other by done.
      cbn [isFilledStringArray forallb negb]. rewrite Hr.
      by destruct (normalizeActionPossession (VStr a) possession) as [[? ?] |]. }
    split.
    + intros Ht Hp.
      by rewrite (Hrun _ (normalizeActionPossession_TypeError a possession Ha Ht Hp)).
    + intros p Hposs.
      assert (∃ x, normalizeActionPossession (VStr a) possession = Ok x) as [x Hx].
      { unfold actions, possessions in *.
        repeat (apply elem_of_cons in Ha as [-> | Ha]);
          try (by apply elem_of_nil in Ha);
          (destruct Hposs as [-> | [-> Hp]]; [by eexists |]);
          repeat (apply elem_of_cons in Hp as [-> | Hp]);
          try (by apply elem_of_nil in Hp); by eexists. }
      by rewrite (Hrun _ Hx).
Qed.

Lemma string_or_list_normalisation_witness :
  toStringArray (VStr "  admin ;user  ,  guest ") = ["admin"; "user"; "guest"]
  ∧ normalizeAccessInfo
    (AnObject (mkAccess VNull (VStr "video") (VStr "create") VUndefined VUndefined
                 VUndefined)) true
  = raise InvalidRoles
  ∧ normalizeAccessInfo
      (AnObject (mkAccess (VStr "u") (VNum 7) (VStr "create") VUndefined VUndefined
                   VUndefined)) true
    = raise InvalidResources
  ∧ getUnionAttrsOfRoles uniqConcat tblAny
      (AnObject (mkQuery (VNum 42) (VStr "video") (VStr "create") VUndefined))
    = raise InvalidRoles
  ∧ getUnionAttrsOfRoles uniqConcat tblAny
      (AnObject (mkQuery VNull (VStr "video") (VStr "read") (VBool true)))
    = Throw TypeError.
Proof.
  destruct string_or_list_normalisation
    as (_ & _ & _ & Hnames & _ & _ & _ & _ & Hrole & Hres & Hquery & Hposs).
  split_and!.
  - apply (Hnames "  " " " "admin" [(" ;", "user"); ("  ,  ", "guest")]);
      [reflexivity | reflexivity | reflexivity |].
    repeat constructor.
    + apply (IsSeparator " " ";" ""); reflexivity.
    + apply (IsSeparator "  " "," "  "); reflexivity.
  - apply Hrole. exact I.
  - apply Hres; [exact I | discriminate | reflexivity].
  - destruct (Hquery (VNum 42) (VStr "video") (VStr "create") VUndefined I)
      as (_ & _ & H).
    rewrite H. reflexivity.
  - destruct (Hposs VNull "video" "read" (VBool true) uniqConcat tblAny I eq_refl)
      as [H _].
    + apply (bool_decide_unpack _). vm_compute. reflexivity.
    + apply H; [reflexivity | discriminate].
Defined.
